(** * SLOTHY: AArch64 front end and heuristic driver

    A shallow embedding of [targets/aarch64/aarch64_neon.py] (loop
    extraction, the instruction variants with their parsers and emitters,
    the pair-fusion callbacks) and of [slothy/heuristics.py] (the driver
    around the solver), with the properties of the specification stated
    and proved over it.

    Python strings are modelled as lists of code points below 256
    ([list ascii]); the regular expressions of the source are modelled by
    a backtracking matcher with Python's priorities (leftmost alternative
    first, greedy repetition). *)

From Stdlib Require Import List String Ascii ZArith QArith Lia Bool Arith PeanoNat.
Import ListNotations.
Open Scope string_scope.
Open Scope list_scope.
Open Scope nat_scope.

Set Implicit Arguments.

(** ** Python strings *)

Definition str := list ascii.
Definition of_string (s : string) : str := list_ascii_of_string s.
Coercion of_string : string >-> str.

Definition str_eqb (a b : str) : bool :=
  if list_eq_dec ascii_dec a b then true else false.

Definition code (c : ascii) : nat := nat_of_ascii c.

Definition in_range (lo hi : nat) (c : ascii) : bool :=
  (lo <=? code c) && (code c <=? hi).

(** [0-9] *)
Definition is_digit (c : ascii) : bool := in_range 48 57 c.

Definition is_upper_ascii (c : ascii) : bool := in_range 65 90 c.
Definition is_lower_ascii (c : ascii) : bool := in_range 97 122 c.

(** [\s] of a str pattern: the characters for which [str.isspace] holds. *)
Definition is_space (c : ascii) : bool :=
  in_range 9 13 c || in_range 28 32 c || (code c =? 133) || (code c =? 160).

(** [\w] of a str pattern: [str.isalnum] or the underscore. *)
Definition is_word (c : ascii) : bool :=
  is_digit c || is_upper_ascii c || is_lower_ascii c || (code c =? 95)
  || (code c =? 170) || (code c =? 178) || (code c =? 179) || (code c =? 181)
  || (code c =? 185) || (code c =? 186) || in_range 188 190 c
  || in_range 192 214 c || in_range 216 246 c || in_range 248 255 c.

(** One character of [str.isdigit]. *)
Definition is_digit_py (c : ascii) : bool :=
  is_digit c || (code c =? 178) || (code c =? 179) || (code c =? 185).

(** [s.isdigit()] *)
Definition isdigit (s : str) : bool :=
  match s with [] => false | _ => forallb is_digit_py s end.

Definition chr_eqb (a b : ascii) : bool := Ascii.eqb a b.

Definition newline : ascii := ascii_of_nat 10.

(** [s.lower()] and [s.upper()], on the ASCII letters (the source applies
    them to datatype suffixes only). *)
Definition lower_chr (c : ascii) : ascii :=
  if is_upper_ascii c then ascii_of_nat (code c + 32) else c.
Definition upper_chr (c : ascii) : ascii :=
  if is_lower_ascii c then ascii_of_nat (code c - 32) else c.
Definition lower (s : str) : str := map lower_chr s.
Definition upper (s : str) : str := map upper_chr s.

(** [s.startswith(p)] *)
Fixpoint startswith (p s : str) : bool :=
  match p, s with
  | [], _ => true
  | a :: p', b :: s' => chr_eqb a b && startswith p' s'
  | _ :: _, [] => false
  end.

(** [s.replace(old, new)] for a non-empty [old]: leftmost occurrences,
    not overlapping.  [skip] counts the characters of a match still to be
    dropped. *)
Fixpoint replace_from (skip : nat) (old new s : str) : str :=
  match s with
  | [] => []
  | c :: s' =>
      match skip with
      | S n => replace_from n old new s'
      | O => if startswith old s
             then new ++ replace_from (List.length old - 1) old new s'
             else c :: replace_from 0 old new s'
      end
  end.

Definition replace (old new s : str) : str := replace_from 0 old new s.

(** [sep.join(l)] *)
Fixpoint join (sep : str) (l : list str) : str :=
  match l with
  | [] => []
  | [x] => x
  | x :: l' => x ++ sep ++ join sep l'
  end.

(** Line boundaries of [str.splitlines]. *)
Definition is_linebreak (c : ascii) : bool :=
  in_range 10 13 c || in_range 28 30 c || (code c =? 133).

(** [s.splitlines()]: [cur] is the line read so far, reversed. *)
Fixpoint splitlines_from (cur : str) (s : str) : list str :=
  match s with
  | [] => match cur with [] => [] | _ => [rev cur] end
  | c :: s' =>
      if is_linebreak c then
        match s' with
        | d :: s'' =>
            if (code c =? 13) && (code d =? 10)
            then rev cur :: splitlines_from [] s''
            else rev cur :: splitlines_from [] s'
        | [] => [rev cur]
        end
      else splitlines_from (c :: cur) s'
  end.

Definition splitlines (s : str) : list str := splitlines_from [] s.

(** ** Regular expressions

    The fragment of Python's [re] the source uses.  [Alt] tries its left
    branch first, [Star] is greedy, [Grp] is a named group.  *)

Inductive regex : Type :=
| Eps
| Cls (p : ascii -> bool)
| Seq (r1 r2 : regex)
| Alt (r1 r2 : regex)
| Star (r : regex)
| Grp (name : string) (r : regex)
| Bol
| Eol
| EndZ.

Definition Plus (r : regex) : regex := Seq r (Star r).
Definition Opt (r : regex) : regex := Alt r Eps.
Definition Chr (c : ascii) : regex := Cls (chr_eqb c).
Fixpoint Lit (s : str) : regex :=
  match s with
  | [] => Eps
  | c :: s' => Seq (Chr c) (Lit s')
  end.
Fixpoint Seqs (l : list regex) : regex :=
  match l with
  | [] => Eps
  | r :: l' => Seq r (Seqs l')
  end.
Fixpoint Alts (l : list regex) : regex :=
  match l with
  | [] => Cls (fun _ => false)
  | [r] => r
  | r :: l' => Alt r (Alts l')
  end.

Definition sp : regex := Cls is_space.
Definition wd : regex := Cls is_word.
Definition dg : regex := Cls is_digit.
(** [.] matches everything but a newline. *)
Definition dot : regex := Cls (fun c => negb (chr_eqb c newline)).

(** The groups of a match, most recent first ([groupdict]). *)
Definition caps := list (string * str).

Fixpoint group (c : caps) (n : string) : option str :=
  match c with
  | [] => None
  | (m, v) :: c' => if String.eqb m n then Some v else group c' n
  end.

Section Matcher.
Variable A : Type.

Definition cont := str -> caps -> option A.

(** Greedy repetition of a body [mr]: an iteration has to consume. *)
Fixpoint star_loop (mr : str -> caps -> cont -> option A) (k : cont)
         (fuel : nat) (s : str) (c : caps) : option A :=
  match fuel with
  | O => k s c
  | S f =>
      match mr s c (fun s' c' =>
                      if List.length s' <? List.length s
                      then star_loop mr k f s' c' else None) with
      | Some x => Some x
      | None => k s c
      end
  end.

(** [rmatch n0 r s c k]: match [r] at the front of [s], the input
    having [n0] characters in all, then continue with [k]. *)
Fixpoint rmatch (n0 : nat) (r : regex) (s : str) (c : caps) (k : cont)
  : option A :=
  match r with
  | Eps => k s c
  | Cls p => match s with
             | a :: s' => if p a then k s' c else None
             | [] => None
             end
  | Seq r1 r2 => rmatch n0 r1 s c (fun s' c' => rmatch n0 r2 s' c' k)
  | Alt r1 r2 => match rmatch n0 r1 s c k with
                 | Some x => Some x
                 | None => rmatch n0 r2 s c k
                 end
  | Star r1 => star_loop (rmatch n0 r1) k (List.length s) s c
  | Grp n r1 =>
      rmatch n0 r1 s c
        (fun s' c' =>
           k s' ((n, firstn (List.length s - List.length s') s) :: c'))
  | Bol => if List.length s =? n0 then k s c else None
  | Eol => match s with
           | [] => k s c
           | [a] => if chr_eqb a newline then k s c else None
           | _ => None
           end
  | EndZ => match s with [] => k s c | _ => None end
  end.
End Matcher.

(** [re.compile(r).match(s)]: the groups of the match, if there is one. *)
Definition re_match (r : regex) (s : str) : option caps :=
  rmatch (List.length s) r s [] (fun _ c => Some c).

(** ** Loop extraction ([Loop.extract]) *)

Module Loop.

(** The pattern [^\s*(?P<label>\w+)\s*:(?P<remainder>.* )$] (patterns are
    quoted with a blank before a closing parenthesis that follows a
    star). *)
Definition loop_lbl_regexp : regex :=
  Seqs [Bol; Star sp; Grp "label" (Plus wd); Star sp; Chr ":";
        Grp "remainder" (Star dot); Eol].

(** The pattern [^\s*subs\s+(?P<reg0>\w+),\s+(?P<reg1>\w+),\s+(?P<imm>.+)] *)
Definition loop_end_regexp0 : regex :=
  Seqs [Bol; Star sp; Lit "subs"; Plus sp; Grp "reg0" (Plus wd); Chr ",";
        Plus sp; Grp "reg1" (Plus wd); Chr ","; Plus sp;
        Grp "imm" (Plus dot)].

(** [^\s*(cbnz|bnz)\s+\w*,*\s*{lbl}]: the label is spliced into the
    pattern.  A label line carries word characters only, so for every
    [lbl] that can be found this is the literal [lbl]; for any other
    [lbl] the search never leaves state 0 and the call raises. *)
Definition loop_end_regexp1 (lbl : str) : regex :=
  Seqs [Bol; Star sp; Alt (Lit "cbnz") (Lit "bnz"); Plus sp; Star wd;
        Star (Chr ","); Star sp; Lit lbl].

Definition getg (c : caps) (n : string) : str :=
  match group c n with Some v => v | None => [] end.

(** The variables of the loop in [extract]. *)
Record xstate : Type := mk_xstate {
  state : nat;
  pre : list str;
  body : list str;
  post : list str;
  regs : option (str * str * str)
}.

Definition xstart : xstate := mk_xstate 0 [] [] [] None.

(** One turn of the loop in state 1, 2 or 3. *)
Definition step (lbl : str) (x : xstate) (l : str) : xstate :=
  match state x with
  | 1 => match re_match loop_end_regexp0 l with
         | Some p =>
             mk_xstate 2 (pre x) (body x) (post x)
               (Some (getg p "reg0", getg p "reg1", getg p "imm"))
         | None =>
             mk_xstate 1 (pre x) (body x ++ [l]) (post x) (regs x)
         end
  | 2 => match re_match (loop_end_regexp1 lbl) l with
         | Some _ => mk_xstate 3 (pre x) (body x) (post x) (regs x)
         | None => mk_xstate 2 (pre x) (body x ++ [l]) (post x) (regs x)
         end
  | _ => mk_xstate (state x) (pre x) (body x) (post x ++ [l]) (regs x)
  end.

(** The label of a line and what follows it, when the line is the
    label line of [lbl]. *)
Definition label_line (lbl l : str) : option str :=
  match re_match loop_lbl_regexp l with
  | Some p => if str_eqb (getg p "label") lbl
              then Some (getg p "remainder") else None
  | None => None
  end.

(** The [while True] loop over the lines.  In state 0 a label line
    switches to state 1 and its remainder is looked at again at once
    ([keep = True]). *)
Fixpoint run (lbl : str) (x : xstate) (lines : list str) : xstate :=
  match lines with
  | [] => x
  | l :: ls =>
      match state x with
      | 0 => match label_line lbl l with
             | Some rem =>
                 run lbl
                   (step lbl (mk_xstate 1 (pre x) (body x) (post x) (regs x))
                      rem) ls
             | None =>
                 run lbl
                   (mk_xstate 0 (pre x ++ [l]) (body x) (post x) (regs x)) ls
             end
      | _ => run lbl (step lbl x l) ls
      end
  end.

Record extracted : Type := mk_extracted {
  e_pre : list str;
  e_body : list str;
  e_post : list str;
  e_lbl : str;
  e_regs : str * str * str
}.

(** [Loop.extract(source, lbl)]; [None] is the exception. *)
Definition extract (source lbl : str) : option extracted :=
  let x := run lbl xstart (splitlines source) in
  if state x <? 3 then None
  else match regs x with
       | Some r => Some (mk_extracted (pre x) (body x) (post x) lbl r)
       | None => None
       end.

End Loop.

(** *** Loop extraction: the two readings of "the loop body" *)

Module LoopSpec.
Import Loop.

Definition is_subs (l : str) : bool :=
  match re_match loop_end_regexp0 l with Some _ => true | None => false end.

Definition is_branch (lbl l : str) : bool :=
  match re_match (loop_end_regexp1 lbl) l with
  | Some _ => true
  | None => false
  end.

Definition subs_regs (l : str) : option (str * str * str) :=
  match re_match loop_end_regexp0 l with
  | Some p => Some (getg p "reg0", getg p "reg1", getg p "imm")
  | None => None
  end.

(** The lines in front of the first countdown line that is directly
    followed by the branch: the body as the specification words it. *)
Fixpoint upto_pair (lbl : str) (ls : list str) : option (list str) :=
  match ls with
  | [] => None
  | l :: ls' =>
      match ls' with
      | c :: _ =>
          if is_subs l && is_branch lbl c then Some []
          else option_map (cons l) (upto_pair lbl ls')
      | [] => None
      end
  end.

(** The body as the specification words it: what stands between the
    label (the rest of its line included) and the countdown/branch
    pair. *)
Fixpoint spec_body (lbl : str) (lines : list str) : option (list str) :=
  match lines with
  | [] => None
  | l :: ls =>
      match label_line lbl l with
      | Some rem => upto_pair lbl (rem :: ls)
      | None => spec_body lbl ls
      end
  end.

Definition is_label (lbl l : str) : bool :=
  match label_line lbl l with Some _ => true | None => false end.

(** [first_at p l b x a]: [x] is the first element of [l] that
    satisfies [p], [b] stands before it and [a] after it. *)
Inductive first_at (A : Type) (p : A -> bool) :
  list A -> list A -> A -> list A -> Prop :=
| first_here x l : p x = true -> first_at p (x :: l) [] x l
| first_later y l b x a :
    p y = false -> first_at p l b x a -> first_at p (y :: l) (y :: b) x a.

Definition lines_of (l : list str) : str := join [newline] l.

(** A loop whose body has a countdown of its own. *)
Definition two_countdowns : str :=
  lines_of ["1:" : str; "subs x9, x9, #1" : str; "add x1, x1, x2" : str;
            "subs x0, x0, #1" : str; "cbnz x0, 1b" : str; "ret" : str].

End LoopSpec.

(** ** Decimal numerals ([str(n)], [int(s)], the [{i}] of an f-string) *)

Definition digit_chr (d : nat) : ascii := ascii_of_nat (48 + d).

Fixpoint digits_from (fuel n : nat) (acc : str) : str :=
  match fuel with
  | O => acc
  | S f =>
      let acc' := digit_chr (n mod 10) :: acc in
      if n <? 10 then acc' else digits_from f (n / 10) acc'
  end.

(** [str(n)] *)
Definition str_of_nat (n : nat) : str := digits_from (S n) n [].

(** [int(s)] for a string of [0-9]. *)
Definition int_of_digits (s : str) : nat :=
  fold_left (fun acc c => 10 * acc + (code c - 48)) s 0.

(** [range(a, b)] *)
Definition range (a b : nat) : list nat := seq a (b - a).

(** ** Registers and instructions ([aarch64_neon.py]) *)

Module Neon.

Inductive RegisterType : Type :=
| GPR | Neon | StackNeon | StackGPR | StackAny | Flags.

Definition RegisterType_eqb (a b : RegisterType) : bool :=
  match a, b with
  | GPR, GPR | Neon, Neon | StackNeon, StackNeon | StackGPR, StackGPR
  | StackAny, StackAny | Flags, Flags => true
  | _, _ => false
  end.

Definition stackany_locations : list str :=
  [ "STACK_MASK1" : str; "STACK_MASK2" : str; "STACK_A_0" : str;
    "STACK_A_8" : str; "STACK_A_16" : str; "STACK_A_24" : str;
    "STACK_A_32" : str; "STACK_B_0" : str; "STACK_B_8" : str;
    "STACK_B_16" : str; "STACK_B_24" : str; "STACK_B_32" : str;
    "STACK_CTR" : str; "STACK_LASTBIT" : str; "STACK_SCALAR" : str;
    "STACK_X_0" : str; "STACK_X_8" : str; "STACK_X_16" : str;
    "STACK_X_24" : str; "STACK_X_32" : str ].

(** [f"{prefix}{i}"] *)
Definition named (prefix : str) (i : nat) : str := prefix ++ str_of_nat i.

(** [RegisterType.list_registers] *)
Definition list_registers (reg_type : RegisterType)
           (only_extra only_normal with_variants : bool) : list str :=
  let qstack_locations := map (named "QSTACK") (range 0 8) in
  let stack_locations := map (named "STACK") (range 0 8) in
  let gprs_normal := map (named "x") (range 0 31) ++ ["sp" : str] in
  let vregs_normal := map (named "v") (range 0 32) in
  let gprs_extra : list str := [] in
  let vregs_extra : list str := [] in
  let gprs_variants := map (named "w") (range 0 31) in
  let vregs_variants := map (named "q") (range 0 32) in
  let flags := ["flags" : str] in
  let gprs := (if only_extra then [] else gprs_normal)
                ++ (if only_normal then [] else gprs_extra)
                ++ (if with_variants then gprs_variants else []) in
  let vregs := (if only_extra then [] else vregs_normal)
                 ++ (if only_normal then [] else vregs_extra)
                 ++ (if with_variants then vregs_variants else []) in
  match reg_type with
  | GPR => gprs
  | StackGPR => stack_locations
  | StackNeon => qstack_locations
  | StackAny => stackany_locations
  | Neon => vregs
  | Flags => flags
  end.

(** The instruction classes, in the order of their definition: the
    direct subclasses of [Instruction] first ([AArch64Instruction], the
    first of them, is passed over by [parser]), then the subclasses of
    [AArch64Instruction]. *)
Inductive InstClass : Type :=
| qsave | qrestore | save | restore | stack_vstp_dform | stack_vstr_dform
| stack_stp | stack_stp_wform | stack_str | stack_ldr | stack_vld1r
| stack_vldr_bform | stack_vldr_dform | stack_vld2_lane | nop
| sub_shifted | add_shifted | cbnz | mov_imm | fcsel_dform | mov_vtox
| mov_xtov | ldr_vo_wrapper | ldr_vi_wrapper | str_vo_wrapper
| str_vi_wrapper | x_str | x_ldr | vstr | vldr | vins | vext | st4 | ld4
| ld2
| vadd | vsub | lsr_wform | asr_wform | eor_wform | subs_wform | subs
| add | add2 | ldr_const | movk_imm | mov | sub | andi | bfi | bic | lsr
| umull_wform | umaddl_wform | mul_wform | andi_wform | tst_wform | vand
| vbic | vzip1 | vzip2 | vuzp1 | vuzp2 | vqrdmulh | vqrdmulh_lane
| vqdmulh_lane | vmul_lane | mov_d01 | mov_b00 | vmul | vmla | vmla_lane
| vmls | vmls_lane | vmull | vmlal | vsrshr | vshl | vushr | vusra | trn1
| trn2 | ldr_idx_wform.

Definition InstClass_eq_dec (a b : InstClass) : {a = b} + {a <> b}.
Proof. decide equality. Defined.

(** [Instruction.__subclasses__()] without [AArch64Instruction]. *)
Definition Instruction_subclasses : list InstClass :=
  [ qsave; qrestore; save; restore; stack_vstp_dform; stack_vstr_dform;
    stack_stp; stack_stp_wform; stack_str; stack_ldr; stack_vld1r;
    stack_vldr_bform; stack_vldr_dform; stack_vld2_lane; nop; sub_shifted;
    add_shifted; cbnz; mov_imm; fcsel_dform; mov_vtox; mov_xtov;
    ldr_vo_wrapper; ldr_vi_wrapper; str_vo_wrapper; str_vi_wrapper; x_str;
    x_ldr; vstr; vldr; vins; vext; st4; ld4; ld2 ].

(** [AArch64Instruction.__subclasses__()] *)
Definition AArch64Instruction_subclasses : list InstClass :=
  [ vadd; vsub; lsr_wform; asr_wform; eor_wform; subs_wform; subs; add;
    add2; ldr_const; movk_imm; mov; sub; andi; bfi; bic; lsr; umull_wform;
    umaddl_wform; mul_wform; andi_wform; tst_wform; vand; vbic; vzip1;
    vzip2; vuzp1; vuzp2; vqrdmulh; vqrdmulh_lane; vqdmulh_lane; vmul_lane;
    mov_d01; mov_b00; vmul; vmla; vmla_lane; vmls; vmls_lane; vmull; vmlal;
    vsrshr; vshl; vushr; vusra; trn1; trn2; ldr_idx_wform ].

(** The value of [datatype]: a string, or the list of the suffixes. *)
Inductive dtval : Type :=
| DtStr (s : str)
| DtList (l : list str).

(** An operand-combination list: positions, and the register tuples
    allowed at them. *)
Definition combinations : Type := list (list nat * list (list str)).

(** An instruction object: the attributes the constructors, the parsers
    and the callbacks set.  An attribute that an object may lack is an
    option ([hasattr]); [args_in], [args_out] and [args_in_out] are
    empty until [parse] has run. *)
Record Instruction : Type := mk_Instruction {
  cls : InstClass;
  mnemonic : str;
  arg_types_in : list RegisterType;
  arg_types_out : list RegisterType;
  arg_types_in_out : list RegisterType;
  num_in : nat;
  num_out : nat;
  num_in_out : nat;
  args_out_combinations : option combinations;
  args_in_combinations : option combinations;
  args_in_out_combinations : option combinations;
  args_out_restrictions : list (option (list str));
  args_in_restrictions : list (option (list str));
  args_in_out_restrictions : list (option (list str));
  args_in : list str;
  args_out : list str;
  args_in_out : list str;
  datatype : option dtval;
  datatypes : option (list str);
  index : option nat;
  immediate : option str;
  lane : option str;
  shift : option str;
  addr : option str;
  increment : option (option str);
  pre_index : option (option str);
  post_index : option (option str);
  writeback : option bool;
  detected_vins_pair : option bool;
  detected_stack_vld2_lane_pair : option bool;
  pattern : option str;
  inputs : list str;
  outputs : list str;
  in_outs : list str;
  pattern_inputs : list (str * RegisterType);
  pattern_outputs : list (str * RegisterType);
  pattern_in_outs : list (str * RegisterType)
}.

(** Attribute assignment, [inst.f = v]. *)
Definition set_arg_types_out (v : list RegisterType) (i : Instruction) : Instruction :=
  mk_Instruction (cls i) (mnemonic i) (arg_types_in i) v (arg_types_in_out
    i) (num_in i) (num_out i) (num_in_out i) (args_out_combinations i)
    (args_in_combinations i) (args_in_out_combinations i)
    (args_out_restrictions i) (args_in_restrictions i)
    (args_in_out_restrictions i) (args_in i) (args_out i) (args_in_out i)
    (datatype i) (datatypes i) (index i) (immediate i) (lane i) (shift i)
    (addr i) (increment i) (pre_index i) (post_index i) (writeback i)
    (detected_vins_pair i) (detected_stack_vld2_lane_pair i) (pattern i)
    (inputs i) (outputs i) (in_outs i) (pattern_inputs i) (pattern_outputs
    i) (pattern_in_outs i).
Definition set_arg_types_in_out (v : list RegisterType) (i : Instruction) : Instruction :=
  mk_Instruction (cls i) (mnemonic i) (arg_types_in i) (arg_types_out i) v
    (num_in i) (num_out i) (num_in_out i) (args_out_combinations i)
    (args_in_combinations i) (args_in_out_combinations i)
    (args_out_restrictions i) (args_in_restrictions i)
    (args_in_out_restrictions i) (args_in i) (args_out i) (args_in_out i)
    (datatype i) (datatypes i) (index i) (immediate i) (lane i) (shift i)
    (addr i) (increment i) (pre_index i) (post_index i) (writeback i)
    (detected_vins_pair i) (detected_stack_vld2_lane_pair i) (pattern i)
    (inputs i) (outputs i) (in_outs i) (pattern_inputs i) (pattern_outputs
    i) (pattern_in_outs i).
Definition set_num_out (v : nat) (i : Instruction) : Instruction :=
  mk_Instruction (cls i) (mnemonic i) (arg_types_in i) (arg_types_out i)
    (arg_types_in_out i) (num_in i) v (num_in_out i)
    (args_out_combinations i) (args_in_combinations i)
    (args_in_out_combinations i) (args_out_restrictions i)
    (args_in_restrictions i) (args_in_out_restrictions i) (args_in i)
    (args_out i) (args_in_out i) (datatype i) (datatypes i) (index i)
    (immediate i) (lane i) (shift i) (addr i) (increment i) (pre_index i)
    (post_index i) (writeback i) (detected_vins_pair i)
    (detected_stack_vld2_lane_pair i) (pattern i) (inputs i) (outputs i)
    (in_outs i) (pattern_inputs i) (pattern_outputs i) (pattern_in_outs i).
Definition set_num_in_out (v : nat) (i : Instruction) : Instruction :=
  mk_Instruction (cls i) (mnemonic i) (arg_types_in i) (arg_types_out i)
    (arg_types_in_out i) (num_in i) (num_out i) v (args_out_combinations
    i) (args_in_combinations i) (args_in_out_combinations i)
    (args_out_restrictions i) (args_in_restrictions i)
    (args_in_out_restrictions i) (args_in i) (args_out i) (args_in_out i)
    (datatype i) (datatypes i) (index i) (immediate i) (lane i) (shift i)
    (addr i) (increment i) (pre_index i) (post_index i) (writeback i)
    (detected_vins_pair i) (detected_stack_vld2_lane_pair i) (pattern i)
    (inputs i) (outputs i) (in_outs i) (pattern_inputs i) (pattern_outputs
    i) (pattern_in_outs i).
Definition set_args_out_combinations (v : option combinations) (i : Instruction) : Instruction :=
  mk_Instruction (cls i) (mnemonic i) (arg_types_in i) (arg_types_out i)
    (arg_types_in_out i) (num_in i) (num_out i) (num_in_out i) v
    (args_in_combinations i) (args_in_out_combinations i)
    (args_out_restrictions i) (args_in_restrictions i)
    (args_in_out_restrictions i) (args_in i) (args_out i) (args_in_out i)
    (datatype i) (datatypes i) (index i) (immediate i) (lane i) (shift i)
    (addr i) (increment i) (pre_index i) (post_index i) (writeback i)
    (detected_vins_pair i) (detected_stack_vld2_lane_pair i) (pattern i)
    (inputs i) (outputs i) (in_outs i) (pattern_inputs i) (pattern_outputs
    i) (pattern_in_outs i).
Definition set_args_in_combinations (v : option combinations) (i : Instruction) : Instruction :=
  mk_Instruction (cls i) (mnemonic i) (arg_types_in i) (arg_types_out i)
    (arg_types_in_out i) (num_in i) (num_out i) (num_in_out i)
    (args_out_combinations i) v (args_in_out_combinations i)
    (args_out_restrictions i) (args_in_restrictions i)
    (args_in_out_restrictions i) (args_in i) (args_out i) (args_in_out i)
    (datatype i) (datatypes i) (index i) (immediate i) (lane i) (shift i)
    (addr i) (increment i) (pre_index i) (post_index i) (writeback i)
    (detected_vins_pair i) (detected_stack_vld2_lane_pair i) (pattern i)
    (inputs i) (outputs i) (in_outs i) (pattern_inputs i) (pattern_outputs
    i) (pattern_in_outs i).
Definition set_args_in_out_combinations (v : option combinations) (i : Instruction) : Instruction :=
  mk_Instruction (cls i) (mnemonic i) (arg_types_in i) (arg_types_out i)
    (arg_types_in_out i) (num_in i) (num_out i) (num_in_out i)
    (args_out_combinations i) (args_in_combinations i) v
    (args_out_restrictions i) (args_in_restrictions i)
    (args_in_out_restrictions i) (args_in i) (args_out i) (args_in_out i)
    (datatype i) (datatypes i) (index i) (immediate i) (lane i) (shift i)
    (addr i) (increment i) (pre_index i) (post_index i) (writeback i)
    (detected_vins_pair i) (detected_stack_vld2_lane_pair i) (pattern i)
    (inputs i) (outputs i) (in_outs i) (pattern_inputs i) (pattern_outputs
    i) (pattern_in_outs i).
Definition set_args_out_restrictions (v : list (option (list str))) (i : Instruction) : Instruction :=
  mk_Instruction (cls i) (mnemonic i) (arg_types_in i) (arg_types_out i)
    (arg_types_in_out i) (num_in i) (num_out i) (num_in_out i)
    (args_out_combinations i) (args_in_combinations i)
    (args_in_out_combinations i) v (args_in_restrictions i)
    (args_in_out_restrictions i) (args_in i) (args_out i) (args_in_out i)
    (datatype i) (datatypes i) (index i) (immediate i) (lane i) (shift i)
    (addr i) (increment i) (pre_index i) (post_index i) (writeback i)
    (detected_vins_pair i) (detected_stack_vld2_lane_pair i) (pattern i)
    (inputs i) (outputs i) (in_outs i) (pattern_inputs i) (pattern_outputs
    i) (pattern_in_outs i).
Definition set_args_in_restrictions (v : list (option (list str))) (i : Instruction) : Instruction :=
  mk_Instruction (cls i) (mnemonic i) (arg_types_in i) (arg_types_out i)
    (arg_types_in_out i) (num_in i) (num_out i) (num_in_out i)
    (args_out_combinations i) (args_in_combinations i)
    (args_in_out_combinations i) (args_out_restrictions i) v
    (args_in_out_restrictions i) (args_in i) (args_out i) (args_in_out i)
    (datatype i) (datatypes i) (index i) (immediate i) (lane i) (shift i)
    (addr i) (increment i) (pre_index i) (post_index i) (writeback i)
    (detected_vins_pair i) (detected_stack_vld2_lane_pair i) (pattern i)
    (inputs i) (outputs i) (in_outs i) (pattern_inputs i) (pattern_outputs
    i) (pattern_in_outs i).
Definition set_args_in_out_restrictions (v : list (option (list str))) (i : Instruction) : Instruction :=
  mk_Instruction (cls i) (mnemonic i) (arg_types_in i) (arg_types_out i)
    (arg_types_in_out i) (num_in i) (num_out i) (num_in_out i)
    (args_out_combinations i) (args_in_combinations i)
    (args_in_out_combinations i) (args_out_restrictions i)
    (args_in_restrictions i) v (args_in i) (args_out i) (args_in_out i)
    (datatype i) (datatypes i) (index i) (immediate i) (lane i) (shift i)
    (addr i) (increment i) (pre_index i) (post_index i) (writeback i)
    (detected_vins_pair i) (detected_stack_vld2_lane_pair i) (pattern i)
    (inputs i) (outputs i) (in_outs i) (pattern_inputs i) (pattern_outputs
    i) (pattern_in_outs i).
Definition set_args_in (v : list str) (i : Instruction) : Instruction :=
  mk_Instruction (cls i) (mnemonic i) (arg_types_in i) (arg_types_out i)
    (arg_types_in_out i) (num_in i) (num_out i) (num_in_out i)
    (args_out_combinations i) (args_in_combinations i)
    (args_in_out_combinations i) (args_out_restrictions i)
    (args_in_restrictions i) (args_in_out_restrictions i) v (args_out i)
    (args_in_out i) (datatype i) (datatypes i) (index i) (immediate i)
    (lane i) (shift i) (addr i) (increment i) (pre_index i) (post_index i)
    (writeback i) (detected_vins_pair i) (detected_stack_vld2_lane_pair i)
    (pattern i) (inputs i) (outputs i) (in_outs i) (pattern_inputs i)
    (pattern_outputs i) (pattern_in_outs i).
Definition set_args_out (v : list str) (i : Instruction) : Instruction :=
  mk_Instruction (cls i) (mnemonic i) (arg_types_in i) (arg_types_out i)
    (arg_types_in_out i) (num_in i) (num_out i) (num_in_out i)
    (args_out_combinations i) (args_in_combinations i)
    (args_in_out_combinations i) (args_out_restrictions i)
    (args_in_restrictions i) (args_in_out_restrictions i) (args_in i) v
    (args_in_out i) (datatype i) (datatypes i) (index i) (immediate i)
    (lane i) (shift i) (addr i) (increment i) (pre_index i) (post_index i)
    (writeback i) (detected_vins_pair i) (detected_stack_vld2_lane_pair i)
    (pattern i) (inputs i) (outputs i) (in_outs i) (pattern_inputs i)
    (pattern_outputs i) (pattern_in_outs i).
Definition set_args_in_out (v : list str) (i : Instruction) : Instruction :=
  mk_Instruction (cls i) (mnemonic i) (arg_types_in i) (arg_types_out i)
    (arg_types_in_out i) (num_in i) (num_out i) (num_in_out i)
    (args_out_combinations i) (args_in_combinations i)
    (args_in_out_combinations i) (args_out_restrictions i)
    (args_in_restrictions i) (args_in_out_restrictions i) (args_in i)
    (args_out i) v (datatype i) (datatypes i) (index i) (immediate i)
    (lane i) (shift i) (addr i) (increment i) (pre_index i) (post_index i)
    (writeback i) (detected_vins_pair i) (detected_stack_vld2_lane_pair i)
    (pattern i) (inputs i) (outputs i) (in_outs i) (pattern_inputs i)
    (pattern_outputs i) (pattern_in_outs i).
Definition set_datatype (v : option dtval) (i : Instruction) : Instruction :=
  mk_Instruction (cls i) (mnemonic i) (arg_types_in i) (arg_types_out i)
    (arg_types_in_out i) (num_in i) (num_out i) (num_in_out i)
    (args_out_combinations i) (args_in_combinations i)
    (args_in_out_combinations i) (args_out_restrictions i)
    (args_in_restrictions i) (args_in_out_restrictions i) (args_in i)
    (args_out i) (args_in_out i) v (datatypes i) (index i) (immediate i)
    (lane i) (shift i) (addr i) (increment i) (pre_index i) (post_index i)
    (writeback i) (detected_vins_pair i) (detected_stack_vld2_lane_pair i)
    (pattern i) (inputs i) (outputs i) (in_outs i) (pattern_inputs i)
    (pattern_outputs i) (pattern_in_outs i).
Definition set_datatypes (v : option (list str)) (i : Instruction) : Instruction :=
  mk_Instruction (cls i) (mnemonic i) (arg_types_in i) (arg_types_out i)
    (arg_types_in_out i) (num_in i) (num_out i) (num_in_out i)
    (args_out_combinations i) (args_in_combinations i)
    (args_in_out_combinations i) (args_out_restrictions i)
    (args_in_restrictions i) (args_in_out_restrictions i) (args_in i)
    (args_out i) (args_in_out i) (datatype i) v (index i) (immediate i)
    (lane i) (shift i) (addr i) (increment i) (pre_index i) (post_index i)
    (writeback i) (detected_vins_pair i) (detected_stack_vld2_lane_pair i)
    (pattern i) (inputs i) (outputs i) (in_outs i) (pattern_inputs i)
    (pattern_outputs i) (pattern_in_outs i).
Definition set_index (v : option nat) (i : Instruction) : Instruction :=
  mk_Instruction (cls i) (mnemonic i) (arg_types_in i) (arg_types_out i)
    (arg_types_in_out i) (num_in i) (num_out i) (num_in_out i)
    (args_out_combinations i) (args_in_combinations i)
    (args_in_out_combinations i) (args_out_restrictions i)
    (args_in_restrictions i) (args_in_out_restrictions i) (args_in i)
    (args_out i) (args_in_out i) (datatype i) (datatypes i) v (immediate
    i) (lane i) (shift i) (addr i) (increment i) (pre_index i) (post_index
    i) (writeback i) (detected_vins_pair i) (detected_stack_vld2_lane_pair
    i) (pattern i) (inputs i) (outputs i) (in_outs i) (pattern_inputs i)
    (pattern_outputs i) (pattern_in_outs i).
Definition set_immediate (v : option str) (i : Instruction) : Instruction :=
  mk_Instruction (cls i) (mnemonic i) (arg_types_in i) (arg_types_out i)
    (arg_types_in_out i) (num_in i) (num_out i) (num_in_out i)
    (args_out_combinations i) (args_in_combinations i)
    (args_in_out_combinations i) (args_out_restrictions i)
    (args_in_restrictions i) (args_in_out_restrictions i) (args_in i)
    (args_out i) (args_in_out i) (datatype i) (datatypes i) (index i) v
    (lane i) (shift i) (addr i) (increment i) (pre_index i) (post_index i)
    (writeback i) (detected_vins_pair i) (detected_stack_vld2_lane_pair i)
    (pattern i) (inputs i) (outputs i) (in_outs i) (pattern_inputs i)
    (pattern_outputs i) (pattern_in_outs i).
Definition set_lane (v : option str) (i : Instruction) : Instruction :=
  mk_Instruction (cls i) (mnemonic i) (arg_types_in i) (arg_types_out i)
    (arg_types_in_out i) (num_in i) (num_out i) (num_in_out i)
    (args_out_combinations i) (args_in_combinations i)
    (args_in_out_combinations i) (args_out_restrictions i)
    (args_in_restrictions i) (args_in_out_restrictions i) (args_in i)
    (args_out i) (args_in_out i) (datatype i) (datatypes i) (index i)
    (immediate i) v (shift i) (addr i) (increment i) (pre_index i)
    (post_index i) (writeback i) (detected_vins_pair i)
    (detected_stack_vld2_lane_pair i) (pattern i) (inputs i) (outputs i)
    (in_outs i) (pattern_inputs i) (pattern_outputs i) (pattern_in_outs i).
Definition set_shift (v : option str) (i : Instruction) : Instruction :=
  mk_Instruction (cls i) (mnemonic i) (arg_types_in i) (arg_types_out i)
    (arg_types_in_out i) (num_in i) (num_out i) (num_in_out i)
    (args_out_combinations i) (args_in_combinations i)
    (args_in_out_combinations i) (args_out_restrictions i)
    (args_in_restrictions i) (args_in_out_restrictions i) (args_in i)
    (args_out i) (args_in_out i) (datatype i) (datatypes i) (index i)
    (immediate i) (lane i) v (addr i) (increment i) (pre_index i)
    (post_index i) (writeback i) (detected_vins_pair i)
    (detected_stack_vld2_lane_pair i) (pattern i) (inputs i) (outputs i)
    (in_outs i) (pattern_inputs i) (pattern_outputs i) (pattern_in_outs i).
Definition set_addr (v : option str) (i : Instruction) : Instruction :=
  mk_Instruction (cls i) (mnemonic i) (arg_types_in i) (arg_types_out i)
    (arg_types_in_out i) (num_in i) (num_out i) (num_in_out i)
    (args_out_combinations i) (args_in_combinations i)
    (args_in_out_combinations i) (args_out_restrictions i)
    (args_in_restrictions i) (args_in_out_restrictions i) (args_in i)
    (args_out i) (args_in_out i) (datatype i) (datatypes i) (index i)
    (immediate i) (lane i) (shift i) v (increment i) (pre_index i)
    (post_index i) (writeback i) (detected_vins_pair i)
    (detected_stack_vld2_lane_pair i) (pattern i) (inputs i) (outputs i)
    (in_outs i) (pattern_inputs i) (pattern_outputs i) (pattern_in_outs i).
Definition set_increment (v : option (option str)) (i : Instruction) : Instruction :=
  mk_Instruction (cls i) (mnemonic i) (arg_types_in i) (arg_types_out i)
    (arg_types_in_out i) (num_in i) (num_out i) (num_in_out i)
    (args_out_combinations i) (args_in_combinations i)
    (args_in_out_combinations i) (args_out_restrictions i)
    (args_in_restrictions i) (args_in_out_restrictions i) (args_in i)
    (args_out i) (args_in_out i) (datatype i) (datatypes i) (index i)
    (immediate i) (lane i) (shift i) (addr i) v (pre_index i) (post_index
    i) (writeback i) (detected_vins_pair i) (detected_stack_vld2_lane_pair
    i) (pattern i) (inputs i) (outputs i) (in_outs i) (pattern_inputs i)
    (pattern_outputs i) (pattern_in_outs i).
Definition set_pre_index (v : option (option str)) (i : Instruction) : Instruction :=
  mk_Instruction (cls i) (mnemonic i) (arg_types_in i) (arg_types_out i)
    (arg_types_in_out i) (num_in i) (num_out i) (num_in_out i)
    (args_out_combinations i) (args_in_combinations i)
    (args_in_out_combinations i) (args_out_restrictions i)
    (args_in_restrictions i) (args_in_out_restrictions i) (args_in i)
    (args_out i) (args_in_out i) (datatype i) (datatypes i) (index i)
    (immediate i) (lane i) (shift i) (addr i) (increment i) v (post_index
    i) (writeback i) (detected_vins_pair i) (detected_stack_vld2_lane_pair
    i) (pattern i) (inputs i) (outputs i) (in_outs i) (pattern_inputs i)
    (pattern_outputs i) (pattern_in_outs i).
Definition set_post_index (v : option (option str)) (i : Instruction) : Instruction :=
  mk_Instruction (cls i) (mnemonic i) (arg_types_in i) (arg_types_out i)
    (arg_types_in_out i) (num_in i) (num_out i) (num_in_out i)
    (args_out_combinations i) (args_in_combinations i)
    (args_in_out_combinations i) (args_out_restrictions i)
    (args_in_restrictions i) (args_in_out_restrictions i) (args_in i)
    (args_out i) (args_in_out i) (datatype i) (datatypes i) (index i)
    (immediate i) (lane i) (shift i) (addr i) (increment i) (pre_index i)
    v (writeback i) (detected_vins_pair i) (detected_stack_vld2_lane_pair
    i) (pattern i) (inputs i) (outputs i) (in_outs i) (pattern_inputs i)
    (pattern_outputs i) (pattern_in_outs i).
Definition set_writeback (v : option bool) (i : Instruction) : Instruction :=
  mk_Instruction (cls i) (mnemonic i) (arg_types_in i) (arg_types_out i)
    (arg_types_in_out i) (num_in i) (num_out i) (num_in_out i)
    (args_out_combinations i) (args_in_combinations i)
    (args_in_out_combinations i) (args_out_restrictions i)
    (args_in_restrictions i) (args_in_out_restrictions i) (args_in i)
    (args_out i) (args_in_out i) (datatype i) (datatypes i) (index i)
    (immediate i) (lane i) (shift i) (addr i) (increment i) (pre_index i)
    (post_index i) v (detected_vins_pair i) (detected_stack_vld2_lane_pair
    i) (pattern i) (inputs i) (outputs i) (in_outs i) (pattern_inputs i)
    (pattern_outputs i) (pattern_in_outs i).
Definition set_detected_vins_pair (v : option bool) (i : Instruction) : Instruction :=
  mk_Instruction (cls i) (mnemonic i) (arg_types_in i) (arg_types_out i)
    (arg_types_in_out i) (num_in i) (num_out i) (num_in_out i)
    (args_out_combinations i) (args_in_combinations i)
    (args_in_out_combinations i) (args_out_restrictions i)
    (args_in_restrictions i) (args_in_out_restrictions i) (args_in i)
    (args_out i) (args_in_out i) (datatype i) (datatypes i) (index i)
    (immediate i) (lane i) (shift i) (addr i) (increment i) (pre_index i)
    (post_index i) (writeback i) v (detected_stack_vld2_lane_pair i)
    (pattern i) (inputs i) (outputs i) (in_outs i) (pattern_inputs i)
    (pattern_outputs i) (pattern_in_outs i).
Definition set_detected_stack_vld2_lane_pair (v : option bool) (i : Instruction) : Instruction :=
  mk_Instruction (cls i) (mnemonic i) (arg_types_in i) (arg_types_out i)
    (arg_types_in_out i) (num_in i) (num_out i) (num_in_out i)
    (args_out_combinations i) (args_in_combinations i)
    (args_in_out_combinations i) (args_out_restrictions i)
    (args_in_restrictions i) (args_in_out_restrictions i) (args_in i)
    (args_out i) (args_in_out i) (datatype i) (datatypes i) (index i)
    (immediate i) (lane i) (shift i) (addr i) (increment i) (pre_index i)
    (post_index i) (writeback i) (detected_vins_pair i) v (pattern i)
    (inputs i) (outputs i) (in_outs i) (pattern_inputs i) (pattern_outputs
    i) (pattern_in_outs i).

(** [Instruction.__init__] *)
Definition Instruction_init (c : InstClass) (mn : str)
           (tin tin_out tout : list RegisterType) : Instruction :=
  {| cls := c;
     mnemonic := mn;
     arg_types_in := tin;
     arg_types_out := tout;
     arg_types_in_out := tin_out;
     num_in := List.length tin;
     num_out := List.length tout;
     num_in_out := List.length tin_out;
     args_out_combinations := None;
     args_in_combinations := None;
     args_in_out_combinations := None;
     args_out_restrictions := map (fun _ => None) tout;
     args_in_restrictions := map (fun _ => None) tin;
     args_in_out_restrictions := map (fun _ => None) tin_out;
     args_in := [];
     args_out := [];
     args_in_out := [];
     datatype := None;
     datatypes := None;
     index := None;
     immediate := None;
     lane := None;
     shift := None;
     addr := None;
     increment := None;
     pre_index := None;
     post_index := None;
     writeback := None;
     detected_vins_pair := None;
     detected_stack_vld2_lane_pair := None;
     pattern := None;
     inputs := [];
     outputs := [];
     in_outs := [];
     pattern_inputs := [];
     pattern_outputs := [];
     pattern_in_outs := [] |}.

(** [AArch64Instruction.infer_register_type]; [None] is the exception. *)
Definition infer_register_type (ptrn : str) : option RegisterType :=
  match ptrn with
  | c :: _ =>
      let u := upper_chr c in
      if chr_eqb u "X" || chr_eqb u "W" then Some GPR
      else if chr_eqb u "V" || chr_eqb u "Q" then Some Neon
      else None
  | [] => None
  end.

Definition infer_all (l : list str) : list RegisterType :=
  map (fun r => match infer_register_type r with
                | Some t => t
                | None => GPR
                end) l.

(** [AArch64Instruction.__init__], for operand names that start with
    one of X, W, V, Q (as those of every subclass do). *)
Definition AArch64Instruction_init (c : InstClass) (ptn : str)
           (ins outs inouts : list str) (modifiesFlags : bool)
  : Instruction :=
  let tin := infer_all ins in
  let tout := infer_all outs ++ (if modifiesFlags then [Flags] else []) in
  let tin_out := infer_all inouts in
  let outs' := outs ++ (if modifiesFlags then ["flags" : str] else []) in
  let i := Instruction_init c ptn tin tin_out tout in
  mk_Instruction (cls i) (mnemonic i) (arg_types_in i) (arg_types_out i)
    (arg_types_in_out i) (num_in i) (num_out i) (num_in_out i)
    (args_out_combinations i) (args_in_combinations i)
    (args_in_out_combinations i) (args_out_restrictions i)
    (args_in_restrictions i) (args_in_out_restrictions i) (args_in i)
    (args_out i) (args_in_out i) (datatype i) (datatypes i) (index i)
    (immediate i) (lane i) (shift i) (addr i) (increment i) (pre_index i)
    (post_index i) (writeback i) (detected_vins_pair i)
    (detected_stack_vld2_lane_pair i)
    (Some ptn) ins outs' inouts
    (combine ins tin) (combine outs' tout) (combine inouts tin_out).

(** The stack pseudo-instructions set [addr = "sp"], [increment = None]. *)
Definition on_stack (i : Instruction) : Instruction :=
  set_increment (Some None) (set_addr (Some ("sp" : str)) i).

(** The pattern and the operand names of a subclass of
    [AArch64Instruction]: pattern, inputs, outputs, in_outs,
    modifiesFlags. *)
Definition aarch64_decl (c : InstClass)
  : option (str * list str * list str * list str * bool) :=
  let d (p : string) (i o io : list string) (f : bool) :=
      Some (of_string p, map of_string i, map of_string o,
            map of_string io, f) in
  match c with
  | vadd => d "add <Va>.<dt0>, <Vb>.<dt1>, <Vc>.<dt2>" ["Vb"; "Vc"] ["Va"] [] false
  | vsub => d "sub <Va>.<dt0>, <Vb>.<dt1>, <Vc>.<dt2>" ["Vb"; "Vc"] ["Va"] [] false
  | lsr_wform => d "lsr <Wd>, <Wa>, <Wb>" ["Wa"; "Wb"] ["Wd"] [] false
  | asr_wform => d "asr <Wd>, <Wa>, <imm>" ["Wa"] ["Wd"] [] false
  | eor_wform => d "eor <Wd>, <Wa>, <Wb>" ["Wa"; "Wb"] ["Wd"] [] false
  | subs_wform => d "subs <Wd>, <Wa>, <imm>" ["Wa"] ["Wd"] [] false
  | subs => d "subs <Xd>, <Xa>, <imm>" ["Xa"] ["Xd"] [] true
  | add => d "add <Xd>, <Xa>, <Xb>" ["Xa"; "Xb"] ["Xd"] [] false
  | add2 => d "add <Xd>, <Xa>, <Xb>, <imm>" ["Xa"; "Xb"] ["Xd"] [] false
  | ldr_const => d "ldr <Xd>, <imm>" [] ["Xd"] [] false
  | movk_imm => d "movk <Xd>, <imm>" [] [] ["Xd"] false
  | mov => d "mov <Wd>, <Wa>" ["Wa"] ["Wd"] [] false
  | sub => d "sub <Xd>, <Xa>, <Xb>" ["Xa"; "Xb"] ["Xd"] [] false
  | andi => d "and <Xd>, <Xa>, <imm>" ["Xa"] ["Xd"] [] false
  | bfi => d "bfi <Xd>, <Xa>, <imm>" ["Xa"] [] ["Xd"] false
  | bic => d "bic <Xd>, <Xa>, <imm>" ["Xa"] ["Xd"] [] false
  | lsr => d "lsr <Xd>, <Xa>, <imm>" ["Xa"] ["Xd"] [] false
  | umull_wform => d "umull <Xd>, <Wa>, <Wb>" ["Wa"; "Wb"] ["Xd"] [] false
  | umaddl_wform =>
      d "umaddl <Xn>, <Wa>, <Wb>, <Xacc>" ["Wa"; "Wb"; "Xacc"] ["Xn"] [] false
  | mul_wform => d "mul <Wd>, <Wa>, <Wb>" ["Wa"; "Wb"] ["Wd"] [] false
  | andi_wform => d "and <Wd>, <Wa>, <imm>" ["Wa"] ["Wd"] [] false
  | tst_wform => d "tst <Wa>, <imm>" ["Wa"] [] [] true
  | vand => d "and <Vd>.<dt0>, <Va>.<dt1>, <Vb>.<dt2>" ["Va"; "Vb"] ["Vd"] [] false
  | vbic => d "bic <Vd>.<dt0>, <Va>.<dt1>, <Vb>.<dt2>" ["Va"; "Vb"] ["Vd"] [] false
  | vzip1 => d "zip1 <Vd>.<dt0>, <Va>.<dt1>, <Vb>.<dt2>" ["Va"; "Vb"] ["Vd"] [] false
  | vzip2 => d "zip2 <Vd>.<dt0>, <Va>.<dt1>, <Vb>.<dt2>" ["Va"; "Vb"] ["Vd"] [] false
  | vuzp1 => d "uzp1 <Vd>.<dt0>, <Va>.<dt1>, <Vb>.<dt2>" ["Va"; "Vb"] ["Vd"] [] false
  | vuzp2 => d "uzp2 <Vd>.<dt0>, <Va>.<dt1>, <Vb>.<dt2>" ["Va"; "Vb"] ["Vd"] [] false
  | vqrdmulh =>
      d "sqrdmulh <Vd>.<dt0>, <Va>.<dt1>, <Vb>.<dt2>" ["Va"; "Vb"] ["Vd"] [] false
  | vqrdmulh_lane =>
      d "sqrdmulh <Vd>.<dt0>, <Va>.<dt1>, <Vb>.<dt2>[<index>]"
        ["Va"; "Vb"] ["Vd"] [] false
  | vqdmulh_lane =>
      d "sqdmulh <Vd>.<dt0>, <Va>.<dt1>, <Vb>.<dt2>[<index>]"
        ["Va"; "Vb"] ["Vd"] [] false
  | vmul_lane =>
      d "mul <Vd>.<dt0>, <Va>.<dt1>, <Vb>.<dt2>[<index>]"
        ["Va"; "Vb"] ["Vd"] [] false
  | mov_d01 => d "mov_d01 <Vd>, <Va>" ["Va"] [] ["Vd"] false
  | mov_b00 => d "mov_b00 <Vd>, <Va>" ["Va"] [] ["Vd"] false
  | vmul => d "mul <Vd>.<dt0>, <Va>.<dt1>, <Vb>.<dt2>" ["Va"; "Vb"] ["Vd"] [] false
  | vmla => d "mla <Vd>.<dt0>, <Va>.<dt1>, <Vb>.<dt2>" ["Va"; "Vb"] [] ["Vd"] false
  | vmla_lane =>
      d "mla <Vd>.<dt0>, <Va>.<dt1>, <Vb>.<dt2>[<index>]"
        ["Va"; "Vb"] [] ["Vd"] false
  | vmls => d "mls <Vd>.<dt0>, <Va>.<dt1>, <Vb>.<dt2>" ["Va"; "Vb"] [] ["Vd"] false
  | vmls_lane =>
      d "mls <Vd>.<dt0>, <Va>.<dt1>, <Vb>.<dt2>[<index>]"
        ["Va"; "Vb"] [] ["Vd"] false
  | vmull => d "umull <Vd>.<dt0>, <Va>.<dt1>, <Vb>.<dt2>" ["Va"; "Vb"] ["Vd"] [] false
  | vmlal => d "umlal <Vd>.<dt0>, <Va>.<dt1>, <Vb>.<dt2>" ["Va"; "Vb"] [] ["Vd"] false
  | vsrshr => d "srshr <Vd>.<dt0>, <Va>.<dt1>, <imm>" ["Va"] ["Vd"] [] false
  | vshl => d "shl <Vd>.<dt0>, <Va>.<dt1>, <imm>" ["Va"] ["Vd"] [] false
  | vushr => d "ushr <Vd>.<dt0>, <Va>.<dt1>, <imm>" ["Va"] ["Vd"] [] false
  | vusra => d "usra <Vd>.<dt0>, <Va>.<dt1>, <imm>" ["Va"] [] ["Vd"] false
  | trn1 => d "trn1 <Vd>.<dt0>, <Va>.<dt1>, <Vb>.<dt2>" ["Va"; "Vb"] ["Vd"] [] false
  | trn2 => d "trn2 <Vd>.<dt0>, <Va>.<dt1>, <Vb>.<dt2>" ["Va"; "Vb"] ["Vd"] [] false
  | ldr_idx_wform => d "ldr <Wd>, [<Xa>, <Wb>, <imm>]" ["Xa"; "Wb"] ["Wd"] [] false
  | _ => None
  end.

(** The constructor of each class, [inst_class()]. *)
Definition new (c : InstClass) : Instruction :=
  match aarch64_decl c with
  | Some (p, i, o, io, f) =>
      let inst := AArch64Instruction_init c p i o io f in
      match c with
      | ldr_idx_wform => set_addr (Some ("sp" : str)) inst
      | _ => inst
      end
  | None =>
      let ini (m : string) := Instruction_init c (of_string m) in
      match c with
      | qsave => on_stack (ini "qsave" [Neon] [] [StackNeon])
      | qrestore => on_stack (ini "qrestore" [StackNeon] [] [Neon])
      | save => on_stack (ini "save" [GPR] [] [StackGPR])
      | restore => on_stack (ini "restore" [StackGPR] [] [GPR])
      | stack_vstp_dform =>
          on_stack (ini "stack_vstp_dform" [Neon; Neon] [] [StackAny; StackAny])
      | stack_vstr_dform =>
          on_stack (ini "stack_vstr_dform" [Neon] [] [StackAny])
      | stack_stp =>
          on_stack (ini "stack_stp" [GPR; GPR] [] [StackAny; StackAny])
      | stack_stp_wform =>
          on_stack (ini "stack_stp_wform" [GPR; GPR] [] [StackAny; StackAny])
      | stack_str => on_stack (ini "stack_str" [GPR] [] [StackAny])
      | stack_ldr => on_stack (ini "stack_ldr" [StackAny] [] [GPR])
      | stack_vld1r => on_stack (ini "stack_vld1r" [StackAny] [] [Neon])
      | stack_vldr_bform =>
          on_stack (ini "stack_vldr_bform" [StackAny] [] [Neon])
      | stack_vldr_dform =>
          on_stack (ini "stack_vldr_dform" [StackAny] [] [Neon])
      | stack_vld2_lane =>
          ini "stack_vld2_lane" [StackAny] [Neon; Neon; GPR] []
      | nop => ini "nop" [] [] []
      | sub_shifted => ini "sub" [GPR] [] [GPR]
      | add_shifted => ini "add" [GPR] [] [GPR]
      | cbnz => ini "cbnz" [GPR] [] []
      | mov_imm => ini "mov" [] [] [GPR]
      | fcsel_dform => ini "fcsel_dform" [Neon; Neon; Flags] [] [Neon]
      | mov_vtox => ini "mov" [Neon] [] [GPR]
      | mov_xtov => ini "mov" [GPR] [Neon] []
      | ldr_vo_wrapper => ini "ldr_vo" [GPR] [] [Neon]
      | ldr_vi_wrapper => ini "ldr_vi" [GPR] [] [Neon]
      | str_vo_wrapper => ini "str_vo" [Neon; GPR] [] []
      | str_vi_wrapper => ini "str_vi" [Neon; GPR] [] []
      | x_str => ini "str" [GPR; GPR] [] []
      | x_ldr => ini "ldr" [GPR] [] [GPR]
      | vstr => ini "str" [Neon; GPR] [] []
      | vldr => ini "ldr" [Neon] [] [GPR]
      | vins => ini "vins" [GPR] [Neon] []
      | vext => ini "vext" [Neon] [GPR] []
      | st4 => ini "st4" [GPR; Neon; Neon; Neon; Neon] [] []
      | ld4 => ini "ld4" [] [GPR] [Neon; Neon; Neon; Neon]
      | ld2 => ini "ld2" [GPR] [] [Neon; Neon]
      | _ => ini "" [] [] []
      end
  end.


(** *** Parsing *)

(** The outcome of a parser: the updated object, the exception
    [Instruction.ParsingException], or any other exception. *)
Inductive result (A : Type) : Type :=
| Ok (a : A)
| ParsingException
| Error.
Arguments Ok {A} a.
Arguments ParsingException {A}.
Arguments Error {A}.

(** [re.sub("//.*$", "", src)]: the pattern matches from the first two
    slashes from which the rest of the text holds no newline (one at
    the very end apart). *)
Definition comment_re : regex := Seqs [Lit "//"; Star dot; Eol].

Fixpoint strip_comment (s : str) : str :=
  match s with
  | [] => []
  | c :: s' =>
      match rmatch 0 comment_re s [] (fun rest _ => Some rest) with
      | Some rest => rest
      | None => c :: strip_comment s'
      end
  end.

Definition getg (c : caps) (n : string) : str :=
  match group c n with Some v => v | None => [] end.

(** The name under which the [k]-th unnamed group is kept. *)
Definition gname (k : nat) : string :=
  String "#" (string_of_list_ascii (str_of_nat k)).

Definition word (n : string) : regex := Grp n (Plus wd).

(** [','.join(["\s*(\w+)\s*" for _ in range(n)])], the groups numbered
    from [k]. *)
Fixpoint operands_re (k n : nat) : list regex :=
  match n with
  | O => []
  | S O => [Star sp; word (gname k); Star sp]
  | S n' => [Star sp; word (gname k); Star sp; Chr ","] ++ operands_re (S k) n'
  end.

(** [f"^\s*{mnemonic}"], then [\s+] if there are operands, then the
    operands.  No class that uses this template has an abbreviation in
    its mnemonic, so [unfold_abbrevs] leaves the mnemonic as it is and
    [have_dt] is false. *)
Definition basic_template (mn : str) (expected_args : nat) : list regex :=
  [Bol; Star sp; Lit mn]
    ++ (if 0 <? expected_args then [Plus sp] else [])
    ++ operands_re 1 expected_args.

(** [list(p.groups())] for [n] unnamed groups. *)
Definition groups (p : caps) (n : nat) : list str :=
  map (fun k => getg p (gname k)) (seq 1 n).

(** The operands go to [args_out] or else to [args_in_out], the rest to
    [args_in]. *)
Definition spread (operands : list str) (upto : nat) (self : Instruction)
  : result Instruction :=
  let self := set_args_in_out [] (set_args_out [] (set_args_in [] self)) in
  let self := set_datatype (Some (DtStr [])) self in
  let '(self, idx_args_in) :=
    if 0 <? num_out self
    then (set_args_out (firstn (num_out self) operands) self, num_out self)
    else if 0 <? num_in_out self
         then (set_args_in_out (firstn (num_in_out self) operands) self,
               num_in_out self)
         else (self, 0) in
  let self := set_args_in (firstn (upto - idx_args_in)
                                  (skipn idx_args_in operands)) self in
  if List.length (args_in self) =? num_in self then Ok self else Error.

(** [Instruction.parse] *)
Definition Instruction_parse (self : Instruction) (src : str)
  : result Instruction :=
  let src := strip_comment src in
  let expected_args := num_in self + num_out self + num_in_out self in
  match re_match (Seqs (basic_template (mnemonic self) expected_args)) src with
  | None => ParsingException
  | Some p =>
      let operands := groups p expected_args in
      spread operands (List.length operands) self
  end.

(** The immediate of the load/store wrappers, [[\(\)\+\-\*\/0-9 ]+]. *)
Definition is_arith (c : ascii) : bool :=
  chr_eqb c "(" || chr_eqb c ")" || chr_eqb c "+" || chr_eqb c "-"
  || chr_eqb c "*" || chr_eqb c "/" || is_digit c || chr_eqb c " ".

Definition wrapper_template (mn : str) (expected_args : nat) : regex :=
  Seqs (basic_template mn expected_args
          ++ [Chr ","; Star sp; Grp "immediate" (Plus (Cls is_arith))]).

Definition last_str (l : list str) : str := last l [].

(** [ldr_vo_wrapper.parse], [ldr_vi_wrapper.parse],
    [str_vo_wrapper.parse], [str_vi_wrapper.parse]: [offset] tells the
    [_vo] form, where the immediate is the [pre_index], from the [_vi]
    form, where it is the [increment]; [addr_pos] is the position of
    the address among the inputs. *)
Definition wrapper_parse (offset : bool) (addr_pos : nat)
           (self : Instruction) (src : str) : result Instruction :=
  let src := strip_comment src in
  let expected_args := num_in self + num_out self + num_in_out self in
  match re_match (wrapper_template (mnemonic self) expected_args) src with
  | None => ParsingException
  | Some p =>
      let operands := groups p expected_args ++ [getg p "immediate"] in
      let self :=
        if offset
        then set_increment (Some None)
               (set_pre_index (Some (Some (last_str operands))) self)
        else set_increment (Some (Some (last_str operands)))
               (set_pre_index (Some None) self) in
      match spread operands expected_args self with
      | Ok self =>
          match nth_error (args_in self) addr_pos with
          | Some a => Ok (set_addr (Some a) self)
          | None => Error
          end
      | r => r
      end
  end.

(** [stack_vld2_lane.parse] *)
Definition stack_vld2_lane_re : regex :=
  Seqs [Lit "stack_vld2_lane"; Plus sp; word "dst1"; Star sp; Chr ",";
        Star sp; word "dst2"; Star sp; Chr ","; Star sp; word "src1";
        Star sp; Chr ","; Star sp; word "src2"; Star sp; Chr ","; Star sp;
        Grp "lane" (Star dot); Chr ","; Star sp;
        Grp "immediate" (Star dot)].

Definition stack_vld2_lane_parse (self : Instruction) (src : str)
  : result Instruction :=
  match re_match stack_vld2_lane_re src with
  | None => ParsingException
  | Some p =>
      let self := set_args_in [getg p "src2"] self in
      let self := set_args_in_out
                    [getg p "dst1"; getg p "dst2"; getg p "src1"] self in
      let self := set_args_out [] self in
      let self := set_lane (Some (getg p "lane")) self in
      let self := set_immediate (Some (getg p "immediate")) self in
      let self :=
        set_args_in_out_combinations
          (Some [([0; 1],
                  map (fun i => [named "v" i; named "v" (i + 1)])
                      (range 0 31))]) self in
      let self := set_addr (Some (getg p "src1")) self in
      let self := set_increment (Some (immediate self)) self in
      Ok (set_detected_stack_vld2_lane_pair (Some false) self)
  end.

(** [sub_shifted.parse] and [add_shifted.parse] *)
Definition shifted_re (mn : str) : regex :=
  Seqs [Lit mn; Plus sp; word "dst"; Star sp; Chr ","; Star sp; word "src";
        Star sp; Chr ","; Star sp; Chr "#"; Grp "shift" (Star dot)].

Definition shifted_parse (mn : str) (self : Instruction) (src : str)
  : result Instruction :=
  match re_match (shifted_re mn) src with
  | None => ParsingException
  | Some p =>
      let self := set_args_in [getg p "src"] self in
      let self := set_args_out [getg p "dst"] self in
      let self := set_args_in_out [] self in
      Ok (set_shift (Some (getg p "shift")) self)
  end.

(** [mov_imm.parse] *)
Definition mov_imm_re : regex :=
  Seqs [Lit "mov"; Plus sp; word "dst"; Star sp; Chr ","; Star sp; Chr "#";
        Grp "immediate" (Star wd)].

Definition mov_imm_parse (self : Instruction) (src : str)
  : result Instruction :=
  match re_match mov_imm_re src with
  | None => ParsingException
  | Some p =>
      let self := set_args_out [getg p "dst"] self in
      let self := set_args_in [] self in
      let self := set_args_in_out [] self in
      Ok (set_immediate (Some (getg p "immediate")) self)
  end.

(** [fcsel_dform.parse] *)
Definition fcsel_dform_re : regex :=
  Seqs [Lit "fcsel_dform"; Plus sp; word "dst"; Star sp; Chr ","; Star sp;
        word "src1"; Star sp; Chr ","; Star sp; word "src2"; Star sp;
        Chr ","; Star sp; Lit "eq"].

Definition fcsel_dform_parse (self : Instruction) (src : str)
  : result Instruction :=
  match re_match fcsel_dform_re src with
  | None => ParsingException
  | Some p =>
      let self := set_args_in
                    [getg p "src1"; getg p "src2"; "flags" : str] self in
      let self := set_args_out [getg p "dst"] self in
      Ok (set_args_in_out [] self)
  end.

(** [mov_vtox.parse] *)
Definition mov_vtox_re : regex :=
  Seqs [Lit "mov"; Plus sp; word "dst"; Star sp; Chr ","; Star sp;
        word "src"; Star sp; Chr "."; Chr "d"; Star sp; Chr "["; Star sp;
        Grp "immediate" (Star wd); Star sp; Chr "]"].

Definition mov_vtox_parse (self : Instruction) (src : str)
  : result Instruction :=
  match re_match mov_vtox_re src with
  | None => ParsingException
  | Some p =>
      let self := set_args_out [getg p "dst"] self in
      let self := set_args_in [getg p "src"] self in
      let self := set_args_in_out [] self in
      Ok (set_immediate (Some (getg p "immediate")) self)
  end.

(** [mov_xtov.parse] *)
Definition mov_xtov_re : regex :=
  Seqs [Lit "mov"; Plus sp; Star sp; word "dst"; Star sp; Chr "."; Chr "d";
        Star sp; Chr "["; Star sp; Grp "immediate" (Star wd); Star sp;
        Chr "]"; Star sp; Chr ","; Star sp; word "src"; Star sp].

Definition mov_xtov_parse (self : Instruction) (src : str)
  : result Instruction :=
  match re_match mov_xtov_re src with
  | None => ParsingException
  | Some p =>
      let self := set_args_out [] self in
      let self := set_args_in [getg p "src"] self in
      let self := set_args_in_out [getg p "dst"] self in
      Ok (set_immediate (Some (getg p "immediate")) self)
  end.

(** [vins.parse] and [vext.parse]: the second comma is followed by one
    blank. *)
Definition lane_re (mn : str) : regex :=
  Seqs [Lit mn; Plus sp; word "dst"; Star sp; Chr ","; Chr " "; word "src";
        Star sp; Chr ","; Star sp; Grp "lane" (Star wd)].

Definition vins_parse (self : Instruction) (src : str)
  : result Instruction :=
  match re_match (lane_re "vins") src with
  | None => ParsingException
  | Some p =>
      let self := set_args_out [] self in
      let self := set_args_in [getg p "src"] self in
      let self := set_args_in_out [getg p "dst"] self in
      let self := set_lane (Some (getg p "lane")) self in
      Ok (set_detected_vins_pair (Some false) self)
  end.

Definition vext_parse (self : Instruction) (src : str)
  : result Instruction :=
  match re_match (lane_re "vext") src with
  | None => ParsingException
  | Some p =>
      let self := set_args_out [] self in
      let self := set_args_in [getg p "src"] self in
      let self := set_args_in_out [getg p "dst"] self in
      Ok (set_lane (Some (getg p "lane")) self)
  end.

(** *** Structure loads and stores *)

(** [<dt{i}>] as [unfold_abbrevs] expands it when the text holds several
    of them: [(?P<datatype{i}>(?:2|4|8|16)(?:B|H|S|D))]. *)
Definition dt_abbrev (i : nat) : regex :=
  Grp (String.append "datatype" (string_of_list_ascii (str_of_nat i)))
      (Seq (Alts [Lit "2"; Lit "4"; Lit "8"; Lit "16"])
           (Alts [Chr "B"; Chr "H"; Chr "S"; Chr "D"])).

(** The register list of [st4] and [ld4]. *)
Definition four_regs : list regex :=
  [Chr "{";
   Star sp; word "out0"; Chr "."; dt_abbrev 0; Star sp; Chr ",";
   Star sp; word "out1"; Star sp; Chr "."; dt_abbrev 1; Chr ",";
   Star sp; word "out2"; Star sp; Chr "."; dt_abbrev 2; Chr ",";
   Star sp; word "out3"; Star sp; Chr "."; dt_abbrev 3; Chr "}"].

Definition two_regs : list regex :=
  [Chr "{";
   Star sp; word "out0"; Chr "."; dt_abbrev 0; Star sp; Chr ",";
   Star sp; word "out1"; Star sp; Chr "."; dt_abbrev 1; Chr "}"].

(** [\s*,\s*\[\s*(?P<reg>\w+)\s*\]] *)
Definition base_reg : list regex :=
  [Star sp; Chr ","; Star sp; Chr "["; Star sp; word "reg"; Star sp;
   Chr "]"].

Definition st4_re : regex :=
  Seqs ([Star sp; Lit "st4"; Plus sp] ++ four_regs ++ base_reg
          ++ [Chr ","; Star sp; Chr "#"; Grp "increment" (Star dot)]).

Definition ld4_re : regex :=
  Seqs ([Star sp; Lit "ld4"; Plus sp] ++ four_regs ++ base_reg
          ++ [Star sp;
              Opt (Seqs [Chr ","; Star sp; Chr "#";
                         Grp "increment" (Star dot)])]).

Definition ld2_re : regex :=
  Seqs ([Star sp; Lit "ld2"; Plus sp] ++ two_regs ++ base_reg
          ++ [Chr ","; Star sp; Chr "#"; Grp "increment" (Star dot)]).

(** [[ [f"v{i}", ..., f"v{i+k-1}"] for i in range(0, n) ]] *)
Definition consecutive (k n : nat) : list (list str) :=
  map (fun i => map (fun j => named "v" (i + j)) (seq 0 k)) (range 0 n).

(** [st4.parse] *)
Definition st4_parse (self : Instruction) (src : str) : result Instruction :=
  match re_match st4_re src with
  | None => ParsingException
  | Some p =>
      let self := set_addr (Some (getg p "reg")) self in
      let self := set_args_in
                    [getg p "reg"; getg p "out0"; getg p "out1";
                     getg p "out2"; getg p "out3"] self in
      let self := set_datatypes
                    (Some [getg p "datatype0"; getg p "datatype1";
                           getg p "datatype2"; getg p "datatype3"]) self in
      let self := set_args_in_out [] self in
      let self := set_args_out [] self in
      let self := set_increment (Some (group p "increment")) self in
      let self := set_pre_index (Some None) self in
      Ok (set_args_in_combinations
            (Some [([1; 2; 3; 4], consecutive 4 28)]) self)
  end.

(** [ld4.parse] *)
Definition ld4_parse (self : Instruction) (src : str) : result Instruction :=
  match re_match ld4_re src with
  | None => ParsingException
  | Some p =>
      let self := set_addr (Some (getg p "reg")) self in
      let self := set_args_in [] self in
      let self := set_args_out
                    [getg p "out0"; getg p "out1"; getg p "out2";
                     getg p "out3"] self in
      let self := set_datatypes
                    (Some [getg p "datatype0"; getg p "datatype1";
                           getg p "datatype2"; getg p "datatype3"]) self in
      let self := set_args_in_out [getg p "reg"] self in
      let self := set_increment (Some (group p "increment")) self in
      let self := set_pre_index (Some None) self in
      Ok (set_args_out_combinations
            (Some [([0; 1; 2; 3], consecutive 4 28)]) self)
  end.

(** [ld2.parse] *)
Definition ld2_parse (self : Instruction) (src : str) : result Instruction :=
  match re_match ld2_re src with
  | None => ParsingException
  | Some p =>
      let self := set_addr (Some (getg p "reg")) self in
      let self := set_args_in [getg p "reg"] self in
      let self := set_args_out [getg p "out0"; getg p "out1"] self in
      let self := set_datatypes
                    (Some [getg p "datatype0"; getg p "datatype1"]) self in
      let self := set_args_in_out [] self in
      let self := set_increment (Some (group p "increment")) self in
      let self := set_pre_index (Some None) self in
      Ok (set_args_out_combinations
            (Some [([0; 1], consecutive 2 30)]) self)
  end.

(** *** Scalar loads and stores *)

(** [\[\s*(?P<addr>\w+)\s*(?:,\s*#(?P<addroffset>[^\]]* ))?\](?P<writeback>!?)]
    followed by [\s*(?:,\s*#(?P<postinc>.* ))?] *)
Definition addr_regexp : list regex :=
  [Chr "["; Star sp; word "addr"; Star sp;
   Opt (Seqs [Chr ","; Star sp; Chr "#";
              Grp "addroffset" (Star (Cls (fun c => negb (chr_eqb c "]"))))]);
   Chr "]"; Grp "writeback" (Opt (Chr "!"))].

Definition postinc_regexp : list regex :=
  [Star sp; Opt (Seqs [Chr ","; Star sp; Chr "#"; Grp "postinc" (Star dot)])].

(** [\s*ldr\s+(?P<dest>\w+),\s*], the address, the post-increment
    ([mn] is [ldr] or [str]). *)
Definition ldst_re (mn : str) : regex :=
  Seqs ([Star sp; Lit mn; Plus sp; word "dest"; Chr ","; Star sp]
          ++ addr_regexp ++ postinc_regexp).

Section Simplify.

(** [sympy.simplify], applied to the text of an immediate: the
    simplified expression, or [None] where it raises. *)
Variable simplify : str -> option str.

Definition simplify_attr (v : option str) : option (option str) :=
  match v with
  | None => Some None
  | Some s => match simplify s with
              | Some s' => Some (Some s')
              | None => None
              end
  end.

Definition attr (v : option (option str)) : option str :=
  match v with Some x => x | None => None end.

(** [x_ldr._simplify] and its copies ([no_simplify] is [False]). *)
Definition ldst_simplify (self : Instruction) : result Instruction :=
  match simplify_attr (attr (increment self)) with
  | None => Error
  | Some inc =>
      let self := set_increment (Some inc) self in
      match simplify_attr (attr (post_index self)) with
      | None => Error
      | Some po =>
          let self := set_post_index (Some po) self in
          match simplify_attr (attr (pre_index self)) with
          | None => Error
          | Some pr => Ok (set_pre_index (Some pr) self)
          end
      end
  end.

Definition truthy (v : option str) : bool :=
  match v with
  | Some (_ :: _) => true
  | _ => false
  end.

(** The part [x_str.parse], [x_ldr.parse] and [vldr.parse] share: the
    match, the address mode, the simplification. *)
Definition ldst_match (mn : str) (self : Instruction) (src : str)
  : result (Instruction * str) :=
  let src := strip_comment src in
  match re_match (ldst_re mn) src with
  | None => ParsingException
  | Some p =>
      let gpr := getg p "dest" in
      let self := set_addr (Some (getg p "addr")) self in
      let wb := str_eqb (getg p "writeback") "!" in
      let self := set_writeback (Some wb) self in
      let self := set_pre_index (Some (group p "addroffset")) self in
      let self := set_post_index (Some (group p "postinc")) self in
      let self :=
        if wb then set_increment (Some (attr (pre_index self))) self
        else if truthy (attr (post_index self))
             then set_increment (Some (attr (post_index self))) self
             else set_increment (Some None) self in
      match ldst_simplify self with
      | Ok self => Ok (self, gpr)
      | ParsingException => ParsingException
      | Error => Error
      end
  end.

(** [x_str.parse] *)
Definition x_str_parse (self : Instruction) (src : str)
  : result Instruction :=
  match ldst_match "str" self src with
  | Ok (self, gpr) =>
      let a := match addr self with Some a => a | None => [] end in
      let self := set_args_in [gpr; a] self in
      let self := set_args_out [] self in
      Ok (set_args_in_out [] self)
  | ParsingException => ParsingException
  | Error => Error
  end.

(** [x_ldr.parse]; [vldr.parse] is the same text. *)
Definition x_ldr_parse (self : Instruction) (src : str)
  : result Instruction :=
  match ldst_match "ldr" self src with
  | Ok (self, gpr) =>
      let a := match addr self with Some a => a | None => [] end in
      let self := set_args_in [a] self in
      let self := set_args_out [gpr] self in
      Ok (set_args_in_out [] self)
  | ParsingException => ParsingException
  | Error => Error
  end.

(** [vstr.parse] raises at once ("Disabled for now"). *)
Definition vstr_parse (self : Instruction) (src : str)
  : result Instruction := ParsingException.

End Simplify.

(** *** Patterns of [AArch64Instruction] *)

(** What [_unfold_pattern] makes of the pattern text, piece by piece. *)
Inductive token : Type :=
| TLit (c : ascii)                  (* a character of a mnemonic *)
| TDot                              (* [.] *)
| TLbr                              (* the opening bracket *)
| TRbr                              (* the closing bracket *)
| TSpace                            (* a blank *)
| TComma                            (* [,] *)
| TReg (letter : ascii) (name : str) (* [<Xd>]: the letter, the name [Xd] *)
| TDt (i : option nat)              (* [<dt0>], or [<dt>] *)
| TImm                              (* [<imm>] *)
| TIndex.                           (* [<index>] *)

(** [s.count(sub)] for a non-empty [sub]. *)
Fixpoint count_from (skip : nat) (sub s : str) : nat :=
  match s with
  | [] => 0
  | _ :: s' =>
      match skip with
      | S n => count_from n sub s'
      | O => if startswith sub s
             then S (count_from (List.length sub - 1) sub s')
             else count_from 0 sub s'
      end
  end.

Definition count (sub s : str) : nat := count_from 0 sub s.

(** The longest prefix of word characters, and the rest. *)
Fixpoint take_word (s : str) : str * str :=
  match s with
  | c :: s' =>
      if is_word c then let (w, r) := take_word s' in (c :: w, r)
      else ([], s)
  | [] => ([], [])
  end.

Definition is_reg_letter (c : ascii) : bool :=
  chr_eqb c "B" || chr_eqb c "H" || chr_eqb c "W" || chr_eqb c "X"
  || chr_eqb c "V".

(** The placeholder that starts behind an opening angle bracket, and
    the text behind it.  [ndt] is [src.count("<dt")]: with more than one
    datatype the numbered ones below [ndt] are placeholders, else the
    plain [<dt>] alone is. *)
Definition placeholder (ndt : nat) (s : str) : option (token * str) :=
  match s with
  | c :: s' =>
      if is_reg_letter c then
        match take_word s' with
        | ((_ :: _) as w, g :: r) =>
            if chr_eqb g ">" then Some (TReg c (c :: w), r) else None
        | _ => None
        end
      else if startswith "imm>" s then Some (TImm, skipn 4 s)
      else if startswith "index>" s then Some (TIndex, skipn 6 s)
      else if startswith "dt" s then
        match take_word (skipn 2 s) with
        | ([], g :: r) =>
            if chr_eqb g ">" && (ndt <=? 1) then Some (TDt None, r)
            else None
        | (d, g :: r) =>
            if chr_eqb g ">" && forallb is_digit d
               && str_eqb (str_of_nat (int_of_digits d)) d
               && (1 <? ndt) && (int_of_digits d <? ndt)
            then Some (TDt (Some (int_of_digits d)), r)
            else None
        | _ => None
        end
      else None
  | [] => None
  end.

(** The pieces of a pattern.  [None]: the pattern holds a character
    that no pattern of the subclasses holds (one that would be read as
    an operator of the regular expression). *)
Fixpoint tokenize (ndt fuel : nat) (s : str) : option (list token) :=
  match fuel with
  | O => match s with [] => Some [] | _ => None end
  | S f =>
      match s with
      | [] => Some []
      | c :: s' =>
          let more (t : token) (r : str) :=
            option_map (cons t) (tokenize ndt f r) in
          if chr_eqb c "." then more TDot s'
          else if chr_eqb c "[" then more TLbr s'
          else if chr_eqb c "]" then more TRbr s'
          else if chr_eqb c " " then more TSpace s'
          else if chr_eqb c "," then more TComma s'
          else if chr_eqb c "<" then
            match placeholder ndt s' with
            | Some (t, r) => more t r
            | None => None
            end
          else if is_word c then more (TLit c) s'
          else None
      end
  end.

Definition tokens_of (ptn : str) : option (list token) :=
  tokenize (count "<dt" ptn) (List.length ptn) ptn.

Definition gstr (pre : string) (name : str) : string :=
  String.append pre (string_of_list_ascii name).

Definition dt_letters : regex :=
  Alts [Chr "B"; Chr "H"; Chr "S"; Chr "D";
        Chr "b"; Chr "h"; Chr "s"; Chr "d"].

(** The regular expression of one piece. *)
Definition token_re (t : token) : regex :=
  match t with
  | TLit c => Chr c
  | TDot => Seqs [Star sp; Chr "."; Star sp]
  | TLbr => Seqs [Star sp; Chr "["; Star sp]
  | TRbr => Seqs [Star sp; Chr "]"; Star sp]
  | TSpace => Plus sp
  | TComma => Seqs [Star sp; Chr ","; Star sp]
  | TReg l name =>
      let letter := Cls (fun c => chr_eqb c (lower_chr l) || chr_eqb c l) in
      Alt (Seq letter (Grp (gstr "raw_" name) (Seq dg (Opt dg))))
          (Seqs [letter; Chr "<"; Grp (gstr "symbol_" name) (Plus wd);
                 Chr ">"])
  | TDt (Some i) =>
      Grp (gstr "datatype" (str_of_nat i))
          (Seq (Alts [Eps; Lit "2"; Lit "4"; Lit "8"; Lit "16"]) dt_letters)
  | TDt None =>
      Grp "datatype"
          (Seq (Alts [Lit "2"; Lit "4"; Lit "8"; Lit "16"]) dt_letters)
  | TImm =>
      Grp "imm" (Plus (Alts [wd; sp; Chr "#"; Chr "="; Chr ","]))
  | TIndex => Grp "index" (Plus dg)
  end.

(** The end of every pattern: [\s*(//.* )?\Z]. *)
Definition pattern_end : regex :=
  Seqs [Star sp; Opt (Seq (Lit "//") (Star dot)); EndZ].

(** [re.compile(AArch64Instruction._unfold_pattern(src))] *)
Definition unfold_pattern (ptn : str) : option regex :=
  match tokens_of ptn with
  | Some ts => Some (Seqs ([Star sp] ++ map token_re ts ++ [pattern_end]))
  | None => None
  end.

(** What [_parse] makes of the groups: the number or the symbol of a
    register stands under the name of the register. *)
Definition res_reg (p : caps) (name : str) : option str :=
  match group p (gstr "raw_" name) with
  | Some v => Some v
  | None => group p (gstr "symbol_" name)
  end.

(** [AArch64Instruction._to_reg] *)
Definition to_reg (ty : RegisterType) (s : str) : str :=
  let c : str := if RegisterType_eqb ty GPR then "x" else "v" in
  if isdigit s then c ++ s else s.

(** Reading the operands of one list. *)
Fixpoint read_regs (p : caps) (l : list (str * RegisterType))
  : option (list str) :=
  match l with
  | [] => Some []
  | (s, ty) :: l' =>
      let v := if RegisterType_eqb ty Flags then Some ("flags" : str)
               else option_map (to_reg ty) (res_reg p s) in
      match v, read_regs p l' with
      | Some a, Some r => Some (a :: r)
      | _, _ => None
      end
  end.

(** Inputs are read without the test for [Flags]. *)
Fixpoint read_plain (p : caps) (l : list (str * RegisterType))
  : option (list str) :=
  match l with
  | [] => Some []
  | (s, ty) :: l' =>
      match option_map (to_reg ty) (res_reg p s), read_plain p l' with
      | Some a, Some r => Some (a :: r)
      | _, _ => None
      end
  end.

(** The datatype attribute after [parse]; [None] is an exception. *)
Definition read_datatype (p : caps) (old : option dtval)
  : option (option dtval) :=
  match group p "datatype" with
  | Some v => Some (Some (DtStr (lower v)))
  | None =>
      let d0 := match group p "datatype0" with
                | Some v => Some (DtList [lower v])
                | None => old
                end in
      let add (key : string) (d : option (option dtval)) :=
          match d, group p key with
          | None, _ => None
          | Some d', None => Some d'
          | Some (Some (DtList l)), Some v =>
              Some (Some (DtList (l ++ [lower v])))
          | Some _, Some _ => None
          end in
      add "datatype2" (add "datatype1" (Some d0))
  end.

(** [AArch64Instruction.parse] *)
Definition AArch64Instruction_parse (self : Instruction) (src : str)
  : result Instruction :=
  match pattern self with
  | None => Error
  | Some ptn =>
      match unfold_pattern ptn with
      | None => Error
      | Some re =>
          match re_match re src with
          | None => ParsingException
          | Some res =>
              let self :=
                set_args_out [] (set_args_in_out [] (set_args_in [] self)) in
              match read_datatype res (datatype self) with
              | None => Error
              | Some dt =>
                  let self := set_datatype dt self in
                  let self :=
                    match group res "index" with
                    | Some v => set_index (Some (int_of_digits v)) self
                    | None => self
                    end in
                  let self :=
                    match group res "imm" with
                    | Some v => set_immediate (Some v) self
                    | None => self
                    end in
                  match read_plain res (pattern_inputs self),
                        read_regs res (pattern_outputs self),
                        read_plain res (pattern_in_outs self) with
                  | Some i, Some o, Some io =>
                      Ok (set_args_in_out io
                            (set_args_out o (set_args_in i self)))
                  | _, _, _ => Error
                  end
              end
          end
      end
  end.

(** The [parse] of the lane forms: the restriction of the second input
    for halfword lanes. *)
Definition lane_parse (self : Instruction) (src : str)
  : result Instruction :=
  match AArch64Instruction_parse self src with
  | Ok self =>
      match datatype self with
      | Some (DtList (d :: _)) =>
          if str_eqb d "8h"
          then Ok (set_args_in_restrictions
                     [Some (map (named "v") (range 0 32));
                      Some (map (named "v") (range 0 16))] self)
          else Ok self
      | Some (DtStr (_ :: _)) => Ok self
      | _ => Error
      end
  | r => r
  end.

(** *** Emission *)

(** [f"<{s}>"] *)
Definition angle (s : str) : str := "<"%char :: s ++ [">"%char].

(** [AArch64Instruction._build_pattern_replacement] *)
Definition build_pattern_replacement (s : str) (ty : RegisterType)
           (arg : str) : option str :=
  let rep (x : ascii) :=
      match arg with
      | [] => None
      | a :: arg' =>
          if negb (chr_eqb a x) then Some arg
          else match s with
               | c :: _ => Some (lower_chr c :: arg')
               | [] => None
               end
      end in
  match ty with
  | GPR => rep "x"%char
  | Neon => rep "v"%char
  | _ => None
  end.

(** [AArch64Instruction._instantiate_pattern] *)
Definition instantiate_pattern (s : str) (ty : RegisterType) (arg out : str)
  : option str :=
  if RegisterType_eqb ty Flags then Some out
  else
    match build_pattern_replacement s ty arg with
    | None => None
    | Some rep =>
        let res := replace (angle s) rep out in
        if str_eqb res out then None else Some res
    end.

Fixpoint instantiate_all (l : list (str * (str * RegisterType))) (out : str)
  : option str :=
  match l with
  | [] => Some out
  | (arg, (s, ty)) :: l' =>
      match instantiate_pattern s ty arg out with
      | Some out' => instantiate_all l' out'
      | None => None
      end
  end.

(** [out.replace(f"<dt{i}>", self.datatype[i].upper())] for [i] from
    [k] on. *)
Fixpoint replace_dts (k : nat) (l : list str) (out : str) : str :=
  match l with
  | [] => out
  | d :: l' =>
      replace_dts (S k) l'
        (replace (angle (named "dt" k)) (upper d) out)
  end.

Definition backslash : ascii := ascii_of_nat 92.

(** [AArch64Instruction.write]; [None] is an exception. *)
Definition AArch64Instruction_write (self : Instruction) : option str :=
  match pattern self with
  | None => None
  | Some out =>
      let l := combine (args_in self) (pattern_inputs self)
               ++ combine (args_out self) (pattern_outputs self)
               ++ combine (args_in_out self) (pattern_in_outs self) in
      match l with
      | [] => None
      | _ =>
          match instantiate_all l out with
          | None => None
          | Some out =>
              let out := match immediate self with
                         | Some v => replace "<imm>" v out
                         | None => out
                         end in
              let out := match datatype self with
                         | Some (DtList d) => replace_dts 0 d out
                         | Some (DtStr d) => replace "<dt>" (upper d) out
                         | None => out
                         end in
              let out := match index self with
                         | Some n => replace "<index>" (str_of_nat n) out
                         | None => out
                         end in
              let out := replace [backslash; "["%char] "[" out in
              let out := replace [backslash; "]"%char] "]" out in
              Some out
          end
      end
  end.

(** *** The parser of a line *)

Section Parser.

Variable simplify : str -> option str.

(** [inst.parse(src)], by the class of [inst]. *)
Definition parse (self : Instruction) (src : str) : result Instruction :=
  match cls self with
  | stack_vld2_lane => stack_vld2_lane_parse self src
  | sub_shifted => shifted_parse "sub" self src
  | add_shifted => shifted_parse "add" self src
  | mov_imm => mov_imm_parse self src
  | fcsel_dform => fcsel_dform_parse self src
  | mov_vtox => mov_vtox_parse self src
  | mov_xtov => mov_xtov_parse self src
  | ldr_vo_wrapper => wrapper_parse true 0 self src
  | ldr_vi_wrapper => wrapper_parse false 0 self src
  | str_vo_wrapper => wrapper_parse true 1 self src
  | str_vi_wrapper => wrapper_parse false 1 self src
  | x_str => x_str_parse simplify self src
  | x_ldr => x_ldr_parse simplify self src
  | vstr => vstr_parse self src
  | vldr => x_ldr_parse simplify self src
  | vins => vins_parse self src
  | vext => vext_parse self src
  | st4 => st4_parse self src
  | ld4 => ld4_parse self src
  | ld2 => ld2_parse self src
  | vqrdmulh_lane | vqdmulh_lane | vmul_lane | vmla_lane | vmls_lane =>
      lane_parse self src
  | c => match aarch64_decl c with
         | Some _ => AArch64Instruction_parse self src
         | None => Instruction_parse self src
         end
  end.

(** The loop of [Instruction.parser] over the classes: an object of
    each class parses the line; those that succeed are collected, a
    [ParsingException] is noted and passed over, any other exception
    ends the loop. *)
Fixpoint parse_each (classes : list InstClass) (src : str)
  : result (list Instruction) :=
  match classes with
  | [] => Ok []
  | c :: cs =>
      match parse (new c) src with
      | Ok inst =>
          match parse_each cs src with
          | Ok insts => Ok (inst :: insts)
          | r => r
          end
      | ParsingException => parse_each cs src
      | Error => Error
      end
  end.

Definition all_classes : list InstClass :=
  Instruction_subclasses ++ AArch64Instruction_subclasses.

(** [Instruction.parser(src)] *)
Definition parser (src : str) : result (list Instruction) :=
  match parse_each all_classes src with
  | Ok [] => ParsingException
  | r => r
  end.

End Parser.

(** *** Pair-fusion callbacks *)

(** A node of the dataflow graph, as far as the callbacks look at it:
    for each in-out operand the consumers of its value, each with the
    instruction it carries ([r.inst]). *)
Record Node : Type := mk_Node {
  dst_in_out : list (list Instruction)
}.

(** [{a, b} == {'0', '1'}] *)
Definition lanes_01 (a b : str) : bool :=
  (str_eqb a "0" && str_eqb b "1") || (str_eqb a "1" && str_eqb b "0").

Definition strs_eqb (a b : list str) : bool :=
  if list_eq_dec (list_eq_dec ascii_dec) a b then true else false.

Definition is_class (c : InstClass) (i : Instruction) : bool :=
  if InstClass_eq_dec (cls i) c then true else false.

(** The search for the second instruction of a pair: [Some true] when
    [succ] is set, [None] for an exception.  [same] compares the
    destinations of the two instructions. *)
Definition find_succ (c : InstClass) (same : Instruction -> bool)
           (inst : Instruction) (t : Node) : option bool :=
  match dst_in_out t with
  | [] => None
  | d0 :: _ =>
      match d0 with
      | [r] =>
          if is_class c r then
            if same r then
              match lane r, lane inst with
              | Some a, Some b => Some (lanes_01 a b)
              | _, _ => None
              end
            else Some false
          else Some false
      | _ => Some false
      end
  end.

(** The [core] of [vins_parsing_cb]: the changed flag and the
    instruction afterwards; [None] is an exception. *)
Definition vins_parsing_cb (inst : Instruction) (t : Node)
  : option (bool * Instruction) :=
  match detected_vins_pair inst with
  | None => None
  | Some true => Some (false, inst)
  | Some false =>
      match find_succ vins
              (fun r => strs_eqb (args_in_out r) (args_in_out inst))
              inst t with
      | None => None
      | Some false => Some (false, inst)
      | Some true =>
          match args_in_out inst with
          | [] => None
          | a :: _ =>
              let i := set_num_out 1 inst in
              let i := set_args_out [a] i in
              let i := set_arg_types_out [Neon] i in
              let i := set_args_out_restrictions
                         (args_in_out_restrictions i) i in
              let i := set_num_in_out 0 i in
              let i := set_args_in_out [] i in
              let i := set_arg_types_in_out [] i in
              let i := set_args_in_out_restrictions [] i in
              Some (true, set_detected_vins_pair (Some true) i)
          end
      end
  end.

(** The [core] of [stack_vld2_lane_parsing_cb]. *)
Definition stack_vld2_lane_parsing_cb (inst : Instruction) (t : Node)
  : option (bool * Instruction) :=
  match detected_stack_vld2_lane_pair inst with
  | None => None
  | Some true => Some (false, inst)
  | Some false =>
      match find_succ stack_vld2_lane
              (fun r => strs_eqb (firstn 2 (args_in_out r))
                                 (firstn 2 (args_in_out inst)))
              inst t with
      | None => None
      | Some false => Some (false, inst)
      | Some true =>
          match args_in_out inst with
          | a :: b :: c :: _ =>
              let i := set_num_out 2 inst in
              let i := set_args_out [a; b] i in
              let i := set_arg_types_out [Neon; Neon] i in
              let i := set_args_out_restrictions
                         (args_in_out_restrictions i) i in
              let i := set_args_out_combinations
                         (args_in_out_combinations i) i in
              let i := set_num_in_out 1 i in
              let i := set_args_in_out [c] i in
              let i := set_arg_types_in_out [GPR] i in
              let i := set_args_in_out_restrictions [] i in
              let i := set_args_in_out_combinations (Some []) i in
              Some (true, set_detected_stack_vld2_lane_pair (Some true) i)
          | _ => None
          end
      end
  end.

(** *** The notions the properties are stated with *)

(** No simplification at all: a [simplify] that returns its argument. *)
Definition keep (s : str) : option str := Some s.

Section ParserSpec.

Variable simplify : str -> option str.

(** The first class, in the order of [classes], whose parse of the
    line succeeds (an exception other than [ParsingException] met on
    the way ends the search). *)
Fixpoint first_success (classes : list InstClass) (src : str)
  : result Instruction :=
  match classes with
  | [] => ParsingException
  | c :: cs =>
      match parse simplify (new c) src with
      | Ok inst => Ok inst
      | ParsingException => first_success cs src
      | Error => Error
      end
  end.

(** The parser as the specification words it: the first success
    wins. *)
Definition first_wins (src : str) : result (list Instruction) :=
  match first_success all_classes src with
  | Ok inst => Ok [inst]
  | ParsingException => ParsingException
  | Error => Error
  end.

(** The objects of all the classes that parse the line. *)
Definition successes (classes : list InstClass) (src : str)
  : list Instruction :=
  flat_map (fun c => match parse simplify (new c) src with
                     | Ok inst => [inst]
                     | _ => []
                     end) classes.

(** Some class raises another exception than [ParsingException]. *)
Definition raises_other (classes : list InstClass) (src : str) : bool :=
  existsb (fun c => match parse simplify (new c) src with
                    | Error => true
                    | _ => false
                    end) classes.

End ParserSpec.

(** The top registers of the pool, four and two in a row. *)
Definition top4 : list str :=
  ["v28" : str; "v29" : str; "v30" : str; "v31" : str].
Definition top2 : list str := ["v30" : str; "v31" : str].

(** The condition of the pair fusion of [vins]: the instruction is not
    yet marked, the value of its in-out operand has one consumer, that
    one is a [vins] with the same in-out operand, and the lanes of the
    two are 0 and 1. *)
Definition fusable (inst : Instruction) (t : Node) : Prop :=
  detected_vins_pair inst = Some false /\
  exists r,
    nth_error (dst_in_out t) 0 = Some [r] /\
    cls r = vins /\
    args_in_out r = args_in_out inst /\
    ((lane r = Some ("0" : str) /\ lane inst = Some ("1" : str)) \/
     (lane r = Some ("1" : str) /\ lane inst = Some ("0" : str))).

(** A parsed [vins] in the dataflow graph: it carries a lane and the
    mark; while it is not marked it has its one in-out operand and the
    node lists the consumers of that operand; the [vins] among the
    consumers are parsed, too. *)
Definition vins_node (inst : Instruction) (t : Node) : Prop :=
  cls inst = vins /\
  (exists l, lane inst = Some l) /\
  (exists d, detected_vins_pair inst = Some d /\
             (d = false ->
              (exists a, args_in_out inst = [a]) /\ dst_in_out t <> [])) /\
  Forall (Forall (fun r => cls r = vins -> exists l, lane r = Some l))
         (dst_in_out t).


(** *** The emitters of the variants with a [parse] of their own

    A [write] that reads an attribute the object does not have, or an
    operand that is not there, ends in an exception: [None]. *)

(** [sub_shifted.write] and [add_shifted.write] *)
Definition shifted_write (mn : str) (self : Instruction) : option str :=
  match nth_error (args_out self) 0, nth_error (args_in self) 0,
        shift self with
  | Some d, Some s, Some sh =>
      Some (mn ++ of_string " " ++ d ++ of_string ", " ++ s ++ of_string ", #" ++ sh)
  | _, _, _ => None
  end.

(** [mov_imm.write] *)
Definition mov_imm_write (self : Instruction) : option str :=
  match nth_error (args_out self) 0, immediate self with
  | Some d, Some i => Some (of_string "mov " ++ d ++ of_string ", #" ++ i)
  | _, _ => None
  end.

(** [fcsel_dform.write] *)
Definition fcsel_dform_write (self : Instruction) : option str :=
  match nth_error (args_out self) 0, nth_error (args_in self) 0,
        nth_error (args_in self) 1 with
  | Some d, Some a, Some b =>
      Some (of_string "fcsel_dform " ++ d ++ of_string ", " ++ a ++ of_string ", " ++ b ++ of_string ", eq")
  | _, _, _ => None
  end.

(** [mov_vtox.write] *)
Definition mov_vtox_write (self : Instruction) : option str :=
  match nth_error (args_out self) 0, nth_error (args_in self) 0,
        immediate self with
  | Some d, Some s, Some i => Some (of_string "mov " ++ d ++ of_string ", " ++ s ++ of_string ".d[" ++ i ++ of_string "]")
  | _, _, _ => None
  end.

(** [mov_xtov.write] *)
Definition mov_xtov_write (self : Instruction) : option str :=
  match nth_error (args_in_out self) 0, immediate self,
        nth_error (args_in self) 0 with
  | Some d, Some i, Some s => Some (of_string "mov " ++ d ++ of_string ".d[" ++ i ++ of_string "], " ++ s)
  | _, _, _ => None
  end.

(** [vins.write]: the destination is the in-out operand, or the output
    once the pair was detected. *)
Definition vins_write (self : Instruction) : option str :=
  match detected_vins_pair self with
  | None => None
  | Some detected =>
      match nth_error (if detected then args_out self
                       else args_in_out self) 0,
            nth_error (args_in self) 0, lane self with
      | Some d, Some s, Some l => Some (of_string "vins " ++ d ++ of_string ", " ++ s ++ of_string ", " ++ l)
      | _, _, _ => None
      end
  end.

(** [vext.write] *)
Definition vext_write (self : Instruction) : option str :=
  match nth_error (args_in_out self) 0, nth_error (args_in self) 0,
        lane self with
  | Some d, Some s, Some l => Some (of_string "vext " ++ d ++ of_string ", " ++ s ++ of_string ", " ++ l)
  | _, _, _ => None
  end.

(** [stack_vld2_lane.write] *)
Definition stack_vld2_lane_write (self : Instruction) : option str :=
  match detected_stack_vld2_lane_pair self with
  | None => None
  | Some detected =>
      let regs :=
        if detected
        then match nth_error (args_out self) 0, nth_error (args_out self) 1,
                   nth_error (args_in_out self) 0 with
             | Some a, Some b, Some c => Some (a, b, c)
             | _, _, _ => None
             end
        else match nth_error (args_in_out self) 0,
                   nth_error (args_in_out self) 1,
                   nth_error (args_in_out self) 2 with
             | Some a, Some b, Some c => Some (a, b, c)
             | _, _, _ => None
             end in
      match regs, nth_error (args_in self) 0, lane self, immediate self with
      | Some (a, b, c), Some s, Some l, Some i =>
          Some (of_string "stack_vld2_lane " ++ a ++ of_string ", " ++ b ++ of_string ", " ++ c ++ of_string ", "
                  ++ s ++ of_string ", " ++ l ++ of_string ", " ++ i)
      | _, _, _, _ => None
      end
  end.
End Neon.

(** ** A reading of the instruction patterns without backtracking

    What the regular expression of a pattern finds can be read off the
    line from left to right.  [scan] does so for the patterns of the
    subclasses of [AArch64Instruction] (those [wf] accepts); the
    properties below show that it finds what the expression finds. *)

Module NeonScan.
Import Neon.

(** The longest prefix of characters with [p], and what is behind it. *)
Fixpoint takew (p : ascii -> bool) (s : str) : str :=
match s with
| a :: s' => if p a then a :: takew p s' else []
| [] => []
end.

Fixpoint dropw (p : ascii -> bool) (s : str) : str :=
match s with
| a :: s' => if p a then dropw p s' else s
| [] => []
end.

(** Greedy repetition of one character class, then [k]: the longest run
  first, then the shorter ones. *)
Fixpoint greedy (A : Type) (p : ascii -> bool) (k : cont A) (s : str)
       (c : caps) : option A :=
match s with
| a :: s' =>
    if p a then match greedy p k s' c with
                | Some x => Some x
                | None => k s c
                end
    else k s c
| [] => k s c
end.

(** The characters of an immediate: [\w], [\s], [#], [=] and the comma. *)
Definition is_imm (a : ascii) : bool :=
is_word a || is_space a || chr_eqb "#" a || chr_eqb "=" a || chr_eqb "," a.

Definition no_newline (s : str) : bool :=
forallb (fun a => negb (chr_eqb a newline)) s.

(** The end of a line: white space, then nothing or a comment. *)
Definition end_ok (s : str) : bool :=
match dropw is_space s with
| [] => true
| a :: b :: r => chr_eqb "/" a && chr_eqb "/" b && no_newline r
| _ => false
end.

Definition reg_letter_ok (l a : ascii) : bool :=
chr_eqb a (lower_chr l) || chr_eqb a l.

Definition dt_letter (a : ascii) : bool :=
chr_eqb "B" a || chr_eqb "H" a || chr_eqb "S" a || chr_eqb "D" a
|| chr_eqb "b" a || chr_eqb "h" a || chr_eqb "s" a || chr_eqb "d" a.

(** The datatype at the front of [s], and what is behind it. *)
Definition dt_split (s : str) : option (str * str) :=
let letter (pre r : str) :=
    match r with
    | a :: r' => if dt_letter a then Some (pre ++ [a], r') else None
    | [] => None
    end in
match s with
| a :: r =>
    if chr_eqb "2" a || chr_eqb "4" a || chr_eqb "8" a then letter [a] r
    else if chr_eqb "1" a then
           match r with
           | b :: r' => if chr_eqb "6" b then letter [a; b] r' else None
           | [] => None
           end
         else letter [] s
| [] => None
end.

(** The immediate behind a comma: it starts at the first character that
  is no white space and runs as far as its characters go; where no such
  character follows the white space, it is the last blank of two or
  more. *)
Definition imm_split (y : str) : option (str * str) :=
let ws := takew is_space y in
let rest := dropw is_space y in
let blank := if 2 <=? List.length ws
             then Some ([last ws " "%char], rest) else None in
match rest with
| a :: _ =>
    if is_imm a
    then if 1 <=? List.length ws
         then Some (takew is_imm rest, dropw is_imm rest) else None
    else blank
| [] => blank
end.

Fixpoint scan (ts : list token) (s : str) (c : caps) : option caps :=
match ts with
| [] => if end_ok s then Some c else None
| TLit a :: ts' =>
    match s with
    | x :: s' => if chr_eqb a x then scan ts' s' c else None
    | [] => None
    end
| TSpace :: ts' =>
    match s with
    | x :: s' => if is_space x then scan ts' (dropw is_space s') c else None
    | [] => None
    end
| TComma :: TSpace :: TImm :: ts' =>
    match dropw is_space s with
    | x :: y =>
        if chr_eqb "," x then
          match imm_split y with
          | Some (v, r) => scan ts' r (("imm"%string, v) :: c)
          | None => None
          end
        else None
    | [] => None
    end
| TComma :: ts' =>
    match dropw is_space s with
    | x :: y => if chr_eqb "," x then scan ts' y c else None
    | [] => None
    end
| TDot :: ts' =>
    match dropw is_space s with
    | x :: y => if chr_eqb "." x then scan ts' (dropw is_space y) c else None
    | [] => None
    end
| TLbr :: ts' =>
    match dropw is_space s with
    | x :: y => if chr_eqb "[" x then scan ts' (dropw is_space y) c else None
    | [] => None
    end
| TRbr :: ts' =>
    match dropw is_space s with
    | x :: y => if chr_eqb "]" x then scan ts' y c else None
    | [] => None
    end
| TReg l name :: ts' =>
    match s with
    | x :: r =>
        if reg_letter_ok l x then
          match r with
          | d1 :: r1 =>
              if is_digit d1 then
                match r1 with
                | d2 :: r2 =>
                    if is_digit d2
                    then scan ts' r2 ((gstr "raw_" name, [d1; d2]) :: c)
                    else scan ts' r1 ((gstr "raw_" name, [d1]) :: c)
                | [] => scan ts' r1 ((gstr "raw_" name, [d1]) :: c)
                end
              else if chr_eqb "<" d1 then
                     match takew is_word r1, dropw is_word r1 with
                     | (_ :: _) as w, g :: r2 =>
                         if chr_eqb ">" g
                         then scan ts' r2 ((gstr "symbol_" name, w) :: c)
                         else None
                     | _, _ => None
                     end
                   else None
          | [] => None
          end
        else None
    | [] => None
    end
| TDt (Some i) :: ts' =>
    match dt_split s with
    | Some (v, r) => scan ts' r ((gstr "datatype" (str_of_nat i), v) :: c)
    | None => None
    end
| TIndex :: ts' =>
    match s with
    | d :: s' =>
        if is_digit d
        then scan ts' (dropw is_digit s')
                  (("index"%string, d :: takew is_digit s') :: c)
        else None
    | [] => None
    end
| _ => None
end.

(** What may stand behind a piece, for [scan] to be right. *)
Definition rej_space (ts : list token) : bool :=
match ts with
| TLit a :: _ => negb (is_space a)
| TReg l _ :: _ => negb (is_space l) && negb (is_space (lower_chr l))
| TDt (Some _) :: _ => true
| TIndex :: _ => true
| _ => false
end.

Definition skips_space (ts : list token) : bool :=
match ts with
| [] | TDot :: _ | TLbr :: _ | TComma :: _ | TRbr :: _ => true
| _ => false
end.

Definition rej_digit (ts : list token) : bool :=
match ts with
| [] | TDot :: _ | TLbr :: _ | TComma :: _ | TRbr :: _ => true
| _ => false
end.

Fixpoint wf (ts : list token) : bool :=
match ts with
| [] => true
| TLit _ :: r => wf r
| TSpace :: r => (rej_space r || skips_space r) && wf r
| TComma :: TSpace :: TImm :: r =>
    match r with [] | [TRbr] => true | _ => false end
| TComma :: r => match r with TSpace :: _ => wf r | _ => false end
| TDot :: r | TLbr :: r => rej_space r && wf r
| TRbr :: r => match r with [] => true | _ => false end
| TReg _ _ :: r => rej_digit r && wf r
| TDt (Some _) :: r => wf r
| TIndex :: r => rej_digit r && wf r
| _ => false
end.

(** The expression of the pieces [ts] and of the end of the line. *)
Definition rest_re (ts : list token) : regex :=
Seqs (map token_re ts ++ [pattern_end]).

End NeonScan.

(** ** The text [write] makes of a pattern

    [write] fills the placeholders of the pattern one after the other.
    The text in between is described piece by piece: [rend sub ts] is the
    text of the pieces [ts] in which the placeholders bound in [sub] are
    filled in. *)

Module NeonRender.
Import Neon NeonScan.

(** The name in a placeholder. *)
Definition hole (t : token) : option str :=
match t with
| TReg _ name => Some name
| TDt (Some i) => Some (named "dt" i)
| TDt None => Some ("dt" : str)
| TImm => Some ("imm" : str)
| TIndex => Some ("index" : str)
| _ => None
end.

(** The text of a piece in the pattern. *)
Definition text (t : token) : str :=
match t with
| TLit a => [a]
| TDot => "."
| TLbr => "["
| TRbr => "]"
| TSpace => " "
| TComma => ","
| _ => match hole t with Some b => angle b | None => [] end
end.

Definition alist : Type := list (str * str).

Fixpoint assoc (k : str) (l : alist) : option str :=
match l with
| [] => None
| (k', v) :: l' => if str_eqb k' k then Some v else assoc k l'
end.

Definition rend1 (sub : alist) (t : token) : str :=
match hole t with
| Some b => match assoc b sub with Some v => v | None => angle b end
| None => text t
end.

Definition rend (sub : alist) (ts : list token) : str :=
List.concat (map (rend1 sub) ts).

(** The group a placeholder fills when a register is given by number. *)
Definition tname (t : token) : option string :=
match t with
| TReg _ name => Some (gstr "raw_" name)
| TDt (Some i) => Some (gstr "datatype" (str_of_nat i))
| TImm => Some "imm"%string
| TIndex => Some "index"%string
| _ => None
end.

(** What the group holds of the text: a register without its letter. *)
Definition payload (t : token) (v : str) : str :=
match t with
| TReg _ _ => tl v
| _ => v
end.

Definition push1 (sub : alist) (c : caps) (t : token) : caps :=
match tname t, hole t with
| Some n, Some b =>
    match assoc b sub with
    | Some v => (n, payload t v) :: c
    | None => c
    end
| _, _ => c
end.

Definition pushes (sub : alist) (ts : list token) (c : caps) : caps :=
fold_left (push1 sub) ts c.

Definition no_lt (s : str) : bool :=
forallb (fun a => negb (chr_eqb "<" a)) s.

Definition no_gt (s : str) : bool :=
forallb (fun a => negb (chr_eqb ">" a)) s.

Definition no_backslash (s : str) : bool :=
forallb (fun a => negb (chr_eqb backslash a)) s.

(** One or two digits. *)
Definition digits12 (ds : str) : bool :=
match ds with
| [d] => is_digit d
| [d1; d2] => is_digit d1 && is_digit d2
| _ => false
end.

(** A register given by number: [x0] to [x99], [v0] to [v99]. *)
Definition numbered (ty : RegisterType) (arg : str) : bool :=
match ty with
| Flags => true
| GPR => match arg with
         | x :: ds => chr_eqb "x" x && digits12 ds
         | [] => false
         end
| Neon => match arg with
          | x :: ds => chr_eqb "v" x && digits12 ds
          | [] => false
          end
| _ => false
end.

(** The operands of an instruction with the names and types the pattern
  gives them, as [write] lists them. *)
Definition operands (i : Instruction) : list (str * (str * RegisterType)) :=
combine (args_in i) (pattern_inputs i)
++ combine (args_out i) (pattern_outputs i)
++ combine (args_in_out i) (pattern_in_outs i).

Definition numbered_operands (i : Instruction) : bool :=
forallb (fun p => numbered (snd (snd p)) (fst p)) (operands i).

(** The shapes of what a line gives for the placeholders. *)
Definition dt_shaped (v : str) : bool :=
match dt_split v with
| Some (v', []) => str_eqb v' v
| _ => false
end.

Definition imm_shaped (v : str) : bool :=
match v with
| [w] => is_imm w
| a :: v' => is_imm a && negb (is_space a) && forallb is_imm v'
| [] => false
end.

Definition digits1 (v : str) : bool :=
match v with
| d :: ds => is_digit d && forallb is_digit ds
| [] => false
end.

(** The text bound to a placeholder is one that [write] produces for
  it. *)
Definition tok_shape (sub : alist) (t : token) : bool :=
match t with
| TReg l name =>
    match assoc name sub with
    | Some (x :: ds) => chr_eqb x (lower_chr l) && digits12 ds
    | _ => false
    end
| TDt (Some i) =>
    match assoc (named "dt" i) sub with
    | Some v => dt_shaped v
    | None => false
    end
| TDt None => false
| TImm =>
    match assoc ("imm" : str) sub with
    | Some v => imm_shaped v
    | None => false
    end
| TIndex =>
    match assoc ("index" : str) sub with
    | Some v => digits1 v
    | None => false
    end
| _ => true
end.

(** No piece of a pattern holds an opening angle bracket but the
  placeholders, and no name of a placeholder holds a bracket. *)
Definition piece_ok (t : token) : bool :=
match hole t with
| Some b => no_lt b && no_gt b
| None => no_lt (text t)
end.

(** What is filled in holds no opening angle bracket. *)
Definition values_ok (sub : alist) : bool :=
forallb (fun p => no_lt (snd p)) sub.

(** *** The groups of a match, piece by piece *)

Definition inb (g : string) (l : list string) : bool :=
existsb (String.eqb g) l.

Fixpoint nodupb (l : list string) : bool :=
match l with
| [] => true
| g :: l' => negb (inb g l') && nodupb l'
end.

Definition in_str (s : str) (l : list str) : bool := existsb (str_eqb s) l.

Fixpoint nodups (l : list str) : bool :=
match l with
| [] => true
| s :: l' => negb (in_str s l') && nodups l'
end.

(** The groups a piece can fill. *)
Definition names1 (t : token) : list string :=
match t with
| TReg _ name => [gstr "raw_" name; gstr "symbol_" name]
| _ => match tname t with Some g => [g] | None => [] end
end.

Definition names_of (ts : list token) : list string := flat_map names1 ts.

(** The shape of what a piece finds in a line. *)
Definition shape_of (t : token) (v : str) : bool :=
match t with
| TDt (Some _) => dt_shaped v
| TImm => imm_shaped v
| TIndex => digits1 v
| _ => true
end.

(** [caught ts es]: the groups [es], in the order of the line, are what
  the pieces [ts] can find. *)
Fixpoint caught (ts : list token) (es : caps) : bool :=
match ts with
| [] => match es with [] => true | _ => false end
| t :: ts' =>
    match names1 t with
    | [] => caught ts' es
    | ns =>
        match es with
        | (g, v) :: es' => inb g ns && shape_of t v && caught ts' es'
        | [] => false
        end
    end
end.

(** *** The operands [write] fills in *)

Definition oper : Type := (str * (str * RegisterType))%type.

Definition is_flag (ty : RegisterType) : bool := RegisterType_eqb ty Flags.

(** The text for a register given by number: the letter of the
  placeholder in lower case, then the number. *)
Definition reg_text (p : oper) : str * str :=
(fst (snd p), lower_chr (hd " "%char (fst (snd p))) :: tl (fst p)).

Definition regsub (l : list oper) : alist :=
map reg_text (filter (fun p => negb (is_flag (snd (snd p)))) l).

Fixpoint dtsub (k : nat) (l : list str) : alist :=
match l with
| [] => []
| d :: l' => (named "dt" k, upper d) :: dtsub (S k) l'
end.

Definition op_names (pl : list (str * RegisterType)) : list str :=
map fst (filter (fun p => negb (is_flag (snd p))) pl).

Definition dt_ids (ts : list token) : list nat :=
flat_map (fun t => match t with TDt (Some i) => [i] | _ => [] end) ts.

Definition is_TImm (t : token) : bool :=
match t with TImm => true | _ => false end.

Definition is_TIndex (t : token) : bool :=
match t with TIndex => true | _ => false end.

Definition dtg (i : nat) : string := gstr "datatype" (str_of_nat i).

(** What holds of the pattern of every subclass of [AArch64Instruction];
  [pin], [pout] and [pio] are the operands of the three lists with
  their types. *)
Definition tok_ok (names : list str) (t : token) : bool :=
match t with
| TLit a => negb (chr_eqb backslash a)
| TReg l name =>
    in_str name names
    && match name with c :: _ => chr_eqb c l | [] => false end
    && negb (chr_eqb backslash (lower_chr l))
    && negb (chr_eqb "<" (lower_chr l))
| TDt None => false
| _ => true
end.

Definition op_ok (ts : list token) (p : str * RegisterType) : bool :=
is_flag (snd p)
|| ((RegisterType_eqb (snd p) GPR || RegisterType_eqb (snd p) Neon)
    && existsb (fun t => match t with
                         | TReg _ name => str_eqb name (fst p)
                         | _ => false
                         end) ts
    && negb (str_eqb (fst p) "imm") && negb (str_eqb (fst p) "index")
    && negb (startswith "dt" (fst p))).

Definition dt_ok (ts : list token) : bool :=
match dt_ids ts with
| [] | [0] | [0; 1] | [0; 1; 2] => true
| _ => false
end
&& negb (inb "datatype" (names_of ts))
&& forallb (fun i => implb (inb (dtg i) (names_of ts))
                           (existsb (Nat.eqb i) (dt_ids ts))) [0; 1; 2].

Definition pattern_ok (ts : list token)
         (pin pout pio : list (str * RegisterType)) : bool :=
let pl := pin ++ pout ++ pio in
forallb piece_ok ts && wf ts && rej_space ts
&& nodupb (names_of ts) && nodups (op_names pl)
&& forallb (tok_ok (op_names pl)) ts
&& forallb (op_ok ts) pl
&& forallb (fun p => negb (is_flag (snd p))) (pin ++ pio)
&& match pl with [] => false | _ => true end
&& dt_ok ts
&& implb (inb "imm" (names_of ts)) (existsb is_TImm ts)
&& implb (inb "index" (names_of ts)) (existsb is_TIndex ts).

(** The conditions on an object of a subclass, as its constructor
  leaves it. *)
Definition class_ok (self : Instruction) : bool :=
match pattern self with
| Some ptn =>
    match tokens_of ptn with
    | Some ts =>
        str_eqb (rend [] ts) ptn
        && pattern_ok ts (pattern_inputs self) (pattern_outputs self)
                      (pattern_in_outs self)
        && match datatype self, index self, immediate self with
           | None, None, None => true
           | _, _, _ => false
           end
    | None => false
    end
| None => false
end.

End NeonRender.
(** ** The patterns of the variants with a [parse] of their own

    These patterns are sequences of a few kinds of pieces.  [read] reads
    a line by such a sequence from left to right; [text] is the line
    [write] makes of the values of the groups. *)

Module NeonLine.
Import Neon NeonScan.

Inductive piece : Type :=
| PLit (l : str)                    (* the text itself *)
| PSp (some : bool) (shown : str)   (* white space, at least one character
                                     of it if [some]; [shown] is what
                                     [write] puts there *)
| PChr (a : ascii)                  (* one character *)
| PWord (some : bool) (g : string)  (* a group of word characters, at
                                     least one if [some] *)
| PRest (g : string).               (* a group: the rest of the line *)

Definition not_newline (c : ascii) : bool := negb (chr_eqb c newline).

Definition piece_re (p : piece) : regex :=
match p with
| PLit l => Lit l
| PSp true _ => Plus sp
| PSp false _ => Star sp
| PChr a => Chr a
| PWord true g => word g
| PWord false g => Grp g (Star wd)
| PRest g => Grp g (Star dot)
end.

Definition line_re (ps : list piece) : regex := Seqs (map piece_re ps).

Fixpoint read (ps : list piece) (s : str) (c : caps) : option caps :=
match ps with
| [] => Some c
| PLit l :: r =>
    if startswith l s then read r (skipn (List.length l) s) c else None
| PSp true _ :: r =>
    match s with
    | x :: s' => if is_space x then read r (dropw is_space s') c else None
    | [] => None
    end
| PSp false _ :: r => read r (dropw is_space s) c
| PChr a :: r =>
    match s with
    | x :: s' => if chr_eqb a x then read r s' c else None
    | [] => None
    end
| PWord true g :: r =>
    match takew is_word s with
    | [] => None
    | w => read r (dropw is_word s) ((g, w) :: c)
    end
| PWord false g :: r =>
    read r (dropw is_word s) ((g, takew is_word s) :: c)
| PRest g :: r =>
    read r (dropw not_newline s) ((g, takew not_newline s) :: c)
end.

(** The text of the pieces with the values [vals] of the groups, in the
  order of the pieces. *)
Fixpoint text (ps : list piece) (vals : list str) : str :=
match ps with
| [] => []
| PLit l :: r => l ++ text r vals
| PSp _ shown :: r => shown ++ text r vals
| PChr a :: r => a :: text r vals
| PWord _ _ :: r | PRest _ :: r =>
    match vals with
    | v :: vals' => v ++ text r vals'
    | [] => text r []
    end
end.

(** The groups with their values, in the order of the pieces. *)
Fixpoint entries (ps : list piece) (vals : list str) : caps :=
match ps with
| [] => []
| PWord _ g :: r | PRest g :: r =>
    match vals with
    | v :: vals' => (g, v) :: entries r vals'
    | [] => []
    end
| _ :: r => entries r vals
end.

(** The values a line can give to the groups. *)
Fixpoint shaped (ps : list piece) (vals : list str) : bool :=
match ps with
| [] => match vals with [] => true | _ => false end
| PWord some _ :: r =>
    match vals with
    | v :: vals' =>
        forallb is_word v
        && (if some then match v with [] => false | _ => true end else true)
        && shaped r vals'
    | [] => false
    end
| PRest _ :: r =>
    match vals with
    | v :: vals' => forallb not_newline v && shaped r vals'
    | [] => false
    end
| _ :: r => shaped r vals
end.

(** What stands behind a piece. *)
Definition optional (p : piece) : bool :=
match p with
| PSp false _ | PWord false _ | PRest _ => true
| _ => false
end.

Definition total (r : list piece) : bool := forallb optional r.

(** [read r] refuses what starts with a word character. *)
Fixpoint rejw (r : list piece) : bool :=
match r with
| PLit (x :: _) :: _ => negb (is_word x)
| PChr a :: _ => negb (is_word a)
| PSp true _ :: _ => true
| PSp false _ :: r' => rejw r'
| _ => false
end.

(** [read r] refuses what starts with white space, or reads it as it
  reads what is behind the white space. *)
Definition soft (r : list piece) : bool :=
match r with
| [] => true
| PLit (x :: _) :: _ => negb (is_space x)
| PChr a :: _ => negb (is_space a)
| PWord true _ :: _ => true
| PSp false _ :: _ => true
| PWord false _ :: PSp false _ :: r' => rejw r'
| _ => false
end.

(** The sequences of pieces that [read] reads as the regular expression
  does. *)
Fixpoint wfp (ps : list piece) : bool :=
match ps with
| [] => true
| PSp _ _ :: r => (soft r || total r) && wfp r
| PWord _ _ :: r => (rejw r || total r) && wfp r
| PRest _ :: r => total r && wfp r
| _ :: r => wfp r
end.

(** The text of [r] starts with no white space, with no word
  character. *)
Fixpoint off_space (r : list piece) : bool :=
match r with
| [] => true
| PLit [] :: r' => off_space r'
| PLit (x :: _) :: _ => negb (is_space x)
| PChr a :: _ => negb (is_space a)
| PWord true _ :: _ => true
| PWord false _ :: r' => off_space r'
| PSp _ [] :: r' => off_space r'
| _ => false
end.

Fixpoint off_word (r : list piece) : bool :=
match r with
| [] => true
| PLit [] :: r' => off_word r'
| PLit (x :: _) :: _ => negb (is_word x)
| PChr a :: _ => negb (is_word a)
| PSp _ [] :: r' => off_word r'
| PSp _ (x :: _) :: _ => negb (is_word x)
| _ => false
end.

(** The sequences of pieces whose text is read back as it was
  written. *)
Fixpoint sep_ok (ps : list piece) : bool :=
match ps with
| [] => true
| PSp some shown :: r =>
    forallb is_space shown
    && (if some then match shown with [] => false | _ => true end
        else true)
    && off_space r && sep_ok r
| PWord _ _ :: r => off_word r && sep_ok r
| PRest _ :: r => match r with [] => true | _ => false end
| _ :: r => sep_ok r
end.

(** The pieces of the patterns. *)
Definition shifted_pieces (mn : str) : list piece :=
[PLit mn; PSp true " "; PWord true "dst"; PSp false ""; PChr ",";
 PSp false " "; PWord true "src"; PSp false ""; PChr ","; PSp false " ";
 PChr "#"; PRest "shift"].

Definition mov_imm_pieces : list piece :=
[PLit "mov"; PSp true " "; PWord true "dst"; PSp false ""; PChr ",";
 PSp false " "; PChr "#"; PWord false "immediate"].

Definition fcsel_dform_pieces : list piece :=
[PLit "fcsel_dform"; PSp true " "; PWord true "dst"; PSp false "";
 PChr ","; PSp false " "; PWord true "src1"; PSp false ""; PChr ",";
 PSp false " "; PWord true "src2"; PSp false ""; PChr ","; PSp false " ";
 PLit "eq"].

Definition mov_vtox_pieces : list piece :=
[PLit "mov"; PSp true " "; PWord true "dst"; PSp false ""; PChr ",";
 PSp false " "; PWord true "src"; PSp false ""; PChr "."; PChr "d";
 PSp false ""; PChr "["; PSp false ""; PWord false "immediate";
 PSp false ""; PChr "]"].

Definition mov_xtov_pieces : list piece :=
[PLit "mov"; PSp true " "; PSp false ""; PWord true "dst"; PSp false "";
 PChr "."; PChr "d"; PSp false ""; PChr "["; PSp false "";
 PWord false "immediate"; PSp false ""; PChr "]"; PSp false ""; PChr ",";
 PSp false " "; PWord true "src"; PSp false ""].

Definition lane_pieces (mn : str) : list piece :=
[PLit mn; PSp true " "; PWord true "dst"; PSp false ""; PChr ",";
 PChr " "; PWord true "src"; PSp false ""; PChr ","; PSp false " ";
 PWord false "lane"].

End NeonLine.

(** ** More of Python: integers, slices, strings *)

(** [str(z)] *)
Definition str_of_Z (z : Z) : str :=
  if (z <? 0)%Z then "-"%char :: str_of_nat (Z.abs_nat z)
  else str_of_nat (Z.to_nat z).

(** The position a slice bound stands for in a list of [n] elements. *)
Definition slice_bound (n : nat) (i : Z) : nat :=
  if (i <? 0)%Z then Z.to_nat (Z.max 0 (i + Z.of_nat n))
  else Nat.min n (Z.to_nat i).

(** [l[lo:hi]], an absent bound being [None]. *)
Definition py_slice (A : Type) (lo hi : option Z) (l : list A) : list A :=
  let n := List.length l in
  let a := match lo with Some i => slice_bound n i | None => 0 end in
  let b := match hi with Some i => slice_bound n i | None => n end in
  firstn (b - a) (skipn a l).

(** The position of [l[i]]; [None] is the [IndexError]. *)
Definition py_index (n : nat) (i : Z) : option nat :=
  if (i <? 0)%Z
  then (if (0 <=? i + Z.of_nat n)%Z then Some (Z.to_nat (i + Z.of_nat n))
        else None)
  else (if (i <? Z.of_nat n)%Z then Some (Z.to_nat i) else None).

Fixpoint set_nth (A : Type) (k : nat) (v : A) (l : list A) : list A :=
  match l, k with
  | [], _ => []
  | _ :: l', O => v :: l'
  | x :: l', S k' => x :: set_nth k' v l'
  end.

(** [l * n] *)
Fixpoint repeat_list (A : Type) (l : list A) (n : nat) : list A :=
  match n with
  | O => []
  | S n' => l ++ repeat_list l n'
  end.

(** [s.split(sep)[0]] for a non-empty [sep]. *)
Fixpoint before (sep s : str) : str :=
  match s with
  | [] => []
  | c :: s' => if startswith sep s then [] else c :: before sep s'
  end.

Fixpoint lstrip (s : str) : str :=
  match s with
  | c :: s' => if is_space c then lstrip s' else s
  | [] => []
  end.

(** [s.strip()] *)
Definition strip (s : str) : str := rev (lstrip (rev (lstrip s))).

(** [f"{s:{w}s}"]: padded with blanks on the right to the width [w]. *)
Definition ljust (w : nat) (s : str) : str :=
  s ++ List.repeat " "%char (w - List.length s).

(** The text of a list of plain strings, ['a', 'b']. *)
Definition repr_list (l : list str) : str :=
  "["%char :: join ("," %char :: [" "%char])
                   (map (fun s => "'"%char :: s ++ ["'"%char]) l)
    ++ ["]"%char].

(** A set of strings or of integers, as a list; only its members count. *)
Definition union (A : Type) (eqb : A -> A -> bool) (a b : list A) : list A :=
  a ++ filter (fun x => negb (existsb (eqb x) a)) b.

(** ** The heuristic driver ([heuristics.py]) *)

Module Heuristics.

Local Open Scope Z_scope.

Record Constraints : Type := mk_Constraints {
  stalls_allowed : Z;
  stalls_minimum_attempt : Z;
  stalls_first_attempt : Z;
  stalls_maximum_attempt : Z;
  stalls_precision : Z;
  stalls_timeout_below_precision : option Z;
  allow_reordering : bool;
  allow_renaming : bool
}.

Definition set_stalls_allowed (v : Z) (r : Constraints) : Constraints :=
    mk_Constraints v (stalls_minimum_attempt r) (stalls_first_attempt r)
     (stalls_maximum_attempt r) (stalls_precision r)
     (stalls_timeout_below_precision r) (allow_reordering r)
     (allow_renaming r).
Definition set_allow_reordering (v : bool) (r : Constraints) : Constraints :=
    mk_Constraints (stalls_allowed r) (stalls_minimum_attempt r)
     (stalls_first_attempt r) (stalls_maximum_attempt r)
     (stalls_precision r) (stalls_timeout_below_precision r) v
     (allow_renaming r).
Definition set_allow_renaming (v : bool) (r : Constraints) : Constraints :=
    mk_Constraints (stalls_allowed r) (stalls_minimum_attempt r)
     (stalls_first_attempt r) (stalls_maximum_attempt r)
     (stalls_precision r) (stalls_timeout_below_precision r)
     (allow_reordering r) v.

Record Hints : Type := mk_Hints {
  ext_bsearch_remember_successes : bool;
  rename_hint_orig_rename : bool;
  order_hint_orig_order : bool
}.

Definition set_rename_hint_orig_rename (v : bool) (r : Hints) : Hints :=
    mk_Hints (ext_bsearch_remember_successes r) v
     (order_hint_orig_order r).
Definition set_order_hint_orig_order (v : bool) (r : Hints) : Hints :=
    mk_Hints (ext_bsearch_remember_successes r)
     (rename_hint_orig_rename r) v.

Record SwPipelining : Type := mk_SwPipelining {
  enabled : bool;
  unroll : Z;
  halving_heuristic : bool;
  halving_heuristic_periodic : bool;
  optimize_preamble : bool;
  optimize_postamble : bool;
  minimize_overlapping : bool;
  allow_pre : bool;
  allow_post : bool
}.

Definition set_enabled (v : bool) (r : SwPipelining) : SwPipelining :=
    mk_SwPipelining v (unroll r) (halving_heuristic r)
     (halving_heuristic_periodic r) (optimize_preamble r)
     (optimize_postamble r) (minimize_overlapping r) (allow_pre r)
     (allow_post r).
Definition set_minimize_overlapping (v : bool) (r : SwPipelining) : SwPipelining :=
    mk_SwPipelining (enabled r) (unroll r) (halving_heuristic r)
     (halving_heuristic_periodic r) (optimize_preamble r)
     (optimize_postamble r) v (allow_pre r) (allow_post r).
Definition set_allow_pre (v : bool) (r : SwPipelining) : SwPipelining :=
    mk_SwPipelining (enabled r) (unroll r) (halving_heuristic r)
     (halving_heuristic_periodic r) (optimize_preamble r)
     (optimize_postamble r) (minimize_overlapping r) v (allow_post r).
Definition set_allow_post (v : bool) (r : SwPipelining) : SwPipelining :=
    mk_SwPipelining (enabled r) (unroll r) (halving_heuristic r)
     (halving_heuristic_periodic r) (optimize_preamble r)
     (optimize_postamble r) (minimize_overlapping r) (allow_pre r) v.

Record Config : Type := mk_Config {
  constraints : Constraints;
  hints : Hints;
  sw_pipelining : SwPipelining;
  timeout : option Z;
  variable_size : bool;
  ignore_objective : bool;
  has_objective : bool;
  inputs_are_outputs : bool;
  outputs : list str;
  rename_inputs : list (str * str);
  rename_outputs : list (str * str);
  visualize_reordering : bool;
  log_dir : str;
  Arch : str;
  Target : str;
  split_heuristic : bool;
  split_heuristic_factor : Q;
  split_heuristic_stepsize : option Q;
  split_heuristic_repeat : Z;
  split_heuristic_region : list Q;
  split_heuristic_random : bool;
  split_heuristic_chunks : list (Q * Q);
  split_heuristic_bottom_to_top : bool;
  split_heuristic_optimize_seam : Z;
  split_heuristic_abort_cycle_at : option Z;
  split_heuristic_preprocess_naive_interleaving : bool;
  split_heuristic_visualize_stalls : bool;
  split_heuristic_visualize_units : bool
}.

Definition set_constraints (v : Constraints) (r : Config) : Config :=
    mk_Config v (hints r) (sw_pipelining r) (timeout r) (variable_size r)
     (ignore_objective r) (has_objective r) (inputs_are_outputs r)
     (outputs r) (rename_inputs r) (rename_outputs r)
     (visualize_reordering r) (log_dir r) (Arch r) (Target r)
     (split_heuristic r) (split_heuristic_factor r)
     (split_heuristic_stepsize r) (split_heuristic_repeat r)
     (split_heuristic_region r) (split_heuristic_random r)
     (split_heuristic_chunks r) (split_heuristic_bottom_to_top r)
     (split_heuristic_optimize_seam r) (split_heuristic_abort_cycle_at r)
     (split_heuristic_preprocess_naive_interleaving r)
     (split_heuristic_visualize_stalls r)
     (split_heuristic_visualize_units r).
Definition set_hints (v : Hints) (r : Config) : Config :=
    mk_Config (constraints r) v (sw_pipelining r) (timeout r)
     (variable_size r) (ignore_objective r) (has_objective r)
     (inputs_are_outputs r) (outputs r) (rename_inputs r)
     (rename_outputs r) (visualize_reordering r) (log_dir r) (Arch r)
     (Target r) (split_heuristic r) (split_heuristic_factor r)
     (split_heuristic_stepsize r) (split_heuristic_repeat r)
     (split_heuristic_region r) (split_heuristic_random r)
     (split_heuristic_chunks r) (split_heuristic_bottom_to_top r)
     (split_heuristic_optimize_seam r) (split_heuristic_abort_cycle_at r)
     (split_heuristic_preprocess_naive_interleaving r)
     (split_heuristic_visualize_stalls r)
     (split_heuristic_visualize_units r).
Definition set_sw_pipelining (v : SwPipelining) (r : Config) : Config :=
    mk_Config (constraints r) (hints r) v (timeout r) (variable_size r)
     (ignore_objective r) (has_objective r) (inputs_are_outputs r)
     (outputs r) (rename_inputs r) (rename_outputs r)
     (visualize_reordering r) (log_dir r) (Arch r) (Target r)
     (split_heuristic r) (split_heuristic_factor r)
     (split_heuristic_stepsize r) (split_heuristic_repeat r)
     (split_heuristic_region r) (split_heuristic_random r)
     (split_heuristic_chunks r) (split_heuristic_bottom_to_top r)
     (split_heuristic_optimize_seam r) (split_heuristic_abort_cycle_at r)
     (split_heuristic_preprocess_naive_interleaving r)
     (split_heuristic_visualize_stalls r)
     (split_heuristic_visualize_units r).
Definition set_timeout (v : option Z) (r : Config) : Config :=
    mk_Config (constraints r) (hints r) (sw_pipelining r) v
     (variable_size r) (ignore_objective r) (has_objective r)
     (inputs_are_outputs r) (outputs r) (rename_inputs r)
     (rename_outputs r) (visualize_reordering r) (log_dir r) (Arch r)
     (Target r) (split_heuristic r) (split_heuristic_factor r)
     (split_heuristic_stepsize r) (split_heuristic_repeat r)
     (split_heuristic_region r) (split_heuristic_random r)
     (split_heuristic_chunks r) (split_heuristic_bottom_to_top r)
     (split_heuristic_optimize_seam r) (split_heuristic_abort_cycle_at r)
     (split_heuristic_preprocess_naive_interleaving r)
     (split_heuristic_visualize_stalls r)
     (split_heuristic_visualize_units r).
Definition set_variable_size (v : bool) (r : Config) : Config :=
    mk_Config (constraints r) (hints r) (sw_pipelining r) (timeout r) v
     (ignore_objective r) (has_objective r) (inputs_are_outputs r)
     (outputs r) (rename_inputs r) (rename_outputs r)
     (visualize_reordering r) (log_dir r) (Arch r) (Target r)
     (split_heuristic r) (split_heuristic_factor r)
     (split_heuristic_stepsize r) (split_heuristic_repeat r)
     (split_heuristic_region r) (split_heuristic_random r)
     (split_heuristic_chunks r) (split_heuristic_bottom_to_top r)
     (split_heuristic_optimize_seam r) (split_heuristic_abort_cycle_at r)
     (split_heuristic_preprocess_naive_interleaving r)
     (split_heuristic_visualize_stalls r)
     (split_heuristic_visualize_units r).
Definition set_ignore_objective (v : bool) (r : Config) : Config :=
    mk_Config (constraints r) (hints r) (sw_pipelining r) (timeout r)
     (variable_size r) v (has_objective r) (inputs_are_outputs r)
     (outputs r) (rename_inputs r) (rename_outputs r)
     (visualize_reordering r) (log_dir r) (Arch r) (Target r)
     (split_heuristic r) (split_heuristic_factor r)
     (split_heuristic_stepsize r) (split_heuristic_repeat r)
     (split_heuristic_region r) (split_heuristic_random r)
     (split_heuristic_chunks r) (split_heuristic_bottom_to_top r)
     (split_heuristic_optimize_seam r) (split_heuristic_abort_cycle_at r)
     (split_heuristic_preprocess_naive_interleaving r)
     (split_heuristic_visualize_stalls r)
     (split_heuristic_visualize_units r).
Definition set_inputs_are_outputs (v : bool) (r : Config) : Config :=
    mk_Config (constraints r) (hints r) (sw_pipelining r) (timeout r)
     (variable_size r) (ignore_objective r) (has_objective r) v
     (outputs r) (rename_inputs r) (rename_outputs r)
     (visualize_reordering r) (log_dir r) (Arch r) (Target r)
     (split_heuristic r) (split_heuristic_factor r)
     (split_heuristic_stepsize r) (split_heuristic_repeat r)
     (split_heuristic_region r) (split_heuristic_random r)
     (split_heuristic_chunks r) (split_heuristic_bottom_to_top r)
     (split_heuristic_optimize_seam r) (split_heuristic_abort_cycle_at r)
     (split_heuristic_preprocess_naive_interleaving r)
     (split_heuristic_visualize_stalls r)
     (split_heuristic_visualize_units r).
Definition set_outputs (v : list str) (r : Config) : Config :=
    mk_Config (constraints r) (hints r) (sw_pipelining r) (timeout r)
     (variable_size r) (ignore_objective r) (has_objective r)
     (inputs_are_outputs r) v (rename_inputs r) (rename_outputs r)
     (visualize_reordering r) (log_dir r) (Arch r) (Target r)
     (split_heuristic r) (split_heuristic_factor r)
     (split_heuristic_stepsize r) (split_heuristic_repeat r)
     (split_heuristic_region r) (split_heuristic_random r)
     (split_heuristic_chunks r) (split_heuristic_bottom_to_top r)
     (split_heuristic_optimize_seam r) (split_heuristic_abort_cycle_at r)
     (split_heuristic_preprocess_naive_interleaving r)
     (split_heuristic_visualize_stalls r)
     (split_heuristic_visualize_units r).
Definition set_rename_inputs (v : list (str * str)) (r : Config) : Config :=
    mk_Config (constraints r) (hints r) (sw_pipelining r) (timeout r)
     (variable_size r) (ignore_objective r) (has_objective r)
     (inputs_are_outputs r) (outputs r) v (rename_outputs r)
     (visualize_reordering r) (log_dir r) (Arch r) (Target r)
     (split_heuristic r) (split_heuristic_factor r)
     (split_heuristic_stepsize r) (split_heuristic_repeat r)
     (split_heuristic_region r) (split_heuristic_random r)
     (split_heuristic_chunks r) (split_heuristic_bottom_to_top r)
     (split_heuristic_optimize_seam r) (split_heuristic_abort_cycle_at r)
     (split_heuristic_preprocess_naive_interleaving r)
     (split_heuristic_visualize_stalls r)
     (split_heuristic_visualize_units r).
Definition set_rename_outputs (v : list (str * str)) (r : Config) : Config :=
    mk_Config (constraints r) (hints r) (sw_pipelining r) (timeout r)
     (variable_size r) (ignore_objective r) (has_objective r)
     (inputs_are_outputs r) (outputs r) (rename_inputs r) v
     (visualize_reordering r) (log_dir r) (Arch r) (Target r)
     (split_heuristic r) (split_heuristic_factor r)
     (split_heuristic_stepsize r) (split_heuristic_repeat r)
     (split_heuristic_region r) (split_heuristic_random r)
     (split_heuristic_chunks r) (split_heuristic_bottom_to_top r)
     (split_heuristic_optimize_seam r) (split_heuristic_abort_cycle_at r)
     (split_heuristic_preprocess_naive_interleaving r)
     (split_heuristic_visualize_stalls r)
     (split_heuristic_visualize_units r).
Definition set_visualize_reordering (v : bool) (r : Config) : Config :=
    mk_Config (constraints r) (hints r) (sw_pipelining r) (timeout r)
     (variable_size r) (ignore_objective r) (has_objective r)
     (inputs_are_outputs r) (outputs r) (rename_inputs r)
     (rename_outputs r) v (log_dir r) (Arch r) (Target r)
     (split_heuristic r) (split_heuristic_factor r)
     (split_heuristic_stepsize r) (split_heuristic_repeat r)
     (split_heuristic_region r) (split_heuristic_random r)
     (split_heuristic_chunks r) (split_heuristic_bottom_to_top r)
     (split_heuristic_optimize_seam r) (split_heuristic_abort_cycle_at r)
     (split_heuristic_preprocess_naive_interleaving r)
     (split_heuristic_visualize_stalls r)
     (split_heuristic_visualize_units r).

(** What the driver reads of a [Result] of the solver. *)
Record Result : Type := mk_Result {
  code : list str;
  num_exceptional_iterations : Z;
  preamble : list str;
  postamble : list str;
  kernel_input_output : list str;
  stalls : Z;
  stall_positions : list Z;
  orig_inputs : list str;
  input_renamings : list (str * str)
}.

(** Source code is passed around as one text or as a list of lines. *)
Inductive source : Type :=
| Text (s : str)
| Lines (l : list str).

(** The keyword arguments handed on to [core.optimize]; [None] is a
    keyword that is not given. *)
Record kwargs : Type := mk_kwargs {
  prefix_len : option Z;
  suffix_len : option Z;
  retry : option bool
}.

Definition no_kwargs : kwargs := mk_kwargs None None None.

(** Configurations are objects: they live in a heap and are named by
    their place in it. *)
Definition loc : Type := nat.

Inductive level : Type := Debug | Info | Warning | Error.

Record Logger : Type := mk_Logger { lname : str }.

(** [logger.getChild(suffix)] *)
Definition getChild (lg : Logger) (suffix : str) : Logger :=
  mk_Logger (lname lg ++ ("." : str) ++ suffix).

(** The state the driver works on: the configuration objects, the log
    written so far and the files written so far. *)
Record world : Type := mk_world {
  heap : list Config;
  logged : list (level * str * str);
  files : list (str * str)
}.

(** The exceptions of the driver.  [Diverges] stands for a loop that
    does not end, [BadReference] for a configuration that is not in the
    heap and [OutOfFuel] for a bounded loop of the model that was cut
    short; the last two do not occur (see the properties). *)
Inductive exn : Type :=
| BinarySearchLimitException
| NameError (name : string)
| UnboundLocalError (name : string)
| AssertionError
| Exception (msg : string)
| SolverError
| TypeError
| IndexError
| ValueError
| ZeroDivisionError
| Diverges
| BadReference
| OutOfFuel.

(** A computation of the driver: it ends in a value or in an exception,
    and leaves a state in both cases. *)
Definition M (A : Type) : Type := world -> (exn + A) * world.

Definition ret (A : Type) (a : A) : M A := fun w => (inr a, w).

Definition bind (A B : Type) (m : M A) (k : A -> M B) : M B :=
  fun w => match m w with
           | (inr a, w') => k a w'
           | (inl e, w') => (inl e, w')
           end.

Definition raise (A : Type) (e : exn) : M A := fun w => (inl e, w).
Arguments raise {A} e.

(** [try: m except BinarySearchLimitException: h] *)
Definition on_limit (A : Type) (m : M A) (h : M A) : M A :=
  fun w => match m w with
           | (inl BinarySearchLimitException, w') => h w'
           | r => r
           end.

Notation "x <- m ;; k" := (bind m (fun x => k))
  (at level 61, m at next level, right associativity).
Notation "m ;;; k" := (bind m (fun _ => k))
  (at level 61, right associativity).

(** Reading a configuration object. *)
Definition getc (l : loc) : M Config :=
  fun w => match nth_error (heap w) l with
           | Some c => (inr c, w)
           | None => (inl BadReference, w)
           end.

(** An assignment to an attribute of the object at [l]. *)
Definition modify (l : loc) (f : Config -> Config) : M unit :=
  fun w => match nth_error (heap w) l with
           | Some c =>
               (inr tt, mk_world (set_nth l (f c) (heap w)) (logged w)
                                 (files w))
           | None => (inl BadReference, w)
           end.

(** [conf.copy()]: a new object with the same contents. *)
Definition copy (l : loc) : M loc :=
  fun w => match nth_error (heap w) l with
           | Some c =>
               (inr (List.length (heap w)),
                mk_world (heap w ++ [c]) (logged w) (files w))
           | None => (inl BadReference, w)
           end.

(** [logger.debug(msg)], [logger.info(msg)], ... *)
Definition log (lv : level) (lg : Logger) (msg : str) : M unit :=
  fun w => (inr tt,
            mk_world (heap w) (logged w ++ [(lv, lname lg, msg)]) (files w)).

Fixpoint log_each (lv : level) (lg : Logger) (msgs : list str) : M unit :=
  match msgs with
  | [] => ret tt
  | m :: ms => log lv lg m ;;; log_each lv lg ms
  end.

(** [f = open(path, "w"); f.write(text); f.close()] *)
Definition write_file (path text : str) : M unit :=
  fun w => (inr tt,
            mk_world (heap w) (logged w)
                     ((path, text)
                        :: filter (fun f => negb (str_eqb (fst f) path))
                                  (files w))).

(** A name that is bound nowhere. *)
Definition unbound (A : Type) (name : string) : M A :=
  raise (NameError name).
Arguments unbound {A} name.

Definition assert (b : bool) : M unit :=
  if b then ret tt else raise AssertionError.

Definition of_option (A : Type) (e : exn) (o : option A) : M A :=
  match o with Some a => ret a | None => raise e end.

(** What [core.optimize] comes to: a result, no result, or an
    exception. *)
Inductive outcome : Type :=
| Solved (r : Result)
| Unsolved
| Crashed.

(** A [SlothyBase] object. *)
Record Core : Type := mk_Core {
  core_config : loc;
  core_source : source;
  core_kwargs : kwargs;
  core_result : option Result
}.

(** A [DFGConfig] object: the configuration it was made from, and the
    attributes assigned to it since. *)
Record DFGConfig : Type := mk_DFGConfig {
  slothy_config : Config;
  dfg_outputs : option (list str);
  dfg_inputs_are_outputs : option bool
}.

Definition DFGConfig_of (c : Config) : DFGConfig :=
  mk_DFGConfig c None None.

(** What the driver reads of a dataflow graph. *)
Record DFG : Type := mk_DFG {
  dfg_in : list str;
  dfg_out : list str;
  dfg_nodes : nat
}.

(** The course of a binary search: an attempt with a number of stalls
    and a timeout, to be continued according to its success; or the end
    of the search, with the last successful attempt as its result; or
    the limit being passed. *)
Inductive bs_plan : Type :=
| Ask (stalls : Z) (timeout : option Z) (next : bool -> bs_plan)
| Stop
| Limit.

(** [self] in [optimize_binsearch_core], were it bound. *)
Record SelfObject : Type := mk_SelfObject {
  self_config : loc;
  self_logger : Logger
}.

Definition txt (s : string) : str := of_string s.

Section Driver.

(** *** What the driver is handed from elsewhere *)

(** [SlothyBase(Arch, Target, config=c).optimize(src, **kwargs)], as a
    function of the configuration [c] at the time of the call. *)
Variable solver : Config -> source -> kwargs -> outcome.

(** [core.retry()], as a function of the configuration of [core] at
    the time of the call and of what [core] was run on before. *)
Variable solver_retry : Config -> source -> kwargs -> Result -> outcome.

(** Modelled from the spec: [binary_search] of [slothy.helper], the
    search over the number of stalls "upward for feasibility then
    downward to the minimum".  Its arguments are [minimum], [start],
    [threshold], [precision] and [timeout_below_precision]; it asks for
    attempts one after the other and returns the number of stalls and
    the core of the last attempt that succeeded, or raises
    [BinarySearchLimitException]. *)
Variable binary_search : Z -> Z -> Z -> Z -> option Z -> bs_plan.

(** [DFG(src, logger, dfgc)]; [None] where the constructor raises. *)
Variable dfg : DFGConfig -> source -> option DFG.

(** Reading [dfgc.outputs]. *)
Variable dfg_config_outputs : DFGConfig -> list str.

(** [AsmHelper.reduce_source] *)
Variable reduce_source : source -> list str.

(** The lines [conf.log] hands to its argument. *)
Variable config_lines : Config -> list str.

(** The order [_naive_reordering] computes from the depths in the
    dataflow graph; [None] where it raises. *)
Variable naive_order : Config -> list str -> option (list str).

(** The lines [print_stalls] logs (floating point); [None] where it
    raises. *)
Variable stall_chart : list Z -> nat -> Q -> option (list str).

(** [make_idx_list_consecutive(factor, increment)] on a body of the
    given length (floating point); [None] where its loop does not
    end. *)
Variable idx_list_consecutive : Q -> Q -> nat -> option (list (Z * Z)).

(** [Heuristics._idxs_from_fractions] (floating point). *)
Variable idxs_from_fractions : list Q -> nat -> list Z.

(** [round(len_total / split_factor)] (floating point). *)
Variable round_div : nat -> Q -> Z.

(** [random.randint(a, b)] at the given turn of the loop; [None]
    where it raises. *)
Variable randint : nat -> Z -> Z -> option Z.

(** *** Small helpers *)

(** [1 / x] on numbers (the result is handed to the parameters
    only). *)
Definition recip (x : Q) : M Q :=
  if Qeq_bool x 0 then raise ZeroDivisionError else ret (Qinv x).

Definition run_solver (o : outcome) : M (option Result) :=
  match o with
  | Solved r => ret (Some r)
  | Unsolved => ret None
  | Crashed => raise SolverError
  end.

(** [DFG(src, logger, dfgc)] *)
Definition new_dfg (d : DFGConfig) (src : source) : M DFG :=
  of_option SolverError (dfg d src).

(** [core.result] *)
Definition result_of (c : Core) : M Result :=
  of_option (Exception "core has no result") (core_result c).

(** [Heuristics._dump] *)
Definition strip_comments (sl : list str) : list str :=
  map (fun s => strip (before (txt "//") s)) sl.

Definition _dump (name : str) (s : source) (lg : Logger)
           (err no_comments : bool) : M unit :=
  let lv := if err then Error else Debug in
  log lv lg (txt "Dump: " ++ name) ;;;
  let sl := match s with Text t => splitlines t | Lines l => l end in
  let sl := if no_comments then strip_comments sl else sl in
  log_each lv lg (map (fun l => txt "> " ++ l) sl).

(** [conf.log(fun)] *)
Definition conf_log (conf : loc) (f : str -> M unit) : M unit :=
  cv <- getc conf ;;
  (fix each (ls : list str) : M unit :=
     match ls with
     | [] => ret tt
     | l :: ls' => f l ;;; each ls'
     end) (config_lines cv).

(** *** The binary search *)

(** [try_with_stalls] inside [optimize_binsearch_core]; [last] is
    [last_successful], returned with its new value. *)
Definition try_with_stalls (src : source) (lg : Logger) (conf : loc)
           (kw : kwargs) (last : option (list str))
           (stalls : Z) (timeout : option Z)
  : M (bool * Core * option (list str)) :=
  log Info lg (txt "Attempt optimization with max " ++ str_of_Z stalls
                 ++ txt " stalls...") ;;;
  c <- copy conf ;;
  modify c (fun x =>
              set_constraints (set_stalls_allowed stalls (constraints x)) x) ;;;
  cv <- getc c ;;
  (if ext_bsearch_remember_successes (hints cv)
   then
     modify c (fun x =>
                 set_hints (set_rename_hint_orig_rename true (hints x)) x) ;;;
     modify c (fun x =>
                 set_hints (set_order_hint_orig_order true (hints x)) x)
   else ret tt) ;;;
  match timeout with
  | Some t => modify c (set_timeout (Some t))
  | None => ret tt
  end ;;;
  let src' := match last with Some l => Lines l | None => src end in
  cv <- getc c ;;
  r <- run_solver (solver cv src' kw) ;;
  let core := mk_Core c src' kw r in
  match r with
  | Some res =>
      if ext_bsearch_remember_successes (hints cv)
      then ret (true, core, Some (code res))
      else ret (true, core, last)
  | None => ret (false, core, last)
  end.

(** [binary_search(try_with_stalls, ...)]: [best] is the last attempt
    that succeeded. *)
Fixpoint run_plan (plan : bs_plan)
         (try : option (list str) -> Z -> option Z
                -> M (bool * Core * option (list str)))
         (last : option (list str)) (best : option (Z * Core))
  : M (Z * Core) :=
  match plan with
  | Ask stalls timeout next =>
      r <- try last stalls timeout ;;
      let '(ok, core, last') := r in
      run_plan (next ok) try last'
               (if ok then Some (stalls, core) else best)
  | Stop => of_option BinarySearchLimitException best
  | Limit => raise BinarySearchLimitException
  end.

(** The handler of [BinarySearchLimitException] in
    [optimize_binsearch_core].  The name [self] is bound nowhere in
    the function, so the handler ends there, in a [NameError]. *)
Definition on_exhaustion (src : source) (lg : Logger) (conf : loc)
           (logger_name : str) : M (option (Z * Core)) :=
  log Error lg (txt "Exceeded stall limit without finding a working solution") ;;;
  log Error lg (txt "Here's what you asked me to optimize:") ;;;
  _dump (txt "Original source code") src lg true true ;;;
  log Error lg (txt "Configuration") ;;;
  conf_log conf (log Error lg) ;;;
  self <- unbound "self" ;;
  sc <- getc (self_config self) ;;
  let err_file := log_dir sc ++ txt "/" ++ logger_name ++ txt "_ERROR.s" in
  cv <- getc conf ;;
  write_file err_file
    (List.concat (map (fun l => txt "// " ++ l ++ [newline]) (config_lines cv))
       ++ join [newline] (match src with
                          | Text t => map (fun c => [c]) t
                          | Lines l => l
                          end)) ;;;
  log Error (self_logger self)
      (txt "Stored this information in " ++ err_file) ;;;
  ret None.

(** [Heuristics.optimize_binsearch_core]; the value [None] is what a
    function returns that runs off its end. *)
Definition optimize_binsearch_core (src : source) (lg : Logger)
           (conf : loc) (kw : kwargs) : M (option (Z * Core)) :=
  let logger_name := replace (txt ".") (txt "_") (lname lg) in
  cv <- getc conf ;;
  let k := constraints cv in
  on_limit
    (r <- run_plan (binary_search (stalls_minimum_attempt k - 1)
                                  (stalls_first_attempt k)
                                  (stalls_maximum_attempt k)
                                  (stalls_precision k)
                                  (stalls_timeout_below_precision k))
                   (try_with_stalls src lg conf kw) None None ;;
     ret (Some r))
    (on_exhaustion src lg conf logger_name).

(** [Heuristics.optimize_binsearch_external] *)
Definition optimize_binsearch_external (src : source) (lg : Logger)
           (conf : loc) (flexible : bool) (kw : kwargs) : M Result :=
  if negb flexible then
    cv <- getc conf ;;
    r <- run_solver (solver cv src no_kwargs) ;;
    match r with
    | None => raise (Exception "Optimization failed")
    | Some res => ret res
    end
  else
    log Info lg (txt "Perform binary search for minimal number of stalls...") ;;;
    c <- copy conf ;;
    modify c (set_ignore_objective true) ;;;
    found <- optimize_binsearch_core src lg c kw ;;
    match found with
    | None => raise TypeError
    | Some (min_stalls, core) =>
        cv <- getc conf ;;
        if negb (has_objective cv) then result_of core
        else
          log Info lg (txt "Optimize again with minimal number of "
                         ++ str_of_Z min_stalls
                         ++ txt " stalls, with objective...") ;;;
          first_result <- result_of core ;;
          modify (core_config core) (set_ignore_objective false) ;;;
          cc <- getc (core_config core) ;;
          r <- run_solver (solver_retry cc (core_source core)
                                        (core_kwargs core) first_result) ;;
          match r with
          | None =>
              log Warning lg (txt "Re-optimization with objective at minimum number of stalls failed -- should not happen? Will just pick previous result...") ;;;
              ret first_result
          | Some res => ret res
          end
    end.

(** The [while True] loop of [optimize_binsearch_internal]: the
    result of the first attempt that succeeds. *)
Fixpoint internal_search (fuel : nat) (src : source) (lg : Logger)
         (conf : loc) (kw : kwargs) (cur_attempt : Z) : M Result :=
  match fuel with
  | O => raise OutOfFuel
  | S fuel' =>
      c <- copy conf ;;
      modify c (set_variable_size true) ;;;
      modify c (fun x =>
                  set_constraints
                    (set_stalls_allowed cur_attempt (constraints x)) x) ;;;
      log Info lg (txt "Attempt optimization with max "
                     ++ str_of_Z cur_attempt ++ txt " stalls...") ;;;
      cv <- getc c ;;
      r <- run_solver (solver cv src kw) ;;
      match r with
      | Some res => ret res
      | None =>
          let cur_attempt := Z.max 1 (cur_attempt * 2) in
          cf <- getc conf ;;
          if stalls_maximum_attempt (constraints cf) <? cur_attempt
          then
            log Error lg (txt "Exceeded stall limit without finding a working solution") ;;;
            raise (Exception "No solution found")
          else internal_search fuel' src lg conf kw cur_attempt
      end
  end.

(** Turns of the loop that suffice, whatever the solver answers. *)
Definition internal_fuel (first_attempt maximum : Z) : nat :=
  Z.to_nat (maximum - Z.max 1 first_attempt) + 3.

(** [Heuristics.optimize_binsearch_internal] *)
Definition optimize_binsearch_internal (src : source) (lg : Logger)
           (conf : loc) (kw : kwargs) : M Result :=
  log Info lg (txt "Perform binary search for minimal number of stalls...") ;;;
  cv <- getc conf ;;
  let start_attempt := stalls_first_attempt (constraints cv) in
  first_result <-
    internal_search
      (internal_fuel start_attempt (stalls_maximum_attempt (constraints cv)))
      src lg conf kw start_attempt ;;
  let min_stalls := stalls first_result in
  log Info lg (txt "Minimum number of stalls: " ++ str_of_Z min_stalls) ;;;
  cv <- getc conf ;;
  if negb (has_objective cv) then ret first_result
  else
    log Info lg (txt "Optimize again with minimal number of "
                   ++ str_of_Z min_stalls
                   ++ txt " stalls, with objective...") ;;;
    c <- copy conf ;;
    modify c (set_variable_size false) ;;;
    modify c (fun x =>
                set_constraints
                  (set_stalls_allowed min_stalls (constraints x)) x) ;;;
    cc <- getc c ;;
    (* [core.optimize(source, retry=True, **kwargs)]: a [retry] among
       the keyword arguments is given twice *)
    match retry kw with
    | Some _ => raise TypeError
    | None =>
        r <- run_solver (solver cc src (mk_kwargs (prefix_len kw)
                                                  (suffix_len kw)
                                                  (Some true))) ;;
        match r with
        | None =>
            log Warning lg (txt "Re-optimization with objective at minimum number of stalls failed -- should not happen? Will just pick previous result...") ;;;
            ret first_result
        | Some res => ret res
        end
    end.

(** [Heuristics.optimize_binsearch] (no caller in the driver passes
    [flexible]) *)
Definition optimize_binsearch (src : source) (lg : Logger) (conf : loc)
           (kw : kwargs) : M Result :=
  cv <- getc conf ;;
  if variable_size cv
  then optimize_binsearch_internal src lg conf kw
  else optimize_binsearch_external src lg conf true kw.


(** *** The split heuristic *)

(** [Heuristics._naive_reordering]: the order itself is the parameter
    [naive_order]; the debug lines of its loop are left out. *)
Definition _naive_reordering (body : list str) (lg : Logger) (conf : loc)
  : M (list str) :=
  log Info lg (txt "Perform naive interleaving by depth... ") ;;;
  let old := body in
  c <- copy conf ;;
  cv <- getc c ;;
  new_body <- of_option SolverError (naive_order cv body) ;;
  _dump (txt "Before naive interleaving") (Lines old) lg false false ;;;
  _dump (txt "After naive interleaving") (Lines new_body) lg false false ;;;
  ret new_body.

(** [print_stalls(stalls, l)] *)
Definition print_stalls (log_ : Logger) (split_factor : Q)
           (stalls : list Z) (l : nat) : M unit :=
  lines <- of_option ZeroDivisionError (stall_chart stalls l split_factor) ;;
  log_each Info log_ lines.

(** [optimize_chunk] inside [_split_inner]: [conf] is the object the
    name [conf] of [_split_inner] is bound to at the time of the
    call. *)
Definition optimize_chunk (log_ : Logger) (split_factor : Q)
           (conf : loc) (l : nat) (start_idx end_idx : Z) (body : list str) (stalls : list Z)
           (show_stalls : bool) : M (list str * list Z * Z) :=
  let cur_pre := py_slice None (Some start_idx) body in
  let cur_body := py_slice (Some start_idx) (Some end_idx) body in
  let cur_post := py_slice (Some end_idx) None body in
  cv <- getc conf ;;
  let seam := split_heuristic_optimize_seam cv in
  let '(prefix_len, suffix_len, cur_prefix, cur_suffix, cur_body,
        cur_pre, cur_post) :=
    if seam =? 0
    then (0, 0, [], [], cur_body, cur_pre, cur_post)
    else
      let prefix_len := Z.min (Z.of_nat (List.length cur_pre)) seam in
      let suffix_len := Z.min (Z.of_nat (List.length cur_post)) seam in
      let cur_prefix := py_slice (Some (- prefix_len)) None cur_pre in
      let cur_suffix := py_slice None (Some suffix_len) cur_post in
      (prefix_len, suffix_len, cur_prefix, cur_suffix,
       cur_prefix ++ cur_body ++ cur_suffix,
       py_slice None (Some (- prefix_len)) cur_pre,
       py_slice (Some suffix_len) None cur_post) in
  _dump (txt "Optimizing chunk [" ++ str_of_Z start_idx ++ txt "-"
           ++ str_of_Z prefix_len ++ txt ":" ++ str_of_Z end_idx
           ++ txt "+" ++ str_of_Z suffix_len ++ txt "]")
        (Lines cur_body) log_ false false ;;;
  (if 0 <? prefix_len
   then _dump (txt "Using prefix") (Lines cur_prefix) log_ false false
   else ret tt) ;;;
  (if 0 <? suffix_len
   then _dump (txt "Using suffix") (Lines cur_suffix) log_ false false
   else ret tt) ;;;
  dc <- copy conf ;;
  dcv <- getc dc ;;
  cv <- getc conf ;;
  let dfgc := DFGConfig_of dcv in
  let dfgc := mk_DFGConfig (slothy_config dfgc)
                (Some (union str_eqb (dfg_config_outputs dfgc)
                             (outputs cv)))
                (dfg_inputs_are_outputs dfgc) in
  g <- new_dfg dfgc (Lines cur_post) ;;
  let cur_outputs := dfg_in g in
  c <- copy conf ;;
  modify c (set_rename_inputs [(txt "other", txt "static")]) ;;;
  modify c (set_rename_outputs [(txt "other", txt "static")]) ;;;
  modify c (set_inputs_are_outputs false) ;;;
  modify c (set_outputs cur_outputs) ;;;
  result <- optimize_binsearch
              (Lines cur_body)
              (getChild log_ (str_of_Z start_idx ++ txt "_"
                                ++ str_of_Z end_idx))
              c (mk_kwargs (Some prefix_len) (Some suffix_len) None) ;;
  _dump (txt "New chunk [" ++ str_of_Z start_idx ++ txt ":"
           ++ str_of_Z end_idx ++ txt "]")
        (Lines (code result)) log_ false false ;;;
  let new_body := cur_pre ++ reduce_source (Lines (code result))
                          ++ cur_post in
  let keep_stalls :=
    filter (fun i => (i <? start_idx - prefix_len)
                     || (end_idx + suffix_len <=? i)) stalls in
  let new_stalls :=
    union Z.eqb keep_stalls
          (map (fun i => i + start_idx - prefix_len)
               (stall_positions result)) in
  (if show_stalls
   then print_stalls log_ split_factor new_stalls l
   else ret tt) ;;;
  ret (new_body, new_stalls, Z.of_nat (List.length (stall_positions result))).

(** [optimize_chunks_many] *)
Fixpoint optimize_chunks_many (log_ : Logger) (split_factor : Q)
         (conf : loc) (l : nat) (start_end_idx_lst : list (Z * Z)) (body : list str)
         (stalls : list Z) (abort_stall_threshold : option Z)
         (show_stalls : bool) : M (list str * list Z) :=
  match start_end_idx_lst with
  | [] => ret (body, stalls)
  | (start_idx, end_idx) :: rest =>
      r <- optimize_chunk log_ split_factor conf l start_idx end_idx body stalls
                          show_stalls ;;
      let '(body, stalls, cur_stalls) := r in
      match abort_stall_threshold with
      | Some th =>
          if th <? cur_stalls then ret (body, stalls)
          else optimize_chunks_many log_ split_factor conf l rest body stalls
                                    abort_stall_threshold show_stalls
      | None =>
          optimize_chunks_many log_ split_factor conf l rest body stalls
                               abort_stall_threshold show_stalls
      end
  end.

(** One turn of the loop over [range(conf.split_heuristic_repeat)]. *)
Definition split_pass (log_ : Logger) (split_factor : Q) (conf : loc)
           (l : nat) (increment : Q) (turn : nat)
           (st : list str * list Z) : M (list str * list Z) :=
  let '(cur_body, stalls) := st in
  let cur_body := reduce_source (Lines cur_body) in
  cv <- getc conf ;;
  idx_lst <-
    (if negb (split_heuristic_random cv) then
       lst <- of_option Diverges
                (idx_list_consecutive split_factor increment
                                      (List.length cur_body)) ;;
       ret (if split_heuristic_bottom_to_top cv then rev lst else lst)
     else
       match split_heuristic_chunks cv with
       | _ :: _ => unbound "fst"
       | [] =>
           let len_total := Z.of_nat (List.length cur_body) in
           let len_chunk := round_div (List.length cur_body) split_factor in
           start_idx <- of_option ValueError
                          (randint turn 0 (len_total - len_chunk - 1)) ;;
           ret [(start_idx, start_idx + len_chunk)]
       end) ;;
  optimize_chunks_many log_ split_factor conf l idx_lst cur_body stalls
                       (split_heuristic_abort_cycle_at cv) true.

Fixpoint split_passes (log_ : Logger) (split_factor : Q) (conf : loc)
         (l : nat) (increment : Q) (turn n : nat)
         (st : list str * list Z) : M (list str * list Z) :=
  match n with
  | O => ret st
  | S n' =>
      st' <- split_pass log_ split_factor conf l increment turn st ;;
      split_passes log_ split_factor conf l increment (S turn) n' st'
  end.

(** The loop [for i in stalls] that marks the gaps. *)
Fixpoint mark_gaps (log_ : Logger) (maxlen : nat) (stalls : list Z)
         (cur_body : list str) : M (list str) :=
  match stalls with
  | [] => ret cur_body
  | i :: rest =>
      (if Z.of_nat (List.length cur_body) <? i
       then
         log Error log_
             (txt "Something is wrong: Index " ++ str_of_Z i
                ++ txt ", body length "
                ++ str_of_nat (List.length cur_body)) ;;;
         _dump (txt "Body:") (Lines cur_body) log_ true false
       else ret tt) ;;;
      k <- of_option IndexError (py_index (List.length cur_body) i) ;;
      let line := nth k cur_body [] in
      mark_gaps log_ maxlen rest
                (set_nth k (ljust (maxlen + 8) line
                              ++ txt " // gap(s) to follow") cur_body)
  end.

(** [Heuristics._split_inner]; the function
    [optimize_sequence_of_aligned_chunks] it defines is called
    nowhere. *)
Definition _split_inner (body : list str) (lg : Logger) (conf : loc)
  : M (list str) :=
  let l := List.length body in
  if (l =? 0)%nat then ret body
  else
    let log_ := getChild lg (txt "split") in
    cv <- getc conf ;;
    let split_factor := split_heuristic_factor cv in
    body <- (if split_heuristic_preprocess_naive_interleaving cv
             then _naive_reordering body log_ conf
             else ret body) ;;
    let cur_body := body in
    let stalls : list Z := [] in
    increment <- recip split_factor ;;
    (* the dry run: afterwards the name [conf] is bound to a new
       object, [conf'] *)
    r <- (cv <- getc conf ;;
          if 0 <? split_heuristic_repeat cv then
            orig_conf <- copy conf ;;
            modify conf (fun x =>
                           set_constraints
                             (set_allow_reordering false (constraints x)) x) ;;;
            modify conf (fun x =>
                           set_constraints
                             (set_allow_renaming false (constraints x)) x) ;;;
            idx_lst <- of_option Diverges
                         (idx_list_consecutive split_factor increment
                                               (List.length cur_body)) ;;
            r <- optimize_chunks_many log_ split_factor conf l idx_lst
                                      cur_body stalls None false ;;
            conf' <- copy orig_conf ;;
            log Info log_ (txt "Initial stalls") ;;;
            print_stalls log_ split_factor (snd r) l ;;;
            ret (conf', r)
          else ret (conf, (cur_body, stalls))) ;;
    let '(conf, (cur_body, stalls)) := r in
    cv <- getc conf ;;
    increment <- match split_heuristic_stepsize cv with
                 | None => recip (2 * split_factor)%Q
                 | Some s => ret s
                 end ;;
    r <- split_passes log_ split_factor conf l increment 0
                      (Z.to_nat (split_heuristic_repeat cv))
                      (cur_body, stalls) ;;
    let '(cur_body, stalls) := r in
    maxlen <- match cur_body with
              | [] => raise ValueError
              | _ => ret (fold_right Nat.max 0%nat
                                     (map (@List.length ascii) cur_body))
              end ;;
    cur_body <- mark_gaps log_ maxlen stalls cur_body ;;
    (* Visualize model violations; [c] is bound in this block only *)
    cv <- getc conf ;;
    r <- (if split_heuristic_visualize_stalls cv then
            let cur_body := reduce_source (Lines cur_body) in
            c <- copy conf ;;
            modify c (fun x =>
                        set_constraints
                          (set_allow_reordering false (constraints x)) x) ;;;
            modify c (fun x =>
                        set_constraints
                          (set_allow_renaming false (constraints x)) x) ;;;
            modify c (set_visualize_reordering false) ;;;
            res <- optimize_binsearch
                     (Lines cur_body)
                     (getChild log_ (txt "visualize_stalls")) c no_kwargs ;;
            ret (Some c,
                 [txt "// Start split region"] ++ code res
                   ++ [txt "// End split region"])
          else ret (None, cur_body)) ;;
    let '(c, cur_body) := r in
    (* Visualize functional units *)
    cv <- getc conf ;;
    if split_heuristic_visualize_units cv then
      match c with
      | None => raise (UnboundLocalError "c")
      | Some c =>
          ccv <- getc c ;;
          g <- new_dfg (DFGConfig_of ccv) (Lines cur_body) ;;
          (* the first turn of the loop over the nodes adds a number
             to a string *)
          if (dfg_nodes g =? 0)%nat then ret [] else raise TypeError
      end
    else ret cur_body.

(** [Heuristics._split] *)
Definition is_whole_region (region : list Q) : bool :=
  match region with
  | [a; b] => Qeq_bool a 0 && Qeq_bool b 1
  | _ => false
  end.

Definition _split (body : source) (lg : Logger) (conf : loc)
  : M (list str) :=
  c <- copy conf ;;
  (* Focus on the chosen subregion *)
  let body := reduce_source body in
  cv <- getc c ;;
  if is_whole_region (split_heuristic_region cv)
  then _split_inner body lg c
  else
    match idxs_from_fractions (split_heuristic_region cv)
                              (List.length body) with
    | start_idx :: end_idx :: _ =>
        let pre := py_slice None (Some start_idx) body in
        let cur := py_slice (Some start_idx) (Some end_idx) body in
        let post := py_slice (Some end_idx) None body in
        (* Adjust the outputs *)
        cv <- getc c ;;
        g <- new_dfg (DFGConfig_of cv) (Lines post) ;;
        modify c (set_outputs (dfg_in g)) ;;;
        modify c (set_inputs_are_outputs false) ;;;
        cur <- _split_inner cur lg c ;;
        ret (pre ++ cur ++ post)
    | _ => raise IndexError
    end.

(** *** The entry points *)

(** [Heuristics.linear] *)
Definition linear (body : source) (lg : Logger) (conf : loc)
  : M (list str) :=
  cv <- getc conf ;;
  if enabled (sw_pipelining cv)
  then raise (Exception "Linear heuristic should only be called with SW pipelining disabled")
  else
    _dump (txt "Starting linear optimization...") body lg false false ;;;
    cv <- getc conf ;;
    if negb (split_heuristic cv) then
      result <- optimize_binsearch body (getChild lg (txt "slothy")) conf
                                   no_kwargs ;;
      ret (code result)
    else _split body lg conf.

(** The two halves of a kernel, the first being the shorter one when
    the length is odd. *)
Definition halves (kernel : list str) : list str * list str :=
  let kernel_lenh := (List.length kernel / 2)%nat in
  (firstn kernel_lenh kernel, skipn kernel_lenh kernel).

(** The first step of [_periodic_halving]: the kernel dependencies,
    and the loop kernel optimized without software pipelining (and
    reduced to its instructions). *)
Definition halving_first_step (body : source) (lg : Logger) (conf : loc)
  : M (list str * list str) :=
  (* Find kernel dependencies *)
  dc <- copy conf ;;
  dcv <- getc dc ;;
  g <- new_dfg (DFGConfig_of dcv) body ;;
  let kernel_deps := dfg_in g in
  (* First step: Optimize loop kernel, but without software pipelining *)
  c <- copy conf ;;
  modify c (fun x => set_sw_pipelining
                       (set_enabled false (sw_pipelining x)) x) ;;;
  modify c (set_inputs_are_outputs true) ;;;
  modify c (fun x => set_outputs (union str_eqb (outputs x) kernel_deps) x) ;;;
  kernel <- linear body (getChild lg (txt "slothy")) c ;;
  ret (kernel_deps, reduce_source (Lines kernel)).

(** The second step: the rotated kernel [B;A] is optimized again,
    with the seam between iterations in view ([periodic]) or as a
    linear piece of code. *)
Definition halving_second_step (kernel_deps kernel_high kernel : list str)
           (lg : Logger) (conf : loc) : M (list str) :=
  dc <- copy conf ;;
  dcv <- getc dc ;;
  g <- new_dfg (mk_DFGConfig dcv (Some kernel_deps) (Some false))
               (Lines kernel_high) ;;
  dc <- copy conf ;;
  dcv <- getc dc ;;
  g <- new_dfg (mk_DFGConfig dcv None (Some true)) (Lines kernel) ;;
  let kernel_deps := dfg_in g in
  log Info lg (txt "Apply halving heuristic to optimize two halves of consecutive loop kernels...") ;;;
  cv <- getc conf ;;
  if halving_heuristic_periodic (sw_pipelining cv) then
    c <- copy conf ;;
    modify c (set_inputs_are_outputs true) ;;;
    modify c (fun x => set_sw_pipelining
                         (set_minimize_overlapping false
                            (sw_pipelining x)) x) ;;;
    modify c (fun x => set_sw_pipelining
                         (set_enabled true (sw_pipelining x)) x) ;;;
    modify c (fun x => set_sw_pipelining
                         (set_allow_pre false (sw_pipelining x)) x) ;;;
    modify c (fun x => set_sw_pipelining
                         (set_allow_post false (sw_pipelining x)) x) ;;;
    r <- optimize_binsearch (Lines kernel)
                            (getChild lg (txt "periodic heuristic"))
                            c no_kwargs ;;
    ret (code r)
  else
    c <- copy conf ;;
    modify c (set_outputs kernel_deps) ;;;
    modify c (fun x => set_sw_pipelining
                         (set_enabled false (sw_pipelining x)) x) ;;;
    linear (Lines kernel) (getChild lg (txt "heuristic")) c.

(** [Heuristics._periodic_halving] *)
Definition _periodic_halving (body : source) (lg : Logger) (conf : loc)
  : M (list str * list str * list str * Z) :=
  cv <- getc conf ;;
  assert (enabled (sw_pipelining cv)) ;;;
  assert (halving_heuristic (sw_pipelining cv)) ;;;
  r <- halving_first_step body lg conf ;;
  let '(kernel_deps, kernel) := r in
  let '(kernel_low, kernel_high) := halves kernel in
  let kernel := kernel_high ++ kernel_low in
  let preamble := kernel_low in
  let postamble := kernel_high in
  kernel <- halving_second_step kernel_deps kernel_high kernel lg conf ;;
  let num_exceptional_iterations := 1 in
  ret (preamble, kernel, postamble, num_exceptional_iterations).

(** [Heuristics.periodic] *)
Definition periodic (body : list str) (lg : Logger) (conf : loc)
  : M (list str * list str * list str * Z) :=
  cv <- getc conf ;;
  (if enabled (sw_pipelining cv) && negb (inputs_are_outputs cv)
   then log Warning lg (txt "You are using SW pipelining without setting inputs_are_outputs=True. This means that the last iteration of the loop may overwrite inputs to the loop (such as address registers), unless they are marked as reserved registers. If this is intended, ignore this warning. Otherwise, consider setting inputs_are_outputs=True to ensure that nothing that is used as an input to the loop is overwritten, not even in the last iteration.")
   else ret tt) ;;;
  let unrolled :=
    if enabled (sw_pipelining cv)
    then repeat_list body (Z.to_nat (unroll (sw_pipelining cv)))
    else body in
  let body := Text (join [newline] unrolled) in
  (if inputs_are_outputs cv then
     dc <- copy conf ;;
     dcv <- getc dc ;;
     g <- new_dfg (DFGConfig_of dcv) body ;;
     modify conf (set_outputs (dfg_out g)) ;;;
     modify conf (set_inputs_are_outputs false)
   else ret tt) ;;;
  (* If we're not asked to do software pipelining, just forward to
     the heuristics for linear optimization. *)
  cv <- getc conf ;;
  if negb (enabled (sw_pipelining cv)) then
    core <- linear body lg conf ;;
    ret ([], core, [], 0)
  else if halving_heuristic (sw_pipelining cv) then
    _periodic_halving body lg conf
  else
    (* First step: Optimize loop kernel *)
    log Info lg (txt "Optimize loop kernel...") ;;;
    c <- copy conf ;;
    modify c (set_inputs_are_outputs true) ;;;
    result <- optimize_binsearch body (getChild lg (txt "slothy")) c
                                 no_kwargs ;;
    let num_exceptional_iterations := num_exceptional_iterations result in
    let kernel := code result in
    (* Second step: Separately optimize preamble and postamble *)
    cv <- getc conf ;;
    pre <-
      (if optimize_preamble (sw_pipelining cv) then
         log Debug lg (txt "Optimize preamble...") ;;;
         _dump (txt "Preamble") (Lines (preamble result)) lg false false ;;;
         log Debug lg (txt "Dependencies within kernel: "
                         ++ repr_list (kernel_input_output result)) ;;;
         c <- copy conf ;;
         modify c (set_outputs (kernel_input_output result)) ;;;
         modify c (fun x => set_sw_pipelining
                              (set_enabled false (sw_pipelining x)) x) ;;;
         linear (Lines (preamble result)) (getChild lg (txt "preamble")) c
       else ret (preamble result)) ;;
    cv <- getc conf ;;
    post <-
      (if optimize_postamble (sw_pipelining cv) then
         log Debug lg (txt "Optimize postamble...") ;;;
         _dump (txt "Preamble") (Lines (postamble result)) lg false false ;;;
         c <- copy conf ;;
         modify c (fun x => set_sw_pipelining
                              (set_enabled false (sw_pipelining x)) x) ;;;
         linear (Lines (postamble result)) (getChild lg (txt "postamble")) c
       else ret (postamble result)) ;;
    ret (pre, kernel, post, num_exceptional_iterations).

End Driver.

(** *** The notions the properties are stated with *)

(** The configuration object at [l]. *)
Definition config_at (w : world) (l : loc) : option Config :=
  nth_error (heap w) l.

Section Frames.

(** The objects below [n] are the ones a caller can hold; [R l] says
    how the object at [l] may differ afterwards. *)
Variable n : nat.
Variable R : loc -> Config -> Config -> Prop.

(** From [w] to [w'] no object is lost and the objects below [n]
    have changed within [R]. *)
Definition ext (w w' : world) : Prop :=
  (List.length (heap w) <= List.length (heap w'))%nat /\
  forall l c, (l < n)%nat -> config_at w l = Some c ->
              exists c', config_at w' l = Some c' /\ R l c c'.

(** [m] keeps to [R] on the objects below [n], in every outcome, and
    a value it returns satisfies [P]. *)
Definition spec (A : Type) (m : M A) (P : A -> Prop) : Prop :=
  forall w, (n <= List.length (heap w))%nat ->
            ext w (snd (m w)) /\
            forall a, fst (m w) = inr a -> P a.

End Frames.

(** Every object stays as it is. *)
Definition untouched : loc -> Config -> Config -> Prop :=
  fun _ c c' => c = c'.

(** Two configurations that differ in [outputs] and
    [inputs_are_outputs] at most. *)
Definition same_but_outputs (c c' : Config) : Prop :=
  set_outputs [] (set_inputs_are_outputs false c)
  = set_outputs [] (set_inputs_are_outputs false c').

(** Every object stays as it is, but for the outputs of the one at
    [conf]. *)
Definition untouched_but_outputs (conf : loc)
  : loc -> Config -> Config -> Prop :=
  fun l c c' => if (l =? conf)%nat then same_but_outputs c c' else c = c'.

(** The error lines of the log when the binary search is exhausted. *)
Definition exhaustion_log (config_lines : Config -> list str)
           (src : source) (lg : Logger) (cv : Config)
  : list (level * str * str) :=
  let line (m : str) := (Error, lname lg, m) in
  [line (txt "Exceeded stall limit without finding a working solution");
   line (txt "Here's what you asked me to optimize:");
   line (txt "Dump: Original source code")]
    ++ map (fun l => line (txt "> " ++ l))
           (map (fun s => strip (before (txt "//") s))
                (match src with Text t => splitlines t | Lines l => l end))
    ++ [line (txt "Configuration")]
    ++ map line (config_lines cv).

(** The configuration of an attempt of the binary search: the copy of
    the configuration with the stalls, the hints and the timeout set. *)
Definition attempt_config (cv : Config) (stalls : Z) (timeout : option Z)
  : Config :=
  let c := set_constraints (set_stalls_allowed stalls (constraints cv)) cv in
  let c := if ext_bsearch_remember_successes (hints c)
           then
             let c' := set_hints (set_rename_hint_orig_rename true (hints c)) c in
             set_hints (set_order_hint_orig_order true (hints c')) c'
           else c in
  match timeout with
  | Some t => set_timeout (Some t) c
  | None => c
  end.

Definition attempt_source (src : source) (last : option (list str))
  : source :=
  match last with Some l => Lines l | None => src end.

Definition attempt_line (lg : Logger) (stalls : Z) : level * str * str :=
  (Info, lname lg,
   txt "Attempt optimization with max " ++ str_of_Z stalls
     ++ txt " stalls...").

(** *** A small setting to run the driver in *)

Definition a_config : Config :=
  {| constraints := mk_Constraints 0 0 0 4 1 None true true;
     hints := mk_Hints false false false;
     sw_pipelining := mk_SwPipelining false 1 false false false false
                                      false true true;
     timeout := None;
     variable_size := false;
     ignore_objective := false;
     has_objective := true;
     inputs_are_outputs := true;
     outputs := [];
     rename_inputs := [];
     rename_outputs := [];
     visualize_reordering := false;
     log_dir := txt "logs";
     Arch := txt "aarch64_neon";
     Target := txt "cortex_a55";
     split_heuristic := false;
     split_heuristic_factor := 2%Q;
     split_heuristic_stepsize := None;
     split_heuristic_repeat := 1;
     split_heuristic_region := [0%Q; 1%Q];
     split_heuristic_random := false;
     split_heuristic_chunks := [];
     split_heuristic_bottom_to_top := false;
     split_heuristic_optimize_seam := 0;
     split_heuristic_abort_cycle_at := None;
     split_heuristic_preprocess_naive_interleaving := false;
     split_heuristic_visualize_stalls := false;
     split_heuristic_visualize_units := false |}.

Definition a_world : world := mk_world [a_config] [] [].

Definition a_logger : Logger := mk_Logger (txt "slothy.heuristics").

Definition a_result (c : list str) (st : Z) : Result :=
  mk_Result c 0 [] [] [] st [] [] [].

Definition two_lines : list str :=
  [txt "add x0, x1, x2 // sum"; txt "mul x3, x0, x0"].

(** A solver that leaves the code as it is, and finds it with two
    stalls or more. *)
Definition a_solver (c : Config) (s : source) (k : kwargs) : outcome :=
  if 2 <=? stalls_allowed (constraints c)
  then Solved (a_result (match s with
                         | Text t => splitlines t
                         | Lines l => l
                         end) (stalls_allowed (constraints c)))
  else Unsolved.

(** A solver that finds nothing. *)
Definition no_solver (c : Config) (s : source) (k : kwargs) : outcome :=
  Unsolved.

(** A retry that fails. *)
Definition no_retry (c : Config) (s : source) (k : kwargs) (r : Result)
  : outcome := Unsolved.

(** A binary search by doubling, without the descent: the attempts
    [start], 1, 2, 4, ... up to [threshold]. *)
Fixpoint doubling (fuel : nat) (cur threshold : Z) : bs_plan :=
  match fuel with
  | O => Limit
  | S f =>
      if threshold <? cur then Limit
      else Ask cur None
               (fun ok => if ok then Stop
                          else doubling f (Z.max 1 (2 * cur)) threshold)
  end.

Definition a_binary_search (minimum start threshold precision : Z)
           (timeout_below_precision : option Z) : bs_plan :=
  doubling 64 (Z.max start minimum) threshold.

Definition a_dfg (d : DFGConfig) (s : source) : option DFG :=
  Some (mk_DFG [txt "x1"; txt "x2"] [txt "x3"] 2).

Definition a_reduce_source (s : source) : list str :=
  match s with Text t => splitlines t | Lines l => l end.

Definition a_config_lines (c : Config) : list str :=
  [txt "stalls_maximum_attempt: "
     ++ str_of_Z (stalls_maximum_attempt (constraints c))].


Definition no_dfg_outputs (d : DFGConfig) : list str :=
  match dfg_outputs d with Some o => o | None => outputs (slothy_config d) end.

Definition no_order (c : Config) (body : list str) : option (list str) :=
  Some body.

Definition no_chart (stalls : list Z) (l : nat) (f : Q)
  : option (list str) := Some [].

Definition one_chunk (factor increment : Q) (l : nat)
  : option (list (Z * Z)) := Some [(0, Z.of_nat l)].

Definition no_fractions (fs : list Q) (l : nat) : list Z :=
  map (fun _ => 0) fs.

Definition a_round_div (l : nat) (f : Q) : Z := Z.of_nat l.

Definition a_randint (turn : nat) (a b : Z) : option Z :=
  if b <? a then None else Some a.

(** [periodic] and [optimize_binsearch_core] in this setting. *)
Definition a_periodic (solver : Config -> source -> kwargs -> outcome)
  : list str -> Logger -> loc -> M (list str * list str * list str * Z) :=
  periodic solver no_retry a_binary_search a_dfg no_dfg_outputs
           a_reduce_source a_config_lines no_order no_chart one_chunk
           no_fractions a_round_div a_randint.

Definition a_periodic_halving
  : source -> Logger -> loc -> M (list str * list str * list str * Z) :=
  _periodic_halving a_solver no_retry a_binary_search a_dfg
                    no_dfg_outputs a_reduce_source a_config_lines
                    no_order no_chart one_chunk no_fractions a_round_div
                    a_randint.

(** A configuration that asks for the halving heuristic. *)
Definition a_halving_config : Config :=
  set_sw_pipelining
    (mk_SwPipelining true 1 true false false false false true true)
    a_config.

(** The attempt [core] of the binary search on the configuration [cv]
    was run with [s] stalls and came to a result. *)
Definition found_by (solver : Config -> source -> kwargs -> outcome)
           (src : source) (kw : kwargs) (cv : Config) (w : world)
           (s : Z) (core : Core) : Prop :=
  exists t last r,
    config_at w (core_config core) = Some (attempt_config cv s t) /\
    core_source core = attempt_source src last /\
    core_kwargs core = kw /\
    core_result core = Some r /\
    solver (attempt_config cv s t) (attempt_source src last) kw = Solved r.
End Heuristics.

(** * Properties *)

Unset Implicit Arguments.

Module LoopFacts.
Import Loop LoopSpec.

Lemma first_at_app (A : Type) (p : A -> bool) l b x a :
  first_at p l b x a -> l = b ++ x :: a /\ Forall (fun y => p y = false) b
                        /\ p x = true.
Proof.
  induction 1 as [x l H | y l b x a Hy H IH].
  - repeat split; auto.
  - destruct IH as (-> & Hb & Hx). repeat split; auto.
Qed.

Lemma app_first_at (A : Type) (p : A -> bool) b x a :
  Forall (fun y => p y = false) b -> p x = true ->
  first_at p (b ++ x :: a) b x a.
Proof.
  induction 1 as [| y b Hy Hb IH]; intros Hx; simpl.
  - now constructor.
  - constructor; auto.
Qed.

Lemma first_at_fun (A : Type) (p : A -> bool) l b x a b' x' a' :
  first_at p l b x a -> first_at p l b' x' a' ->
  b = b' /\ x = x' /\ a = a'.
Proof.
  intros H; revert b' x' a'.
  induction H as [x l H | y l b x a Hy H IH]; intros b' x' a' H'.
  - inversion H' as [? ? Hx' | ? ? ? ? ? Hy' H'']; subst; auto. congruence.
  - inversion H' as [? ? Hx' | ? ? ? ? ? Hy' H'']; subst.
    + congruence.
    + destruct (IH _ _ _ H'') as (-> & -> & ->); auto.
Qed.

Lemma first_at_none (A : Type) (p : A -> bool) l :
  Forall (fun y => p y = false) l -> forall b x a, ~ first_at p l b x a.
Proof.
  induction 1 as [| y l Hy Hl IH]; intros b x a H;
    inversion H as [? ? Hx' | ? ? ? ? ? Hy' H'']; subst.
  - congruence.
  - eapply IH; eauto.
Qed.

Lemma is_subs_regs l : is_subs l = true <-> exists r, subs_regs l = Some r.
Proof.
  unfold is_subs, subs_regs. destruct (re_match loop_end_regexp0 l).
  - split; eauto.
  - split; [discriminate | intros [r H]; discriminate].
Qed.

(** State 3: everything goes to [post]. *)
Lemma run_state3 lbl ls x :
  state x = 3 ->
  run lbl x ls = mk_xstate 3 (pre x) (body x) (post x ++ ls) (regs x).
Proof.
  revert x. induction ls as [| l ls IH]; intros x Hx; simpl.
  - rewrite app_nil_r. destruct x; simpl in *; subst; reflexivity.
  - rewrite Hx. unfold step. rewrite Hx. rewrite IH by (simpl; auto).
    simpl. rewrite <- app_assoc. reflexivity.
Qed.

(** State 2: lines are kept in the body until the branch is met. *)
Lemma run_state2_found lbl ls x b c a :
  state x = 2 -> first_at (is_branch lbl) ls b c a ->
  run lbl x ls = mk_xstate 3 (pre x) (body x ++ b) (post x ++ a) (regs x).
Proof.
  intros Hx H. revert x Hx.
  induction H as [c l Hc | y l b c a Hy H IH]; intros x Hx; simpl.
  - rewrite Hx. unfold step. rewrite Hx.
    unfold is_branch in Hc.
    destruct (re_match (loop_end_regexp1 lbl) c); [| discriminate].
    rewrite run_state3 by reflexivity. simpl. now rewrite app_nil_r.
  - rewrite Hx. unfold step. rewrite Hx.
    unfold is_branch in Hy.
    destruct (re_match (loop_end_regexp1 lbl) y); [discriminate |].
    rewrite IH by reflexivity. simpl. now rewrite <- app_assoc.
Qed.

Lemma run_state2_none lbl ls x :
  state x = 2 -> Forall (fun l => is_branch lbl l = false) ls ->
  state (run lbl x ls) = 2.
Proof.
  intros Hx H. revert x Hx.
  induction H as [| y l Hy H IH]; intros x Hx; simpl; auto.
  rewrite Hx. unfold step. rewrite Hx. unfold is_branch in Hy.
  destruct (re_match (loop_end_regexp1 lbl) y); [discriminate |].
  apply IH. reflexivity.
Qed.

(** State 1: lines are kept in the body until the countdown is met. *)
Lemma run_state1_found lbl ls x b s a r :
  state x = 1 -> first_at is_subs ls b s a -> subs_regs s = Some r ->
  run lbl x ls = run lbl (mk_xstate 2 (pre x) (body x ++ b) (post x) (Some r)) a.
Proof.
  intros Hx H Hr. revert x Hx.
  induction H as [c l Hc | y l b c a Hy H IH]; intros x Hx; simpl.
  - rewrite Hx. unfold step. rewrite Hx.
    unfold subs_regs in Hr.
    destruct (re_match loop_end_regexp0 c); [| discriminate].
    inversion Hr; subst. now rewrite app_nil_r.
  - rewrite Hx. unfold step. rewrite Hx.
    unfold is_subs in Hy.
    destruct (re_match loop_end_regexp0 y); [discriminate |].
    rewrite (IH Hr) by reflexivity. simpl. now rewrite <- app_assoc.
Qed.

Lemma run_state1_none lbl ls x :
  state x = 1 -> Forall (fun l => is_subs l = false) ls ->
  state (run lbl x ls) = 1.
Proof.
  intros Hx H. revert x Hx.
  induction H as [| y l Hy H IH]; intros x Hx; simpl; auto.
  rewrite Hx. unfold step. rewrite Hx. unfold is_subs in Hy.
  destruct (re_match loop_end_regexp0 y); [discriminate |].
  apply IH. reflexivity.
Qed.

Lemma run_cons_state1 lbl x l ls :
  state x = 1 -> run lbl (step lbl x l) ls = run lbl x (l :: ls).
Proof. intros Hx. simpl. now rewrite Hx. Qed.


Lemma first_at_dec (A : Type) (p : A -> bool) l :
  (exists b x a, first_at p l b x a) \/ Forall (fun y => p y = false) l.
Proof.
  induction l as [| y l IH].
  - right. constructor.
  - destruct (p y) eqn:Hy.
    + left. exists [], y, l. now constructor.
    + destruct IH as [(b & x & a & H) | H].
      * left. exists (y :: b), x, a. now constructor.
      * right. now constructor.
Qed.

(** State 0: lines go to [pre] until the label line is met; the rest of
    the label line is then handled as a line of its own. *)
Lemma run_state0_found lbl ls x b lab a rem :
  state x = 0 -> first_at (is_label lbl) ls b lab a ->
  label_line lbl lab = Some rem ->
  run lbl x ls =
  run lbl (mk_xstate 1 (pre x ++ b) (body x) (post x) (regs x)) (rem :: a).
Proof.
  intros Hx H Hr. revert x Hx.
  induction H as [c l Hc | y l b c a Hy H IH]; intros x Hx.
  - cbn [run]. rewrite Hx, Hr. rewrite app_nil_r.
    rewrite run_cons_state1 by reflexivity. reflexivity.
  - cbn [run]. rewrite Hx. unfold is_label in Hy.
    destruct (label_line lbl y); [discriminate |].
    rewrite (IH Hr) by reflexivity. cbn [pre body post regs].
    now rewrite <- app_assoc.
Qed.

Lemma run_state0_none lbl ls x :
  state x = 0 -> Forall (fun l => is_label lbl l = false) ls ->
  state (run lbl x ls) = 0.
Proof.
  intros Hx H. revert x Hx.
  induction H as [| y l Hy H IH]; intros x Hx; simpl; auto.
  rewrite Hx. unfold is_label in Hy.
  destruct (label_line lbl y); [discriminate |].
  apply IH. reflexivity.
Qed.

Lemma is_label_rem lbl l :
  is_label lbl l = true <-> exists rem, label_line lbl l = Some rem.
Proof.
  unfold is_label. destruct (label_line lbl l).
  - split; eauto.
  - split; [discriminate | intros [r H]; discriminate].
Qed.

(** The whole loop, once the three marks are found. *)
Lemma run_found lbl ls p lab rest rem b1 s rest1 r b2 c a :
  first_at (is_label lbl) ls p lab rest ->
  label_line lbl lab = Some rem ->
  first_at is_subs (rem :: rest) b1 s rest1 ->
  subs_regs s = Some r ->
  first_at (is_branch lbl) rest1 b2 c a ->
  run lbl xstart ls = mk_xstate 3 p (b1 ++ b2) a (Some r).
Proof.
  intros Hl Hrem Hs Hr Hb.
  rewrite (run_state0_found lbl ls xstart p lab rest rem eq_refl Hl Hrem).
  rewrite (run_state1_found lbl _ (mk_xstate 1 _ _ _ _) _ _ _ _ eq_refl Hs Hr).
  rewrite (run_state2_found lbl _ (mk_xstate 2 _ _ _ _) _ _ _ eq_refl Hb).
  reflexivity.
Qed.

Lemma run_stuck lbl ls :
  (Forall (fun l => is_label lbl l = false) ls
   \/ (exists p lab rest rem,
         first_at (is_label lbl) ls p lab rest /\
         label_line lbl lab = Some rem /\
         (Forall (fun l => is_subs l = false) (rem :: rest)
          \/ exists b1 s rest1,
               first_at is_subs (rem :: rest) b1 s rest1 /\
               Forall (fun l => is_branch lbl l = false) rest1))) ->
  state (run lbl xstart ls) < 3.
Proof.
  intros [H | (p & lab & rest & rem & Hl & Hrem & [H | (b1 & s & rest1 & Hs & H)])].
  - rewrite run_state0_none; auto.
  - rewrite (run_state0_found lbl ls xstart p lab rest rem eq_refl Hl Hrem).
    rewrite run_state1_none; auto.
  - rewrite (run_state0_found lbl ls xstart p lab rest rem eq_refl Hl Hrem).
    destruct (first_at_app _ _ _ _ _ _ Hs) as (_ & _ & Hss).
    apply is_subs_regs in Hss. destruct Hss as [r Hr].
    rewrite (run_state1_found lbl _ (mk_xstate 1 _ _ _ _) _ _ _ _ eq_refl Hs Hr).
    rewrite run_state2_none; auto.
Qed.

End LoopFacts.

Module LoopProps.
Import Loop LoopSpec LoopFacts.

(** C2, as stated, fails: on a loop whose body holds a countdown of its
    own, the body that [extract] returns is not what stands between the
    label and the countdown/branch pair.  The first countdown is taken
    for the end of the loop and dropped, the lines after it stay in the
    body up to the branch, the final countdown among them. *)
Lemma extract_body_not_between_label_and_pair :
  exists e,
    extract two_countdowns "1" = Some e /\
    e_body e = ["" : str; "add x1, x1, x2" : str; "subs x0, x0, #1" : str] /\
    e_regs e = ("x9" : str, "x9" : str, "#1" : str) /\
    spec_body "1" (splitlines two_countdowns)
    = Some ["" : str; "subs x9, x9, #1" : str; "add x1, x1, x2" : str] /\
    Some (e_body e) <> spec_body "1" (splitlines two_countdowns).
Proof.
  eexists. split; [vm_compute; reflexivity |].
  repeat split; try (vm_compute; reflexivity).
  vm_compute. discriminate.
Qed.

(** C2, amended: [extract] returns exactly when the label line is
    followed (on its own line or later) by a countdown line and that one,
    later, by a branch to the label; the body is the rest of the label
    line and the lines up to the first countdown, followed by the lines
    between that countdown and the first branch after it; the registers
    and the immediate are those of that first countdown.  In every other
    case it raises. *)
Theorem extract_marks (source lbl : str) :
  (forall e,
      extract source lbl = Some e <->
      exists lab rem rest b1 s b2 c,
        splitlines source = e_pre e ++ lab :: rest /\
        Forall (fun l => is_label lbl l = false) (e_pre e) /\
        label_line lbl lab = Some rem /\
        rem :: rest = b1 ++ s :: b2 ++ c :: e_post e /\
        Forall (fun l => is_subs l = false) b1 /\
        subs_regs s = Some (e_regs e) /\
        Forall (fun l => is_branch lbl l = false) b2 /\
        is_branch lbl c = true /\
        e_body e = b1 ++ b2 /\
        e_lbl e = lbl)
  /\
  (extract source lbl = None <->
   Forall (fun l => is_label lbl l = false) (splitlines source)
   \/ exists p lab rem rest,
       splitlines source = p ++ lab :: rest /\
       Forall (fun l => is_label lbl l = false) p /\
       label_line lbl lab = Some rem /\
       (Forall (fun l => is_subs l = false) (rem :: rest)
        \/ exists b1 s rest1,
            rem :: rest = b1 ++ s :: rest1 /\
            Forall (fun l => is_subs l = false) b1 /\
            is_subs s = true /\
            Forall (fun l => is_branch lbl l = false) rest1)).
Proof.
  assert (Hfound : forall p lab rest rem b1 s rest1 r b2 c a,
             first_at (is_label lbl) (splitlines source) p lab rest ->
             label_line lbl lab = Some rem ->
             first_at is_subs (rem :: rest) b1 s rest1 ->
             subs_regs s = Some r ->
             first_at (is_branch lbl) rest1 b2 c a ->
             extract source lbl = Some (mk_extracted p (b1 ++ b2) a lbl r)).
  { intros p lab rest rem b1 s rest1 r b2 c a Hl Hrem Hs Hr Hb.
    unfold extract.
    rewrite (run_found lbl _ p lab rest rem b1 s rest1 r b2 c a Hl Hrem Hs Hr Hb).
    reflexivity. }
  assert (Hstuck : forall P, state (run lbl xstart (splitlines source)) < 3 ->
                             P = extract source lbl -> P = None).
  { intros P H ->. unfold extract. apply Nat.ltb_lt in H. now rewrite H. }
  (* the three marks, or the first one that is missing *)
  destruct (first_at_dec _ (is_label lbl) (splitlines source))
    as [(p & lab & rest & Hl) | Hnl].
  2:{ assert (E : extract source lbl = None).
      { eapply Hstuck; [apply run_stuck; left; exact Hnl | reflexivity]. }
      split.
      - intros e; split.
        + rewrite E; discriminate.
        + intros (lab & rem & rest & b1 & s & b2 & c & Hsrc & Hp & Hrem & _).
          exfalso. rewrite Hsrc in Hnl.
          apply Forall_app in Hnl. destruct Hnl as [_ Hnl].
          inversion Hnl as [| ? ? Hlab ?]; subst.
          unfold is_label in Hlab. rewrite Hrem in Hlab. discriminate.
      - split; auto. }
  destruct (first_at_app _ _ _ _ _ _ Hl) as (Hsrc & Hp & Hlab).
  apply is_label_rem in Hlab. destruct Hlab as [rem Hrem].
  destruct (first_at_dec _ is_subs (rem :: rest))
    as [(b1 & s & rest1 & Hs) | Hns].
  2:{ assert (E : extract source lbl = None).
      { eapply Hstuck; [| reflexivity]. apply run_stuck. right.
        exists p, lab, rest, rem. auto. }
      split.
      - intros e; split.
        + rewrite E; discriminate.
        + intros (lab' & rem' & rest' & b1 & s & b2 & c & Hsrc' & Hp' & Hrem'
                  & Hdec & Hb1 & Hs & _).
          exfalso.
          assert (Hl' : first_at (is_label lbl) (splitlines source)
                          (e_pre e) lab' rest').
          { rewrite Hsrc'. apply app_first_at; auto.
            apply is_label_rem. eauto. }
          destruct (first_at_fun _ _ _ _ _ _ _ _ _ Hl Hl') as (_ & <- & <-).
          rewrite Hrem in Hrem'. inversion Hrem'; subst rem'.
          rewrite Hdec in Hns. apply Forall_app in Hns.
          destruct Hns as [_ Hns]. inversion Hns as [| ? ? Hss ?]; subst.
          unfold is_subs in Hss. unfold subs_regs in Hs.
          destruct (re_match loop_end_regexp0 s); discriminate.
      - split; auto. intros _. right. exists p, lab, rem, rest. auto. }
  destruct (first_at_app _ _ _ _ _ _ Hs) as (Hdec & Hb1 & Hss).
  pose proof Hss as Hss'. apply is_subs_regs in Hss'. destruct Hss' as [r Hr].
  destruct (first_at_dec _ (is_branch lbl) rest1)
    as [(b2 & c & a & Hb) | Hnb].
  2:{ assert (E : extract source lbl = None).
      { eapply Hstuck; [| reflexivity]. apply run_stuck. right.
        exists p, lab, rest, rem. split; [auto | split; [auto |]].
        right. exists b1, s, rest1. auto. }
      split.
      - intros e; split.
        + rewrite E; discriminate.
        + intros (lab' & rem' & rest' & b1' & s' & b2 & c & Hsrc' & Hp' & Hrem'
                  & Hdec' & Hb1' & Hs' & Hb2 & Hc & _).
          exfalso.
          assert (Hl' : first_at (is_label lbl) (splitlines source)
                          (e_pre e) lab' rest').
          { rewrite Hsrc'. apply app_first_at; auto.
            apply is_label_rem. eauto. }
          destruct (first_at_fun _ _ _ _ _ _ _ _ _ Hl Hl') as (_ & <- & <-).
          rewrite Hrem in Hrem'. inversion Hrem'; subst rem'.
          assert (Hs2 : first_at is_subs (rem :: rest) b1' s'
                          (b2 ++ c :: e_post e)).
          { rewrite Hdec'. apply app_first_at; auto.
            apply is_subs_regs. eauto. }
          destruct (first_at_fun _ _ _ _ _ _ _ _ _ Hs Hs2) as (_ & _ & ->).
          apply Forall_app in Hnb. destruct Hnb as [_ Hnb].
          inversion Hnb as [| ? ? Hcc ?]; subst. congruence.
      - split; auto. intros _. right. exists p, lab, rem, rest.
        split; [auto | split; [auto | split; [auto |]]].
        right. exists b1, s, rest1. auto. }
  destruct (first_at_app _ _ _ _ _ _ Hb) as (Hdec2 & Hb2 & Hc).
  pose proof (Hfound _ _ _ _ _ _ _ _ _ _ _ Hl Hrem Hs Hr Hb) as E.
  split.
  - intros e; split.
    + rewrite E. intros He. inversion He; subst e; clear He. cbn.
      exists lab, rem, rest, b1, s, b2, c. rewrite <- Hdec2.
      repeat split; auto.
    + intros (lab' & rem' & rest' & b1' & s' & b2' & c' & Hsrc' & Hp' & Hrem'
              & Hdec' & Hb1' & Hs' & Hb2' & Hc' & Hbody & Hlbl).
      assert (Hl' : first_at (is_label lbl) (splitlines source)
                      (e_pre e) lab' rest').
      { rewrite Hsrc'. apply app_first_at; auto.
        apply is_label_rem. eauto. }
      destruct (first_at_fun _ _ _ _ _ _ _ _ _ Hl Hl') as (Ep & <- & <-).
      rewrite Hrem in Hrem'. inversion Hrem'; subst rem'.
      assert (Hs2 : first_at is_subs (rem :: rest) b1' s'
                      (b2' ++ c' :: e_post e)).
      { rewrite Hdec'. apply app_first_at; auto.
        apply is_subs_regs. eauto. }
      destruct (first_at_fun _ _ _ _ _ _ _ _ _ Hs Hs2) as (<- & <- & Er).
      assert (Hb' : first_at (is_branch lbl) rest1 b2' c' (e_post e)).
      { rewrite Er. apply app_first_at; auto. }
      destruct (first_at_fun _ _ _ _ _ _ _ _ _ Hb Hb') as (<- & <- & Ea).
      rewrite E. destruct e as [ep eb epo el er]; cbn in *.
      subst. rewrite Hr in Hs'. inversion Hs'; subst. reflexivity.
  - rewrite E. split; [discriminate |].
    intros [Hnl | (p' & lab' & rem' & rest' & Hsrc' & Hp' & Hrem' & Hrest)].
    + exfalso. rewrite Hsrc in Hnl. apply Forall_app in Hnl.
      destruct Hnl as [_ Hnl]. inversion Hnl as [| ? ? Hlab ?]; subst.
      unfold is_label in Hlab. rewrite Hrem in Hlab. discriminate.
    + exfalso.
      assert (Hl' : first_at (is_label lbl) (splitlines source) p' lab' rest').
      { rewrite Hsrc'. apply app_first_at; auto.
        apply is_label_rem. eauto. }
      destruct (first_at_fun _ _ _ _ _ _ _ _ _ Hl Hl') as (_ & <- & <-).
      rewrite Hrem in Hrem'. inversion Hrem'; subst rem'.
      destruct Hrest as [Hns | (b1' & s' & rest1' & Hdec' & Hb1' & Hs' & Hnb)].
      * rewrite Hdec in Hns. apply Forall_app in Hns.
        destruct Hns as [_ Hns]. inversion Hns as [| ? ? Hx ?]; subst.
        congruence.
      * assert (Hs2 : first_at is_subs (rem :: rest) b1' s' rest1').
        { rewrite Hdec'. apply app_first_at; auto. }
        destruct (first_at_fun _ _ _ _ _ _ _ _ _ Hs Hs2) as (_ & _ & <-).
        rewrite Hdec2 in Hnb. apply Forall_app in Hnb.
        destruct Hnb as [_ Hnb]. inversion Hnb as [| ? ? Hx ?]; subst.
        congruence.
Qed.

End LoopProps.

Module ParserProps.
Import Neon.

(** C3, as stated, fails: a line that two classes parse comes back
    twice, once for each of them ([x_ldr] and [vldr] share their
    pattern); the first success does not end the search. *)
Lemma parser_keeps_every_success :
  exists i1 i2,
    parser keep "ldr x0, [x1]" = Ok [i1; i2] /\
    cls i1 = x_ldr /\ cls i2 = vldr /\
    first_wins keep "ldr x0, [x1]" = Ok [i1] /\
    parser keep "ldr x0, [x1]" <> first_wins keep "ldr x0, [x1]".
Proof.
  eexists. eexists.
  split; [vm_compute; reflexivity |].
  split; [reflexivity |]. split; [reflexivity |].
  split; [vm_compute; reflexivity |].
  vm_compute. discriminate.
Qed.

Lemma parse_each_collects simplify classes src :
  parse_each simplify classes src =
  if raises_other simplify classes src then Error
  else Ok (successes simplify classes src).
Proof.
  induction classes as [| c cs IH]; simpl; auto.
  destruct (parse simplify (new c) src) as [inst | |]; simpl.
  - rewrite IH. destruct (raises_other simplify cs src); reflexivity.
  - exact IH.
  - reflexivity.
Qed.

(** C3, amended: the parser tries every class in turn and returns the
    objects of all the classes that parse the line, in the order of the
    classes; it raises [ParsingException] when there is none, and an
    exception of another kind raised by a class is passed on. *)
Theorem parser_collects (simplify : str -> option str) (src : str) :
  parser simplify src =
  if raises_other simplify all_classes src then Error
  else match successes simplify all_classes src with
       | [] => ParsingException
       | insts => Ok insts
       end.
Proof.
  unfold parser. rewrite parse_each_collects.
  destruct (raises_other simplify all_classes src); [reflexivity |].
  destruct (successes simplify all_classes src); reflexivity.
Qed.

End ParserProps.

Module CombinationProps.
Import Neon.

Lemma not_in_tuples (x : list str) (l : list (list str)) :
  existsb (strs_eqb x) l = false -> ~ In x l.
Proof.
  intros H Hin. apply Bool.not_true_iff_false in H. apply H.
  apply existsb_exists. exists x. split; auto.
  unfold strs_eqb. destruct (list_eq_dec (list_eq_dec ascii_dec) x x); auto.
Qed.

Lemma in_names (x : str) (l : list str) :
  existsb (str_eqb x) l = true -> In x l.
Proof.
  intros H. apply existsb_exists in H. destruct H as (y & Hy & E).
  unfold str_eqb in E. destruct (list_eq_dec ascii_dec x y); congruence.
Qed.

(** C9 on the code: the four registers v28..v31 and the pair v30, v31
    are consecutive registers of the pool, the lines that name them
    parse, and the combination lists of [ld4], [st4] and [ld2] lack
    them, while the list of [stack_vld2_lane] has the pair. *)
Theorem top_registers_left_out :
  (exists i,
      ld4_parse (new ld4) "ld4 {v28.4S, v29.4S, v30.4S, v31.4S}, [x0], #64"
      = Ok i /\
      args_out i = top4 /\
      exists tuples,
        args_out_combinations i = Some [([0; 1; 2; 3], tuples)] /\
        ~ In (args_out i) tuples) /\
  (exists i,
      st4_parse (new st4) "st4 {v28.4S, v29.4S, v30.4S, v31.4S}, [x0], #64"
      = Ok i /\
      args_in i = ("x0" : str) :: top4 /\
      exists tuples,
        args_in_combinations i = Some [([1; 2; 3; 4], tuples)] /\
        ~ In top4 tuples) /\
  (exists i,
      ld2_parse (new ld2) "ld2 {v30.4S, v31.4S}, [x0], #32" = Ok i /\
      args_out i = top2 /\
      exists tuples,
        args_out_combinations i = Some [([0; 1], tuples)] /\
        ~ In (args_out i) tuples) /\
  (exists i,
      stack_vld2_lane_parse (new stack_vld2_lane)
        "stack_vld2_lane v30, v31, x0, STACK_A_0, 0, 8" = Ok i /\
      exists tuples,
        args_in_out_combinations i = Some [([0; 1], tuples)] /\
        In top2 tuples) /\
  Forall (fun r => In r (list_registers Neon false false false))
         (top4 ++ top2).
Proof.
  split; [| split; [| split; [| split]]].
  - eexists. split; [vm_compute; reflexivity |].
    split; [reflexivity |]. eexists. split; [reflexivity |].
    apply not_in_tuples. vm_compute. reflexivity.
  - eexists. split; [vm_compute; reflexivity |].
    split; [reflexivity |]. eexists. split; [reflexivity |].
    apply not_in_tuples. vm_compute. reflexivity.
  - eexists. split; [vm_compute; reflexivity |].
    split; [reflexivity |]. eexists. split; [reflexivity |].
    apply not_in_tuples. vm_compute. reflexivity.
  - eexists. split; [vm_compute; reflexivity |].
    eexists. split; [reflexivity |].
    vm_compute. do 30 right. left. reflexivity.
  - apply Forall_forall. intros r Hr. apply in_names.
    assert (H : forallb (fun r => existsb (str_eqb r)
                                    (list_registers Neon false false false))
                        (top4 ++ top2) = true)
      by (vm_compute; reflexivity).
    rewrite forallb_forall in H. exact (H r Hr).
Qed.

End CombinationProps.

Module LoadStoreProps.
Import Neon.

(** C10, as stated, fails: for a load into its own base register the
    base register stands in the output list (as the destination). *)
Lemma base_register_among_outputs :
  exists i,
    x_ldr_parse keep (new x_ldr) "ldr x1, [x1]" = Ok i /\
    addr i = Some ("x1" : str) /\
    In ("x1" : str) (args_out i).
Proof.
  eexists. split; [vm_compute; reflexivity |].
  split; [reflexivity |]. left. reflexivity.
Qed.

Lemma ldst_simplify_frame simplify self self' :
  ldst_simplify simplify self = Ok self' ->
  addr self' = addr self /\ writeback self' = writeback self.
Proof.
  unfold ldst_simplify.
  destruct (simplify_attr simplify (attr (increment self))); [| discriminate].
  cbn [post_index set_increment].
  destruct (simplify_attr simplify (attr (post_index self))); [| discriminate].
  cbn [pre_index set_post_index set_increment].
  destruct (simplify_attr simplify (attr (pre_index self))); [| discriminate].
  intros H. inversion H; subst. split; reflexivity.
Qed.

Lemma ldst_match_ok simplify mn self src self' gpr :
  ldst_match simplify mn self src = Ok (self', gpr) ->
  exists p,
    re_match (ldst_re mn) (strip_comment src) = Some p /\
    gpr = getg p "dest" /\
    addr self' = Some (getg p "addr") /\
    writeback self' = Some (str_eqb (getg p "writeback") "!").
Proof.
  unfold ldst_match.
  destruct (re_match (ldst_re mn) (strip_comment src)) as [p |];
    [| discriminate].
  match goal with
  | |- match ldst_simplify _ ?s with _ => _ end = _ -> _ =>
      destruct (ldst_simplify simplify s) as [s' | |] eqn:E;
      try discriminate
  end.
  intros H. inversion H; subst.
  apply ldst_simplify_frame in E. destruct E as [Ea Ew].
  exists p. repeat split; auto.
  - rewrite Ea.
    destruct (str_eqb (getg p "writeback") "!");
      [| destruct (truthy _)]; reflexivity.
  - rewrite Ew.
    destruct (str_eqb (getg p "writeback") "!");
      [| destruct (truthy _)]; reflexivity.
Qed.

(** C10, amended: whatever the addressing mode, a scalar load or store
    has no in-out operand, the base register is an input, a store has
    no output and the one output of a load is its destination register
    (which is the base register only where the line names the same
    register twice). *)
Theorem base_register_is_input
        (simplify : str -> option str) (self : Instruction) (src : str)
        (i : Instruction) :
  (x_ldr_parse simplify self src = Ok i ->
   exists p,
     re_match (ldst_re "ldr") (strip_comment src) = Some p /\
     addr i = Some (getg p "addr") /\
     writeback i = Some (str_eqb (getg p "writeback") "!") /\
     args_in i = [getg p "addr"] /\
     args_out i = [getg p "dest"] /\
     args_in_out i = []) /\
  (x_str_parse simplify self src = Ok i ->
   exists p,
     re_match (ldst_re "str") (strip_comment src) = Some p /\
     addr i = Some (getg p "addr") /\
     writeback i = Some (str_eqb (getg p "writeback") "!") /\
     args_in i = [getg p "dest"; getg p "addr"] /\
     args_out i = [] /\
     args_in_out i = []).
Proof.
  split.
  - unfold x_ldr_parse.
    destruct (ldst_match simplify "ldr" self src) as [[s g] | |] eqn:E;
      try discriminate.
    intros H. inversion H; subst; clear H.
    apply ldst_match_ok in E. destruct E as (p & Hp & -> & Ha & Hw).
    exists p. cbn. rewrite Ha. repeat split; auto.
  - unfold x_str_parse.
    destruct (ldst_match simplify "str" self src) as [[s g] | |] eqn:E;
      try discriminate.
    intros H. inversion H; subst; clear H.
    apply ldst_match_ok in E. destruct E as (p & Hp & -> & Ha & Hw).
    exists p. cbn. rewrite Ha. repeat split; auto.
Qed.

(** The amended C10 at a load with writeback and at a store with a
    post-index increment. *)
Lemma base_register_is_input_witness :
  (exists i,
      x_ldr_parse keep (new x_ldr) "ldr x0, [x1, #8]!" = Ok i /\
      writeback i = Some true /\
      args_in i = ["x1" : str] /\ args_out i = ["x0" : str] /\
      args_in_out i = []) /\
  (exists i,
      x_str_parse keep (new x_str) "str x0, [x1], #8" = Ok i /\
      post_index i = Some (Some ("8" : str)) /\
      args_in i = ["x0" : str; "x1" : str] /\ args_out i = [] /\
      args_in_out i = []).
Proof.
  split.
  - eexists. split; [vm_compute; reflexivity |].
    match goal with
    | |- context [writeback ?i] =>
        destruct (proj1 (base_register_is_input keep (new x_ldr)
                           "ldr x0, [x1, #8]!" i))
          as (p & Hp & _ & Hw & Hin & Hout & Hio);
        [vm_compute; reflexivity |]
    end.
    vm_compute in Hp. inversion Hp; subst p; clear Hp.
    rewrite Hw, Hin, Hout, Hio. vm_compute. repeat split.
  - eexists. split; [vm_compute; reflexivity |].
    match goal with
    | |- context [post_index ?i] =>
        destruct (proj2 (base_register_is_input keep (new x_str)
                           "str x0, [x1], #8" i))
          as (p & Hp & _ & Hw & Hin & Hout & Hio);
        [vm_compute; reflexivity |]
    end.
    vm_compute in Hp. inversion Hp; subst p; clear Hp.
    rewrite Hin, Hout, Hio. vm_compute. repeat split.
Defined.

End LoadStoreProps.

Module PairFusionProps.
Import Neon.

Lemma strs_eqb_eq a b : strs_eqb a b = true <-> a = b.
Proof.
  unfold strs_eqb.
  destruct (list_eq_dec (list_eq_dec ascii_dec) a b); split;
    auto; discriminate.
Qed.

Lemma str_eqb_eq a b : str_eqb a b = true <-> a = b.
Proof.
  unfold str_eqb. destruct (list_eq_dec ascii_dec a b); split;
    auto; discriminate.
Qed.

Lemma is_class_eq c i : is_class c i = true <-> cls i = c.
Proof.
  unfold is_class. destruct (InstClass_eq_dec (cls i) c); split;
    auto; discriminate.
Qed.

Lemma lanes_01_spec a b :
  lanes_01 a b = true <->
  (a = ("0" : str) /\ b = ("1" : str)) \/ (a = ("1" : str) /\ b = ("0" : str)).
Proof.
  unfold lanes_01. rewrite Bool.orb_true_iff, !Bool.andb_true_iff.
  rewrite !str_eqb_eq. reflexivity.
Qed.

(** The search of the callback finds a partner exactly under the
    condition on the consumers. *)
Lemma find_succ_vins inst t :
  vins_node inst t -> dst_in_out t <> [] ->
  exists b,
    find_succ vins (fun r => strs_eqb (args_in_out r) (args_in_out inst))
              inst t = Some b /\
    (b = true <->
     exists r,
       nth_error (dst_in_out t) 0 = Some [r] /\
       cls r = vins /\
       args_in_out r = args_in_out inst /\
       ((lane r = Some ("0" : str) /\ lane inst = Some ("1" : str)) \/
        (lane r = Some ("1" : str) /\ lane inst = Some ("0" : str)))).
Proof.
  intros (Hc & (l & Hl) & _ & Hsucc) Hne.
  unfold find_succ.
  destruct (dst_in_out t) as [| d0 rest]; [congruence |].
  inversion Hsucc as [| ? ? Hd0 _]; subst.
  destruct d0 as [| r [| r' d0']].
  - exists false. split; auto. split; [discriminate |].
    intros (r & Hr & _). discriminate.
  - inversion Hd0 as [| ? ? Hr _]; subst.
    destruct (is_class vins r) eqn:Ec.
    + apply is_class_eq in Ec. destruct (Hr Ec) as [lr Hlr].
      destruct (strs_eqb (args_in_out r) (args_in_out inst)) eqn:Ea.
      * apply strs_eqb_eq in Ea. rewrite Hlr, Hl.
        exists (lanes_01 lr l). split; auto.
        rewrite lanes_01_spec. split.
        -- intros H. exists r. cbn. repeat split; auto.
           destruct H as [[-> ->] | [-> ->]]; auto.
        -- intros (r0 & Hr0 & _ & _ & H). cbn in Hr0.
           inversion Hr0; subst r0. rewrite Hlr in H.
           destruct H as [[H1 H2] | [H1 H2]];
             inversion H1; inversion H2; auto.
      * exists false. split; auto. split; [discriminate |].
        intros (r0 & Hr0 & _ & Hargs & _). cbn in Hr0.
        inversion Hr0; subst r0.
        apply strs_eqb_eq in Hargs. congruence.
    + exists false. split; auto. split; [discriminate |].
      intros (r0 & Hr0 & Hcls & _). cbn in Hr0.
      inversion Hr0; subst r0.
      apply is_class_eq in Hcls. congruence.
  - exists false. split; auto. split; [discriminate |].
    intros (r0 & Hr0 & _). cbn in Hr0. discriminate.
Qed.

(** C7: on a [vins] of the dataflow graph the callback returns; it
    reports a change exactly when the instruction is not yet marked and
    its one in-out consumer is a [vins] on the same register with the
    other of the lanes 0 and 1; then the register has moved from
    [args_in_out] to [args_out] and the instruction is marked; else the
    instruction is as it was. *)
Theorem vins_pair_fusion (inst : Instruction) (t : Node) :
  vins_node inst t ->
  exists changed inst',
    vins_parsing_cb inst t = Some (changed, inst') /\
    (changed = true <-> fusable inst t) /\
    (changed = true ->
     args_out inst' = args_in_out inst /\
     args_in_out inst' = [] /\
     num_out inst' = 1 /\ num_in_out inst' = 0 /\
     arg_types_out inst' = [Neon] /\ arg_types_in_out inst' = [] /\
     args_in inst' = args_in inst /\
     detected_vins_pair inst' = Some true) /\
    (changed = false -> inst' = inst).
Proof.
  intros Hn. pose proof Hn as (Hc & (l & Hl) & (d & Hd & Hu) & Hsucc).
  unfold vins_parsing_cb, fusable. rewrite Hd.
  destruct d.
  - exists false, inst. split; auto. split; [| split]; auto.
    + split; [discriminate |]. intros [H _]. discriminate.
    + discriminate.
  - destruct (Hu eq_refl) as ((a & Ha) & Hne).
    destruct (find_succ_vins inst t Hn Hne) as (b & Hb & Hiff).
    rewrite Hb. destruct b.
    + pose proof (proj1 Hiff eq_refl) as Hf.
      rewrite Ha in *. eexists true, _. split; [reflexivity |].
      split; [| split].
      * split; auto.
      * intros _. cbn. repeat split; auto.
      * discriminate.
    + exists false, inst. split; auto. split; [| split]; auto.
      * split; [discriminate |]. intros [_ H].
        apply Hiff in H. discriminate.
      * discriminate.
Qed.

(** Two [vins] that write the two halves of v0. *)
Lemma vins_pair_fusion_witness :
  exists first second,
    vins_parse (new vins) "vins v0, x1, 0" = Ok first /\
    vins_parse (new vins) "vins v0, x2, 1" = Ok second /\
    exists inst',
      vins_parsing_cb first (mk_Node [[second]]) = Some (true, inst') /\
      args_out inst' = ["v0" : str] /\ args_in_out inst' = [].
Proof.
  eexists. eexists.
  split; [vm_compute; reflexivity |].
  split; [vm_compute; reflexivity |].
  match goal with
  | |- exists _, vins_parsing_cb ?a ?t = _ /\ _ =>
      destruct (vins_pair_fusion a t) as (c & i' & Hcb & Hiff & Hch & _)
  end.
  - split; [reflexivity |]. split; [eexists; reflexivity |].
    split.
    + exists false. split; [reflexivity |]. intros _.
      split; [eexists; reflexivity | discriminate].
    + repeat constructor. intros _. eexists. reflexivity.
  - assert (Hc : c = true).
    { apply Hiff. split; [reflexivity |]. eexists.
      split; [reflexivity |]. split; [reflexivity |].
      split; [reflexivity |]. right. split; reflexivity. }
    subst c. exists i'. split; [exact Hcb |].
    destruct (Hch eq_refl) as (Ho & Hio & _). rewrite Ho. split; auto.
Defined.

End PairFusionProps.

(** ** The driver: a logic for what it does to configuration objects *)

Module DriverLogic.
Import Heuristics.

Lemma nth_error_set_nth_eq (A : Type) (l : list A) k v :
  k < List.length l -> nth_error (set_nth k v l) k = Some v.
Proof.
  revert k. induction l as [| x l IH]; intros [| k] H; simpl in *;
    try lia; auto. apply IH. lia.
Qed.

Lemma nth_error_set_nth_ne (A : Type) (l : list A) k j v :
  j <> k -> nth_error (set_nth k v l) j = nth_error l j.
Proof.
  revert k j. induction l as [| x l IH]; intros [| k] [| j] H; simpl;
    auto; try congruence.
Qed.

Lemma length_set_nth (A : Type) (l : list A) k v :
  List.length (set_nth k v l) = List.length l.
Proof.
  revert k. induction l as [| x l IH]; intros [| k]; simpl; auto.
Qed.

Lemma set_nth_twice (A : Type) (l : list A) k u v :
  set_nth k v (set_nth k u l) = set_nth k v l.
Proof.
  revert k. induction l as [| x l IH]; intros [| k]; simpl; auto.
  now rewrite IH.
Qed.

Section Logic.

Variable n : nat.
Variable R : loc -> Config -> Config -> Prop.
Hypothesis R_refl : forall l c, R l c c.
Hypothesis R_trans : forall l a b c, R l a b -> R l b c -> R l a c.

Lemma ext_refl w : ext n R w w.
Proof. split; auto. intros l c _ H. eauto. Qed.

Lemma ext_trans w1 w2 w3 :
  ext n R w1 w2 -> ext n R w2 w3 -> ext n R w1 w3.
Proof.
  intros [L1 H1] [L2 H2]. split; [lia |].
  intros l c Hl Hc. destruct (H1 l c Hl Hc) as (c' & Hc' & Hr).
  destruct (H2 l c' Hl Hc') as (c'' & Hc'' & Hr').
  exists c''. split; eauto.
Qed.

Lemma spec_ret (A : Type) (a : A) (P : A -> Prop) :
  P a -> spec n R (ret a) P.
Proof.
  intros H w _. split; [apply ext_refl |].
  simpl. intros a' E. inversion E; subst; auto.
Qed.

Lemma spec_raise (A : Type) (e : exn) (P : A -> Prop) :
  spec n R (raise e) P.
Proof.
  intros w _. split; [apply ext_refl |]. simpl. discriminate.
Qed.

Lemma spec_bind (A B : Type) (m : M A) (k : A -> M B)
      (P : A -> Prop) (Q : B -> Prop) :
  spec n R m P -> (forall a, P a -> spec n R (k a) Q) ->
  spec n R (bind m k) Q.
Proof.
  intros Hm Hk w Hw. unfold bind.
  destruct (Hm w Hw) as [He Hp].
  destruct (m w) as [[e | a] w'] eqn:E; simpl in *.
  - split; auto. discriminate.
  - assert (Hw' : n <= List.length (heap w')) by (destruct He; lia).
    destruct (Hk a (Hp a eq_refl) w' Hw') as [He' Hq].
    split; auto. eapply ext_trans; eauto.
Qed.

Lemma spec_weaken (A : Type) (m : M A) (P Q : A -> Prop) :
  spec n R m P -> (forall a, P a -> Q a) -> spec n R m Q.
Proof.
  intros Hm H w Hw. destruct (Hm w Hw) as [He Hp]. split; auto.
Qed.

Lemma spec_getc l : spec n R (getc l) (fun _ => True).
Proof.
  intros w _. unfold getc.
  destruct (nth_error (heap w) l); simpl; split;
    auto using ext_refl.
Qed.

Lemma spec_copy l : spec n R (copy l) (fun c => n <= c).
Proof.
  intros w Hw. unfold copy.
  destruct (nth_error (heap w) l) as [c |] eqn:E; simpl.
  - split.
    + split; simpl; [rewrite length_app; lia |].
      intros j cj Hj Hc. exists cj. split; auto.
      unfold config_at in *. simpl.
      rewrite nth_error_app1; auto. lia.
    + intros a Ha. inversion Ha; subst. exact Hw.
  - split; [apply ext_refl | discriminate].
Qed.

(** An assignment is fine on a fresh object, and on a caller's object
    where [R] allows it. *)
Lemma spec_modify l f :
  n <= l \/ (forall c, R l c (f c)) ->
  spec n R (modify l f) (fun _ => True).
Proof.
  intros Hl w Hw. unfold modify.
  destruct (nth_error (heap w) l) as [c |] eqn:E; simpl.
  - split; auto. split; simpl; [rewrite length_set_nth; lia |].
    intros j cj Hj Hc. unfold config_at in *. simpl.
    destruct (Nat.eq_dec j l) as [-> | Hne].
    + rewrite nth_error_set_nth_eq
        by (apply nth_error_Some; congruence).
      exists (f c). split; auto.
      rewrite E in Hc. inversion Hc; subst.
      destruct Hl as [Hl | Hl]; [lia | apply Hl].
    + rewrite nth_error_set_nth_ne by auto. eauto.
  - split; [apply ext_refl | discriminate].
Qed.

Lemma spec_log lv lg msg : spec n R (log lv lg msg) (fun _ => True).
Proof.
  intros w _. unfold log; simpl. split; auto.
  split; simpl; auto. intros; eauto.
Qed.

Lemma spec_write_file p t : spec n R (write_file p t) (fun _ => True).
Proof.
  intros w _. unfold write_file; simpl. split; auto.
  split; simpl; auto. intros; eauto.
Qed.

Lemma spec_on_limit (A : Type) (m h : M A) (P : A -> Prop) :
  spec n R m P -> spec n R h P -> spec n R (on_limit m h) P.
Proof.
  intros Hm Hh w Hw. unfold on_limit.
  destruct (Hm w Hw) as [He Hp].
  destruct (m w) as [[e | a] w'] eqn:E; simpl in *.
  - assert (Hw' : n <= List.length (heap w')) by (destruct He; lia).
    destruct e; simpl; try (split; [auto | discriminate]).
    destruct (Hh w' Hw') as [He' Hq]. split; auto.
    eapply ext_trans; eauto.
  - split; auto.
Qed.

Lemma spec_unbound (A : Type) name (P : A -> Prop) :
  spec n R (unbound name) P.
Proof. apply spec_raise. Qed.

Lemma spec_assert b : spec n R (assert b) (fun _ => True).
Proof. destruct b; [apply spec_ret | apply spec_raise]; auto. Qed.

Lemma spec_of_option (A : Type) e (o : option A) :
  spec n R (of_option e o) (fun _ => True).
Proof. destruct o; [apply spec_ret | apply spec_raise]; auto. Qed.

Lemma spec_log_each lv lg msgs :
  spec n R (log_each lv lg msgs) (fun _ => True).
Proof.
  induction msgs as [| m ms IH]; simpl.
  - apply spec_ret; auto.
  - eapply spec_bind; [apply spec_log | intros; exact IH].
Qed.

Lemma spec_true (A : Type) (m : M A) (P : A -> Prop) :
  spec n R m P -> spec n R m (fun _ => True).
Proof. intros H. eapply spec_weaken; eauto. Qed.

End Logic.

End DriverLogic.

Module DriverFrames.
Import Heuristics DriverLogic.

Create HintDb drv.

Section Frames.

Variable solver : Config -> source -> kwargs -> outcome.
Variable solver_retry : Config -> source -> kwargs -> Result -> outcome.
Variable binary_search : Z -> Z -> Z -> Z -> option Z -> bs_plan.
Variable dfg : DFGConfig -> source -> option DFG.
Variable dfg_config_outputs : DFGConfig -> list str.
Variable reduce_source : source -> list str.
Variable config_lines : Config -> list str.
Variable naive_order : Config -> list str -> option (list str).
Variable stall_chart : list Z -> nat -> Q -> option (list str).
Variable idx_list_consecutive : Q -> Q -> nat -> option (list (Z * Z)).
Variable idxs_from_fractions : list Q -> nat -> list Z.
Variable round_div : nat -> Q -> Z.
Variable randint : nat -> Z -> Z -> option Z.

Variable n : nat.
Variable R : loc -> Config -> Config -> Prop.
Hypothesis R_refl : forall l c, R l c c.
Hypothesis R_trans : forall l a b c, R l a b -> R l b c -> R l a c.

Local Abbreviation ok := (spec n R).

Lemma ok_ret (A : Type) (a : A) (P : A -> Prop) : P a -> ok (ret a) P.
Proof. apply spec_ret; auto. Qed.

Lemma ok_raise (A : Type) e (P : A -> Prop) : ok (raise e) P.
Proof. apply spec_raise; auto. Qed.

Lemma ok_bind (A B : Type) (m : M A) (k : A -> M B) P Q :
  ok m P -> (forall a, P a -> ok (k a) Q) -> ok (bind m k) Q.
Proof. apply spec_bind; auto. Qed.

Lemma ok_weaken (A : Type) (m : M A) (P Q : A -> Prop) :
  ok m P -> (forall a, P a -> Q a) -> ok m Q.
Proof. apply spec_weaken. Qed.

Lemma ok_true (A : Type) (m : M A) (P : A -> Prop) :
  ok m P -> ok m (fun _ => True).
Proof. apply spec_true. Qed.

Lemma ok_getc l : ok (getc l) (fun _ => True).
Proof. apply spec_getc; auto. Qed.

Lemma ok_copy l : ok (copy l) (fun c => n <= c).
Proof. apply spec_copy; auto. Qed.

Lemma ok_modify l f :
  n <= l \/ (forall c, R l c (f c)) -> ok (modify l f) (fun _ => True).
Proof. apply spec_modify; auto. Qed.

Lemma ok_log lv lg msg : ok (log lv lg msg) (fun _ => True).
Proof. apply spec_log; auto. Qed.

Lemma ok_log_each lv lg msgs : ok (log_each lv lg msgs) (fun _ => True).
Proof. apply spec_log_each; auto. Qed.

Lemma ok_write_file p t : ok (write_file p t) (fun _ => True).
Proof. apply spec_write_file; auto. Qed.

Lemma ok_assert b : ok (assert b) (fun _ => True).
Proof. apply spec_assert; auto. Qed.

Lemma ok_of_option (A : Type) e (o : option A) :
  ok (of_option e o) (fun _ => True).
Proof. apply spec_of_option; auto. Qed.

Lemma ok_unbound (A : Type) name (P : A -> Prop) : ok (unbound name) P.
Proof. apply spec_unbound; auto. Qed.

Lemma ok_on_limit (A : Type) (m h : M A) (P : A -> Prop) :
  ok m P -> ok h P -> ok (on_limit m h) P.
Proof. apply spec_on_limit; auto. Qed.

(** The leaves of a computation: primitives, and functions whose
    behaviour is already known. *)
Ltac ok_leaf :=
  first
    [ apply ok_getc
    | apply ok_copy
    | apply ok_log
    | apply ok_log_each
    | apply ok_write_file
    | apply ok_assert
    | apply ok_of_option
    | apply ok_modify; first [left; cbv beta in *; lia | right; solve [auto] ]
    | solve [eauto with drv] ].

Ltac ok_go :=
  lazymatch goal with
  | |- ok _ ?P =>
      tryif is_evar P then
        first [ ok_leaf
              | (let T := type of P in
                 match T with
                 | ?A -> Prop => unify P (fun _ : A => True)
                 end); ok_go ]
      else
        lazymatch goal with
        | |- ok (bind _ _) _ =>
            eapply ok_bind; [ ok_go | intros; cbv beta in *; ok_go ]
        | |- ok (if ?b then _ else _) _ => destruct b; ok_go
        | |- ok (match ?x with _ => _ end) _ => destruct x; ok_go
        | |- ok (ret _) _ => apply ok_ret; auto
        | |- ok (raise _) _ => apply ok_raise
        | |- ok (unbound _) _ => apply ok_unbound
        | |- _ => first [ok_leaf | eapply ok_weaken; [ok_leaf | auto]]
        end
  end.

Lemma recip_ok x : ok (recip x) (fun _ => True).
Proof. unfold recip. ok_go. Qed.

Lemma run_solver_ok o : ok (run_solver o) (fun _ => True).
Proof. unfold run_solver. ok_go. Qed.

Lemma new_dfg_ok d s : ok (new_dfg dfg d s) (fun _ => True).
Proof. unfold new_dfg. ok_go. Qed.

Lemma result_of_ok c : ok (result_of c) (fun _ => True).
Proof. unfold result_of. ok_go. Qed.

Hint Resolve recip_ok run_solver_ok new_dfg_ok result_of_ok : drv.

Lemma dump_ok name s lg e nc : ok (_dump name s lg e nc) (fun _ => True).
Proof. unfold _dump. ok_go. Qed.

Hint Resolve dump_ok : drv.

Lemma conf_log_ok conf f :
  (forall l, ok (f l) (fun _ => True)) ->
  ok (conf_log config_lines conf f) (fun _ => True).
Proof.
  intros Hf. unfold conf_log.
  eapply ok_bind; [apply ok_getc | intros cv _].
  induction (config_lines cv) as [| l ls IH].
  - apply ok_ret; auto.
  - eapply ok_bind; [apply Hf | intros; exact IH].
Qed.

Lemma print_stalls_ok lg f st l :
  ok (print_stalls stall_chart lg f st l) (fun _ => True).
Proof. unfold print_stalls. ok_go. Qed.

Hint Resolve print_stalls_ok : drv.

(** An attempt of the binary search works on a copy. *)
Lemma try_with_stalls_ok src lg conf kw last stalls timeout :
  ok (try_with_stalls solver src lg conf kw last stalls timeout)
     (fun r => n <= core_config (snd (fst r))).
Proof.
  unfold try_with_stalls.
  eapply ok_bind; [apply ok_log | intros _ _].
  eapply ok_bind; [apply ok_copy | intros c Hc].
  eapply ok_bind; [ok_go | intros _ _].
  eapply ok_bind; [ok_go | intros cv _].
  eapply ok_bind; [ok_go | intros _ _].
  eapply ok_bind; [ok_go | intros _ _].
  eapply ok_bind; [ok_go | intros cv' _].
  eapply ok_bind; [ok_go | intros r _].
  destruct r as [res |].
  - destruct (ext_bsearch_remember_successes (hints cv'));
      apply ok_ret; auto.
  - apply ok_ret; auto.
Qed.

Definition fresh_best (best : option (Z * Core)) : Prop :=
  match best with
  | Some (_, core) => n <= core_config core
  | None => True
  end.

Lemma run_plan_ok plan src lg conf kw last best :
  fresh_best best ->
  ok (run_plan plan (try_with_stalls solver src lg conf kw) last best)
     (fun r => n <= core_config (snd r)).
Proof.
  revert last best. induction plan as [stalls timeout next IH | |];
    intros last best Hb; simpl.
  - eapply ok_bind; [apply try_with_stalls_ok |].
    intros [[b core] last'] Hc. simpl in Hc.
    apply IH. destruct b; simpl; auto.
  - destruct best as [[s core] |]; simpl.
    + apply ok_ret; auto.
    + apply ok_raise.
  - apply ok_raise.
Qed.

Hint Resolve try_with_stalls_ok : drv.

Lemma conf_log_log_ok conf lv lg :
  ok (conf_log config_lines conf (log lv lg)) (fun _ => True).
Proof. apply conf_log_ok. intros. apply ok_log. Qed.

Hint Resolve conf_log_log_ok : drv.

Lemma on_exhaustion_ok src lg conf name :
  ok (on_exhaustion config_lines src lg conf name) (fun r => r = None).
Proof. unfold on_exhaustion. ok_go. Qed.

Definition fresh_found (r : option (Z * Core)) : Prop :=
  match r with
  | Some (_, core) => n <= core_config core
  | None => True
  end.

Lemma optimize_binsearch_core_ok src lg conf kw :
  ok (optimize_binsearch_core solver binary_search config_lines
                              src lg conf kw)
     fresh_found.
Proof.
  unfold optimize_binsearch_core.
  eapply ok_bind; [apply ok_getc | intros cv _].
  apply ok_on_limit.
  - eapply ok_bind; [apply run_plan_ok; exact I |].
    intros [m core] H. apply ok_ret. exact H.
  - eapply ok_weaken; [apply on_exhaustion_ok |].
    intros r ->. exact I.
Qed.

Hint Resolve optimize_binsearch_core_ok : drv.

Lemma optimize_binsearch_external_ok src lg conf flexible kw :
  ok (optimize_binsearch_external solver solver_retry binary_search
                                  config_lines src lg conf flexible kw)
     (fun _ => True).
Proof.
  unfold optimize_binsearch_external.
  destruct flexible; cbn [negb].
  - eapply ok_bind; [apply ok_log | intros _ _].
    eapply ok_bind; [apply ok_copy | intros c Hc].
    eapply ok_bind; [ok_go | intros _ _].
    eapply ok_bind; [apply optimize_binsearch_core_ok |].
    intros [[m core] |] Hf; [| apply ok_raise].
    simpl in Hf. ok_go.
  - ok_go.
Qed.

Lemma internal_search_ok fuel src lg conf kw cur :
  ok (internal_search solver fuel src lg conf kw cur) (fun _ => True).
Proof.
  revert cur. induction fuel as [| fuel IH]; intros cur; simpl.
  - apply ok_raise.
  - eapply ok_bind; [apply ok_copy | intros c Hc].
    eapply ok_bind; [ok_go | intros _ _].
    eapply ok_bind; [ok_go | intros _ _].
    eapply ok_bind; [ok_go | intros _ _].
    eapply ok_bind; [ok_go | intros cv _].
    eapply ok_bind; [ok_go | intros r _].
    destruct r as [res |]; [apply ok_ret; auto |].
    eapply ok_bind; [ok_go | intros cf _].
    destruct (_ <? _)%Z; [ok_go | apply IH].
Qed.

Hint Resolve internal_search_ok optimize_binsearch_external_ok : drv.

Lemma optimize_binsearch_internal_ok src lg conf kw :
  ok (optimize_binsearch_internal solver src lg conf kw) (fun _ => True).
Proof. unfold optimize_binsearch_internal. ok_go. Qed.

Hint Resolve optimize_binsearch_internal_ok : drv.

Lemma optimize_binsearch_ok src lg conf kw :
  ok (optimize_binsearch solver solver_retry binary_search config_lines
                         src lg conf kw)
     (fun _ => True).
Proof. unfold optimize_binsearch. ok_go. Qed.

Hint Resolve optimize_binsearch_ok : drv.

Lemma naive_reordering_ok body lg conf :
  ok (_naive_reordering naive_order body lg conf) (fun _ => True).
Proof. unfold _naive_reordering. ok_go. Qed.

Hint Resolve naive_reordering_ok : drv.

(** A chunk is optimized under copies of the configuration. *)
Lemma optimize_chunk_ok lg f conf l a b body st show :
  ok (optimize_chunk solver solver_retry binary_search dfg
                     dfg_config_outputs reduce_source config_lines
                     stall_chart lg f conf l a b body st show)
     (fun _ => True).
Proof.
  unfold optimize_chunk.
  eapply ok_bind; [apply ok_getc | intros cv _].
  destruct (split_heuristic_optimize_seam cv =? 0)%Z; ok_go.
Qed.

Hint Resolve optimize_chunk_ok : drv.

Lemma optimize_chunks_many_ok lg f conf l lst body st th show :
  ok (optimize_chunks_many solver solver_retry binary_search dfg
                           dfg_config_outputs reduce_source config_lines
                           stall_chart lg f conf l lst body st th show)
     (fun _ => True).
Proof.
  revert body st. induction lst as [| [a b] rest IH]; intros body st;
    simpl.
  - apply ok_ret; auto.
  - eapply ok_bind; [apply optimize_chunk_ok |].
    intros [[body' st'] cur] _.
    destruct th as [t |]; [destruct (t <? cur)%Z |];
      first [apply ok_ret; exact I | apply IH].
Qed.

Hint Resolve optimize_chunks_many_ok : drv.

Lemma split_pass_ok lg f conf l inc turn st :
  ok (split_pass solver solver_retry binary_search dfg dfg_config_outputs
                 reduce_source config_lines stall_chart
                 idx_list_consecutive round_div randint
                 lg f conf l inc turn st)
     (fun _ => True).
Proof. unfold split_pass. destruct st as [cur_body stalls]. ok_go. Qed.

Hint Resolve split_pass_ok : drv.

Lemma split_passes_ok lg f conf l inc turn k st :
  ok (split_passes solver solver_retry binary_search dfg
                   dfg_config_outputs reduce_source config_lines
                   stall_chart idx_list_consecutive round_div randint
                   lg f conf l inc turn k st)
     (fun _ => True).
Proof.
  revert turn st. induction k as [| k IH]; intros turn st; simpl.
  - apply ok_ret; auto.
  - eapply ok_bind; [apply split_pass_ok | intros; apply IH].
Qed.

Lemma mark_gaps_ok lg maxlen st body :
  ok (mark_gaps lg maxlen st body) (fun _ => True).
Proof.
  revert body. induction st as [| i rest IH]; intros body; simpl.
  - apply ok_ret; auto.
  - eapply ok_bind; [ok_go |]. intros _ _.
    eapply ok_bind; [ok_go |]. intros k _. apply IH.
Qed.

Hint Resolve split_passes_ok mark_gaps_ok : drv.

(** [_split_inner] assigns to the object it is handed: that has to be
    an object of its caller's own making. *)
Lemma split_inner_ok body lg conf :
  n <= conf ->
  ok (_split_inner solver solver_retry binary_search dfg
                   dfg_config_outputs reduce_source config_lines
                   naive_order stall_chart idx_list_consecutive
                   round_div randint body lg conf)
     (fun _ => True).
Proof.
  intros Hconf. unfold _split_inner.
  destruct (List.length body =? 0); [apply ok_ret; auto |].
  eapply ok_bind; [apply ok_getc | intros cv _].
  eapply ok_bind; [ok_go | intros body' _].
  eapply ok_bind; [ok_go | intros inc _].
  eapply ok_bind with (P := fun r => n <= fst r).
  { eapply ok_bind; [apply ok_getc | intros cv' _].
    destruct (0 <? split_heuristic_repeat cv')%Z.
    - eapply ok_bind; [apply ok_copy | intros orig Horig].
      eapply ok_bind; [ok_go | intros _ _].
      eapply ok_bind; [ok_go | intros _ _].
      eapply ok_bind; [ok_go | intros lst _].
      eapply ok_bind; [ok_go | intros r _].
      eapply ok_bind; [apply ok_copy | intros conf' Hconf'].
      eapply ok_bind; [ok_go | intros _ _].
      eapply ok_bind; [ok_go | intros _ _].
      apply ok_ret. exact Hconf'.
    - apply ok_ret. exact Hconf. }
  intros [conf' [cur_body stalls]] Hconf'. simpl in Hconf'.
  eapply ok_bind; [apply ok_getc | intros cv2 _].
  eapply ok_bind; [ok_go | intros inc2 _].
  eapply ok_bind; [ok_go | intros [cur_body2 stalls2] _].
  eapply ok_bind; [ok_go | intros maxlen _].
  eapply ok_bind; [ok_go | intros cur_body3 _].
  eapply ok_bind; [apply ok_getc | intros cv3 _].
  eapply ok_bind; [ok_go | intros [c cur_body4] _].
  eapply ok_bind; [apply ok_getc | intros cv4 _].
  ok_go.
Qed.

Lemma split_ok body lg conf :
  ok (_split solver solver_retry binary_search dfg dfg_config_outputs
             reduce_source config_lines naive_order stall_chart
             idx_list_consecutive idxs_from_fractions round_div randint
             body lg conf)
     (fun _ => True).
Proof.
  unfold _split.
  eapply ok_bind; [apply ok_copy | intros c Hc].
  eapply ok_bind; [apply ok_getc | intros cv _].
  destruct (is_whole_region (split_heuristic_region cv)).
  - apply split_inner_ok. exact Hc.
  - destruct (idxs_from_fractions _ _) as [| a [| b rest]];
      try apply ok_raise.
    eapply ok_bind; [apply ok_getc | intros cv' _].
    eapply ok_bind; [ok_go | intros g _].
    eapply ok_bind; [ok_go | intros _ _].
    eapply ok_bind; [ok_go | intros _ _].
    eapply ok_bind; [apply split_inner_ok; exact Hc | intros cur _].
    apply ok_ret; auto.
Qed.

Hint Resolve split_ok : drv.

Lemma linear_ok body lg conf :
  ok (linear solver solver_retry binary_search dfg dfg_config_outputs
             reduce_source config_lines naive_order stall_chart
             idx_list_consecutive idxs_from_fractions round_div randint
             body lg conf)
     (fun _ => True).
Proof. unfold linear. ok_go. Qed.

Hint Resolve linear_ok : drv.

Lemma halving_first_step_ok body lg conf :
  ok (halving_first_step solver solver_retry binary_search dfg
        dfg_config_outputs reduce_source config_lines naive_order
        stall_chart idx_list_consecutive idxs_from_fractions round_div
        randint body lg conf)
     (fun _ => True).
Proof. unfold halving_first_step. ok_go. Qed.

Lemma halving_second_step_ok deps high kernel lg conf :
  ok (halving_second_step solver solver_retry binary_search dfg
        dfg_config_outputs reduce_source config_lines naive_order
        stall_chart idx_list_consecutive idxs_from_fractions round_div
        randint deps high kernel lg conf)
     (fun _ => True).
Proof. unfold halving_second_step. ok_go. Qed.

Hint Resolve halving_first_step_ok halving_second_step_ok : drv.

Lemma periodic_halving_ok body lg conf :
  ok (_periodic_halving solver solver_retry binary_search dfg
        dfg_config_outputs reduce_source config_lines naive_order
        stall_chart idx_list_consecutive idxs_from_fractions round_div
        randint body lg conf)
     (fun _ => True).
Proof.
  unfold _periodic_halving.
  eapply ok_bind; [apply ok_getc | intros cv _].
  eapply ok_bind; [ok_go | intros _ _].
  eapply ok_bind; [ok_go | intros _ _].
  eapply ok_bind; [ok_go | intros [deps kernel] _].
  destruct (halves kernel) as [low high].
  ok_go.
Qed.

Hint Resolve periodic_halving_ok : drv.

(** [periodic] assigns [outputs] and [inputs_are_outputs] of the
    object it is handed, and nothing else of it. *)
Lemma periodic_ok body lg conf :
  (forall c o, R conf c (set_outputs o c)) ->
  (forall c b, R conf c (set_inputs_are_outputs b c)) ->
  ok (periodic solver solver_retry binary_search dfg dfg_config_outputs
               reduce_source config_lines naive_order stall_chart
               idx_list_consecutive idxs_from_fractions round_div randint
               body lg conf)
     (fun _ => True).
Proof.
  intros Ho Hi. unfold periodic.
  eapply ok_bind; [apply ok_getc | intros cv _].
  eapply ok_bind; [ok_go | intros _ _].
  eapply ok_bind.
  { instantiate (1 := fun _ => True).
    destruct (inputs_are_outputs cv); [| apply ok_ret; auto].
    eapply ok_bind; [apply ok_copy | intros dc Hdc].
    eapply ok_bind; [ok_go | intros dcv _].
    eapply ok_bind; [ok_go | intros g _].
    eapply ok_bind; [apply ok_modify; right; intros; apply Ho |].
    intros _ _. apply ok_modify; right; intros; apply Hi. }
  intros _ _.
  eapply ok_bind; [apply ok_getc | intros cv' _].
  ok_go.
Qed.

(** Without [inputs_are_outputs] there is no such assignment. *)
Lemma periodic_ok_when_unset body lg conf w cv :
  n <= List.length (heap w) ->
  config_at w conf = Some cv ->
  inputs_are_outputs cv = false ->
  ext n R w
      (snd (periodic solver solver_retry binary_search dfg
                     dfg_config_outputs reduce_source config_lines
                     naive_order stall_chart idx_list_consecutive
                     idxs_from_fractions round_div randint
                     body lg conf w)).
Proof.
  intros Hn Hc Hio. unfold periodic. unfold bind at 1.
  unfold getc at 1. unfold config_at in Hc. rewrite Hc.
  cbv beta iota. rewrite Hio.
  match goal with
  | |- ext _ _ w (snd (?m w)) =>
      assert (Hs : ok m (fun _ => True)); [| exact (proj1 (Hs w Hn))]
  end.
  eapply ok_bind; [ok_go | intros _ _].
  eapply ok_bind;
    [apply (ok_ret unit tt (fun _ => True)); exact I | intros _ _].
  eapply ok_bind; [apply ok_getc | intros cv' _].
  ok_go.
Qed.

(** With [inputs_are_outputs] set, and the dataflow graph of the
    body built, [periodic] has assigned [outputs] and
    [inputs_are_outputs] of the object it is handed when it goes on,
    and what follows keeps to [R]. *)
Lemma periodic_ok_after_assignment body lg conf w cv g :
  n <= List.length (heap w) ->
  config_at w conf = Some cv ->
  inputs_are_outputs cv = true ->
  dfg (DFGConfig_of cv)
      (Text (join [newline]
                  (if enabled (sw_pipelining cv)
                   then repeat_list body
                          (Z.to_nat (unroll (sw_pipelining cv)))
                   else body)))
  = Some g ->
  ext n R
      (mk_world
         (set_nth conf
                  (set_inputs_are_outputs false
                     (set_outputs (dfg_out g) cv))
                  (heap w ++ [cv]))
         (logged w) (files w))
      (snd (periodic solver solver_retry binary_search dfg
                     dfg_config_outputs reduce_source config_lines
                     naive_order stall_chart idx_list_consecutive
                     idxs_from_fractions round_div randint
                     body lg conf w)).
Proof.
  intros Hn Hc Hio Hg.
  assert (Hl : conf < List.length (heap w))
    by (apply nth_error_Some; unfold config_at in Hc; congruence).
  unfold periodic. unfold bind at 1.
  unfold getc at 1. unfold config_at in Hc. rewrite Hc.
  cbv beta iota. rewrite Hio. cbn [negb]. rewrite andb_false_r.
  unfold bind at 1, ret at 1. cbv beta iota.
  unfold bind at 1. unfold bind at 1.
  unfold copy at 1. rewrite Hc. cbv beta iota.
  unfold bind at 1. unfold getc at 1. cbn [heap logged files].
  rewrite nth_error_app2 by lia. rewrite Nat.sub_diag. cbn [nth_error].
  cbv beta iota. unfold bind at 1. unfold new_dfg at 1.
  rewrite Hg. cbn [of_option]. unfold ret at 1. cbv beta iota.
  unfold bind at 1. unfold modify at 1. cbn [heap logged files].
  rewrite nth_error_app1 by exact Hl. rewrite Hc. cbv beta iota.
  unfold modify at 1. cbn [heap logged files].
  rewrite nth_error_set_nth_eq by (rewrite length_app; lia).
  cbv beta iota. rewrite set_nth_twice.
  match goal with
  | |- ext _ _ ?w2 (snd (?m ?w2)) =>
      assert (Hs : ok m (fun _ => True));
      [| apply (proj1 (Hs w2
                         ltac:(cbn [heap]; rewrite length_set_nth,
                                 length_app; lia)))]
  end.
  eapply ok_bind; [apply ok_getc | intros cv' _].
  ok_go.
Qed.

End Frames.

End DriverFrames.

(** ** The driver: what single steps compute *)

Module DriverRuns.
Import Heuristics DriverLogic.

Lemma bind_run (A B : Type) (m : M A) (k : A -> M B) w a w' :
  m w = (inr a, w') -> bind m k w = k a w'.
Proof. intros H. unfold bind. now rewrite H. Qed.

Lemma bind_fail (A B : Type) (m : M A) (k : A -> M B) w e w' :
  m w = (inl e, w') -> bind m k w = (inl e, w').
Proof. intros H. unfold bind. now rewrite H. Qed.

Lemma bind_inv (A B : Type) (m : M A) (k : A -> M B) w b w' :
  bind m k w = (inr b, w') ->
  exists a w1, m w = (inr a, w1) /\ k a w1 = (inr b, w').
Proof.
  unfold bind. destruct (m w) as [[e | a] w1]; [discriminate |]. eauto.
Qed.

Lemma getc_run w l cv :
  config_at w l = Some cv -> getc l w = (inr cv, w).
Proof. unfold getc, config_at. now intros ->. Qed.

Lemma getc_inv w l cv w' :
  getc l w = (inr cv, w') -> w' = w /\ config_at w l = Some cv.
Proof.
  unfold getc, config_at. destruct (nth_error (heap w) l);
    intros H; inversion H; auto.
Qed.

Lemma copy_run w l cv :
  config_at w l = Some cv ->
  copy l w = (inr (List.length (heap w)),
              mk_world (heap w ++ [cv]) (logged w) (files w)).
Proof. unfold copy, config_at. now intros ->. Qed.

Lemma config_at_last h lg fs cv :
  config_at (mk_world (h ++ [cv]) lg fs) (List.length h) = Some cv.
Proof.
  unfold config_at. simpl. rewrite nth_error_app2 by lia.
  now rewrite Nat.sub_diag.
Qed.

Lemma config_at_old h lg fs lg' fs' extra l cv :
  config_at (mk_world h lg fs) l = Some cv ->
  config_at (mk_world (h ++ extra) lg' fs') l = Some cv.
Proof.
  unfold config_at. simpl. intros H.
  rewrite nth_error_app1; auto. apply nth_error_Some. congruence.
Qed.

Lemma set_nth_last (A : Type) (h : list A) (x y : A) :
  set_nth (List.length h) y (h ++ [x]) = h ++ [y].
Proof. induction h as [| a h IH]; simpl; auto. now rewrite IH. Qed.

(** An assignment to the newest object. *)
Lemma modify_last_run h lg fs cv f :
  modify (List.length h) f (mk_world (h ++ [cv]) lg fs)
  = (inr tt, mk_world (h ++ [f cv]) lg fs).
Proof.
  unfold modify. simpl. rewrite nth_error_app2 by lia.
  rewrite Nat.sub_diag. simpl. now rewrite set_nth_last.
Qed.

Lemma log_each_run lv lg msgs w :
  log_each lv lg msgs w
  = (inr tt, mk_world (heap w)
                      (logged w ++ map (fun m => (lv, lname lg, m)) msgs)
                      (files w)).
Proof.
  revert w. induction msgs as [| m ms IH]; intros w; simpl.
  - rewrite app_nil_r. destruct w; reflexivity.
  - unfold bind, log at 1. rewrite IH. simpl.
    now rewrite <- app_assoc.
Qed.

Lemma dump_run name s lg err nc w :
  _dump name s lg err nc w
  = (inr tt,
     mk_world (heap w)
       (logged w
          ++ (if err then Error else Debug, lname lg, txt "Dump: " ++ name)
          :: map (fun m => (if err then Error else Debug, lname lg, m))
                 (map (fun l => txt "> " ++ l)
                      (let sl := match s with
                                 | Text t => splitlines t
                                 | Lines l => l
                                 end in
                       if nc then strip_comments sl else sl)))
       (files w)).
Proof.
  unfold _dump, bind, log at 1. rewrite log_each_run. simpl.
  now rewrite <- app_assoc.
Qed.

Lemma conf_log_run config_lines conf lv lg w cv :
  config_at w conf = Some cv ->
  conf_log config_lines conf (log lv lg) w
  = (inr tt, mk_world (heap w)
                      (logged w ++ map (fun m => (lv, lname lg, m))
                                       (config_lines cv))
                      (files w)).
Proof.
  intros H. unfold conf_log. unfold bind at 1.
  rewrite (getc_run _ _ _ H).
  generalize (config_lines cv) as ls. intros ls. revert w H.
  induction ls as [| l ls IH]; intros w H; simpl.
  - rewrite app_nil_r. destruct w; reflexivity.
  - unfold bind, log at 1. rewrite IH by exact H. simpl.
    now rewrite <- app_assoc.
Qed.

Section Search.

Variable solver : Config -> source -> kwargs -> outcome.

(** One attempt, computed: a copy of the configuration is added to
    the heap and handed to the solver; nothing else changes. *)
Lemma try_with_stalls_run src lg conf kw last stalls timeout w cv :
  config_at w conf = Some cv ->
  try_with_stalls solver src lg conf kw last stalls timeout w =
  let cfg := attempt_config cv stalls timeout in
  let w' := mk_world (heap w ++ [cfg])
                     (logged w ++ [attempt_line lg stalls]) (files w) in
  let src' := attempt_source src last in
  let c := List.length (heap w) in
  match solver cfg src' kw with
  | Solved r =>
      (inr (true, mk_Core c src' kw (Some r),
            if ext_bsearch_remember_successes (hints cfg)
            then Some (code r) else last), w')
  | Unsolved => (inr (false, mk_Core c src' kw None, last), w')
  | Crashed => (inl SolverError, w')
  end.
Proof.
  intros Hc. unfold try_with_stalls.
  unfold bind at 1. unfold log at 1. cbv beta iota.
  unfold bind at 1.
  rewrite (copy_run _ conf cv) by (destruct w; exact Hc).
  cbv beta iota. cbn [heap logged files].
  unfold bind at 1. rewrite modify_last_run. cbv beta iota.
  unfold bind at 1. rewrite (getc_run _ _ _ (config_at_last _ _ _ _)).
  cbv beta iota. cbv zeta. unfold attempt_config, attempt_source, attempt_line.
  set (c0 := set_constraints (set_stalls_allowed stalls (constraints cv)) cv).
  assert (Hfinish :
            forall cfg,
              (cv0 <- getc (List.length (heap w)) ;;
               r <- run_solver (solver cv0 match last with
                                           | Some l => Lines l
                                           | None => src
                                           end kw) ;;
               match r with
               | Some res =>
                   if ext_bsearch_remember_successes (hints cv0)
                   then ret (true,
                             mk_Core (List.length (heap w))
                                     match last with
                                     | Some l => Lines l
                                     | None => src
                                     end kw r, Some (code res))
                   else ret (true,
                             mk_Core (List.length (heap w))
                                     match last with
                                     | Some l => Lines l
                                     | None => src
                                     end kw r, last)
               | None =>
                   ret (false,
                        mk_Core (List.length (heap w))
                                match last with
                                | Some l => Lines l
                                | None => src
                                end kw r, last)
               end)
                (mk_world (heap w ++ [cfg])
                          (logged w
                             ++ [(Info, lname lg,
                                  txt "Attempt optimization with max "
                                    ++ str_of_Z stalls ++ txt " stalls...")])
                          (files w))
              = match solver cfg match last with
                                 | Some l => Lines l
                                 | None => src
                                 end kw with
                | Solved r =>
                    (inr (true,
                          mk_Core (List.length (heap w))
                                  match last with
                                  | Some l => Lines l
                                  | None => src
                                  end kw (Some r),
                          if ext_bsearch_remember_successes (hints cfg)
                          then Some (code r) else last),
                     mk_world (heap w ++ [cfg])
                              (logged w
                                 ++ [(Info, lname lg,
                                      txt "Attempt optimization with max "
                                        ++ str_of_Z stalls
                                        ++ txt " stalls...")])
                              (files w))
                | Unsolved =>
                    (inr (false,
                          mk_Core (List.length (heap w))
                                  match last with
                                  | Some l => Lines l
                                  | None => src
                                  end kw None, last),
                     mk_world (heap w ++ [cfg])
                              (logged w
                                 ++ [(Info, lname lg,
                                      txt "Attempt optimization with max "
                                        ++ str_of_Z stalls
                                        ++ txt " stalls...")])
                              (files w))
                | Crashed =>
                    (inl SolverError,
                     mk_world (heap w ++ [cfg])
                              (logged w
                                 ++ [(Info, lname lg,
                                      txt "Attempt optimization with max "
                                        ++ str_of_Z stalls
                                        ++ txt " stalls...")])
                              (files w))
                end).
  { intros cfg. unfold bind at 1.
    rewrite (getc_run _ _ _ (config_at_last _ _ _ _)). cbv beta iota.
    unfold bind at 1.
    destruct (solver cfg _ kw) as [r | |]; simpl; auto.
    destruct (ext_bsearch_remember_successes (hints cfg)); reflexivity. }
  destruct (ext_bsearch_remember_successes (hints c0)) eqn:Er.
  - unfold bind at 1. unfold bind at 1. rewrite modify_last_run.
    cbv beta iota. rewrite modify_last_run. cbv beta iota.
    unfold bind at 1.
    destruct timeout as [t |].
    + rewrite modify_last_run. cbv beta iota. apply Hfinish.
    + unfold ret at 1. cbv beta iota. apply Hfinish.
  - unfold bind at 1. unfold ret at 1. cbv beta iota.
    unfold bind at 1.
    destruct timeout as [t |].
    + rewrite modify_last_run. cbv beta iota. apply Hfinish.
    + unfold ret at 1. cbv beta iota. apply Hfinish.
Qed.

End Search.

End DriverRuns.

(** ** The binary search *)

Module SearchProps.
Import Heuristics DriverLogic DriverRuns.

Lemma found_by_later solver src kw cv h lg fs extra lg' fs' s core :
  found_by solver src kw cv (mk_world h lg fs) s core ->
  found_by solver src kw cv (mk_world (h ++ extra) lg' fs') s core.
Proof.
  intros (t & last & r & Hc & Hrest).
  exists t, last, r. split; auto.
  eapply config_at_old. exact Hc.
Qed.

Section Search.

Variable solver : Config -> source -> kwargs -> outcome.
Variable src : source.
Variable lg : Logger.
Variable conf : loc.
Variable kw : kwargs.
Variable cv : Config.

(** What the attempts of a search leave behind: new objects only, no
    file, and a core that was run as [found_by] says. *)
Definition search_kept (w : world) (res : (exn + (Z * Core)) * world)
  : Prop :=
  (exists extra, heap (snd res) = heap w ++ extra) /\
  files (snd res) = files w /\
  forall s core, fst res = inr (s, core) ->
                 found_by solver src kw cv (snd res) s core.

Lemma run_plan_run plan :
  forall last best w,
    config_at w conf = Some cv ->
    (forall s core, best = Some (s, core) ->
                    found_by solver src kw cv w s core) ->
    search_kept w (run_plan plan (try_with_stalls solver src lg conf kw)
                            last best w).
Proof.
  induction plan as [stalls timeout next IH | |];
    intros last best w Hc Hbest.
  - cbn [run_plan]. unfold bind at 1.
    rewrite (try_with_stalls_run solver src lg conf kw last stalls
                                 timeout w cv Hc).
    cbv zeta.
    assert (Hc' : forall l',
               config_at (mk_world (heap w ++ [attempt_config cv stalls timeout])
                                   l' (files w)) conf = Some cv).
    { intros l'. destruct w as [h l0 f0].
      eapply config_at_old. exact Hc. }
    assert (Hold : forall s core,
               best = Some (s, core) ->
               found_by solver src kw cv
                        (mk_world (heap w ++ [attempt_config cv stalls timeout])
                                  (logged w ++ [attempt_line lg stalls])
                                  (files w)) s core).
    { intros s core Hb. destruct w as [h l0 f0].
      eapply found_by_later. apply (Hbest s core Hb). }
    destruct (solver (attempt_config cv stalls timeout)
                     (attempt_source src last) kw) as [r | |] eqn:Es.
    + match goal with
      | |- search_kept _ (run_plan _ _ ?l ?b ?w') =>
          destruct (IH true l b w' (Hc' _)) as ((extra & He) & Hf & Hfound)
      end.
      { intros s core Hb. inversion Hb; subst s core.
        exists timeout, last, r. cbn [core_config core_source core_kwargs
                                        core_result].
        repeat split; auto.
        unfold config_at. cbn [heap].
        rewrite nth_error_app2 by lia. now rewrite Nat.sub_diag. }
      split; [| split]; auto.
      exists (attempt_config cv stalls timeout :: extra).
      rewrite He. cbn [heap]. now rewrite <- app_assoc.
    + match goal with
      | |- search_kept _ (run_plan _ _ ?l ?b ?w') =>
          destruct (IH false l b w' (Hc' _)) as ((extra & He) & Hf & Hfound)
      end.
      { exact Hold. }
      split; [| split]; auto.
      exists (attempt_config cv stalls timeout :: extra).
      rewrite He. cbn [heap]. now rewrite <- app_assoc.
    + split; [| split]; cbn [fst snd heap files]; auto.
      * eexists; reflexivity.
      * intros s core H. discriminate.
  - cbn [run_plan]. destruct best as [[s core] |]; cbn.
    + split; [| split]; cbn; auto.
      * exists []. now rewrite app_nil_r.
      * intros s' core' H. inversion H; subst. now apply Hbest.
    + split; [| split]; cbn; auto.
      * exists []. now rewrite app_nil_r.
      * intros s' core' H. discriminate.
  - cbn [run_plan]. split; [| split]; cbn; auto.
    + exists []. now rewrite app_nil_r.
    + intros s' core' H. discriminate.
Qed.

Variable config_lines : Config -> list str.

(** The handler, computed: the error lines are logged, then the name
    [self] is looked up and the handler ends. *)
Lemma on_exhaustion_run logger_name w :
  config_at w conf = Some cv ->
  on_exhaustion config_lines src lg conf logger_name w
  = (inl (NameError "self"),
     mk_world (heap w)
              (logged w ++ exhaustion_log config_lines src lg cv)
              (files w)).
Proof.
  intros Hc. unfold on_exhaustion.
  unfold bind at 1, log at 1. cbv beta iota.
  unfold bind at 1, log at 1. cbv beta iota.
  unfold bind at 1. rewrite dump_run. cbv beta iota.
  unfold bind at 1, log at 1. cbv beta iota.
  unfold bind at 1.
  rewrite (conf_log_run config_lines conf Error lg _ cv)
    by (destruct w; exact Hc).
  cbv beta iota. unfold bind at 1, unbound, raise.
  cbn [heap logged files]. unfold exhaustion_log, strip_comments.
  f_equal. f_equal.
  repeat rewrite <- app_assoc. cbn [app]. rewrite map_map.
  reflexivity.
Qed.

End Search.



Lemma untouched_kept n w w' l c :
  ext n untouched w w' -> l < n -> config_at w l = Some c ->
  config_at w' l = Some c.
Proof.
  intros [_ H] Hl Hc. destruct (H l c Hl Hc) as (c' & Hc' & Heq).
  unfold untouched in Heq. now subst c'.
Qed.

Lemma config_at_bound w l c :
  config_at w l = Some c -> l < List.length (heap w).
Proof. unfold config_at. intros H. apply nth_error_Some. congruence. Qed.

(** A search that returns has run the core it returns. *)
Lemma optimize_binsearch_core_found
      solver binary_search config_lines src lg conf kw cv w s core w1 :
  config_at w conf = Some cv ->
  optimize_binsearch_core solver binary_search config_lines src lg conf kw w
  = (inr (Some (s, core)), w1) ->
  (exists extra, heap w1 = heap w ++ extra) /\
  files w1 = files w /\
  found_by solver src kw cv w1 s core.
Proof.
  intros Hc. unfold optimize_binsearch_core. unfold bind at 1.
  rewrite (getc_run _ _ _ Hc). cbv beta iota. unfold on_limit.
  unfold bind at 1.
  match goal with
  | |- context [run_plan ?p ?t None None w] =>
      pose proof (run_plan_run solver src lg conf kw cv p None None w Hc)
        as Hk;
      destruct (run_plan p t None None w) as [[e | [s' core']] w'] eqn:Er
  end.
  - assert (Hk' : search_kept solver src kw cv w (inl e, w')).
    { apply Hk. intros ? ? H. discriminate. }
    destruct Hk' as ((extra & He) & Hf & _). cbn [snd] in He, Hf.
    assert (Hc' : config_at w' conf = Some cv).
    { destruct w as [h l0 f0], w' as [h' l1 f1]. cbn [heap] in He.
      subst h'. eapply config_at_old. exact Hc. }
    destruct e; try discriminate.
    rewrite (on_exhaustion_run src lg conf cv config_lines _ w' Hc').
    discriminate.
  - assert (Hk' : search_kept solver src kw cv w (inr (s', core'), w')).
    { apply Hk. intros ? ? H. discriminate. }
    destruct Hk' as (He & Hf & Hfound). cbn [fst snd] in *.
    unfold ret. intros H. inversion H; subst. auto.
Qed.


(** C4.  When the binary search over the stalls passes its limit,
    [optimize_binsearch_core] logs the error lines with the source
    listing (comments stripped) and the configuration, and then ends in
    [NameError] for the name [self], which the function binds nowhere:
    no dump file is written (the files are those of before the call),
    and the exception that reaches the caller is the [NameError]. *)
Theorem exhausted_search_ends_in_name_error
        solver binary_search config_lines src lg conf kw w cv w1 :
  config_at w conf = Some cv ->
  run_plan (binary_search (stalls_minimum_attempt (constraints cv) - 1)%Z
                          (stalls_first_attempt (constraints cv))
                          (stalls_maximum_attempt (constraints cv))
                          (stalls_precision (constraints cv))
                          (stalls_timeout_below_precision (constraints cv)))
           (try_with_stalls solver src lg conf kw) None None w
  = (inl BinarySearchLimitException, w1) ->
  optimize_binsearch_core solver binary_search config_lines src lg conf kw w
  = (inl (NameError "self"),
     mk_world (heap w1)
              (logged w1 ++ exhaustion_log config_lines src lg cv)
              (files w)).
Proof.
  intros Hc Hrun. unfold optimize_binsearch_core. unfold bind at 1.
  rewrite (getc_run _ _ _ Hc). cbv beta iota. unfold on_limit.
  unfold bind at 1. rewrite Hrun.
  match type of Hrun with
  | run_plan ?p _ _ _ _ = _ =>
      pose proof (run_plan_run solver src lg conf kw cv p None None w Hc)
        as Hk
  end.
  rewrite Hrun in Hk.
  destruct Hk as ((extra & He) & Hf & _); [intros ? ? H; discriminate |].
  cbn [snd] in He, Hf.
  assert (Hc' : config_at w1 conf = Some cv).
  { destruct w as [h l0 f0], w1 as [h' l1 f1]. cbn [heap] in He.
    subst h'. eapply config_at_old. exact Hc. }
  rewrite (on_exhaustion_run src lg conf cv config_lines _ w1 Hc').
  now rewrite Hf.
Qed.

Lemma exhausted_search_ends_in_name_error_witness :
  let w1 := snd (run_plan (a_binary_search (-1) 0 4 1 None)
                          (try_with_stalls no_solver (Lines two_lines)
                                           a_logger 0%nat no_kwargs)
                          None None a_world) in
  optimize_binsearch_core no_solver a_binary_search a_config_lines
                          (Lines two_lines) a_logger 0%nat no_kwargs a_world
  = (inl (NameError "self"),
     mk_world (heap w1)
              (logged w1 ++ exhaustion_log a_config_lines (Lines two_lines)
                                           a_logger a_config)
              []).
Proof.
  intros w1.
  apply (exhausted_search_ends_in_name_error
           no_solver a_binary_search a_config_lines (Lines two_lines)
           a_logger 0%nat no_kwargs a_world a_config w1).
  - reflexivity.
  - vm_compute. reflexivity.
Defined.

End SearchProps.

(** ** The second run, with the objective *)

Module ObjectiveProps.
Import Heuristics DriverLogic DriverFrames DriverRuns SearchProps.

Definition search_line (lg : Logger) : level * str * str :=
  (Info, lname lg,
   txt "Perform binary search for minimal number of stalls...").









End ObjectiveProps.

(** ** The configuration of the caller *)

Module FrameProps.
Import Heuristics DriverLogic DriverFrames DriverRuns SearchProps.

Lemma untouched_refl : forall (l : loc) (c : Config), untouched l c c.
Proof. intros l c. reflexivity. Qed.

Lemma untouched_trans :
  forall (l : loc) (a b c : Config),
    untouched l a b -> untouched l b c -> untouched l a c.
Proof. unfold untouched. intros l a b c -> ->. reflexivity. Qed.

Lemma untouched_but_outputs_refl conf :
  forall (l : loc) (c : Config), untouched_but_outputs conf l c c.
Proof.
  intros l c. unfold untouched_but_outputs, same_but_outputs.
  destruct (l =? conf); reflexivity.
Qed.

Lemma untouched_but_outputs_trans conf :
  forall (l : loc) (a b c : Config),
    untouched_but_outputs conf l a b -> untouched_but_outputs conf l b c ->
    untouched_but_outputs conf l a c.
Proof.
  intros l a b c. unfold untouched_but_outputs, same_but_outputs.
  destruct (l =? conf); intros H1 H2; congruence.
Qed.

Lemma set_outputs_same conf c o :
  untouched_but_outputs conf conf c (set_outputs o c).
Proof.
  unfold untouched_but_outputs, same_but_outputs.
  rewrite Nat.eqb_refl. destruct c; reflexivity.
Qed.

Lemma set_inputs_are_outputs_same conf c b :
  untouched_but_outputs conf conf c (set_inputs_are_outputs b c).
Proof.
  unfold untouched_but_outputs, same_but_outputs.
  rewrite Nat.eqb_refl. destruct c; reflexivity.
Qed.

(** [linear], [_split] and the binary-search wrappers leave every
    configuration object that existed before the call as it was,
    however the call ends: what they change are copies.  [periodic]
    leaves every such object as it was but for [outputs] and
    [inputs_are_outputs] of the one it is handed, and leaves that one
    as it was too when its [inputs_are_outputs] is not set. *)
Theorem drivers_keep_callers_configuration
        solver solver_retry binary_search dfg dfg_config_outputs
        reduce_source config_lines naive_order stall_chart
        idx_list_consecutive idxs_from_fractions round_div randint
        (w : world) (conf : loc) (cv : Config) :
  config_at w conf = Some cv ->
  let n := List.length (heap w) in
  (forall src lg kw,
      ext n untouched w
          (snd (optimize_binsearch_core solver binary_search config_lines
                                        src lg conf kw w))) /\
  (forall src lg flexible kw,
      ext n untouched w
          (snd (optimize_binsearch_external
                  solver solver_retry binary_search config_lines
                  src lg conf flexible kw w))) /\
  (forall src lg kw,
      ext n untouched w
          (snd (optimize_binsearch_internal solver src lg conf kw w))) /\
  (forall src lg kw,
      ext n untouched w
          (snd (optimize_binsearch solver solver_retry binary_search
                                   config_lines src lg conf kw w))) /\
  (forall body lg,
      ext n untouched w
          (snd (linear solver solver_retry binary_search dfg
                       dfg_config_outputs reduce_source config_lines
                       naive_order stall_chart idx_list_consecutive
                       idxs_from_fractions round_div randint
                       body lg conf w))) /\
  (forall body lg,
      ext n untouched w
          (snd (_split solver solver_retry binary_search dfg
                       dfg_config_outputs reduce_source config_lines
                       naive_order stall_chart idx_list_consecutive
                       idxs_from_fractions round_div randint
                       body lg conf w))) /\
  (forall body lg,
      ext n (untouched_but_outputs conf) w
          (snd (periodic solver solver_retry binary_search dfg
                         dfg_config_outputs reduce_source config_lines
                         naive_order stall_chart idx_list_consecutive
                         idxs_from_fractions round_div randint
                         body lg conf w))) /\
  (inputs_are_outputs cv = false ->
   forall body lg,
     ext n untouched w
         (snd (periodic solver solver_retry binary_search dfg
                        dfg_config_outputs reduce_source config_lines
                        naive_order stall_chart idx_list_consecutive
                        idxs_from_fractions round_div randint
                        body lg conf w))).
Proof.
  intros Hc n.
  split; [| split; [| split; [| split; [| split; [| split; [| split]]]]]].
  - intros src lg kw.
    apply (optimize_binsearch_core_ok
             solver binary_search config_lines n untouched
             untouched_refl untouched_trans src lg conf kw w (le_n _)).
  - intros src lg flexible kw.
    apply (optimize_binsearch_external_ok
             solver solver_retry binary_search config_lines n untouched
             untouched_refl untouched_trans src lg conf flexible kw
             w (le_n _)).
  - intros src lg kw.
    apply (optimize_binsearch_internal_ok
             solver n untouched untouched_refl untouched_trans
             src lg conf kw w (le_n _)).
  - intros src lg kw.
    apply (optimize_binsearch_ok
             solver solver_retry binary_search config_lines n untouched
             untouched_refl untouched_trans src lg conf kw w (le_n _)).
  - intros body lg.
    apply (linear_ok
             solver solver_retry binary_search dfg dfg_config_outputs
             reduce_source config_lines naive_order stall_chart
             idx_list_consecutive idxs_from_fractions round_div randint
             n untouched untouched_refl untouched_trans body lg conf
             w (le_n _)).
  - intros body lg.
    apply (split_ok
             solver solver_retry binary_search dfg dfg_config_outputs
             reduce_source config_lines naive_order stall_chart
             idx_list_consecutive idxs_from_fractions round_div randint
             n untouched untouched_refl untouched_trans body lg conf
             w (le_n _)).
  - intros body lg.
    apply (periodic_ok
             solver solver_retry binary_search dfg dfg_config_outputs
             reduce_source config_lines naive_order stall_chart
             idx_list_consecutive idxs_from_fractions round_div randint
             n (untouched_but_outputs conf)
             (untouched_but_outputs_refl conf)
             (untouched_but_outputs_trans conf) body lg conf
             (set_outputs_same conf) (set_inputs_are_outputs_same conf)
             w (le_n _)).
  - intros Hio body lg.
    apply (periodic_ok_when_unset
             solver solver_retry binary_search dfg dfg_config_outputs
             reduce_source config_lines naive_order stall_chart
             idx_list_consecutive idxs_from_fractions round_div randint
             n untouched untouched_refl untouched_trans body lg conf w cv
             (le_n _) Hc Hio).
Qed.

Lemma drivers_keep_callers_configuration_witness :
  config_at
    (snd (a_periodic a_solver two_lines a_logger 0%nat
                     (mk_world [set_inputs_are_outputs false a_config]
                               [] []))) 0
  = Some (set_inputs_are_outputs false a_config).
Proof.
  pose proof (drivers_keep_callers_configuration
                a_solver no_retry a_binary_search a_dfg no_dfg_outputs
                a_reduce_source a_config_lines no_order no_chart one_chunk
                no_fractions a_round_div a_randint
                (mk_world [set_inputs_are_outputs false a_config] [] [])
                0%nat (set_inputs_are_outputs false a_config) eq_refl)
    as H.
  cbv zeta in H.
  destruct H as (_ & _ & _ & _ & _ & _ & _ & H).
  eapply untouched_kept.
  - apply (H eq_refl two_lines a_logger).
  - cbn. lia.
  - reflexivity.
Defined.

(** C8 (a defect of the code).  With [inputs_are_outputs] set,
    [periodic] does not keep to the copies: once the dataflow graph of
    the body is built, it assigns [outputs] (the outputs of that graph)
    and [inputs_are_outputs] ([False]) of the object it is handed.
    However the call ends, the caller finds its configuration with
    these two values, and so not as it was; every other object that
    existed before the call is as it was. *)
Theorem periodic_assigns_callers_configuration
        solver solver_retry binary_search dfg dfg_config_outputs
        reduce_source config_lines naive_order stall_chart
        idx_list_consecutive idxs_from_fractions round_div randint
        (body : list str) (lg : Logger) (w : world) (conf : loc)
        (cv : Config) (g : DFG) :
  config_at w conf = Some cv ->
  inputs_are_outputs cv = true ->
  dfg (DFGConfig_of cv)
      (Text (join [newline]
                  (if enabled (sw_pipelining cv)
                   then repeat_list body
                          (Z.to_nat (unroll (sw_pipelining cv)))
                   else body)))
  = Some g ->
  let w' := snd (periodic solver solver_retry binary_search dfg
                          dfg_config_outputs reduce_source config_lines
                          naive_order stall_chart idx_list_consecutive
                          idxs_from_fractions round_div randint
                          body lg conf w) in
  config_at w' conf
  = Some (set_inputs_are_outputs false (set_outputs (dfg_out g) cv))
  /\ config_at w' conf <> Some cv
  /\ forall l c, l <> conf -> config_at w l = Some c ->
                 config_at w' l = Some c.
Proof.
  intros Hc Hio Hg w'.
  pose proof (config_at_bound _ _ _ Hc) as Hl.
  pose proof (periodic_ok_after_assignment
                solver solver_retry binary_search dfg dfg_config_outputs
                reduce_source config_lines naive_order stall_chart
                idx_list_consecutive idxs_from_fractions round_div randint
                (List.length (heap w)) untouched untouched_refl
                untouched_trans body lg conf w cv g (le_n _) Hc Hio Hg)
    as Hext.
  fold w' in Hext.
  assert (Hnew : config_at w' conf
                 = Some (set_inputs_are_outputs
                           false (set_outputs (dfg_out g) cv))).
  { eapply untouched_kept; [exact Hext | exact Hl |].
    unfold config_at. cbn [heap].
    apply nth_error_set_nth_eq. rewrite length_app. lia. }
  split; [exact Hnew |]. split.
  - rewrite Hnew. intros H.
    apply (f_equal (option_map inputs_are_outputs)) in H.
    cbn [option_map] in H. rewrite Hio in H.
    destruct cv; discriminate.
  - intros l c Hne Hlc.
    eapply untouched_kept; [exact Hext | exact (config_at_bound _ _ _ Hlc) |].
    unfold config_at in *. cbn [heap].
    rewrite nth_error_set_nth_ne by exact Hne.
    rewrite nth_error_app1 by (apply nth_error_Some; congruence).
    exact Hlc.
Qed.

(** In the small setting: the caller holds a configuration with
    [inputs_are_outputs] set and no outputs, and finds it with the
    outputs of the body and [inputs_are_outputs] reset. *)
Lemma periodic_assigns_callers_configuration_witness :
  config_at a_world 0 = Some a_config
  /\ inputs_are_outputs a_config = true /\ outputs a_config = []
  /\ config_at
       (snd (a_periodic a_solver two_lines a_logger 0%nat a_world)) 0
     = Some (set_inputs_are_outputs false
               (set_outputs [txt "x3"] a_config))
  /\ config_at
       (snd (a_periodic a_solver two_lines a_logger 0%nat a_world)) 0
     <> Some a_config.
Proof.
  split; [reflexivity |]. split; [reflexivity |]. split; [reflexivity |].
  destruct (periodic_assigns_callers_configuration
              a_solver no_retry a_binary_search a_dfg no_dfg_outputs
              a_reduce_source a_config_lines no_order no_chart one_chunk
              no_fractions a_round_div a_randint
              two_lines a_logger a_world 0%nat a_config
              (mk_DFG [txt "x1"; txt "x2"] [txt "x3"] 2)
              eq_refl eq_refl eq_refl) as (H1 & H2 & _).
  split; [exact H1 | exact H2].
Defined.

End FrameProps.

(** ** The halving heuristic *)

Module HalvingProps.
Import Heuristics DriverLogic DriverFrames DriverRuns SearchProps
       FrameProps.

(** The configuration the loop kernel is optimized with in the first
    step: no software pipelining, and the inputs and the dependencies of
    the kernel kept as outputs. *)
Definition first_step_config (cv : Config) (kernel_deps : list str)
  : Config :=
  let x := set_inputs_are_outputs
             true
             (set_sw_pipelining (set_enabled false (sw_pipelining cv)) cv) in
  set_outputs (union str_eqb (outputs x) kernel_deps) x.

(** The configurations of the second step. *)
Definition seam_config (cv : Config) : Config :=
  let x := set_inputs_are_outputs true cv in
  let x := set_sw_pipelining
             (set_minimize_overlapping false (sw_pipelining x)) x in
  let x := set_sw_pipelining (set_enabled true (sw_pipelining x)) x in
  let x := set_sw_pipelining (set_allow_pre false (sw_pipelining x)) x in
  set_sw_pipelining (set_allow_post false (sw_pipelining x)) x.

Definition rotated_config (cv : Config) (kernel_deps : list str)
  : Config :=
  let x := set_outputs kernel_deps cv in
  set_sw_pipelining (set_enabled false (sw_pipelining x)) x.

Section Halving.

Variable solver : Config -> source -> kwargs -> outcome.
Variable solver_retry : Config -> source -> kwargs -> Result -> outcome.
Variable binary_search : Z -> Z -> Z -> Z -> option Z -> bs_plan.
Variable dfg : DFGConfig -> source -> option DFG.
Variable dfg_config_outputs : DFGConfig -> list str.
Variable reduce_source : source -> list str.
Variable config_lines : Config -> list str.
Variable naive_order : Config -> list str -> option (list str).
Variable stall_chart : list Z -> nat -> Q -> option (list str).
Variable idx_list_consecutive : Q -> Q -> nat -> option (list (Z * Z)).
Variable idxs_from_fractions : list Q -> nat -> list Z.
Variable round_div : nat -> Q -> Z.
Variable randint : nat -> Z -> Z -> option Z.

Local Abbreviation linear' :=
  (linear solver solver_retry binary_search dfg dfg_config_outputs
          reduce_source config_lines naive_order stall_chart
          idx_list_consecutive idxs_from_fractions round_div randint).

Local Abbreviation optimize_binsearch' :=
  (optimize_binsearch solver solver_retry binary_search config_lines).

Lemma first_step_inv body lg conf w cv deps K w2 :
  config_at w conf = Some cv ->
  halving_first_step solver solver_retry binary_search dfg
                     dfg_config_outputs reduce_source config_lines
                     naive_order stall_chart idx_list_consecutive
                     idxs_from_fractions round_div randint
                     body lg conf w
  = (inr (deps, K), w2) ->
  exists g k0 c1 w1,
    dfg (DFGConfig_of cv) body = Some g /\ deps = dfg_in g /\
    config_at w1 c1 = Some (first_step_config cv deps) /\
    linear' body (getChild lg (txt "slothy")) c1 w1 = (inr k0, w2) /\
    K = reduce_source (Lines k0) /\
    config_at w2 conf = Some cv.
Proof.
  intros Hc H. unfold halving_first_step in H.
  unfold bind at 1 in H. rewrite (copy_run _ _ _ Hc) in H.
  cbv beta iota in H.
  unfold bind at 1 in H.
  rewrite (getc_run _ _ _ (config_at_last _ _ _ _)) in H.
  cbv beta iota in H.
  unfold bind at 1, new_dfg in H.
  destruct (dfg (DFGConfig_of cv) body) as [g |] eqn:Eg;
    [| discriminate].
  cbn [of_option] in H. unfold ret at 1 in H. cbv beta iota in H.
  assert (Hc' : config_at (mk_world (heap w ++ [cv]) (logged w) (files w))
                          conf = Some cv).
  { destruct w. eapply config_at_old. exact Hc. }
  unfold bind at 1 in H. rewrite (copy_run _ _ _ Hc') in H.
  cbv beta iota in H. cbn [heap logged files] in H.
  unfold bind at 1 in H. rewrite modify_last_run in H.
  cbv beta iota in H.
  unfold bind at 1 in H. rewrite modify_last_run in H.
  cbv beta iota in H.
  unfold bind at 1 in H. rewrite modify_last_run in H.
  cbv beta iota in H.
  unfold bind at 1 in H.
  match type of H with
  | context [linear' ?b ?l ?c ?w1] =>
      destruct (linear' b l c w1) as [[e | k0] w2'] eqn:El;
      [discriminate |];
      pose proof (linear_ok
                    solver solver_retry binary_search dfg
                    dfg_config_outputs reduce_source config_lines
                    naive_order stall_chart idx_list_consecutive
                    idxs_from_fractions round_div randint
                    (List.length (heap w)) untouched
                    untouched_refl untouched_trans b l c w1) as Hfr
  end.
  unfold ret in H. inversion H; subst deps K w2'. clear H.
  rewrite El in Hfr. cbn [snd heap] in Hfr.
  destruct Hfr as [Hext _].
  { rewrite !length_app. lia. }
  exists g, k0. eexists. eexists.
  split; [reflexivity |]. split; [reflexivity |].
  split; [apply config_at_last |].
  split; [exact El |]. split; [reflexivity |].
  eapply untouched_kept; [exact Hext | |].
  - apply (config_at_bound _ _ _ Hc).
  - destruct w as [h l0 f0]. cbn [heap logged files].
    apply (config_at_old (h ++ [cv]) l0 f0 l0 f0 _ conf cv).
    apply (config_at_old h l0 f0 l0 f0 [cv] conf cv). exact Hc.
Qed.

Lemma second_step_inv deps hi kernel lg conf w cv k w' :
  config_at w conf = Some cv ->
  halving_second_step solver solver_retry binary_search dfg
                      dfg_config_outputs reduce_source config_lines
                      naive_order stall_chart idx_list_consecutive
                      idxs_from_fractions round_div randint
                      deps hi kernel lg conf w
  = (inr k, w') ->
  exists g2 c2 w3,
    dfg (mk_DFGConfig cv None (Some true)) (Lines kernel) = Some g2 /\
    if halving_heuristic_periodic (sw_pipelining cv)
    then
      config_at w3 c2 = Some (seam_config cv) /\
      exists r,
        optimize_binsearch' (Lines kernel)
                            (getChild lg (txt "periodic heuristic"))
                            c2 no_kwargs w3 = (inr r, w') /\
        k = code r
    else
      config_at w3 c2 = Some (rotated_config cv (dfg_in g2)) /\
      linear' (Lines kernel) (getChild lg (txt "heuristic")) c2 w3
      = (inr k, w').
Proof.
  intros Hc H. unfold halving_second_step in H.
  destruct w as [h l0 f0].
  unfold bind at 1 in H. rewrite (copy_run _ _ _ Hc) in H.
  cbv beta iota in H. cbn [heap logged files] in H.
  unfold bind at 1 in H.
  rewrite (getc_run _ _ _ (config_at_last _ _ _ _)) in H.
  cbv beta iota in H.
  unfold bind at 1, new_dfg at 1 in H.
  destruct (dfg (mk_DFGConfig cv (Some deps) (Some false)) (Lines hi))
    as [g1 |]; [| discriminate].
  cbn [of_option] in H. unfold ret at 1 in H. cbv beta iota in H.
  pose proof (config_at_old h l0 f0 l0 f0 [cv] conf cv Hc) as Hc1.
  unfold bind at 1 in H. rewrite (copy_run _ _ _ Hc1) in H.
  cbv beta iota in H. cbn [heap logged files] in H.
  unfold bind at 1 in H.
  rewrite (getc_run _ _ _ (config_at_last _ _ _ _)) in H.
  cbv beta iota in H.
  unfold bind at 1, new_dfg at 1 in H.
  destruct (dfg (mk_DFGConfig cv None (Some true)) (Lines kernel))
    as [g2 |] eqn:Eg2; [| discriminate].
  cbn [of_option] in H. unfold ret at 1 in H. cbv beta iota in H.
  unfold bind at 1, log at 1 in H. cbv beta iota in H.
  cbn [heap logged files] in H.
  assert (Hc2 : forall l',
             config_at (mk_world ((h ++ [cv]) ++ [cv]) l' f0) conf
             = Some cv).
  { intros l'.
    apply (config_at_old (h ++ [cv]) l0 f0 l' f0 [cv] conf cv Hc1). }
  unfold bind at 1 in H. rewrite (getc_run _ _ _ (Hc2 _)) in H.
  cbv beta iota in H.
  exists g2. split with (x := List.length ((h ++ [cv]) ++ [cv])).
  destruct (halving_heuristic_periodic (sw_pipelining cv)).
  - unfold bind at 1 in H. rewrite (copy_run _ _ _ (Hc2 _)) in H.
    cbv beta iota in H. cbn [heap logged files] in H.
    do 5 (unfold bind at 1 in H; rewrite modify_last_run in H;
          cbv beta iota in H).
    unfold bind at 1 in H.
    match type of H with
    | context [optimize_binsearch' ?b ?l ?c ?n ?w1] =>
        destruct (optimize_binsearch' b l c n w1) as [[e | r] w2]
                                                       eqn:Eo;
        [discriminate |]
    end.
    unfold ret in H. inversion H; subst. clear H.
    eexists. split; [reflexivity |].
    split; [apply config_at_last |].
    exists r. split; [exact Eo | reflexivity].
  - unfold bind at 1 in H. rewrite (copy_run _ _ _ (Hc2 _)) in H.
    cbv beta iota in H. cbn [heap logged files] in H.
    do 2 (unfold bind at 1 in H; rewrite modify_last_run in H;
          cbv beta iota in H).
    eexists. split; [reflexivity |].
    split; [apply config_at_last |].
    exact H.
Qed.

(** C1.  A result of [_periodic_halving] is made as follows.  The
    body is optimized by [linear] on a copy of the configuration with
    software pipelining switched off, and reduced to its instructions;
    this is the kernel [A;B], [A] being its first half (the shorter
    one when the length is odd).  [B;A] is then optimized on another
    copy, by [optimize_binsearch] with the seam in view when
    [halving_heuristic_periodic] is set and by [linear] otherwise, and
    the outcome is the kernel returned.  The preamble returned is [A],
    the postamble is [B], and [num_exceptional_iterations] is 1. *)
Theorem periodic_halving_result
        body lg conf w preamble kernel postamble num w' :
  _periodic_halving solver solver_retry binary_search dfg
                    dfg_config_outputs reduce_source config_lines
                    naive_order stall_chart idx_list_consecutive
                    idxs_from_fractions round_div randint
                    body lg conf w
  = (inr (preamble, kernel, postamble, num), w') ->
  exists cv g k0 c1 w1 w2 g2 c2 w3,
    config_at w conf = Some cv /\
    enabled (sw_pipelining cv) = true /\
    halving_heuristic (sw_pipelining cv) = true /\
    dfg (DFGConfig_of cv) body = Some g /\
    config_at w1 c1 = Some (first_step_config cv (dfg_in g)) /\
    linear' body (getChild lg (txt "slothy")) c1 w1 = (inr k0, w2) /\
    let AB := reduce_source (Lines k0) in
    let A := firstn (List.length AB / 2) AB in
    let B := skipn (List.length AB / 2) AB in
    preamble = A /\ postamble = B /\ num = 1%Z /\
    dfg (mk_DFGConfig cv None (Some true)) (Lines (B ++ A)) = Some g2 /\
    if halving_heuristic_periodic (sw_pipelining cv)
    then
      config_at w3 c2 = Some (seam_config cv) /\
      exists r,
        optimize_binsearch' (Lines (B ++ A))
                            (getChild lg (txt "periodic heuristic"))
                            c2 no_kwargs w3 = (inr r, w') /\
        kernel = code r
    else
      config_at w3 c2 = Some (rotated_config cv (dfg_in g2)) /\
      linear' (Lines (B ++ A)) (getChild lg (txt "heuristic")) c2 w3
      = (inr kernel, w').
Proof.
  intros H. unfold _periodic_halving in H.
  unfold bind at 1 in H.
  destruct (getc conf w) as [[e | cv] w0] eqn:Eg; [discriminate |].
  apply getc_inv in Eg. destruct Eg as [-> Hc].
  unfold bind at 1, assert at 1 in H.
  destruct (enabled (sw_pipelining cv)) eqn:Een; [| discriminate].
  unfold ret at 1 in H. cbv beta iota in H.
  unfold bind at 1, assert at 1 in H.
  destruct (halving_heuristic (sw_pipelining cv)) eqn:Ehh;
    [| discriminate].
  unfold ret at 1 in H. cbv beta iota in H.
  unfold bind at 1 in H.
  match type of H with
  | context [halving_first_step ?a1 ?a2 ?a3 ?a4 ?a5 ?a6 ?a7 ?a8 ?a9
                                ?a10 ?a11 ?a12 ?a13 body lg conf w] =>
      destruct (halving_first_step a1 a2 a3 a4 a5 a6 a7 a8 a9
                                   a10 a11 a12 a13 body lg conf w)
      as [[e | [deps K]] w2] eqn:E1; [discriminate |]
  end.
  destruct (first_step_inv body lg conf w cv deps K w2 Hc E1)
    as (g & k0 & c1 & w1 & Hg & -> & Hc1 & Hlin & -> & Hc2).
  unfold halves in H. cbv beta iota zeta in H.
  unfold bind at 1 in H.
  match type of H with
  | context [halving_second_step ?a1 ?a2 ?a3 ?a4 ?a5 ?a6 ?a7 ?a8 ?a9
                                 ?a10 ?a11 ?a12 ?a13 ?d ?hi ?k lg conf
                                 w2] =>
      destruct (halving_second_step a1 a2 a3 a4 a5 a6 a7 a8 a9
                                    a10 a11 a12 a13 d hi k lg conf w2)
      as [[e | k2] w3] eqn:E2; [discriminate |]
  end.
  unfold ret in H. inversion H; subst. clear H.
  destruct (second_step_inv _ _ _ lg conf w2 cv kernel w' Hc2 E2)
    as (g2 & c2 & w3 & Hg2 & Hrest).
  exists cv, g, k0, c1, w1, w2, g2, c2, w3.
  cbv zeta. repeat (split; [assumption || reflexivity |]).
  exact Hrest.
Qed.

End Halving.

Lemma periodic_halving_result_witness :
  exists k0 c1 w1 w2,
    linear a_solver no_retry a_binary_search a_dfg no_dfg_outputs
           a_reduce_source a_config_lines no_order no_chart one_chunk
           no_fractions a_round_div a_randint
           (Lines two_lines) (getChild a_logger (txt "slothy")) c1 w1
    = (inr k0, w2) /\
    [txt "add x0, x1, x2 // sum"]
    = firstn (List.length (a_reduce_source (Lines k0)) / 2)
             (a_reduce_source (Lines k0)) /\
    [txt "mul x3, x0, x0"]
    = skipn (List.length (a_reduce_source (Lines k0)) / 2)
            (a_reduce_source (Lines k0)).
Proof.
  assert (Hres :
            _periodic_halving
              a_solver no_retry a_binary_search a_dfg no_dfg_outputs
              a_reduce_source a_config_lines no_order no_chart one_chunk
              no_fractions a_round_div a_randint
              (Lines two_lines) a_logger 0%nat
              (mk_world [a_halving_config] [] [])
            = (inr ([txt "add x0, x1, x2 // sum"],
                    [txt "mul x3, x0, x0"; txt "add x0, x1, x2 // sum"],
                    [txt "mul x3, x0, x0"], 1%Z),
               snd (a_periodic_halving
                      (Lines two_lines) a_logger 0%nat
                      (mk_world [a_halving_config] [] [])))).
  { vm_compute. reflexivity. }
  destruct (periodic_halving_result
              a_solver no_retry a_binary_search a_dfg no_dfg_outputs
              a_reduce_source a_config_lines no_order no_chart one_chunk
              no_fractions a_round_div a_randint
              (Lines two_lines) a_logger 0%nat
              (mk_world [a_halving_config] [] [])
              [txt "add x0, x1, x2 // sum"]
              [txt "mul x3, x0, x0"; txt "add x0, x1, x2 // sum"]
              [txt "mul x3, x0, x0"] 1%Z
              (snd (a_periodic_halving
                      (Lines two_lines) a_logger 0%nat
                      (mk_world [a_halving_config] [] []))) Hres)
    as (cv & g & k0 & c1 & w1 & w2 & g2 & c2 & w3 & _ & _ & _ & _ & _
        & Hlin & Hpre & Hpost & _).
  exists k0, c1, w1, w2.
  split; [exact Hlin | split; [exact Hpre | exact Hpost]].
Defined.

End HalvingProps.


(** ** The patterns of [AArch64Instruction]: what the expression finds *)

Module ScanFacts.
Import Neon NeonScan.

(** *** Facts about single characters *)

Definition all_ascii (f : ascii -> bool) : bool :=
forallb f (map ascii_of_nat (seq 0 256)).

Lemma all_ascii_spec (f : ascii -> bool) :
all_ascii f = true -> forall a, f a = true.
Proof.
intros H a. unfold all_ascii in H. rewrite forallb_forall in H.
apply H. apply in_map_iff. exists (nat_of_ascii a).
split; [apply ascii_nat_embedding |].
apply in_seq. pose proof (nat_ascii_bounded a). lia.
Qed.

(** [char_fact f a]: the fact [f a = true], checked on every character. *)
Ltac char_fact f a :=
let F := fresh "F" in
assert (F : f a = true)
  by (apply (all_ascii_spec f); vm_compute; reflexivity);
cbv beta in F.

Lemma chr_eqb_eq a b : chr_eqb a b = true -> a = b.
Proof. unfold chr_eqb. apply Ascii.eqb_eq. Qed.

Lemma chr_eqb_refl a : chr_eqb a a = true.
Proof. unfold chr_eqb. apply Ascii.eqb_refl. Qed.

Lemma digit_not_space a : is_digit a = true -> is_space a = false.
Proof.
intros H. char_fact (fun a => implb (is_digit a) (negb (is_space a))) a.
rewrite H in F. cbn [implb] in F. now destruct (is_space a).
Qed.

Lemma word_not_space a : is_word a = true -> is_space a = false.
Proof.
intros H. char_fact (fun a => implb (is_word a) (negb (is_space a))) a.
rewrite H in F. cbn [implb] in F. now destruct (is_space a).
Qed.

Lemma space_is_imm a : is_space a = true -> is_imm a = true.
Proof.
intros H. unfold is_imm. rewrite H. now rewrite orb_true_r.
Qed.

Lemma digit_is_word a : is_digit a = true -> is_word a = true.
Proof. intros H. unfold is_word. now rewrite H. Qed.

Lemma digit_is_imm a : is_digit a = true -> is_imm a = true.
Proof.
intros H. unfold is_imm. now rewrite (digit_is_word _ H).
Qed.

(** *** The matcher on a repeated character class *)

Section Greedy.

Variable A : Type.
Variable n0 : nat.

Lemma star_cls (p : ascii -> bool) (k : cont A) fuel :
forall s c,
  List.length s <= fuel ->
  star_loop (rmatch n0 (Cls p)) k fuel s c = greedy p k s c.
Proof.
induction fuel as [| f IH]; intros s c Hl.
- destruct s; [reflexivity | simpl in Hl; lia].
- destruct s as [| a s]; [reflexivity |].
  cbn [star_loop rmatch greedy]. destruct (p a); [| reflexivity].
  assert (E : (List.length s <? List.length (a :: s)) = true)
    by (apply Nat.ltb_lt; simpl; lia).
  rewrite E. rewrite IH by (simpl in Hl; lia). reflexivity.
Qed.

Lemma rmatch_star_cls (p : ascii -> bool) (k : cont A) s c :
rmatch n0 (Star (Cls p)) s c k = greedy p k s c.
Proof. cbn [rmatch]. apply star_cls. lia. Qed.

Lemma star_loop_ext (mr1 mr2 : str -> caps -> cont A -> option A)
    (k1 k2 : cont A) :
(forall s c k k', (forall s' c', k s' c' = k' s' c') ->
                  mr1 s c k = mr2 s c k') ->
(forall s c, k1 s c = k2 s c) ->
forall fuel s c,
  star_loop mr1 k1 fuel s c = star_loop mr2 k2 fuel s c.
Proof.
intros Hmr Hk. induction fuel as [| f IH]; intros s c; cbn [star_loop].
- apply Hk.
- rewrite (Hmr s c _ (fun s' c' =>
                        if List.length s' <? List.length s
                        then star_loop mr2 k2 f s' c' else None)).
  + now rewrite Hk.
  + intros s' c'. destruct (_ <? _); auto.
Qed.

Lemma rmatch_ext (r : regex) :
forall (k1 k2 : cont A),
  (forall s c, k1 s c = k2 s c) ->
  forall s c, rmatch n0 r s c k1 = rmatch n0 r s c k2.
Proof.
induction r; intros k1 k2 Hk s c; cbn [rmatch].
- apply Hk.
- destruct s; auto. destruct (p a); auto.
- apply IHr1. intros s' c'. now apply IHr2.
- rewrite (IHr1 k1 k2 Hk). rewrite (IHr2 k1 k2 Hk). reflexivity.
- apply star_loop_ext; [| exact Hk].
  intros s0 c0 k k' Hkk. now apply IHr.
- apply IHr. intros s' c'. apply Hk.
- destruct (_ =? _); auto.
- destruct s as [| a [| b s]]; auto. destruct (chr_eqb a newline); auto.
- destruct s; auto.
Qed.

Lemma greedy_ext (p : ascii -> bool) (k1 k2 : cont A) :
(forall s c, k1 s c = k2 s c) ->
forall s c, greedy p k1 s c = greedy p k2 s c.
Proof.
intros Hk. induction s as [| a s IH]; intros c; cbn [greedy]; auto.
rewrite IH, Hk. reflexivity.
Qed.

(** A continuation that refuses the characters of the class gets what
  is behind the whole run. *)
Lemma greedy_rejects (p : ascii -> bool) (k : cont A) :
(forall a s c, p a = true -> k (a :: s) c = None) ->
forall s c, greedy p k s c = k (dropw p s) c.
Proof.
intros Hr. induction s as [| a s IH]; intros c; cbn [greedy dropw]; auto.
destruct (p a) eqn:E; auto.
rewrite IH. destruct (k (dropw p s) c) eqn:Ek;
  [reflexivity | now apply Hr].
Qed.

(** A continuation that succeeds behind a character of the class
  whenever it succeeds without it is met at the longest run, that is,
  it gets the string as it is. *)
Lemma greedy_stable (p : ascii -> bool) (k : cont A) :
(forall a s c x, p a = true -> k s c = Some x -> k (a :: s) c = Some x) ->
forall s c, greedy p k s c = k s c.
Proof.
intros Hs. induction s as [| a s IH]; intros c; cbn [greedy]; auto.
destruct (p a) eqn:E; auto.
rewrite IH. destruct (k s c) eqn:Ek; [| reflexivity].
symmetry. now apply Hs.
Qed.

Lemma rmatch_imm_cls (k : cont A) s c :
rmatch n0 (Alts [wd; sp; Chr "#"; Chr "="; Chr ","]) s c k
= rmatch n0 (Cls is_imm) s c k.
Proof.
destruct s as [| a s]; [reflexivity |].
cbn [Alts rmatch wd sp Chr]. unfold is_imm.
destruct (is_word a), (is_space a), (chr_eqb "#" a), (chr_eqb "=" a),
  (chr_eqb "," a), (k s c); reflexivity.
Qed.

Lemma rmatch_star_imm (k : cont A) s c :
rmatch n0 (Star (Alts [wd; sp; Chr "#"; Chr "="; Chr ","])) s c k
= greedy is_imm k s c.
Proof.
rewrite <- rmatch_star_cls. cbn [rmatch].
apply star_loop_ext; [| reflexivity].
intros s0 c0 k0 k' Hk. rewrite rmatch_imm_cls.
apply (rmatch_ext (Cls is_imm)). exact Hk.
Qed.

End Greedy.

Lemma takew_dropw p s : takew p s ++ dropw p s = s.
Proof.
induction s as [| a s IH]; simpl; auto.
destruct (p a); simpl; [now rewrite IH | reflexivity].
Qed.

Lemma length_dropw p s : List.length (dropw p s) <= List.length s.
Proof.
induction s as [| a s IH]; simpl; auto. destruct (p a); simpl; lia.
Qed.

Lemma firstn_takew p s :
firstn (List.length s - List.length (dropw p s)) s = takew p s.
Proof.
rewrite <- (takew_dropw p s) at 1 3.
rewrite length_app.
replace (List.length (takew p s) + List.length (dropw p s)
         - List.length (dropw p s)) with (List.length (takew p s) + 0)
  by lia.
rewrite firstn_app_2. simpl. now rewrite app_nil_r.
Qed.

Lemma dropw_head p s a r : dropw p s = a :: r -> p a = false.
Proof.
induction s as [| b s IH]; simpl; [discriminate |].
destruct (p b) eqn:E; auto. intros H. inversion H; subst. exact E.
Qed.

Lemma dropw_idem p s : dropw p (dropw p s) = dropw p s.
Proof.
destruct (dropw p s) as [| a r] eqn:E; [reflexivity |].
simpl. now rewrite (dropw_head _ _ _ _ E).
Qed.

Lemma takew_all p s : forallb p (takew p s) = true.
Proof.
induction s as [| a s IH]; simpl; auto.
destruct (p a) eqn:E; simpl; auto. now rewrite E.
Qed.

End ScanFacts.


Module ScanTokens.
Import Neon NeonScan ScanFacts.

Lemma space_not_sep a :
is_space a = true ->
chr_eqb "." a = false /\ chr_eqb "[" a = false /\ chr_eqb "]" a = false
/\ chr_eqb "," a = false /\ chr_eqb "/" a = false.
Proof.
intros H.
char_fact (fun a => implb (is_space a)
                          (negb (chr_eqb "." a || chr_eqb "[" a
                                 || chr_eqb "]" a || chr_eqb "," a
                                 || chr_eqb "/" a))) a.
rewrite H in F. cbn [implb] in F.
destruct (chr_eqb "." a), (chr_eqb "[" a), (chr_eqb "]" a),
  (chr_eqb "," a), (chr_eqb "/" a); try (cbn in F; discriminate); repeat split; reflexivity.
Qed.

Lemma digit_not_sep a :
is_digit a = true ->
chr_eqb "." a = false /\ chr_eqb "[" a = false /\ chr_eqb "]" a = false
/\ chr_eqb "," a = false /\ chr_eqb "/" a = false /\ chr_eqb "<" a = false.
Proof.
intros H.
char_fact (fun a => implb (is_digit a)
                          (negb (chr_eqb "." a || chr_eqb "[" a
                                 || chr_eqb "]" a || chr_eqb "," a
                                 || chr_eqb "/" a || chr_eqb "<" a))) a.
rewrite H in F. cbn [implb] in F.
destruct (chr_eqb "." a), (chr_eqb "[" a), (chr_eqb "]" a),
  (chr_eqb "," a), (chr_eqb "/" a), (chr_eqb "<" a);
  try (cbn in F; discriminate); repeat split; reflexivity.
Qed.

Lemma space_not_dt a :
is_space a = true ->
chr_eqb "2" a || chr_eqb "4" a || chr_eqb "8" a = false
/\ chr_eqb "1" a = false /\ dt_letter a = false /\ is_digit a = false.
Proof.
intros H.
char_fact (fun a => implb (is_space a)
                          (negb ((chr_eqb "2" a || chr_eqb "4" a
                                  || chr_eqb "8" a)
                                 || chr_eqb "1" a || dt_letter a
                                 || is_digit a))) a.
rewrite H in F. cbn [implb] in F.
destruct (chr_eqb "2" a || chr_eqb "4" a || chr_eqb "8" a),
  (chr_eqb "1" a), (dt_letter a), (is_digit a); try (cbn in F; discriminate); repeat split; reflexivity.
Qed.

Lemma word_not_gt a : is_word a = true -> chr_eqb ">" a = false.
Proof.
intros H. char_fact (fun a => implb (is_word a) (negb (chr_eqb ">" a))) a.
rewrite H in F. cbn [implb] in F. now destruct (chr_eqb ">" a).
Qed.

Lemma imm_not_end a :
is_imm a = true -> chr_eqb "/" a = false /\ chr_eqb "]" a = false.
Proof.
intros H.
char_fact (fun a => implb (is_imm a)
                          (negb (chr_eqb "/" a || chr_eqb "]" a))) a.
rewrite H in F. cbn [implb] in F.
destruct (chr_eqb "/" a), (chr_eqb "]" a); try (cbn in F; discriminate); repeat split; reflexivity.
Qed.

(** Tests on given characters are evaluated. *)
Ltac eval_chr :=
repeat match goal with
       | |- context [chr_eqb (Ascii ?a0 ?a1 ?a2 ?a3 ?a4 ?a5 ?a6 ?a7)
                             (Ascii ?b0 ?b1 ?b2 ?b3 ?b4 ?b5 ?b6 ?b7)] =>
           let t := constr:(chr_eqb (Ascii a0 a1 a2 a3 a4 a5 a6 a7)
                                    (Ascii b0 b1 b2 b3 b4 b5 b6 b7)) in
           let v := eval vm_compute in t in
           change t with v
       | |- context [dt_letter (Ascii ?b0 ?b1 ?b2 ?b3 ?b4 ?b5 ?b6 ?b7)] =>
           let t := constr:(dt_letter (Ascii b0 b1 b2 b3 b4 b5 b6 b7)) in
           let v := eval vm_compute in t in
           change t with v
       end.

Section Tokens.

Variable n0 : nat.

Lemma rmatch_seq (A : Type) r1 r2 s c (k : cont A) :
rmatch n0 (Seq r1 r2) s c k
= rmatch n0 r1 s c (fun s' c' => rmatch n0 r2 s' c' k).
Proof. reflexivity. Qed.

Lemma rmatch_cls (A : Type) p s c (k : cont A) :
rmatch n0 (Cls p) s c k
= match s with
  | a :: s' => if p a then k s' c else None
  | [] => None
  end.
Proof. reflexivity. Qed.

Lemma rmatch_grp (A : Type) n r s c (k : cont A) :
rmatch n0 (Grp n r) s c k
= rmatch n0 r s c
         (fun s' c' =>
            k s' ((n, firstn (List.length s - List.length s') s) :: c')).
Proof. reflexivity. Qed.

(** The blanks of a pattern. *)
Lemma tok_space (k : cont caps) s c :
(forall a s c, is_space a = true -> k (a :: s) c = None) \/
(forall a s c, is_space a = true -> k (a :: s) c = k s c) ->
rmatch n0 (token_re TSpace) s c k
= match s with
  | x :: s' => if is_space x then k (dropw is_space s') c else None
  | [] => None
  end.
Proof.
intros Hk. unfold token_re, Plus, sp. rewrite rmatch_seq, rmatch_cls.
destruct s as [| x s']; [reflexivity |].
destruct (is_space x); [| reflexivity].
rewrite rmatch_star_cls. destruct Hk as [Hr | Hi].
- now apply greedy_rejects.
- rewrite greedy_stable.
  + clear x. induction s' as [| a s' IH]; [reflexivity |].
    cbn [dropw]. destruct (is_space a) eqn:E; [| reflexivity].
    rewrite Hi by exact E. exact IH.
  + intros a s0 c0 x0 Ha Hs. now rewrite Hi.
Qed.

(** A separator with blanks around it, in front of something that is no
  blank. *)
Lemma tok_sep_drop (ch : ascii) (k : cont caps) s c :
is_space ch = false ->
(forall a s c, is_space a = true -> k (a :: s) c = None) ->
rmatch n0 (Seqs [Star sp; Chr ch; Star sp]) s c k
= match dropw is_space s with
  | x :: y => if chr_eqb ch x then k (dropw is_space y) c else None
  | [] => None
  end.
Proof.
intros Hch Hk. unfold Seqs, sp, Chr.
rewrite rmatch_seq, rmatch_star_cls, greedy_rejects.
- rewrite rmatch_seq, rmatch_cls.
  destruct (dropw is_space s) as [| x y]; [reflexivity |].
  destruct (chr_eqb ch x); [| reflexivity].
  rewrite rmatch_seq, rmatch_star_cls. cbn [rmatch].
  now apply greedy_rejects.
- intros a s0 c0 Ha. rewrite rmatch_seq, rmatch_cls.
  destruct (chr_eqb ch a) eqn:E; [| reflexivity].
  apply chr_eqb_eq in E. subst a. congruence.
Qed.

(** A separator in front of something that takes blanks. *)
Lemma tok_sep_keep (ch : ascii) (k : cont caps) s c :
is_space ch = false ->
(forall a s c x, is_space a = true ->
                 k s c = Some x -> k (a :: s) c = Some x) ->
rmatch n0 (Seqs [Star sp; Chr ch; Star sp]) s c k
= match dropw is_space s with
  | x :: y => if chr_eqb ch x then k y c else None
  | [] => None
  end.
Proof.
intros Hch Hk. unfold Seqs, sp, Chr.
rewrite rmatch_seq, rmatch_star_cls, greedy_rejects.
- rewrite rmatch_seq, rmatch_cls.
  destruct (dropw is_space s) as [| x y]; [reflexivity |].
  destruct (chr_eqb ch x); [| reflexivity].
  rewrite rmatch_seq, rmatch_star_cls. cbn [rmatch].
  now apply greedy_stable.
- intros a s0 c0 Ha. rewrite rmatch_seq, rmatch_cls.
  destruct (chr_eqb ch a) eqn:E; [| reflexivity].
  apply chr_eqb_eq in E. subst a. congruence.
Qed.

Lemma firstn_one (a : ascii) (r : str) :
firstn (List.length (a :: r) - List.length r) (a :: r) = [a].
Proof.
replace (List.length (a :: r) - List.length r) with 1 by (cbn [List.length]; lia).
reflexivity.
Qed.

Lemma firstn_two (a b : ascii) (r : str) :
firstn (List.length (a :: b :: r) - List.length r) (a :: b :: r) = [a; b].
Proof.
replace (List.length (a :: b :: r) - List.length r) with 2
  by (cbn [List.length]; lia).
reflexivity.
Qed.

(** A register: its letter, then one or two digits, or a name in angle
  brackets. *)
Lemma tok_reg l name (k : cont caps) s c :
(forall a s c, is_digit a = true -> k (a :: s) c = None) ->
rmatch n0 (token_re (TReg l name)) s c k
= match s with
  | x :: r =>
      if reg_letter_ok l x then
        match r with
        | d1 :: r1 =>
            if is_digit d1 then
              match r1 with
              | d2 :: r2 =>
                  if is_digit d2
                  then k r2 ((gstr "raw_" name, [d1; d2]) :: c)
                  else k r1 ((gstr "raw_" name, [d1]) :: c)
              | [] => k r1 ((gstr "raw_" name, [d1]) :: c)
              end
            else if chr_eqb "<" d1 then
                   match takew is_word r1, dropw is_word r1 with
                   | (_ :: _) as w, g :: r2 =>
                       if chr_eqb ">" g
                       then k r2 ((gstr "symbol_" name, w) :: c)
                       else None
                   | _, _ => None
                   end
                 else None
        | [] => None
        end
      else None
  | [] => None
  end.
Proof.
intros Hk. unfold token_re, reg_letter_ok.
destruct s as [| x r]; [reflexivity |].
cbn [rmatch Seqs Opt dg Chr].
destruct (chr_eqb x (lower_chr l) || chr_eqb x l); [| reflexivity].
destruct r as [| d1 r1]; [reflexivity |].
destruct (is_digit d1) eqn:Ed1.
- destruct (digit_not_sep d1 Ed1) as (_ & _ & _ & _ & _ & Hlt).
  rewrite Hlt.
  destruct r1 as [| d2 r2].
  + cbn [List.length Nat.sub firstn].
    now destruct (k [] _).
  + destruct (is_digit d2) eqn:Ed2.
    * rewrite firstn_two.
      destruct (k r2 _); [reflexivity |].
      rewrite Hk by exact Ed2. reflexivity.
    * rewrite firstn_one. now destruct (k (d2 :: r2) _).
- destruct (chr_eqb "<" d1); [| reflexivity].
  unfold Plus, wd. cbn [rmatch].
  destruct r1 as [| w1 r1']; [reflexivity |].
  cbn [takew dropw].
  destruct (is_word w1) eqn:Ew; [| reflexivity].
  etransitivity; [apply (star_cls _ n0 is_word); lia |].
  rewrite greedy_rejects.
  + destruct (dropw is_word r1') as [| g r2] eqn:Ed; [reflexivity |].
    destruct (chr_eqb ">" g); [| reflexivity].
    f_equal. f_equal. f_equal.
    pose proof (firstn_takew is_word (w1 :: r1')) as Hf.
    cbn [takew dropw] in Hf. rewrite Ew, Ed in Hf. exact Hf.
  + intros a s0 c0 Ha. now rewrite (word_not_gt _ Ha).
Qed.

Lemma dt_digit_cases a :
a = "2"%char \/ a = "4"%char \/ a = "8"%char \/ a = "1"%char \/
(chr_eqb "2" a = false /\ chr_eqb "4" a = false /\
 chr_eqb "8" a = false /\ chr_eqb "1" a = false).
Proof.
destruct (chr_eqb "2" a) eqn:E2; [left; symmetry; now apply chr_eqb_eq |].
destruct (chr_eqb "4" a) eqn:E4;
  [right; left; symmetry; now apply chr_eqb_eq |].
destruct (chr_eqb "8" a) eqn:E8;
  [right; right; left; symmetry; now apply chr_eqb_eq |].
destruct (chr_eqb "1" a) eqn:E1;
  [right; right; right; left; symmetry; now apply chr_eqb_eq |].
right; right; right; right. auto.
Qed.

Lemma rmatch_dt_letters (A : Type) (k : cont A) s c :
rmatch n0 dt_letters s c k
= match s with
  | a :: s' => if dt_letter a then k s' c else None
  | [] => None
  end.
Proof.
destruct s as [| a s']; [reflexivity |].
unfold dt_letters, dt_letter. cbn [Alts rmatch Chr].
destruct (chr_eqb "B" a), (chr_eqb "H" a), (chr_eqb "S" a),
  (chr_eqb "D" a), (chr_eqb "b" a), (chr_eqb "h" a), (chr_eqb "s" a),
  (chr_eqb "d" a), (k s' c); reflexivity.
Qed.

Lemma dt_split_app s v r : dt_split s = Some (v, r) -> s = v ++ r.
Proof.
unfold dt_split. destruct s as [| a s1]; [discriminate |].
destruct (chr_eqb "2" a || chr_eqb "4" a || chr_eqb "8" a).
- destruct s1 as [| b s2]; [discriminate |].
  destruct (dt_letter b); [| discriminate].
  intros H. inversion H. reflexivity.
- destruct (chr_eqb "1" a).
  + destruct s1 as [| b s2]; [discriminate |].
    destruct (chr_eqb "6" b); [| discriminate].
    destruct s2 as [| d s3]; [discriminate |].
    destruct (dt_letter d); [| discriminate].
    intros H. inversion H. reflexivity.
  + destruct (dt_letter a); [| discriminate].
    intros H. inversion H. reflexivity.
Qed.

Lemma rmatch_dt_body (A : Type) (k : cont A) s c :
rmatch n0 (Seq (Alts [Eps; Lit "2"; Lit "4"; Lit "8"; Lit "16"])
               dt_letters) s c k
= match dt_split s with
  | Some (_, r) => k r c
  | None => None
  end.
Proof.
rewrite rmatch_seq. cbn [Alts].
destruct s as [| a s1]; [reflexivity |].
cbn [rmatch of_string list_ascii_of_string Lit Chr].
repeat rewrite rmatch_dt_letters.
unfold dt_split.
destruct (dt_digit_cases a) as [Ha | [Ha | [Ha | [Ha | Ha]]]];
  try (subst a; eval_chr; cbn [orb];
       destruct s1 as [| b s2]; [reflexivity |];
       destruct (dt_letter b); [| reflexivity];
       now destruct (k s2 c)).
- subst a. eval_chr. cbn [orb].
  destruct s1 as [| b s2]; [reflexivity |].
  destruct (chr_eqb "6" b); [| reflexivity].
  rewrite rmatch_dt_letters.
  destruct s2 as [| d s3]; [reflexivity |].
  destruct (dt_letter d); [| reflexivity]. now destruct (k s3 c).
- destruct Ha as (E2 & E4 & E8 & E1). rewrite E2, E4, E8, E1.
  cbn [orb]. destruct (dt_letter a); [| reflexivity].
  now destruct (k s1 c).
Qed.

(** A datatype. *)
Lemma tok_dt i (k : cont caps) s c :
rmatch n0 (token_re (TDt (Some i))) s c k
= match dt_split s with
  | Some (v, r) => k r ((gstr "datatype" (str_of_nat i), v) :: c)
  | None => None
  end.
Proof.
unfold token_re. rewrite rmatch_grp, rmatch_dt_body.
destruct (dt_split s) as [[v r] |] eqn:E; [| reflexivity].
apply dt_split_app in E. subst s.
rewrite length_app.
replace (List.length v + List.length r - List.length r)
  with (List.length v + 0) by lia.
rewrite firstn_app_2. cbn [firstn]. now rewrite app_nil_r.
Qed.

(** An index: all the digits there are. *)
Lemma tok_index (k : cont caps) s c :
(forall a s c, is_digit a = true -> k (a :: s) c = None) ->
rmatch n0 (token_re TIndex) s c k
= match s with
  | d :: s' =>
      if is_digit d
      then k (dropw is_digit s')
             (("index"%string, d :: takew is_digit s') :: c)
      else None
  | [] => None
  end.
Proof.
intros Hk. unfold token_re, Plus, dg.
rewrite rmatch_grp, rmatch_seq, rmatch_cls.
destruct s as [| d s']; [reflexivity |].
destruct (is_digit d) eqn:Ed; [| reflexivity].
rewrite rmatch_star_cls, greedy_rejects.
- f_equal. f_equal. f_equal.
  pose proof (firstn_takew is_digit (d :: s')) as Hf.
  cbn [takew dropw] in Hf. rewrite Ed in Hf. exact Hf.
- intros a s0 c0 Ha. now apply Hk.
Qed.

Lemma greedy_to_end (p : ascii -> bool) s (c : caps) :
greedy p (fun s' c' => match s' with [] => Some c' | _ => None end) s c
= if forallb p s then Some c else None.
Proof.
induction s as [| a s IH]; [reflexivity |].
cbn [greedy forallb]. destruct (p a); [| reflexivity].
rewrite IH. cbn [andb]. now destruct (forallb p s).
Qed.

(** The end of a pattern. *)
Lemma rmatch_end s (c : caps) :
rmatch n0 (rest_re []) s c (fun _ c' => Some c')
= if end_ok s then Some c else None.
Proof.
unfold rest_re. cbn [map app Seqs]. unfold pattern_end.
cbn [Seqs]. unfold sp.
rewrite rmatch_seq, rmatch_seq, rmatch_star_cls, greedy_rejects.
- unfold end_ok, Opt, dot.
  destruct (dropw is_space s) as [| a r]; [reflexivity |].
  cbn [rmatch of_string list_ascii_of_string Lit Chr].
  destruct r as [| b r].
  + now destruct (chr_eqb "/" a).
  + destruct (chr_eqb "/" a); [| reflexivity].
    destruct (chr_eqb "/" b); [| reflexivity].
    match goal with
    | |- match ?t with Some x => Some x | None => None end = _ =>
        replace t with (if no_newline r then Some c else None)
    end.
    * cbn [andb]. now destruct (no_newline r).
    * symmetry.
      etransitivity;
        [apply (star_cls _ n0 (fun a0 => negb (chr_eqb a0 newline))); lia |].
      apply greedy_to_end.
- intros a s0 c0 Ha. unfold Opt.
  destruct (space_not_sep a Ha) as (_ & _ & _ & _ & Hs).
  cbn [rmatch of_string list_ascii_of_string Lit Chr].
  now rewrite Hs.
Qed.

End Tokens.

End ScanTokens.


Module ScanImm.
Import Neon NeonScan ScanFacts ScanTokens.

Lemma forallb_space_imm u :
forallb is_space u = true -> forallb is_imm u = true.
Proof.
induction u as [| a u IH]; [reflexivity |]. cbn [forallb].
intros H. apply andb_true_iff in H. destruct H as [Ha Hu].
now rewrite (space_is_imm _ Ha), IH.
Qed.

Lemma takew_app_all p u s :
forallb p u = true -> takew p (u ++ s) = u ++ takew p s.
Proof.
induction u as [| a u IH]; [reflexivity |]. cbn [forallb app takew].
intros H. apply andb_true_iff in H. destruct H as [Ha Hu].
now rewrite Ha, IH.
Qed.

Lemma dropw_app_all p u s :
forallb p u = true -> dropw p (u ++ s) = dropw p s.
Proof.
induction u as [| a u IH]; [reflexivity |]. cbn [forallb app dropw].
intros H. apply andb_true_iff in H. destruct H as [Ha Hu].
now rewrite Ha, IH.
Qed.

Lemma dropw_none p s : (match s with a :: _ => p a | [] => false end) = false ->
                     dropw p s = s /\ takew p s = [].
Proof.
destruct s as [| a s]; [auto |]. cbn [dropw takew]. now intros ->.
Qed.

Lemma greedy_head_not (A : Type) p (k : cont A) s c :
(match s with a :: _ => p a | [] => false end) = false ->
greedy p k s c = k s c.
Proof.
destruct s as [| a s]; [reflexivity |]. cbn [greedy]. now intros ->.
Qed.

Section Imm.

Variable n0 : nat.

(** What stands behind the immediate: it is accepted or not, whatever
  the groups; it is not accepted at a character of an immediate that
  is no blank; and blanks in front make no difference. *)
Variable acc : str -> bool.
Variable K : cont caps.
Hypothesis K_acc : forall s c, K s c = if acc s then Some c else None.
Hypothesis acc_imm :
forall a s, is_imm a = true -> is_space a = false -> acc (a :: s) = false.
Hypothesis acc_space :
forall a s, is_space a = true -> acc (a :: s) = acc s.

Lemma acc_dropw s : acc (dropw is_imm s) = false -> acc s = false.
Proof.
induction s as [| a s IH]; [auto |]. cbn [dropw].
destruct (is_imm a) eqn:Ei; [| auto].
intros H. destruct (is_space a) eqn:Es.
- rewrite acc_space by exact Es. now apply IH.
- now apply acc_imm.
Qed.

Lemma greedy_acc (g : str -> caps -> caps) s c :
greedy is_imm (fun s' c' => if acc s' then Some (g s' c') else None) s c
= if acc (dropw is_imm s) then Some (g (dropw is_imm s) c) else None.
Proof.
induction s as [| a s IH]; [reflexivity |]. cbn [greedy dropw].
destruct (is_imm a) eqn:Ei; [| reflexivity].
rewrite IH. destruct (acc (dropw is_imm s)) eqn:Ea; [reflexivity |].
assert (Hs : acc (a :: s) = false).
{ apply acc_dropw. cbn [dropw]. now rewrite Ei. }
now rewrite Hs.
Qed.

(** The immediate at the front of [x]. *)
Definition imm_at (x : str) (c : caps) : option caps :=
match x with
| a :: _ =>
    if is_imm a
    then if acc (dropw is_imm x)
         then Some (("imm"%string, takew is_imm x) :: c) else None
    else None
| [] => None
end.

Lemma rmatch_imm x c :
rmatch n0 (token_re TImm) x c K = imm_at x c.
Proof.
unfold token_re, Plus, imm_at.
rewrite rmatch_grp, rmatch_seq, rmatch_imm_cls, rmatch_cls.
destruct x as [| a x']; [reflexivity |].
destruct (is_imm a) eqn:Ei; [| reflexivity].
rewrite rmatch_star_imm.
rewrite (greedy_ext _ _ _
           (fun s' c' =>
              if acc s'
              then Some ((fun s' c' =>
                            ("imm"%string,
                             firstn (List.length (a :: x')
                                     - List.length s') (a :: x')) :: c')
                           s' c')
              else None))
  by (intros; apply K_acc).
rewrite greedy_acc. cbn [dropw]. rewrite Ei.
destruct (acc (dropw is_imm x')); [| reflexivity].
f_equal. f_equal. f_equal.
pose proof (firstn_takew is_imm (a :: x')) as Hf.
cbn [dropw] in Hf. rewrite Ei in Hf. exact Hf.
Qed.

(** One blank or more, then the immediate. *)
Definition blank_imm (s : str) (c : caps) : option caps :=
match s with
| w :: s' => if is_space w then greedy is_space imm_at s' c else None
| [] => None
end.

Lemma rmatch_blank_imm s c :
rmatch n0 (token_re TSpace) s c
       (fun s2 c2 => rmatch n0 (token_re TImm) s2 c2 K)
= blank_imm s c.
Proof.
unfold token_re at 1. unfold Plus, sp, blank_imm.
rewrite rmatch_seq, rmatch_cls.
destruct s as [| w s']; [reflexivity |].
destruct (is_space w); [| reflexivity].
rewrite rmatch_star_cls. apply greedy_ext.
intros. apply rmatch_imm.
Qed.

Section Shown.

(** The immediate starts with [a], which is no blank. *)
Variable a : ascii.
Variable rest' : str.
Hypothesis a_imm : is_imm a = true.
Hypothesis a_space : is_space a = false.

Lemma imm_at_shown u c :
forallb is_space u = true ->
imm_at (u ++ a :: rest') c
= if acc (dropw is_imm (a :: rest'))
  then Some (("imm"%string, u ++ takew is_imm (a :: rest')) :: c)
  else None.
Proof.
intros Hu. unfold imm_at.
rewrite (dropw_app_all _ _ _ (forallb_space_imm _ Hu)).
rewrite (takew_app_all _ _ _ (forallb_space_imm _ Hu)).
destruct u as [| w u]; cbn [app].
- now rewrite a_imm.
- cbn [forallb] in Hu. apply andb_true_iff in Hu.
  now rewrite (space_is_imm _ (proj1 Hu)).
Qed.

Lemma greedy_imm_shown u c :
forallb is_space u = true ->
greedy is_space imm_at (u ++ a :: rest') c = imm_at (a :: rest') c.
Proof.
induction u as [| w u IH]; intros Hu.
- cbn [app greedy]. now rewrite a_space.
- cbn [forallb] in Hu. apply andb_true_iff in Hu.
  destruct Hu as [Hw Hu]. cbn [app greedy]. rewrite Hw.
  rewrite (IH Hu).
  destruct (imm_at (a :: rest') c) eqn:E; [reflexivity |].
  change (w :: u ++ a :: rest') with ((w :: u) ++ a :: rest').
  rewrite imm_at_shown
    by (cbn [forallb]; now rewrite Hw, Hu).
  pose proof (imm_at_shown [] c eq_refl) as E0.
  cbn [app] in E0. rewrite E0 in E.
  now destruct (acc (dropw is_imm (a :: rest'))).
Qed.

Lemma greedy_blank_shown u c :
forallb is_space u = true ->
greedy is_space blank_imm (u ++ a :: rest') c
= match u with
  | [] => None
  | _ => imm_at (a :: rest') c
  end.
Proof.
induction u as [| w u IH]; intros Hu.
- cbn [app greedy blank_imm]. now rewrite a_space.
- cbn [forallb] in Hu. apply andb_true_iff in Hu.
  destruct Hu as [Hw Hu]. cbn [app greedy]. rewrite Hw.
  rewrite (IH Hu). cbn [blank_imm]. rewrite Hw.
  rewrite (greedy_imm_shown _ c Hu).
  destruct u; [reflexivity |].
  now destruct (imm_at (a :: rest') c).
Qed.

End Shown.

Section Blank.

(** No character of an immediate follows the blanks. *)
Variable rest : str.
Hypothesis rest_imm :
(match rest with a :: _ => is_imm a | [] => false end) = false.

Lemma imm_at_rest c : imm_at rest c = None.
Proof.
unfold imm_at. pose proof rest_imm as Hi. revert Hi.
generalize rest. intros [| a r]; [reflexivity |]. now intros ->.
Qed.

Lemma rest_space :
(match rest with a :: _ => is_space a | [] => false end) = false.
Proof.
pose proof rest_imm as Hi. revert Hi.
generalize rest. intros [| a r]; [reflexivity |].
intros Hi. destruct (is_space a) eqn:E; [| reflexivity].
now rewrite (space_is_imm _ E) in Hi.
Qed.

Lemma blank_imm_rest c : blank_imm rest c = None.
Proof.
pose proof rest_space as Hs. unfold blank_imm.
revert Hs. generalize rest. intros [| a r]; [reflexivity |].
now intros ->.
Qed.

Lemma imm_at_blank w u c :
forallb is_space (w :: u) = true ->
imm_at ((w :: u) ++ rest) c
= if acc rest then Some (("imm"%string, w :: u) :: c) else None.
Proof.
intros Hu. unfold imm_at.
rewrite (dropw_app_all _ _ _ (forallb_space_imm _ Hu)).
rewrite (takew_app_all _ _ _ (forallb_space_imm _ Hu)).
destruct (dropw_none is_imm rest rest_imm) as [-> ->].
rewrite app_nil_r.
cbn [forallb] in Hu. apply andb_true_iff in Hu.
cbn [app]. now rewrite (space_is_imm _ (proj1 Hu)).
Qed.

Lemma greedy_imm_blank u c :
forallb is_space u = true ->
greedy is_space imm_at (u ++ rest) c
= match u with
  | [] => None
  | _ => if acc rest
         then Some (("imm"%string, [last u " "%char]) :: c) else None
  end.
Proof.
induction u as [| w u IH]; intros Hu.
- cbn [app]. rewrite greedy_head_not by apply rest_space.
  apply imm_at_rest.
- pose proof Hu as Hwu.
  cbn [forallb] in Hu. apply andb_true_iff in Hu.
  destruct Hu as [Hw Hu]. cbn [app greedy]. rewrite Hw.
  rewrite (IH Hu).
  change (w :: u ++ rest) with ((w :: u) ++ rest).
  rewrite (imm_at_blank _ _ c Hwu).
  destruct u as [| w' u]; [reflexivity |].
  now destruct (acc rest).
Qed.

Lemma greedy_blank_blank u c :
forallb is_space u = true ->
greedy is_space blank_imm (u ++ rest) c
= if 2 <=? List.length u
  then if acc rest
       then Some (("imm"%string, [last u " "%char]) :: c) else None
  else None.
Proof.
induction u as [| w u IH]; intros Hu.
- cbn [app]. rewrite greedy_head_not by apply rest_space.
  apply blank_imm_rest.
- cbn [forallb] in Hu. apply andb_true_iff in Hu.
  destruct Hu as [Hw Hu]. cbn [app greedy]. rewrite Hw.
  rewrite (IH Hu). cbn [blank_imm]. rewrite Hw.
  rewrite (greedy_imm_blank _ c Hu).
  destruct u as [| w' [| w'' u]]; try reflexivity.
  cbn [List.length Nat.leb].
  now destruct (acc rest).
Qed.

End Blank.

(** The comma, the blank behind it and the immediate: together. *)
Lemma tok_imm s c :
rmatch n0 (token_re TComma) s c
       (fun s1 c1 =>
          rmatch n0 (token_re TSpace) s1 c1
                 (fun s2 c2 => rmatch n0 (token_re TImm) s2 c2 K))
= match dropw is_space s with
  | x :: y =>
      if chr_eqb "," x then
        match imm_split y with
        | Some (v, r) => K r (("imm"%string, v) :: c)
        | None => None
        end
      else None
  | [] => None
  end.
Proof.
unfold token_re at 1. unfold Seqs, sp, Chr.
rewrite rmatch_seq, rmatch_star_cls, greedy_rejects.
2:{ intros a s0 c0 Ha. rewrite rmatch_seq, rmatch_cls.
    destruct (space_not_sep a Ha) as (_ & _ & _ & Hc & _).
    now rewrite Hc. }
rewrite rmatch_seq, rmatch_cls.
destruct (dropw is_space s) as [| x y]; [reflexivity |].
destruct (chr_eqb "," x); [| reflexivity].
rewrite rmatch_seq, rmatch_star_cls. cbn [rmatch].
rewrite (greedy_ext _ _ _ blank_imm) by (intros; apply rmatch_blank_imm).
rewrite <- (takew_dropw is_space y) at 1.
unfold imm_split.
set (u := takew is_space y). set (rest := dropw is_space y).
assert (Hu : forallb is_space u = true) by apply takew_all.
assert (Hr : (match rest with a :: _ => is_space a | [] => false end)
             = false).
{ subst rest. destruct (dropw is_space y) as [| a r] eqn:E;
    [reflexivity |]. exact (dropw_head _ _ _ _ E). }
destruct rest as [| a rest'] eqn:Er.
- rewrite (greedy_blank_blank [] eq_refl u c Hu).
  destruct (2 <=? List.length u); [| reflexivity].
  now rewrite K_acc.
- destruct (is_imm a) eqn:Ei.
  + rewrite (greedy_blank_shown a rest' Ei Hr u c Hu).
    destruct u as [| w u']; [reflexivity |].
    cbn [List.length Nat.leb]. unfold imm_at. rewrite Ei.
    now rewrite K_acc.
  + rewrite (greedy_blank_blank (a :: rest') Ei u c Hu).
    destruct (2 <=? List.length u); [| reflexivity].
    now rewrite K_acc.
Qed.

End Imm.

End ScanImm.


Module ScanProps.
Import Neon NeonScan ScanFacts ScanTokens ScanImm.

Lemma end_ok_space a s : is_space a = true -> end_ok (a :: s) = end_ok s.
Proof. intros H. unfold end_ok. cbn [dropw]. now rewrite H. Qed.

Lemma end_ok_imm a s :
is_imm a = true -> is_space a = false -> end_ok (a :: s) = false.
Proof.
intros Hi Hs. unfold end_ok. cbn [dropw]. rewrite Hs.
destruct (imm_not_end a Hi) as [Hsl _].
destruct s; [reflexivity |]. now rewrite Hsl.
Qed.

(** [scan] behind a comma. *)
Lemma scan_comma r s c :
scan (TComma :: r) s c
= match dropw is_space s with
  | x :: y =>
      if chr_eqb "," x then
        match r with
        | TSpace :: TImm :: r' =>
            match imm_split y with
            | Some (v, r2) => scan r' r2 (("imm"%string, v) :: c)
            | None => None
            end
        | _ => scan r y c
        end
      else None
  | [] => None
  end.
Proof.
cbn [scan].
destruct r as [| t r]; [reflexivity |].
destruct t; try reflexivity.
destruct r as [| t r]; [reflexivity |].
destruct t; reflexivity.
Qed.

Lemma scan_rej_space ts a s c :
rej_space ts = true -> is_space a = true -> scan ts (a :: s) c = None.
Proof.
intros Ht Ha. destruct ts as [| t r]; [discriminate |].
destruct t; try discriminate; cbn [rej_space] in Ht.
- cbn [scan]. destruct (chr_eqb c0 a) eqn:E; [| reflexivity].
  apply chr_eqb_eq in E. subst c0. now rewrite Ha in Ht.
- cbn [scan]. unfold reg_letter_ok.
  apply andb_true_iff in Ht. destruct Ht as [H1 H2].
  destruct (chr_eqb a (lower_chr letter)) eqn:E1.
  { apply chr_eqb_eq in E1. subst a. now rewrite Ha in H2. }
  destruct (chr_eqb a letter) eqn:E2.
  { apply chr_eqb_eq in E2. subst a. now rewrite Ha in H1. }
  reflexivity.
- destruct i; [| discriminate]. cbn [scan]. unfold dt_split.
  destruct (space_not_dt a Ha) as (H1 & H2 & H3 & _).
  now rewrite H1, H2, H3.
- cbn [scan]. destruct (space_not_dt a Ha) as (_ & _ & _ & H4).
  now rewrite H4.
Qed.

Lemma scan_skips_space ts a s c :
skips_space ts = true -> is_space a = true ->
scan ts (a :: s) c = scan ts s c.
Proof.
intros Ht Ha. destruct ts as [| t r].
- cbn [scan]. now rewrite end_ok_space.
- destruct t; try discriminate.
  + cbn [scan dropw]. now rewrite Ha.
  + cbn [scan dropw]. now rewrite Ha.
  + cbn [scan dropw]. now rewrite Ha.
  + rewrite !scan_comma. cbn [dropw]. now rewrite Ha.
Qed.

Lemma scan_rej_digit ts a s c :
rej_digit ts = true -> is_digit a = true -> scan ts (a :: s) c = None.
Proof.
intros Ht Ha.
destruct (digit_not_sep a Ha) as (H1 & H2 & H3 & H4 & H5 & _).
pose proof (digit_not_space a Ha) as Hs.
destruct ts as [| t r].
- cbn [scan]. unfold end_ok. cbn [dropw]. rewrite Hs.
  destruct s; [reflexivity |]. now rewrite H5.
- destruct t; try discriminate.
  + cbn [scan dropw]. now rewrite Hs, H1.
  + cbn [scan dropw]. now rewrite Hs, H2.
  + cbn [scan dropw]. now rewrite Hs, H3.
  + rewrite scan_comma. cbn [dropw]. now rewrite Hs, H4.
Qed.

Lemma scan_space_stable r a s c x :
is_space a = true ->
scan (TSpace :: r) s c = Some x -> scan (TSpace :: r) (a :: s) c = Some x.
Proof.
intros Ha. cbn [scan]. rewrite Ha.
destruct s as [| w s']; [discriminate |].
destruct (is_space w) eqn:Ew; [| discriminate].
cbn [dropw]. now rewrite Ew.
Qed.

(** What stands behind an immediate. *)
Definition acc_of (r : list token) (s : str) : bool :=
match scan r s [] with Some _ => true | None => false end.

Lemma scan_end_acc r s c :
r = [] \/ r = [TRbr] ->
scan r s c = if acc_of r s then Some c else None.
Proof.
unfold acc_of. intros [-> | ->]; cbn [scan].
- now destruct (end_ok s).
- destruct (dropw is_space s) as [| x y]; [reflexivity |].
  destruct (chr_eqb "]" x); [| reflexivity]. now destruct (end_ok y).
Qed.

Lemma acc_of_imm r a s :
r = [] \/ r = [TRbr] ->
is_imm a = true -> is_space a = false -> acc_of r (a :: s) = false.
Proof.
unfold acc_of. intros [-> | ->] Hi Hs; cbn [scan].
- now rewrite end_ok_imm.
- cbn [dropw]. rewrite Hs. destruct (imm_not_end a Hi) as [_ Hb].
  now rewrite Hb.
Qed.

Lemma acc_of_space r a s :
r = [] \/ r = [TRbr] ->
is_space a = true -> acc_of r (a :: s) = acc_of r s.
Proof.
unfold acc_of. intros Hr Ha.
rewrite scan_skips_space; auto. now destruct Hr as [-> | ->].
Qed.

Section Finds.

Variable n0 : nat.

Lemma rest_re_cons t r s c :
rmatch n0 (rest_re (t :: r)) s c (fun _ c' => Some c')
= rmatch n0 (token_re t) s c
         (fun s' c' => rmatch n0 (rest_re r) s' c' (fun _ c' => Some c')).
Proof. reflexivity. Qed.

(** The expression of a pattern finds what [scan] reads. *)
Theorem scan_finds :
forall n ts,
  List.length ts <= n -> wf ts = true ->
  forall s c,
    rmatch n0 (rest_re ts) s c (fun _ c' => Some c') = scan ts s c.
Proof.
induction n as [| n IH]; intros ts Hl Hwf s c.
{ destruct ts; [| cbn in Hl; lia]. apply rmatch_end. }
destruct ts as [| t r]; [apply rmatch_end |].
cbn [List.length] in Hl.
assert (IHr : wf r = true ->
              forall s c,
                rmatch n0 (rest_re r) s c (fun _ c' => Some c')
                = scan r s c)
  by (intros Hw; apply IH; [lia | exact Hw]).
rewrite rest_re_cons.
destruct t.
- (* a character of the mnemonic *)
  cbn [wf] in Hwf. cbn [token_re scan]. unfold Chr.
  rewrite rmatch_cls. destruct s as [| x s']; [reflexivity |].
  destruct (chr_eqb c0 x); [| reflexivity]. now apply IHr.
- (* the dot *)
  cbn [wf] in Hwf. apply andb_true_iff in Hwf. destruct Hwf as [Hrj Hw].
  rewrite (rmatch_ext _ n0 _ _ (scan r)) by (apply IHr; exact Hw).
  cbn [token_re scan]. apply tok_sep_drop; [reflexivity |].
  intros; now apply scan_rej_space.
- (* the opening bracket *)
  cbn [wf] in Hwf. apply andb_true_iff in Hwf. destruct Hwf as [Hrj Hw].
  rewrite (rmatch_ext _ n0 _ _ (scan r)) by (apply IHr; exact Hw).
  cbn [token_re scan]. apply tok_sep_drop; [reflexivity |].
  intros; now apply scan_rej_space.
- (* the closing bracket *)
  cbn [wf] in Hwf. destruct r; [| discriminate].
  rewrite (rmatch_ext _ n0 _ _ (scan [])) by (apply IHr; reflexivity).
  cbn [token_re]. rewrite tok_sep_keep; [reflexivity | reflexivity |].
  intros a s0 c0 x Ha Hs. now rewrite scan_skips_space.
- (* a blank *)
  cbn [wf] in Hwf. apply andb_true_iff in Hwf. destruct Hwf as [Hrj Hw].
  rewrite (rmatch_ext _ n0 _ _ (scan r)) by (apply IHr; exact Hw).
  rewrite tok_space; [reflexivity |].
  apply orb_true_iff in Hrj. destruct Hrj as [Hrj | Hsk].
  + left. intros; now apply scan_rej_space.
  + right. intros; now apply scan_skips_space.
- (* the comma *)
  rewrite scan_comma.
  destruct r as [| t2 r2]; [cbn [wf] in Hwf; discriminate |].
  destruct t2; try (cbn [wf] in Hwf; discriminate).
  assert (Hgen :
            wf (TSpace :: r2) = true ->
            rmatch n0 (token_re TComma) s c
                   (fun s' c' =>
                      rmatch n0 (rest_re (TSpace :: r2)) s' c'
                             (fun _ c'0 => Some c'0))
            = match dropw is_space s with
              | [] => None
              | x :: y =>
                  if chr_eqb "," x
                  then scan (TSpace :: r2) y c else None
              end).
  { intros Hw.
    rewrite (rmatch_ext _ n0 _ _ (scan (TSpace :: r2)))
      by (apply IHr; exact Hw).
    cbn [token_re]. apply tok_sep_keep; [reflexivity |].
    intros; now apply scan_space_stable. }
  destruct r2 as [| t3 r3]; [apply Hgen; exact Hwf |].
  destruct t3; try (apply Hgen; exact Hwf).
  (* the immediate *)
  assert (Hr3 : r3 = [] \/ r3 = [TRbr]).
  { cbn [wf] in Hwf. destruct r3 as [| t4 r4]; [now left |].
    destruct t4; try discriminate. destruct r4; [now right | discriminate]. }
  assert (Hw3 : wf r3 = true) by (destruct Hr3 as [-> | ->]; reflexivity).
  rewrite (rmatch_ext _ n0 _ _
             (fun s1 c1 =>
                rmatch n0 (token_re TSpace) s1 c1
                       (fun s2 c2 =>
                          rmatch n0 (token_re TImm) s2 c2 (scan r3)))).
  + apply (tok_imm n0 (acc_of r3) (scan r3)).
    * intros; now apply scan_end_acc.
    * intros; now apply acc_of_imm.
    * intros; now apply acc_of_space.
  + intros s1 c1. rewrite rest_re_cons.
    apply rmatch_ext. intros s2 c2. rewrite rest_re_cons.
    apply rmatch_ext. intros s3 c3.
    apply IH; [cbn [List.length] in Hl; lia | exact Hw3].
- (* a register *)
  cbn [wf] in Hwf. apply andb_true_iff in Hwf. destruct Hwf as [Hrj Hw].
  rewrite (rmatch_ext _ n0 _ _ (scan r)) by (apply IHr; exact Hw).
  rewrite tok_reg; [reflexivity |].
  intros; now apply scan_rej_digit.
- (* a datatype *)
  destruct i; [| discriminate]. cbn [wf] in Hwf.
  rewrite (rmatch_ext _ n0 _ _ (scan r)) by (apply IHr; exact Hwf).
  now rewrite tok_dt.
- (* an immediate by itself *)
  discriminate.
- (* an index *)
  cbn [wf] in Hwf. apply andb_true_iff in Hwf. destruct Hwf as [Hrj Hw].
  rewrite (rmatch_ext _ n0 _ _ (scan r)) by (apply IHr; exact Hw).
  rewrite tok_index; [reflexivity |].
  intros; now apply scan_rej_digit.
Qed.

End Finds.

(** [re.compile(_unfold_pattern(ptn)).match(src)], read by [scan]. *)
Theorem match_by_scan ptn ts re src :
tokens_of ptn = Some ts ->
wf ts = true -> rej_space ts = true ->
unfold_pattern ptn = Some re ->
re_match re src = scan ts (dropw is_space src) [].
Proof.
intros Ht Hw Hr Hu. unfold unfold_pattern in Hu. rewrite Ht in Hu.
inversion Hu; subst re. clear Hu.
unfold re_match. cbn [app Seqs]. unfold sp.
rewrite rmatch_seq, rmatch_star_cls.
rewrite (greedy_ext _ _ _ (scan ts)).
- apply greedy_rejects. intros; now apply scan_rej_space.
- intros s c. apply (@scan_finds _ (List.length ts)); auto.
Qed.

End ScanProps.


(** ** [str.replace] on the text of a pattern *)

Module RenderFacts.
Import Neon NeonScan NeonRender ScanFacts.

Lemma str_eqb_true a b : str_eqb a b = true <-> a = b.
Proof.
unfold str_eqb. destruct (list_eq_dec ascii_dec a b); split; auto.
discriminate.
Qed.

Lemma str_eqb_false a b : str_eqb a b = false <-> a <> b.
Proof.
unfold str_eqb. destruct (list_eq_dec ascii_dec a b); split; auto.
- discriminate.
- intros H. now destruct H.
Qed.

Lemma str_eqb_refl a : str_eqb a a = true.
Proof. now apply str_eqb_true. Qed.

Lemma startswith_app p s : startswith p (p ++ s) = true.
Proof.
induction p as [| a p IH]; [reflexivity |]. cbn [app startswith].
now rewrite chr_eqb_refl, IH.
Qed.

Lemma replace_from_skip old new u s :
replace_from (List.length u) old new (u ++ s) = replace_from 0 old new s.
Proof.
induction u as [| a u IH]; [reflexivity |]. exact IH.
Qed.

(** The text to be replaced, at the front. *)
Lemma replace_hit a old new s :
replace (a :: old) new ((a :: old) ++ s) = new ++ replace (a :: old) new s.
Proof.
unfold replace. cbn [app replace_from].
pose proof (startswith_app (a :: old) s) as H. cbn [app] in H.
rewrite H.
replace (List.length (a :: old) - 1) with (List.length old)
  by (cbn [List.length]; lia).
now rewrite replace_from_skip.
Qed.

(** No [<] on the way: nothing to replace. *)
Lemma replace_no_lt old new u s :
no_lt u = true ->
replace ("<"%char :: old) new (u ++ s)
= u ++ replace ("<"%char :: old) new s.
Proof.
unfold replace, no_lt.
induction u as [| a u IH]; [reflexivity |]. cbn [forallb]. intros H.
apply andb_true_iff in H. destruct H as [Ha Hu].
cbn [app replace_from startswith].
destruct (chr_eqb "<" a); [discriminate |]. cbn [andb].
now rewrite IH.
Qed.

Lemma startswith_holes bp bq s :
no_gt bp = true -> no_gt bq = true ->
startswith (bp ++ [">"%char]) (bq ++ ">"%char :: s) = true -> bp = bq.
Proof.
unfold no_gt. revert bq.
induction bp as [| a bp IH]; intros bq Hp Hq H.
- destruct bq as [| b bq]; [reflexivity |].
  cbn [app startswith forallb] in *.
  apply andb_true_iff in Hq. destruct Hq as [Hb _].
  destruct (chr_eqb ">" b); discriminate.
- cbn [forallb] in Hp. apply andb_true_iff in Hp. destruct Hp as [Ha Hp].
  destruct bq as [| b bq]; cbn [app startswith] in H.
  + apply andb_true_iff in H. destruct H as [H _].
    apply chr_eqb_eq in H. subst a. cbn in Ha. discriminate.
  + apply andb_true_iff in H. destruct H as [H1 H2].
    apply chr_eqb_eq in H1. subst b.
    cbn [forallb] in Hq. apply andb_true_iff in Hq.
    f_equal. now apply IH.
Qed.

(** Another placeholder at the front. *)
Lemma replace_miss bp bq new s :
no_gt bp = true -> no_gt bq = true -> no_lt bq = true -> bp <> bq ->
replace (angle bp) new (angle bq ++ s)
= angle bq ++ replace (angle bp) new s.
Proof.
intros Hp Hq Hl Hne. unfold angle, replace.
cbn [app replace_from startswith].
rewrite chr_eqb_refl. cbn [andb].
destruct (startswith (bp ++ [">"%char]) ((bq ++ [">"%char]) ++ s)) eqn:E.
- rewrite <- app_assoc in E. cbn [app] in E.
  now apply startswith_holes in E.
- f_equal.
  apply (replace_no_lt (bp ++ [">"%char]) new (bq ++ [">"%char]) s).
  unfold no_lt in *. rewrite forallb_app, Hl. reflexivity.
Qed.

(** A text without the first character of [old] stays as it is. *)
Lemma replace_absent a old new s :
forallb (fun x => negb (chr_eqb a x)) s = true ->
replace (a :: old) new s = s.
Proof.
unfold replace. induction s as [| x s IH]; [reflexivity |].
cbn [forallb]. intros H. apply andb_true_iff in H. destruct H as [Hx Hs].
cbn [replace_from startswith]. destruct (chr_eqb a x); [discriminate |].
cbn [andb]. now rewrite IH.
Qed.

Lemma assoc_app_some b sub sub' v :
assoc b sub = Some v -> assoc b (sub ++ sub') = Some v.
Proof.
induction sub as [| [k w] sub IH]; [discriminate |]. cbn [assoc app].
destruct (str_eqb k b); auto.
Qed.

Lemma assoc_app_none b sub sub' :
assoc b sub = None -> assoc b (sub ++ sub') = assoc b sub'.
Proof.
induction sub as [| [k w] sub IH]; [reflexivity |]. cbn [assoc app].
destruct (str_eqb k b); [discriminate | auto].
Qed.

Lemma values_ok_assoc sub b v :
values_ok sub = true -> assoc b sub = Some v -> no_lt v = true.
Proof.
unfold values_ok. induction sub as [| [k w] sub IH]; [discriminate |].
cbn [forallb assoc snd]. intros H. apply andb_true_iff in H.
destruct H as [Hw Hs]. destruct (str_eqb k b).
- intros E. inversion E. now subst.
- now apply IH.
Qed.

Lemma rend_cons sub t ts : rend sub (t :: ts) = rend1 sub t ++ rend sub ts.
Proof. reflexivity. Qed.

(** Filling one placeholder in. *)
Lemma replace_rend b v sub ts :
no_gt b = true ->
forallb piece_ok ts = true ->
values_ok sub = true ->
replace (angle b) v (rend sub ts) = rend (sub ++ [(b, v)]) ts.
Proof.
intros Hb Hts Hsub.
induction ts as [| t ts IH]; [reflexivity |].
cbn [forallb] in Hts. apply andb_true_iff in Hts. destruct Hts as [Ht Hts].
rewrite !rend_cons. unfold rend1. unfold piece_ok in Ht.
destruct (hole t) as [b' |] eqn:Eh.
- apply andb_true_iff in Ht. destruct Ht as [Hl Hg].
  destruct (assoc b' sub) as [v' |] eqn:Ea.
  + rewrite (assoc_app_some _ _ _ _ Ea).
    unfold angle at 1.
    rewrite replace_no_lt by (eapply values_ok_assoc; eauto).
    f_equal. now apply IH.
  + rewrite (assoc_app_none _ _ _ Ea). cbn [assoc].
    destruct (str_eqb b b') eqn:Eb.
    * apply str_eqb_true in Eb. subst b'.
      unfold angle at 1 2. rewrite replace_hit. f_equal.
      now apply IH.
    * apply str_eqb_false in Eb.
      rewrite replace_miss by auto. f_equal. now apply IH.
- unfold angle at 1. rewrite replace_no_lt by exact Ht.
  f_equal. now apply IH.
Qed.

(** The number of [<] in a text. *)
Definition count_lt (s : str) : nat :=
List.length (filter (chr_eqb "<") s).

Lemma count_lt_app a b : count_lt (a ++ b) = count_lt a + count_lt b.
Proof. unfold count_lt. now rewrite filter_app, length_app. Qed.

Lemma count_lt_none s : no_lt s = true -> count_lt s = 0.
Proof.
unfold no_lt, count_lt. induction s as [| a s IH]; [reflexivity |].
cbn [forallb filter]. intros H. apply andb_true_iff in H.
destruct H as [Ha Hs]. destruct (chr_eqb "<" a); [discriminate |].
now apply IH.
Qed.

Lemma count_lt_angle b : no_lt b = true -> count_lt (angle b) = 1.
Proof.
intros H. unfold angle.
change ("<"%char :: b ++ [">"%char]) with (["<"%char] ++ b ++ [">"%char]).
rewrite !count_lt_app, (count_lt_none _ H). reflexivity.
Qed.

(** The placeholders still to be filled. *)
Definition open_hole (sub : alist) (t : token) : bool :=
match hole t with
| Some b => match assoc b sub with Some _ => false | None => true end
| None => false
end.

Lemma count_lt_rend sub ts :
forallb piece_ok ts = true ->
values_ok sub = true ->
count_lt (rend sub ts) = List.length (filter (open_hole sub) ts).
Proof.
intros Hts Hsub. induction ts as [| t ts IH]; [reflexivity |].
cbn [forallb] in Hts. apply andb_true_iff in Hts. destruct Hts as [Ht Hts].
rewrite rend_cons, count_lt_app, (IH Hts). cbn [filter].
unfold rend1, open_hole, piece_ok in *.
destruct (hole t) as [b |].
- apply andb_true_iff in Ht. destruct Ht as [Hl Hg].
  destruct (assoc b sub) as [v |] eqn:Ea.
  + now rewrite (count_lt_none _ (values_ok_assoc _ _ _ Hsub Ea)).
  + now rewrite (count_lt_angle _ Hl).
- now rewrite (count_lt_none _ Ht).
Qed.

Lemma open_hole_app sub b v t :
open_hole (sub ++ [(b, v)]) t = true -> open_hole sub t = true.
Proof.
unfold open_hole. destruct (hole t) as [b' |]; [| auto].
destruct (assoc b' sub) eqn:E; [| auto].
now rewrite (assoc_app_some _ _ _ _ E).
Qed.

Lemma filter_open_le sub b v ts :
List.length (filter (open_hole (sub ++ [(b, v)])) ts)
<= List.length (filter (open_hole sub) ts).
Proof.
induction ts as [| t ts IH]; [reflexivity |]. cbn [filter].
destruct (open_hole (sub ++ [(b, v)]) t) eqn:E.
- rewrite (open_hole_app _ _ _ _ E). cbn [List.length]. lia.
- destruct (open_hole sub t); cbn [List.length]; lia.
Qed.

Lemma filter_open_lt sub b v ts t :
In t ts -> hole t = Some b -> assoc b sub = None ->
List.length (filter (open_hole (sub ++ [(b, v)])) ts)
< List.length (filter (open_hole sub) ts).
Proof.
intros Hin Hh Ha. induction ts as [| t' ts IH]; [destruct Hin |].
cbn [filter]. destruct Hin as [-> | Hin].
- assert (E1 : open_hole (sub ++ [(b, v)]) t = false).
  { unfold open_hole. rewrite Hh, (assoc_app_none _ _ _ Ha).
    cbn [assoc]. now rewrite str_eqb_refl. }
  assert (E2 : open_hole sub t = true).
  { unfold open_hole. now rewrite Hh, Ha. }
  rewrite E1, E2. cbn [List.length].
  pose proof (filter_open_le sub b v ts). lia.
- specialize (IH Hin).
  destruct (open_hole (sub ++ [(b, v)]) t') eqn:E.
  + rewrite (open_hole_app _ _ _ _ E). cbn [List.length]. lia.
  + destruct (open_hole sub t'); cbn [List.length]; lia.
Qed.

Lemma values_ok_app sub b v :
values_ok sub = true -> no_lt v = true -> values_ok (sub ++ [(b, v)]) = true.
Proof.
unfold values_ok. intros H1 H2. rewrite forallb_app, H1.
cbn [forallb snd andb]. now rewrite H2.
Qed.

(** Filling a placeholder that is there changes the text. *)
Lemma rend_changes sub b v ts t :
forallb piece_ok ts = true ->
values_ok sub = true -> no_lt v = true ->
In t ts -> hole t = Some b -> assoc b sub = None ->
str_eqb (rend (sub ++ [(b, v)]) ts) (rend sub ts) = false.
Proof.
intros Hts Hs Hv Hin Hh Ha. apply str_eqb_false. intros E.
apply (f_equal count_lt) in E.
rewrite !count_lt_rend in E; auto using values_ok_app.
pose proof (filter_open_lt sub b v ts t Hin Hh Ha). lia.
Qed.

End RenderFacts.


(** ** Reading back the text [write] produces *)

Module Rescan.
Import Neon NeonScan NeonRender ScanFacts ScanTokens ScanImm ScanProps
     RenderFacts.

(** *** Decimal numbers *)

Lemma is_digit_digit_chr d : d < 10 -> is_digit (digit_chr (d)) = true.
Proof.
intros H. do 10 (destruct d as [| d]; [reflexivity |]). lia.
Qed.

Lemma code_digit_chr d : d < 10 -> code (digit_chr d) - 48 = d.
Proof.
intros H. do 10 (destruct d as [| d]; [reflexivity |]). lia.
Qed.

Lemma digits_from_digits fuel :
forall n acc,
  forallb is_digit acc = true ->
  forallb is_digit (digits_from fuel n acc) = true.
Proof.
induction fuel as [| f IH]; intros n acc H; [exact H |].
cbn [digits_from].
assert (H' : forallb is_digit (digit_chr (n mod 10) :: acc) = true).
{ cbn [forallb]. rewrite H, is_digit_digit_chr; [reflexivity |].
  apply Nat.mod_upper_bound. lia. }
destruct (n <? 10); [exact H' | now apply IH].
Qed.

Lemma digits_from_app fuel :
forall n acc, digits_from fuel n acc = digits_from fuel n [] ++ acc.
Proof.
induction fuel as [| f IH]; intros n acc; [reflexivity |].
cbn [digits_from]. destruct (n <? 10); [reflexivity |].
rewrite (IH _ (_ :: acc)), (IH _ [_]). now rewrite <- app_assoc.
Qed.

Lemma str_of_nat_digits n : digits1 (str_of_nat n) = true.
Proof.
unfold digits1, str_of_nat.
pose proof (digits_from_digits (S n) n [] eq_refl) as H.
destruct (digits_from (S n) n []) as [| d ds] eqn:E; [| exact H].
cbn [digits_from] in E. destruct (n <? 10); [discriminate |].
rewrite digits_from_app in E. now destruct (digits_from n (n / 10) []).
Qed.

Lemma int_of_digits_from fuel :
forall n acc,
  n < fuel ->
  fold_left (fun a c => 10 * a + (code c - 48)) (digits_from fuel n acc) 0
  = fold_left (fun a c => 10 * a + (code c - 48)) acc n.
Proof.
induction fuel as [| f IH]; intros n acc Hn; [lia |].
cbn [digits_from].
assert (Hm : n mod 10 < 10) by (apply Nat.mod_upper_bound; lia).
destruct (n <? 10) eqn:E.
- apply Nat.ltb_lt in E. cbn [fold_left].
  rewrite code_digit_chr by exact Hm.
  rewrite Nat.mod_small by exact E. now rewrite Nat.mul_0_r.
- apply Nat.ltb_ge in E.
  assert (Hd : n / 10 < f).
  { assert (n / 10 < n) by (apply Nat.div_lt; lia). lia. }
  rewrite (IH _ _ Hd). cbn [fold_left].
  rewrite code_digit_chr by exact Hm.
  f_equal. symmetry. apply Nat.div_mod_eq.
Qed.

(** [int(str(n)) == n] *)
Lemma int_of_str_of_nat n : int_of_digits (str_of_nat n) = n.
Proof.
unfold int_of_digits, str_of_nat.
now rewrite int_of_digits_from by lia.
Qed.

(** *** The first character of a text *)

Definition head_is (f : ascii -> bool) (s : str) : bool :=
match s with
| a :: _ => f a
| [] => false
end.

Lemma dropw_head_not p s : head_is p s = false -> dropw p s = s.
Proof. destruct s as [| a s]; [reflexivity |]. cbn. now intros ->. Qed.

Lemma takew_head_not p s : head_is p s = false -> takew p s = [].
Proof. destruct s as [| a s]; [reflexivity |]. cbn. now intros ->. Qed.

Lemma head_is_app f a v s : head_is f ((a :: v) ++ s) = f a.
Proof. reflexivity. Qed.

Lemma dt_first a :
chr_eqb "2" a || chr_eqb "4" a || chr_eqb "8" a || chr_eqb "1" a
|| dt_letter a = true ->
is_space a = false /\ is_imm a = true.
Proof.
intros H.
char_fact (fun a => implb (chr_eqb "2" a || chr_eqb "4" a || chr_eqb "8" a
                           || chr_eqb "1" a || dt_letter a)
                          (negb (is_space a) && is_imm a)) a.
rewrite H in F. cbn [implb] in F. apply andb_true_iff in F.
destruct F as [F1 F2]. split; [now destruct (is_space a) | exact F2].
Qed.

Lemma dt_shaped_head v :
dt_shaped v = true -> exists a r, v = a :: r /\ is_space a = false.
Proof.
unfold dt_shaped, dt_split. destruct v as [| a r]; [discriminate |].
intros H. exists a, r. split; [reflexivity |].
apply dt_first.
destruct (chr_eqb "2" a || chr_eqb "4" a || chr_eqb "8" a); [reflexivity |].
destruct (chr_eqb "1" a); [reflexivity |]. cbn [orb].
destruct (dt_letter a); [reflexivity | discriminate].
Qed.

Lemma dt_split_shaped v rest :
dt_shaped v = true -> dt_split (v ++ rest) = Some (v, rest).
Proof.
unfold dt_shaped. destruct (dt_split v) as [[v' [| x r]] |] eqn:E;
  try discriminate.
intros H. apply str_eqb_true in H. subst v'.
unfold dt_split in *. destruct v as [| a s1]; [discriminate |].
cbn [app].
destruct (chr_eqb "2" a || chr_eqb "4" a || chr_eqb "8" a).
- destruct s1 as [| b s2]; [discriminate |].
  destruct (dt_letter b) eqn:Eb; [| discriminate].
  inversion E; subst. cbn [app]. now rewrite Eb.
- destruct (chr_eqb "1" a).
  + destruct s1 as [| b s2]; [discriminate |]. cbn [app].
    destruct (chr_eqb "6" b); [| discriminate].
    destruct s2 as [| d s3]; [discriminate |].
    destruct (dt_letter d) eqn:Ed; [| discriminate].
    inversion E; subst. cbn [app]. now rewrite Ed.
  + destruct (dt_letter a) eqn:Ea; [| discriminate].
    inversion E; subst. reflexivity.
Qed.

Lemma imm_split_shaped v tail :
imm_shaped v = true -> head_is is_imm tail = false ->
imm_split (" "%char :: v ++ tail) = Some (v, tail).
Proof.
intros Hv Ht.
assert (Hs : head_is is_space tail = false).
{ destruct tail as [| x tail]; [reflexivity |]. cbn in *.
  destruct (is_space x) eqn:E; [| reflexivity].
  now rewrite (space_is_imm _ E) in Ht. }
unfold imm_split, imm_shaped in *.
destruct v as [| a v']; [discriminate |].
change (takew is_space (" "%char :: (a :: v') ++ tail))
  with (" "%char :: takew is_space ((a :: v') ++ tail)).
change (dropw is_space (" "%char :: (a :: v') ++ tail))
  with (dropw is_space ((a :: v') ++ tail)).
destruct (is_space a) eqn:Ea.
- (* one blank *)
  destruct v' as [| b v'']; [| rewrite andb_false_r in Hv; discriminate].
  cbn [app takew dropw]. rewrite Ea.
  rewrite (takew_head_not _ _ Hs), (dropw_head_not _ _ Hs).
  cbn [List.length Nat.leb last].
  destruct tail as [| x tail]; [reflexivity |].
  cbn [head_is] in Ht. now rewrite Ht.
- cbn [app takew dropw]. rewrite Ea.
  assert (Hi : is_imm a = true /\ forallb is_imm v' = true).
  { destruct v' as [| b v'']; [auto |].
    apply andb_true_iff in Hv. destruct Hv as [Hv1 Hv2].
    apply andb_true_iff in Hv1. now destruct Hv1. }
  destruct Hi as [Hi Hv'].
  rewrite Hi. cbn [List.length Nat.leb takew dropw]. rewrite Hi.
  rewrite (takew_app_all _ _ _ Hv'), (dropw_app_all _ _ _ Hv').
  rewrite (takew_head_not _ _ Ht), (dropw_head_not _ _ Ht).
  now rewrite app_nil_r.
Qed.

Lemma hole_text t b : hole t = Some b -> text t = angle b.
Proof.
destruct t as [| | | | | | | [i |] | |]; cbn [hole text]; try discriminate;
  intros H; injection H as <-; reflexivity.
Qed.

Lemma rend1_lit sub t : hole t = None -> rend1 sub t = text t.
Proof. unfold rend1. now intros ->. Qed.

Lemma pushes_cons sub t r c :
pushes sub (t :: r) c = pushes sub r (push1 sub c t).
Proof. reflexivity. Qed.

Lemma scan_reg1 l name r x d s c :
reg_letter_ok l x = true -> is_digit d = true ->
head_is is_digit s = false ->
scan (TReg l name :: r) (x :: d :: s) c
= scan r s ((gstr "raw_" name, [d]) :: c).
Proof.
intros Hx Hd Hs. cbn [scan]. rewrite Hx, Hd.
destruct s as [| y s]; [reflexivity |].
cbn [head_is] in Hs. now rewrite Hs.
Qed.

Lemma scan_reg2 l name r x d1 d2 s c :
reg_letter_ok l x = true -> is_digit d1 = true -> is_digit d2 = true ->
scan (TReg l name :: r) (x :: d1 :: d2 :: s) c
= scan r s ((gstr "raw_" name, [d1; d2]) :: c).
Proof. intros Hx H1 H2. cbn [scan]. now rewrite Hx, H1, H2. Qed.

Section Canon.

Variable sub : alist.

Lemma rend_head_not_digit r :
rej_digit r = true -> head_is is_digit (rend sub r) = false.
Proof.
destruct r as [| t r]; [reflexivity |].
destruct t; try discriminate; reflexivity.
Qed.

Lemma rend_head_not_space r :
rej_space r || skips_space r = true ->
forallb (tok_shape sub) r = true ->
head_is is_space (rend sub r) = false.
Proof.
destruct r as [| t r]; [reflexivity |].
cbn [forallb]. intros H Hs. apply andb_true_iff in Hs.
destruct Hs as [Ht _]. rewrite rend_cons.
destruct t; try discriminate; try reflexivity.
- cbn in H. rewrite orb_false_r in H. cbn.
  now destruct (is_space c).
- cbn [rej_space skips_space] in H. rewrite orb_false_r in H.
  apply andb_true_iff in H. destruct H as [_ H].
  unfold rend1. cbn [hole tok_shape] in *.
  destruct (assoc name sub) as [[| x ds] |]; try discriminate.
  apply andb_true_iff in Ht. destruct Ht as [Hx _].
  apply chr_eqb_eq in Hx. subst x. cbn [app head_is].
  now destruct (is_space (lower_chr letter)).
- destruct i as [i |]; [| discriminate]. unfold rend1.
  cbn [hole tok_shape] in *.
  destruct (assoc (named "dt" i) sub) as [v |]; [| discriminate].
  destruct (dt_shaped_head v Ht) as (a & r' & -> & Ha). exact Ha.
- unfold rend1. cbn [hole tok_shape] in *.
  destruct (assoc "index" sub) as [[| d ds] |]; try discriminate.
  cbn [digits1] in Ht. apply andb_true_iff in Ht. destruct Ht as [Hd _].
  cbn [app head_is]. now apply digit_not_space.
Qed.

(** [scan] reads the text of [rend] and finds what is bound. *)
Theorem rescan :
forall n ts,
  List.length ts <= n -> wf ts = true ->
  forallb (tok_shape sub) ts = true ->
  forall c0, scan ts (rend sub ts) c0 = Some (pushes sub ts c0).
Proof.
induction n as [| n IH]; intros ts Hl Hwf Hsh c0.
{ destruct ts; [reflexivity | cbn in Hl; lia]. }
destruct ts as [| t r]; [reflexivity |].
cbn [List.length] in Hl.
cbn [forallb] in Hsh. apply andb_true_iff in Hsh.
destruct Hsh as [Ht Hr].
assert (IHr : wf r = true ->
              forall c, scan r (rend sub r) c = Some (pushes sub r c))
  by (intros Hw c; apply IH; [lia | exact Hw | exact Hr]).
rewrite rend_cons, pushes_cons.
destruct t.
- (* a character of the mnemonic *)
  cbn [wf] in Hwf.
  change (rend1 sub (TLit c) ++ rend sub r) with (c :: rend sub r).
  cbn [scan]. rewrite chr_eqb_refl. now apply IHr.
- (* the dot *)
  cbn [wf] in Hwf. apply andb_true_iff in Hwf. destruct Hwf as [Hrj Hw].
  change (rend1 sub TDot ++ rend sub r) with ("."%char :: rend sub r).
  cbn [scan dropw]. change (is_space ".") with false. cbv iota.
  rewrite chr_eqb_refl. change (push1 sub c0 TDot) with c0.
  rewrite dropw_head_not
    by (apply rend_head_not_space; [now rewrite Hrj | exact Hr]).
  now apply IHr.
- (* the opening bracket *)
  cbn [wf] in Hwf. apply andb_true_iff in Hwf. destruct Hwf as [Hrj Hw].
  change (rend1 sub TLbr ++ rend sub r) with ("["%char :: rend sub r).
  cbn [scan dropw]. change (is_space "[") with false. cbv iota.
  rewrite chr_eqb_refl. change (push1 sub c0 TLbr) with c0.
  rewrite dropw_head_not
    by (apply rend_head_not_space; [now rewrite Hrj | exact Hr]).
  now apply IHr.
- (* the closing bracket *)
  cbn [wf] in Hwf. destruct r; [reflexivity | discriminate Hwf].
- (* a blank *)
  cbn [wf] in Hwf. apply andb_true_iff in Hwf. destruct Hwf as [Hrj Hw].
  change (rend1 sub TSpace ++ rend sub r) with (" "%char :: rend sub r).
  cbn [scan]. change (is_space " ") with true. cbv iota.
  change (push1 sub c0 TSpace) with c0.
  rewrite dropw_head_not
    by (apply rend_head_not_space; [exact Hrj | exact Hr]).
  now apply IHr.
- (* the comma *)
  rewrite scan_comma.
  change (rend1 sub TComma ++ rend sub r)
    with (","%char :: rend sub r).
  cbn [dropw]. change (is_space ",") with false. cbv iota.
  rewrite chr_eqb_refl. change (push1 sub c0 TComma) with c0.
  destruct r as [| t2 r2]; [cbn [wf] in Hwf; discriminate |].
  destruct t2; try (cbn [wf] in Hwf; discriminate).
  destruct r2 as [| t3 r3]; [apply IHr; exact Hwf |].
  destruct t3; try (apply IHr; exact Hwf).
  (* the immediate *)
  assert (Hr3 : r3 = [] \/ r3 = [TRbr]).
  { cbn [wf] in Hwf. destruct r3 as [| t4 r4]; [now left |].
    destruct t4; try discriminate.
    destruct r4; [now right | discriminate]. }
  cbn [forallb] in Hr. apply andb_true_iff in Hr. destruct Hr as [_ Hr].
  apply andb_true_iff in Hr. destruct Hr as [Hi Hr3s].
  cbn [tok_shape] in Hi.
  rewrite !rend_cons, !pushes_cons. unfold rend1 at 1 2. cbn [hole text].
  change (push1 sub c0 TSpace) with c0. unfold push1.
  cbn [tname hole payload].
  destruct (assoc "imm" sub) as [v |] eqn:Ea; [| discriminate].
  change (of_string " " ++ v ++ rend sub r3)
    with (" "%char :: v ++ rend sub r3).
  rewrite imm_split_shaped;
    [| exact Hi | destruct Hr3 as [-> | ->]; reflexivity].
  apply IH; [cbn [List.length] in Hl; lia | | exact Hr3s].
  destruct Hr3 as [-> | ->]; reflexivity.
- (* a register *)
  cbn [wf] in Hwf. apply andb_true_iff in Hwf. destruct Hwf as [Hrj Hw].
  unfold rend1, push1. cbn [hole tname payload tok_shape] in *.
  destruct (assoc name sub) as [[| x ds] |]; try discriminate.
  apply andb_true_iff in Ht. destruct Ht as [Hx Hds].
  pose proof (rend_head_not_digit r Hrj) as Hnd.
  assert (Hl' : reg_letter_ok letter x = true)
    by (unfold reg_letter_ok; now rewrite Hx).
  cbn [tl].
  destruct ds as [| d1 [| d2 [| d3 ds]]]; try discriminate;
    cbn [digits12] in Hds; cbn [app].
  + rewrite scan_reg1 by assumption. now apply IHr.
  + apply andb_true_iff in Hds. destruct Hds as [H1 H2].
    rewrite scan_reg2 by assumption. now apply IHr.
- (* a datatype *)
  destruct i as [i |]; [| discriminate]. cbn [wf] in Hwf.
  unfold rend1, push1. cbn [hole tname payload tok_shape scan] in *.
  destruct (assoc (named "dt" i) sub) as [v |]; [| discriminate].
  rewrite (dt_split_shaped _ _ Ht). now apply IHr.
- (* an immediate by itself *)
  discriminate.
- (* an index *)
  cbn [wf] in Hwf. apply andb_true_iff in Hwf. destruct Hwf as [Hrj Hw].
  unfold rend1, push1. cbn [hole tname payload tok_shape scan] in *.
  destruct (assoc "index" sub) as [[| d ds] |]; try discriminate.
  cbn [digits1] in Ht. apply andb_true_iff in Ht. destruct Ht as [Hd Hds].
  cbn [app]. rewrite Hd.
  rewrite (takew_app_all _ _ _ Hds), (dropw_app_all _ _ _ Hds).
  pose proof (rend_head_not_digit r Hrj) as Hnd.
  rewrite (takew_head_not _ _ Hnd), (dropw_head_not _ _ Hnd).
  rewrite app_nil_r. now apply IHr.
Qed.

End Canon.

End Rescan.

(** ** The groups of a match *)

Module Captures.
Import Neon NeonScan NeonRender ScanFacts ScanTokens ScanImm ScanProps
     RenderFacts Rescan.

Lemma group_app a b g :
group (a ++ b) g
= match group a g with Some v => Some v | None => group b g end.
Proof.
induction a as [| [m v] a IH]; [reflexivity |]. cbn [app group].
destruct (String.eqb m g); [reflexivity | exact IH].
Qed.

Lemma inb_app g a b : inb g (a ++ b) = inb g a || inb g b.
Proof. unfold inb. apply existsb_app. Qed.

Lemma inb_cons g h l : inb g (h :: l) = String.eqb g h || inb g l.
Proof. reflexivity. Qed.

Lemma nodupb_app a b :
nodupb (a ++ b) = true ->
nodupb b = true /\ forall g, inb g a = true -> inb g b = false.
Proof.
induction a as [| h a IH]; cbn [app nodupb].
- intros H. split; [exact H | discriminate].
- intros H. apply andb_true_iff in H. destruct H as [Hh Ha].
  destruct (IH Ha) as [Hb Hab]. split; [exact Hb |].
  intros g Hg. rewrite inb_cons in Hg. apply orb_true_iff in Hg.
  destruct Hg as [Hg | Hg]; [| now apply Hab].
  apply String.eqb_eq in Hg. subst g.
  rewrite inb_app in Hh. apply negb_true_iff in Hh.
  now apply orb_false_iff in Hh.
Qed.

Lemma names_of_cons t ts : names_of (t :: ts) = names1 t ++ names_of ts.
Proof. reflexivity. Qed.

(** *** What [scan] puts into the groups *)

Lemma dt_split_self s v r : dt_split s = Some (v, r) -> dt_shaped v = true.
Proof.
unfold dt_shaped, dt_split. destruct s as [| a s1]; [discriminate |].
destruct (chr_eqb "2" a || chr_eqb "4" a || chr_eqb "8" a) eqn:E1.
- destruct s1 as [| b s2]; [discriminate |].
  destruct (dt_letter b) eqn:Eb; [| discriminate].
  intros H. inversion H; subst. cbn [app]. rewrite E1, Eb.
  apply str_eqb_refl.
- destruct (chr_eqb "1" a) eqn:E2.
  + destruct s1 as [| b s2]; [discriminate |].
    destruct (chr_eqb "6" b) eqn:E3; [| discriminate].
    destruct s2 as [| d s3]; [discriminate |].
    destruct (dt_letter d) eqn:Ed; [| discriminate].
    intros H. inversion H; subst. cbn [app]. rewrite E1, E2, E3, Ed.
    apply str_eqb_refl.
  + destruct (dt_letter a) eqn:Ea; [| discriminate].
    intros H. inversion H; subst. cbn [app]. rewrite E1, E2, Ea.
    apply str_eqb_refl.
Qed.

Lemma last_all (p : ascii -> bool) l d :
forallb p l = true -> p d = true -> p (last l d) = true.
Proof.
induction l as [| a l IH]; [auto |]. cbn [forallb]. intros H Hd.
apply andb_true_iff in H. destruct H as [Ha Hl].
destruct l as [| b l]; [exact Ha |]. now apply IH.
Qed.

Lemma imm_split_shape y v r : imm_split y = Some (v, r) -> imm_shaped v = true.
Proof.
unfold imm_split.
assert (Hb : (if 2 <=? List.length (takew is_space y)
              then Some ([last (takew is_space y) " "%char],
                         dropw is_space y)
              else None) = Some (v, r) -> imm_shaped v = true).
{ destruct (2 <=? List.length (takew is_space y)); [| discriminate].
  intros H. inversion H; subst. cbn [imm_shaped].
  apply space_is_imm, last_all; [apply takew_all | reflexivity]. }
destruct (dropw is_space y) as [| a rest] eqn:E; [exact Hb |].
destruct (is_imm a) eqn:Ea; [| exact Hb].
destruct (1 <=? List.length (takew is_space y)); [| discriminate].
intros H. inversion H; subst. cbn [takew]. rewrite Ea.
cbn [imm_shaped]. destruct (takew is_imm rest) as [| b v'] eqn:Ev.
- exact Ea.
- rewrite Ea, (dropw_head _ _ _ _ E). cbn [negb andb].
  rewrite <- Ev. apply takew_all.
Qed.

Lemma caught_skip t ts es :
names1 t = [] -> caught (t :: ts) es = caught ts es.
Proof. cbn [caught]. now intros ->. Qed.

Lemma caught_entry t ts g v es :
inb g (names1 t) = true -> shape_of t v = true -> caught ts es = true ->
caught (t :: ts) ((g, v) :: es) = true.
Proof.
intros Hg Hv He. cbn [caught].
destruct (names1 t) as [| n ns]; [discriminate |].
now rewrite Hg, Hv, He.
Qed.

Lemma rev_entry (e : string * str) es c0 :
rev es ++ e :: c0 = rev (e :: es) ++ c0.
Proof. cbn [rev]. now rewrite <- app_assoc. Qed.

(** The groups of a line read by [scan]: one for each placeholder, in
  the order of the pattern, each of the shape of its placeholder. *)
Theorem scan_caught :
forall n ts, List.length ts <= n ->
forall s c0 caps, scan ts s c0 = Some caps ->
exists es, caps = rev es ++ c0 /\ caught ts es = true.
Proof.
induction n as [| n IH]; intros ts Hl s c0 caps H.
{ destruct ts; [| cbn in Hl; lia]. cbn [scan] in H.
  destruct (end_ok s); [| discriminate]. inversion H; subst.
  now exists []. }
destruct ts as [| t r].
{ cbn [scan] in H. destruct (end_ok s); [| discriminate].
  inversion H; subst. now exists []. }
cbn [List.length] in Hl.
assert (IHr : forall s c, scan r s c = Some caps ->
              exists es, caps = rev es ++ c /\ caught r es = true)
  by (intros s1 c1; apply IH; lia).
assert (Skip : names1 t = [] ->
               (exists s1, scan r s1 c0 = Some caps) ->
               exists es, caps = rev es ++ c0 /\ caught (t :: r) es = true).
{ intros Hn [s1 H1]. destruct (IHr _ _ H1) as (es & -> & He).
  exists es. split; [reflexivity |]. now rewrite caught_skip. }
assert (Entry : forall g v,
           inb g (names1 t) = true -> shape_of t v = true ->
           (exists s1, scan r s1 ((g, v) :: c0) = Some caps) ->
           exists es, caps = rev es ++ c0 /\ caught (t :: r) es = true).
{ intros g v Hg Hv [s1 H1]. destruct (IHr _ _ H1) as (es & -> & He).
  exists ((g, v) :: es). split; [apply rev_entry |].
  now apply caught_entry. }
destruct t.
- (* a character *)
  apply Skip; [reflexivity |]. cbn [scan] in H.
  destruct s as [| x s1]; [discriminate |].
  destruct (chr_eqb c x); [| discriminate]. now exists s1.
- apply Skip; [reflexivity |]. cbn [scan] in H.
  destruct (dropw is_space s) as [| x y]; [discriminate |].
  destruct (chr_eqb "." x); [| discriminate]. eexists; exact H.
- apply Skip; [reflexivity |]. cbn [scan] in H.
  destruct (dropw is_space s) as [| x y]; [discriminate |].
  destruct (chr_eqb "[" x); [| discriminate]. eexists; exact H.
- apply Skip; [reflexivity |]. cbn [scan] in H.
  destruct (dropw is_space s) as [| x y]; [discriminate |].
  destruct (chr_eqb "]" x); [| discriminate]. eexists; exact H.
- apply Skip; [reflexivity |]. cbn [scan] in H.
  destruct s as [| x s1]; [discriminate |].
  destruct (is_space x); [| discriminate]. eexists; exact H.
- (* the comma *)
  rewrite scan_comma in H.
  destruct (dropw is_space s) as [| x y]; [discriminate |].
  destruct (chr_eqb "," x); [| discriminate].
  assert (Plain : scan r y c0 = Some caps ->
                  exists es, caps = rev es ++ c0
                             /\ caught (TComma :: r) es = true)
    by (intros H1; apply Skip; [reflexivity | now exists y]).
  destruct r as [| t2 r2]; [now apply Plain |].
  destruct t2; try (now apply Plain).
  destruct r2 as [| t3 r3]; [now apply Plain |].
  destruct t3; try (now apply Plain).
  destruct (imm_split y) as [[v r4] |] eqn:Ei; [| discriminate].
  assert (H3 : exists es, caps = rev es ++ (("imm"%string, v) :: c0)
                          /\ caught r3 es = true)
    by (apply (IH r3) with (s := r4); [cbn [List.length] in Hl; lia | exact H]).
  destruct H3 as (es & -> & He).
  exists (("imm"%string, v) :: es). split; [apply rev_entry |].
  rewrite caught_skip by reflexivity. rewrite caught_skip by reflexivity.
  apply caught_entry; [reflexivity | | exact He].
  cbn [shape_of]. exact (imm_split_shape _ _ _ Ei).
- (* a register *)
  cbn [scan] in H.
  destruct s as [| x s1]; [discriminate |].
  destruct (reg_letter_ok letter x); [| discriminate].
  destruct s1 as [| d1 r1]; [discriminate |].
  destruct (is_digit d1).
  + assert (F : forall ds, (exists s1, scan r s1 ((gstr "raw_" name, ds) :: c0)
                                       = Some caps) ->
                exists es, caps = rev es ++ c0
                           /\ caught (TReg letter name :: r) es = true).
    { intros ds. apply Entry; [| reflexivity].
      cbn [names1]. rewrite inb_cons, String.eqb_refl. reflexivity. }
    destruct r1 as [| d2 r2]; [apply (F [d1]); eexists; exact H |].
    destruct (is_digit d2); [apply (F [d1; d2]) | apply (F [d1])];
      eexists; exact H.
  + destruct (chr_eqb "<" d1); [| discriminate].
    destruct (takew is_word r1) as [| w0 w]; [discriminate |].
    destruct (dropw is_word r1) as [| g r2]; [discriminate |].
    destruct (chr_eqb ">" g); [| discriminate].
    apply (Entry (gstr "symbol_" name) (w0 :: w)); [| reflexivity |].
    * cbn [names1]. rewrite !inb_cons, String.eqb_refl.
      now rewrite orb_true_r.
    * eexists; exact H.
- (* a datatype *)
  destruct i as [i |]; [| discriminate]. cbn [scan] in H.
  destruct (dt_split s) as [[v r1] |] eqn:Ed; [| discriminate].
  apply (Entry (gstr "datatype" (str_of_nat i)) v).
  + cbn [names1 tname]. rewrite inb_cons, String.eqb_refl. reflexivity.
  + cbn [shape_of]. exact (dt_split_self _ _ _ Ed).
  + eexists; exact H.
- discriminate.
- (* an index *)
  cbn [scan] in H. destruct s as [| d s1]; [discriminate |].
  destruct (is_digit d) eqn:Ed; [| discriminate].
  apply (Entry "index"%string (d :: takew is_digit s1)).
  + reflexivity.
  + cbn [shape_of digits1]. rewrite Ed. apply takew_all.
  + eexists; exact H.
Qed.

(** *** Looking up a group *)

Lemma caught_keeps :
forall ts es c0 g,
  caught ts es = true -> inb g (names_of ts) = false ->
  group (rev es ++ c0) g = group c0 g.
Proof.
induction ts as [| t ts IH]; intros es c0 g He Hg.
- destruct es; [reflexivity | discriminate].
- rewrite names_of_cons, inb_app in Hg. apply orb_false_iff in Hg.
  destruct Hg as [Hg1 Hg2]. cbn [caught] in He.
  destruct (names1 t) as [| n1 ns] eqn:En; [now apply IH |].
  destruct es as [| [m v] es]; [discriminate |].
  apply andb_true_iff in He. destruct He as [He He3].
  apply andb_true_iff in He. destruct He as [He1 He2].
  rewrite <- rev_entry. rewrite (IH es _ g He3 Hg2). cbn [group].
  destruct (String.eqb m g) eqn:E; [| reflexivity].
  apply String.eqb_eq in E. subst m. rewrite Hg1 in He1. discriminate.
Qed.

Lemma caught_binds :
forall ts es c0 t g,
  caught ts es = true -> nodupb (names_of ts) = true ->
  In t ts -> names1 t = [g] ->
  exists v, group (rev es ++ c0) g = Some v /\ shape_of t v = true.
Proof.
induction ts as [| t0 ts IH]; intros es c0 t g He Hn Hin Hg;
  [destruct Hin |].
rewrite names_of_cons in Hn. apply nodupb_app in Hn.
destruct Hn as [Hn Hd]. cbn [caught] in He.
destruct Hin as [-> | Hin].
- rewrite Hg in He. destruct es as [| [m v] es]; [discriminate |].
  apply andb_true_iff in He. destruct He as [He He3].
  apply andb_true_iff in He. destruct He as [He1 He2].
  rewrite inb_cons in He1. cbn [inb existsb] in He1.
  rewrite orb_false_r in He1. apply String.eqb_eq in He1. subst m.
  exists v. split; [| exact He2].
  rewrite <- rev_entry. rewrite (caught_keeps ts es _ g He3).
  + cbn [group]. now rewrite String.eqb_refl.
  + apply Hd. rewrite Hg, inb_cons, String.eqb_refl. reflexivity.
- destruct (names1 t0) as [| n1 ns] eqn:En; [now apply IH |].
  destruct es as [| [m v] es]; [discriminate |].
  apply andb_true_iff in He. destruct He as [He He3].
  rewrite <- rev_entry. now apply IH.
Qed.

(** *** The groups [pushes] lists *)

Lemma push1_none sub c t : names1 t = [] -> push1 sub c t = c.
Proof.
unfold push1. destruct t as [| | | | | | | [i |] | |]; try discriminate;
  reflexivity.
Qed.

Lemma push1_keeps sub c t g :
inb g (names1 t) = false -> group (push1 sub c t) g = group c g.
Proof.
unfold push1. intros Hg.
destruct (tname t) as [n |] eqn:En; [| reflexivity].
destruct (hole t) as [b |]; [| reflexivity].
destruct (assoc b sub) as [v |]; [| reflexivity].
cbn [group]. destruct (String.eqb n g) eqn:E; [| reflexivity].
apply String.eqb_eq in E. subst n.
destruct t as [| | | | | | | [i |] | |]; try discriminate;
  cbn [tname names1] in *; inversion En; subst;
  rewrite inb_cons, String.eqb_refl in Hg; discriminate.
Qed.

Lemma pushes_keeps :
forall sub ts c0 g,
  inb g (names_of ts) = false -> group (pushes sub ts c0) g = group c0 g.
Proof.
induction ts as [| t ts IH]; intros c0 g Hg; [reflexivity |].
rewrite names_of_cons, inb_app in Hg. apply orb_false_iff in Hg.
destruct Hg as [Hg1 Hg2]. rewrite pushes_cons, (IH _ g Hg2).
now apply push1_keeps.
Qed.

Lemma pushes_binds :
forall sub ts c0 t g b v,
  nodupb (names_of ts) = true -> In t ts ->
  tname t = Some g -> hole t = Some b -> assoc b sub = Some v ->
  group (pushes sub ts c0) g = Some (payload t v).
Proof.
induction ts as [| t0 ts IH]; intros c0 t g b v Hn Hin Hg Hb Hv;
  [destruct Hin |].
rewrite names_of_cons in Hn. apply nodupb_app in Hn.
destruct Hn as [Hn Hd]. rewrite pushes_cons.
destruct Hin as [-> | Hin]; [| now apply IH with (b := b)].
rewrite pushes_keeps.
- unfold push1. rewrite Hg, Hb, Hv. cbn [group].
  now rewrite String.eqb_refl.
- apply Hd.
  destruct t as [| | | | | | | [i |] | |]; try discriminate;
    cbn [tname names1] in *; inversion Hg; subst;
    rewrite inb_cons, String.eqb_refl; reflexivity.
Qed.

End Captures.

(** ** What [write] produces *)

Module Emission.
Import Neon NeonScan NeonRender ScanFacts ScanTokens ScanImm ScanProps
     RenderFacts Rescan Captures.

(** *** Lists of names *)

Lemma in_str_In s l : in_str s l = true <-> In s l.
Proof.
unfold in_str. rewrite existsb_exists. split.
- intros (x & Hx & E). apply str_eqb_true in E. now subst.
- intros H. exists s. split; [exact H | apply str_eqb_refl].
Qed.

Lemma assoc_absent b l : ~ In b (map fst l) -> assoc b l = None.
Proof.
induction l as [| [k v] l IH]; [reflexivity |]. cbn [map fst assoc].
intros H. destruct (str_eqb k b) eqn:E.
- apply str_eqb_true in E. subst. exfalso. apply H. now left.
- apply IH. intros H1. apply H. now right.
Qed.

Lemma assoc_nodups b v l :
nodups (map fst l) = true -> In (b, v) l -> assoc b l = Some v.
Proof.
induction l as [| [k w] l IH]; [intros _ [] |]. cbn [map fst nodups assoc].
intros H Hin. apply andb_true_iff in H. destruct H as [Hk Hl].
destruct Hin as [E | Hin].
- inversion E; subst. now rewrite str_eqb_refl.
- destruct (str_eqb k b) eqn:E; [| now apply IH].
  apply str_eqb_true in E. subst k. apply negb_true_iff in Hk.
  assert (Hb : in_str b (map fst l) = true)
    by (apply in_str_In; apply (in_map fst) in Hin; exact Hin).
  rewrite Hb in Hk. discriminate.
Qed.

(** *** Registers given by number *)

Lemma numbered_inv ty arg :
is_flag ty = false -> numbered ty arg = true ->
exists x ds,
  arg = x :: ds /\ digits12 ds = true
  /\ ((ty = GPR /\ x = "x"%char) \/ (ty = Neon /\ x = "v"%char)).
Proof.
destruct ty; try discriminate; intros _ H; cbn [numbered] in H;
  (destruct arg as [| x ds]; [discriminate |]);
  apply andb_true_iff in H; destruct H as [Hx Hd];
  apply chr_eqb_eq in Hx; subst x; eexists; exists ds; auto.
Qed.

Lemma build_numbered c w ty arg :
is_flag ty = false -> numbered ty arg = true ->
build_pattern_replacement (c :: w) ty arg
= Some (lower_chr c :: tl arg).
Proof.
intros Hf Hn.
destruct (numbered_inv _ _ Hf Hn) as (x & ds & -> & Hd & [[-> ->] | [-> ->]]);
  reflexivity.
Qed.

Lemma digit_not_lt a : is_digit a = true -> chr_eqb "<" a = false.
Proof.
intros H. char_fact (fun a => implb (is_digit a) (negb (chr_eqb "<" a))) a.
rewrite H in F. cbn [implb] in F. now destruct (chr_eqb "<" a).
Qed.

Lemma digit_not_backslash a : is_digit a = true -> chr_eqb backslash a = false.
Proof.
intros H.
char_fact (fun a => implb (is_digit a) (negb (chr_eqb backslash a))) a.
rewrite H in F. cbn [implb] in F. now destruct (chr_eqb backslash a).
Qed.

Lemma imm_not_lt a : is_imm a = true -> chr_eqb "<" a = false.
Proof.
intros H. char_fact (fun a => implb (is_imm a) (negb (chr_eqb "<" a))) a.
rewrite H in F. cbn [implb] in F. now destruct (chr_eqb "<" a).
Qed.

Lemma imm_not_backslash a : is_imm a = true -> chr_eqb backslash a = false.
Proof.
intros H.
char_fact (fun a => implb (is_imm a) (negb (chr_eqb backslash a))) a.
rewrite H in F. cbn [implb] in F. now destruct (chr_eqb backslash a).
Qed.

Lemma forallb_imp (A : Type) (p q : A -> bool) l :
(forall a, p a = true -> q a = true) ->
forallb p l = true -> forallb q l = true.
Proof.
intros Hpq. induction l as [| a l IH]; [reflexivity |]. cbn [forallb].
intros H. apply andb_true_iff in H. destruct H as [Ha Hl].
now rewrite (Hpq _ Ha), IH.
Qed.

Lemma forallb_mapped (A B : Type) (f : A -> B) (p : B -> bool) l :
forallb p (map f l) = forallb (fun a => p (f a)) l.
Proof.
induction l as [| a l IH]; [reflexivity |]. cbn [map forallb].
now rewrite IH.
Qed.

Lemma digits12_all ds : digits12 ds = true -> forallb is_digit ds = true.
Proof.
destruct ds as [| d1 [| d2 [| d3 ds]]]; try discriminate;
  cbn [digits12 forallb].
- now intros ->.
- intros H. apply andb_true_iff in H. destruct H as [-> ->]. reflexivity.
Qed.

Lemma digits1_all v : digits1 v = true -> forallb is_digit v = true.
Proof. destruct v; [discriminate | exact (fun H => H)]. Qed.

Lemma digits_no_lt ds : forallb is_digit ds = true -> no_lt ds = true.
Proof.
apply forallb_imp. intros a H. now rewrite digit_not_lt.
Qed.

Lemma digits_no_backslash ds :
forallb is_digit ds = true -> no_backslash ds = true.
Proof.
apply forallb_imp. intros a H. now rewrite digit_not_backslash.
Qed.

(** *** Filling in the registers *)

Section Fill.

Variable ts : list token.
Hypothesis pieces : forallb piece_ok ts = true.

Definition good_op (p : oper) : Prop :=
is_flag (snd (snd p)) = true
\/ (numbered (snd (snd p)) (fst p) = true
    /\ no_gt (fst (snd p)) = true
    /\ no_lt (snd (reg_text p)) = true
    /\ fst (snd p) <> []
    /\ exists t, In t ts /\ hole t = Some (fst (snd p))).

Lemma regsub_flag p l :
is_flag (snd (snd p)) = true -> regsub (p :: l) = regsub l.
Proof. unfold regsub. cbn [filter]. now intros ->. Qed.

Lemma regsub_reg p l :
is_flag (snd (snd p)) = false -> regsub (p :: l) = reg_text p :: regsub l.
Proof. unfold regsub. cbn [filter]. now intros ->. Qed.

Lemma instantiate_all_rend :
forall l sub,
  values_ok sub = true ->
  Forall good_op l ->
  nodups (map fst (regsub l)) = true ->
  (forall s, In s (map fst (regsub l)) -> assoc s sub = None) ->
  instantiate_all l (rend sub ts) = Some (rend (sub ++ regsub l) ts).
Proof.
induction l as [| p l IH]; intros sub Hsub Hg Hn Hfree.
{ cbn. now rewrite app_nil_r. }
inversion Hg as [| p' l' Hp Hl]; subst.
destruct p as [arg [s ty]]. cbn [instantiate_all].
unfold instantiate_pattern. fold (is_flag ty).
destruct (is_flag ty) eqn:Ef.
- rewrite regsub_flag in * by exact Ef. now apply IH.
- rewrite regsub_reg in * by exact Ef.
  destruct Hp as [Hp | (Hnum & Hgt & Hlt & Hs & t & Ht & Hh)];
    [cbn [snd] in Hp; congruence |].
  cbn [fst snd] in *.
  destruct s as [| c w]; [congruence |].
  rewrite (build_numbered c w ty arg Ef Hnum).
  cbn [map nodups] in Hn. apply andb_true_iff in Hn.
  destruct Hn as [Hn1 Hn2].
  unfold reg_text in *. cbn [fst snd hd] in *.
  assert (Hnone : assoc (c :: w) sub = None)
    by (apply Hfree; now left).
  rewrite (replace_rend (c :: w) _ sub ts Hgt pieces Hsub).
  rewrite (rend_changes sub (c :: w) _ ts t pieces Hsub Hlt Ht Hh Hnone).
  rewrite IH.
  + now rewrite <- app_assoc.
  + now apply values_ok_app.
  + exact Hl.
  + exact Hn2.
  + intros s' Hs'. rewrite assoc_app_none by (apply Hfree; now right).
    cbn [assoc]. destruct (str_eqb (c :: w) s') eqn:E; [| reflexivity].
    apply str_eqb_true in E. subst s'.
    apply negb_true_iff in Hn1. apply in_str_In in Hs'. congruence.
Qed.

(** *** Filling in the datatypes *)

Lemma no_gt_named k : no_gt (named "dt" k) = true.
Proof.
unfold named. unfold no_gt. rewrite forallb_app.
apply andb_true_iff. split; [reflexivity |].
generalize (digits1_all _ (str_of_nat_digits k)).
apply forallb_imp. intros a Ha.
char_fact (fun a => implb (is_digit a) (negb (chr_eqb ">" a))) a.
rewrite Ha in F. exact F.
Qed.

Lemma replace_dts_rend :
forall l k sub,
  values_ok sub = true ->
  forallb (fun d => no_lt (upper d)) l = true ->
  replace_dts k l (rend sub ts) = rend (sub ++ dtsub k l) ts.
Proof.
induction l as [| d l IH]; intros k sub Hsub Hl.
{ cbn. now rewrite app_nil_r. }
cbn [forallb] in Hl. apply andb_true_iff in Hl. destruct Hl as [Hd Hl].
cbn [replace_dts dtsub].
rewrite (replace_rend _ _ sub ts (no_gt_named k) pieces Hsub).
rewrite IH; [now rewrite <- app_assoc | now apply values_ok_app | exact Hl].
Qed.

End Fill.

(** *** The shape of a datatype *)

Lemma dt_letter_case a :
dt_letter a = true ->
dt_letter (upper_chr (lower_chr a)) = true
/\ chr_eqb "2" (upper_chr (lower_chr a))
   || chr_eqb "4" (upper_chr (lower_chr a))
   || chr_eqb "8" (upper_chr (lower_chr a)) = false
/\ chr_eqb "1" (upper_chr (lower_chr a)) = false.
Proof.
intros H.
char_fact (fun a =>
             implb (dt_letter a)
                   (dt_letter (upper_chr (lower_chr a))
                    && negb (chr_eqb "2" (upper_chr (lower_chr a))
                             || chr_eqb "4" (upper_chr (lower_chr a))
                             || chr_eqb "8" (upper_chr (lower_chr a)))
                    && negb (chr_eqb "1" (upper_chr (lower_chr a))))) a.
rewrite H in F. cbn [implb] in F.
apply andb_true_iff in F. destruct F as [F F3].
apply andb_true_iff in F. destruct F as [F1 F2].
apply negb_true_iff in F2, F3. auto.
Qed.

Lemma digit248 a :
chr_eqb "2" a || chr_eqb "4" a || chr_eqb "8" a = true ->
upper_chr (lower_chr a) = a.
Proof.
intros H. apply orb_true_iff in H. destruct H as [H | H];
  [apply orb_true_iff in H; destruct H as [H | H] |];
  apply chr_eqb_eq in H; subst a; reflexivity.
Qed.

Lemma dt_shaped_upper v : dt_shaped v = true -> dt_shaped (upper (lower v)) = true.
Proof.
unfold dt_shaped. destruct (dt_split v) as [[v' [| x r]] |] eqn:E;
  try discriminate.
intros H. apply str_eqb_true in H. subst v'.
unfold dt_split in E. destruct v as [| a s1]; [discriminate |].
destruct (chr_eqb "2" a || chr_eqb "4" a || chr_eqb "8" a) eqn:E1.
- destruct s1 as [| b s2]; [discriminate |].
  destruct (dt_letter b) eqn:Eb; [| discriminate].
  inversion E; subst. cbn [upper lower map].
  rewrite (digit248 _ E1). unfold dt_split. rewrite E1.
  destruct (dt_letter_case _ Eb) as (-> & _). apply str_eqb_refl.
- destruct (chr_eqb "1" a) eqn:E2.
  + destruct s1 as [| b s2]; [discriminate |].
    destruct (chr_eqb "6" b) eqn:E3; [| discriminate].
    destruct s2 as [| d s3]; [discriminate |].
    destruct (dt_letter d) eqn:Ed; [| discriminate].
    inversion E; subst. apply chr_eqb_eq in E2, E3. subst a b.
    cbn [upper lower map].
    change (upper_chr (lower_chr "1")) with "1"%char.
    change (upper_chr (lower_chr "6")) with "6"%char.
    unfold dt_split.
    change (chr_eqb "2" "1" || chr_eqb "4" "1" || chr_eqb "8" "1")
      with false.
    change (chr_eqb "1" "1") with true. change (chr_eqb "6" "6") with true.
    cbv iota.
    destruct (dt_letter_case _ Ed) as (-> & _). apply str_eqb_refl.
  + destruct (dt_letter a) eqn:Ea; [| discriminate].
    inversion E; subst. cbn [upper lower map]. unfold dt_split.
    destruct (dt_letter_case _ Ea) as (-> & -> & ->). apply str_eqb_refl.
Qed.

Lemma dt_shaped_chars v :
dt_shaped v = true ->
forallb (fun a => is_digit a || dt_letter a) v = true.
Proof.
unfold dt_shaped. destruct (dt_split v) as [[v' [| x r]] |] eqn:E;
  try discriminate.
intros H. apply str_eqb_true in H. subst v'.
unfold dt_split in E. destruct v as [| a s1]; [discriminate |].
destruct (chr_eqb "2" a || chr_eqb "4" a || chr_eqb "8" a) eqn:E1.
- destruct s1 as [| b s2]; [discriminate |].
  destruct (dt_letter b) eqn:Eb; [| discriminate].
  inversion E; subst. cbn [forallb]. rewrite Eb, orb_true_r.
  assert (Ha : is_digit a = true).
  { apply orb_true_iff in E1. destruct E1 as [H | H];
      [apply orb_true_iff in H; destruct H as [H | H] |];
      apply chr_eqb_eq in H; subst a; reflexivity. }
  now rewrite Ha.
- destruct (chr_eqb "1" a) eqn:E2.
  + destruct s1 as [| b s2]; [discriminate |].
    destruct (chr_eqb "6" b) eqn:E3; [| discriminate].
    destruct s2 as [| d s3]; [discriminate |].
    destruct (dt_letter d) eqn:Ed; [| discriminate].
    inversion E; subst. apply chr_eqb_eq in E2, E3. subst a b.
    cbn [forallb]. rewrite Ed, orb_true_r. reflexivity.
  + destruct (dt_letter a) eqn:Ea; [| discriminate].
    inversion E; subst. cbn [forallb]. now rewrite Ea, orb_true_r.
Qed.

Lemma dt_char_facts a :
is_digit a || dt_letter a = true ->
chr_eqb "<" (upper_chr (lower_chr a)) = false
/\ chr_eqb backslash (upper_chr (lower_chr a)) = false.
Proof.
intros H.
char_fact (fun a =>
             implb (is_digit a || dt_letter a)
                   (negb (chr_eqb "<" (upper_chr (lower_chr a)))
                    && negb (chr_eqb backslash (upper_chr (lower_chr a)))))
          a.
rewrite H in F. cbn [implb] in F.
apply andb_true_iff in F. destruct F as [F1 F2].
apply negb_true_iff in F1, F2. auto.
Qed.

Lemma lower_upper_lower_chr a :
lower_chr (upper_chr (lower_chr a)) = lower_chr a.
Proof.
char_fact (fun a => chr_eqb (lower_chr (upper_chr (lower_chr a)))
                            (lower_chr a)) a.
now apply chr_eqb_eq.
Qed.

Lemma lower_upper_lower v : lower (upper (lower v)) = lower v.
Proof.
unfold lower, upper. rewrite !map_map. apply map_ext.
intros a. apply lower_upper_lower_chr.
Qed.

Lemma dt_value_no_lt v :
dt_shaped v = true -> no_lt (upper (lower v)) = true.
Proof.
intros H. apply dt_shaped_chars in H. unfold no_lt, upper, lower.
rewrite map_map. rewrite forallb_mapped. revert H. apply forallb_imp.
intros a Ha. destruct (dt_char_facts _ Ha) as [-> _]. reflexivity.
Qed.

Lemma dt_value_no_backslash v :
dt_shaped v = true -> no_backslash (upper (lower v)) = true.
Proof.
intros H. apply dt_shaped_chars in H. unfold no_backslash, upper, lower.
rewrite map_map. rewrite forallb_mapped. revert H. apply forallb_imp.
intros a Ha. destruct (dt_char_facts _ Ha) as [_ ->]. reflexivity.
Qed.

Lemma imm_shaped_all v : imm_shaped v = true -> forallb is_imm v = true.
Proof.
destruct v as [| a [| b v]]; [discriminate | |]; cbn [imm_shaped forallb].
- now intros ->.
- intros H. apply andb_true_iff in H. destruct H as [H H2].
  apply andb_true_iff in H. destruct H as [H1 _].
  rewrite H1. exact H2.
Qed.

End Emission.

(** ** Parsing what [write] produces *)

Module RoundTrip.
Import Neon NeonScan NeonRender ScanFacts ScanTokens ScanImm ScanProps
     RenderFacts Rescan Captures Emission.

(** The datatype [parse] makes of the suffixes [vs] of a line. *)
Definition dt_read (vs : list str) : option dtval :=
match vs with
| [] => None
| _ => Some (DtList (map lower vs))
end.

(** The groups of the datatypes hold the suffixes [vs]. *)
Definition dt_view (c : caps) (vs : list str) : Prop :=
group c "datatype" = None
/\ group c (dtg 0) = nth_error vs 0
/\ group c (dtg 1) = nth_error vs 1
/\ group c (dtg 2) = nth_error vs 2
/\ List.length vs <= 3.

Lemma read_datatype_view c vs :
dt_view c vs -> read_datatype c None = Some (dt_read vs).
Proof.
intros (H & H0 & H1 & H2 & Hl). unfold read_datatype. rewrite H.
change (group c "datatype0") with (group c (dtg 0)).
change (group c "datatype1") with (group c (dtg 1)).
change (group c "datatype2") with (group c (dtg 2)).
rewrite H0, H1, H2.
destruct vs as [| v0 [| v1 [| v2 [| v3 vs]]]]; try reflexivity.
cbn [List.length] in Hl. lia.
Qed.

(** The object [parse] returns, by what it reads in the groups. *)
Definition made (self : Instruction) (dt : option dtval) (xi : option nat)
         (mi : option str) (ai ao aio : list str) : Instruction :=
let s0 := set_args_out [] (set_args_in_out [] (set_args_in [] self)) in
let s1 := set_datatype dt s0 in
let s2 := match xi with Some n => set_index (Some n) s1 | None => s1 end in
let s3 := match mi with Some v => set_immediate (Some v) s2 | None => s2 end in
set_args_in_out aio (set_args_out ao (set_args_in ai s3)).

Section Parse.

Variables (self : Instruction) (ptn : str) (ts : list token).
Hypothesis Hptn : pattern self = Some ptn.
Hypothesis Htok : tokens_of ptn = Some ts.
Hypothesis Hwf : wf ts = true.
Hypothesis Hrej : rej_space ts = true.
Hypothesis Hdt : datatype self = None.

Lemma parse_scan src :
AArch64Instruction_parse self src
= match scan ts (dropw is_space src) [] with
  | None => ParsingException
  | Some c =>
      match read_datatype c None,
            read_plain c (pattern_inputs self),
            read_regs c (pattern_outputs self),
            read_plain c (pattern_in_outs self) with
      | Some dt, Some ai, Some ao, Some aio =>
          Ok (made self dt (option_map int_of_digits (group c "index"))
                   (group c "imm") ai ao aio)
      | _, _, _, _ => Error
      end
  end.
Proof.
unfold AArch64Instruction_parse. rewrite Hptn.
destruct (unfold_pattern ptn) as [re |] eqn:Eu;
  [| unfold unfold_pattern in Eu; rewrite Htok in Eu; discriminate].
rewrite (match_by_scan ptn ts re src Htok Hwf Hrej Eu).
destruct (scan ts (dropw is_space src) []) as [c |]; [| reflexivity].
cbn [datatype set_args_out set_args_in_out set_args_in].
rewrite Hdt.
destruct (read_datatype c None) as [dt |]; [| reflexivity].
unfold made.
destruct (group c "index") as [xi |], (group c "imm") as [mi |];
  cbn [option_map pattern_inputs pattern_outputs pattern_in_outs
       set_args_out set_args_in_out set_args_in set_datatype set_index
       set_immediate];
  destruct (read_plain c (pattern_inputs self)) as [ai |];
  try reflexivity;
  destruct (read_regs c (pattern_outputs self)) as [ao |];
  try reflexivity;
  destruct (read_plain c (pattern_in_outs self)) as [aio |];
  reflexivity.
Qed.

End Parse.

(** *** Reading the registers again *)

Lemma digit_is_digit_py a : is_digit a = true -> is_digit_py a = true.
Proof. unfold is_digit_py. now intros ->. Qed.

Lemma to_reg_numbered ty arg :
is_flag ty = false -> numbered ty arg = true -> to_reg ty (tl arg) = arg.
Proof.
intros Hf Hn.
destruct (numbered_inv _ _ Hf Hn) as (x & ds & -> & Hd & Hx).
assert (Hi : isdigit ds = true).
{ unfold isdigit. destruct ds as [| d ds]; [discriminate |].
  generalize (digits12_all _ Hd). apply forallb_imp.
  exact digit_is_digit_py. }
unfold to_reg. cbn [tl]. rewrite Hi.
destruct Hx as [[-> ->] | [-> ->]]; reflexivity.
Qed.

Lemma read_plain_length c pl :
forall args, read_plain c pl = Some args ->
             List.length args = List.length pl.
Proof.
induction pl as [| [s ty] pl IH]; intros args H.
- inversion H. reflexivity.
- cbn [read_plain] in H.
  destruct (option_map (to_reg ty) (res_reg c s)); [| discriminate].
  destruct (read_plain c pl) as [r |]; [| discriminate].
  inversion H; subst. cbn [List.length]. now rewrite (IH r).
Qed.

Lemma read_regs_length c pl :
forall args, read_regs c pl = Some args ->
             List.length args = List.length pl.
Proof.
induction pl as [| [s ty] pl IH]; intros args H.
- inversion H. reflexivity.
- cbn [read_regs] in H.
  destruct (if RegisterType_eqb ty Flags then Some ("flags" : str)
            else option_map (to_reg ty) (res_reg c s)); [| discriminate].
  destruct (read_regs c pl) as [r |]; [| discriminate].
  inversion H; subst. cbn [List.length]. now rewrite (IH r).
Qed.

Definition reads_numbered (c : caps) (p : oper) : Prop :=
is_flag (snd (snd p)) = false ->
numbered (snd (snd p)) (fst p) = true
/\ group c (gstr "raw_" (fst (snd p))) = Some (tl (fst p)).

Lemma read_plain_again c pl :
forall args,
  List.length args = List.length pl ->
  forallb (fun p => negb (is_flag (snd p))) pl = true ->
  Forall (reads_numbered c) (combine args pl) ->
  read_plain c pl = Some args.
Proof.
induction pl as [| [s ty] pl IH]; intros args Hl Hf Hr.
- destruct args; [reflexivity | discriminate].
- destruct args as [| a args]; [discriminate |].
  cbn [combine] in Hr. inversion Hr as [| p l Hp Hr']; subst.
  cbn [forallb snd] in Hf. apply andb_true_iff in Hf.
  destruct Hf as [Hf1 Hf2]. apply negb_true_iff in Hf1.
  destruct (Hp Hf1) as [Hn Hg]. cbn [fst snd] in *.
  cbn [read_plain]. unfold res_reg. rewrite Hg. cbn [option_map].
  rewrite (to_reg_numbered _ _ Hf1 Hn).
  rewrite (IH args); [reflexivity | | exact Hf2 | exact Hr'].
  cbn [List.length] in Hl. lia.
Qed.

Lemma read_regs_again c1 c pl :
forall args,
  read_regs c1 pl = Some args ->
  Forall (reads_numbered c) (combine args pl) ->
  read_regs c pl = Some args.
Proof.
induction pl as [| [s ty] pl IH]; intros args H1 Hr.
- exact H1.
- cbn [read_regs] in *. fold (is_flag ty) in *.
  destruct (read_regs c1 pl) as [r |];
    [| destruct (if is_flag ty then Some ("flags" : str)
                 else option_map (to_reg ty) (res_reg c1 s));
       discriminate].
  destruct (is_flag ty) eqn:Ef.
  + inversion H1; subst. cbn [combine] in Hr.
    inversion Hr as [| p l Hp Hr']; subst.
    now rewrite (IH r eq_refl Hr').
  + destruct (option_map (to_reg ty) (res_reg c1 s)) as [a |];
      [| discriminate].
    inversion H1; subst. cbn [combine] in Hr.
    inversion Hr as [| p l Hp Hr']; subst.
    destruct (Hp Ef) as [Hn Hg]. cbn [fst snd] in *.
    unfold res_reg. rewrite Hg. cbn [option_map].
    rewrite (to_reg_numbered _ _ Ef Hn).
    now rewrite (IH r eq_refl Hr').
Qed.

(** *** The text of [write] *)

Definition sub_w (l : list oper) (m : option str) (dtv : option dtval)
         (x : option nat) : alist :=
regsub l
++ match m with Some v => [("imm" : str, v)] | None => [] end
++ match dtv with
   | Some (DtList d) => dtsub 0 d
   | Some (DtStr d) => [("dt" : str, upper d)]
   | None => []
   end
++ match x with Some n => [("index" : str, str_of_nat n)] | None => [] end.

Lemma values_ok_cat a b :
values_ok a = true -> values_ok b = true -> values_ok (a ++ b) = true.
Proof. unfold values_ok. rewrite forallb_app. now intros -> ->. Qed.

Lemma values_ok_regsub ts l :
Forall (good_op ts) l -> values_ok (regsub l) = true.
Proof.
induction 1 as [| p l Hp Hl IH]; [reflexivity |].
destruct (is_flag (snd (snd p))) eqn:Ef.
- now rewrite regsub_flag.
- rewrite regsub_reg by exact Ef.
  destruct Hp as [Hp | (_ & _ & Hlt & _)]; [congruence |].
  unfold values_ok in *. cbn [forallb]. now rewrite Hlt, IH.
Qed.

Lemma values_ok_dtsub l :
forall k, forallb (fun d => no_lt (upper d)) l = true ->
          values_ok (dtsub k l) = true.
Proof.
induction l as [| d l IH]; intros k H; [reflexivity |].
cbn [forallb] in H. apply andb_true_iff in H. destruct H as [Hd Hl].
unfold values_ok in *. cbn [dtsub forallb snd]. rewrite Hd.
now apply IH.
Qed.

Section Write.

Variables (ts : list token) (inst : Instruction).
Hypothesis pieces : forallb piece_ok ts = true.
Hypothesis Hptn : pattern inst = Some (rend [] ts).
Hypothesis Hne : operands inst <> [].
Hypothesis Hgood : Forall (good_op ts) (operands inst).
Hypothesis Hnd : nodups (map fst (regsub (operands inst))) = true.
Hypothesis Himm : forall v, immediate inst = Some v -> no_lt v = true.
Hypothesis Hdts :
forall d, datatype inst = Some (DtList d) ->
          forallb (fun d => no_lt (upper d)) d = true.
Hypothesis Hdstr : forall d, datatype inst <> Some (DtStr d).
Hypothesis Hplain :
no_backslash
  (rend (sub_w (operands inst) (immediate inst) (datatype inst)
               (index inst)) ts) = true.

Lemma write_rend :
AArch64Instruction_write inst
= Some (rend (sub_w (operands inst) (immediate inst) (datatype inst)
                    (index inst)) ts).
Proof.
unfold AArch64Instruction_write. rewrite Hptn.
change (combine (args_in inst) (pattern_inputs inst)
        ++ combine (args_out inst) (pattern_outputs inst)
        ++ combine (args_in_out inst) (pattern_in_outs inst))
  with (operands inst).
destruct (operands inst) as [| p0 l0] eqn:El; [congruence |].
rewrite <- El in *. clear El p0 l0.
rewrite (instantiate_all_rend ts pieces (operands inst) [] eq_refl
                              Hgood Hnd (fun _ _ => eq_refl)).
cbn [app].
pose proof (values_ok_regsub _ _ Hgood) as V0.
unfold sub_w in *.
set (s0 := regsub (operands inst)) in *.
(* the immediate *)
set (mi := match immediate inst with
           | Some v => [("imm" : str, v)]
           | None => []
           end) in *.
assert (E1 : match immediate inst with
             | Some v => replace "<imm>" v (rend s0 ts)
             | None => rend s0 ts
             end = rend (s0 ++ mi) ts).
{ subst mi. destruct (immediate inst) as [v |];
    [| now rewrite app_nil_r].
  exact (replace_rend "imm" v s0 ts eq_refl pieces V0). }
assert (V1 : values_ok (s0 ++ mi) = true).
{ apply values_ok_cat; [exact V0 |]. subst mi.
  destruct (immediate inst) as [v |] eqn:Ev; [| reflexivity].
  unfold values_ok. cbn [forallb snd]. now rewrite (Himm v eq_refl). }
rewrite E1. clear E1.
(* the datatypes *)
set (md := match datatype inst with
           | Some (DtList d) => dtsub 0 d
           | Some (DtStr d) => [("dt" : str, upper d)]
           | None => []
           end) in *.
assert (E2 : match datatype inst with
             | Some (DtList d) => replace_dts 0 d (rend (s0 ++ mi) ts)
             | Some (DtStr d) =>
                 replace "<dt>" (upper d) (rend (s0 ++ mi) ts)
             | None => rend (s0 ++ mi) ts
             end = rend ((s0 ++ mi) ++ md) ts).
{ subst md. destruct (datatype inst) as [[d | d] |] eqn:Ed.
  - exfalso. exact (Hdstr d eq_refl).
  - apply (replace_dts_rend ts pieces d 0 _ V1). now apply Hdts.
  - now rewrite app_nil_r. }
assert (V2 : values_ok ((s0 ++ mi) ++ md) = true).
{ apply values_ok_cat; [exact V1 |]. subst md.
  destruct (datatype inst) as [[d | d] |] eqn:Ed.
  - exfalso. exact (Hdstr d eq_refl).
  - apply values_ok_dtsub. now apply Hdts.
  - reflexivity. }
rewrite E2. clear E2.
(* the index *)
set (mx := match index inst with
           | Some n => [("index" : str, str_of_nat n)]
           | None => []
           end) in *.
assert (E3 : match index inst with
             | Some n =>
                 replace "<index>" (str_of_nat n)
                         (rend ((s0 ++ mi) ++ md) ts)
             | None => rend ((s0 ++ mi) ++ md) ts
             end = rend (((s0 ++ mi) ++ md) ++ mx) ts).
{ subst mx. destruct (index inst) as [n |]; [| now rewrite app_nil_r].
  exact (replace_rend "index" _ _ ts eq_refl pieces V2). }
rewrite E3. clear E3.
rewrite <- !app_assoc.
rewrite (replace_absent backslash ["["%char] "[" _ Hplain).
rewrite (replace_absent backslash ["]"%char] "]" _ Hplain).
reflexivity.
Qed.

End Write.

(** *** Lists of operands *)

Lemma map_snd_combine (A B : Type) (a : list A) :
forall b : list B, List.length a = List.length b ->
                   map snd (combine a b) = b.
Proof.
induction a as [| x a IH]; intros [| y b] H; try discriminate;
  [reflexivity |].
cbn [combine map snd]. rewrite IH; [reflexivity |].
cbn [List.length] in H. lia.
Qed.

Lemma regsub_keys l : map fst (regsub l) = op_names (map snd l).
Proof.
unfold regsub, op_names. induction l as [| p l IH]; [reflexivity |].
cbn [filter map]. destruct (negb (is_flag (snd (snd p))));
  cbn [map fst reg_text]; now rewrite IH.
Qed.

Lemma regsub_in l p :
In p l -> is_flag (snd (snd p)) = false -> In (reg_text p) (regsub l).
Proof.
intros Hin Hf. unfold regsub. apply in_map. apply filter_In.
split; [exact Hin | now rewrite Hf].
Qed.

Lemma op_names_in pl s :
In s (op_names pl) -> exists ty, In (s, ty) pl /\ is_flag ty = false.
Proof.
unfold op_names. intros H. apply in_map_iff in H.
destruct H as ([s' ty] & E & H). cbn [fst] in E. subst s'.
apply filter_In in H. destruct H as [H Hf]. cbn [snd] in Hf.
exists ty. split; [exact H | now apply negb_true_iff].
Qed.

Lemma named_dt_inj a b : named "dt" a = named "dt" b -> a = b.
Proof.
unfold named. intros H. apply app_inv_head in H.
rewrite <- (int_of_str_of_nat a), <- (int_of_str_of_nat b). now rewrite H.
Qed.

Lemma named_dt_starts k : startswith "dt" (named "dt" k) = true.
Proof. reflexivity. Qed.

Lemma assoc_dtsub_other b :
startswith "dt" b = false ->
forall ds k rest, assoc b (dtsub k ds ++ rest) = assoc b rest.
Proof.
intros Hb. induction ds as [| d ds IH]; intros k rest; [reflexivity |].
cbn [dtsub app assoc]. destruct (str_eqb (named "dt" k) b) eqn:E.
- apply str_eqb_true in E. subst b. rewrite named_dt_starts in Hb.
  discriminate.
- apply IH.
Qed.

Lemma assoc_dtsub rest :
forall ds k i,
  assoc (named "dt" (k + i)) (dtsub k ds ++ rest)
  = match nth_error ds i with
    | Some d => Some (upper d)
    | None => assoc (named "dt" (k + i)) rest
    end.
Proof.
induction ds as [| d ds IH]; intros k i.
- destruct i; reflexivity.
- cbn [dtsub app assoc]. destruct i as [| i].
  + rewrite Nat.add_0_r, str_eqb_refl. reflexivity.
  + destruct (str_eqb (named "dt" k) (named "dt" (k + S i))) eqn:E.
    * apply str_eqb_true in E. apply named_dt_inj in E. lia.
    * cbn [nth_error]. replace (k + S i) with (S k + i) by lia.
      apply IH.
Qed.

Lemma dt_ids_in ts i : In i (dt_ids ts) -> In (TDt (Some i)) ts.
Proof.
unfold dt_ids. intros H. apply in_flat_map in H.
destruct H as (t & Ht & Hi).
destruct t as [| | | | | | | [j |] | |]; try destruct Hi.
- now subst.
- destruct H.
Qed.

Lemma in_dt_ids ts i : In (TDt (Some i)) ts -> In i (dt_ids ts).
Proof.
intros H. unfold dt_ids. apply in_flat_map.
exists (TDt (Some i)). split; [exact H | now left].
Qed.

Lemma dt_ids_cases (l : list nat) :
match l with
| [] | [0] | [0; 1] | [0; 1; 2] => true
| _ => false
end = true ->
exists n, n <= 3 /\ l = seq 0 n.
Proof.
destruct l as [| a l]; [exists 0; split; [lia | reflexivity] |].
destruct a; [| discriminate].
destruct l as [| b l]; [exists 1; split; [lia | reflexivity] |].
destruct b as [| [| b]]; try discriminate.
destruct l as [| c l]; [exists 2; split; [lia | reflexivity] |].
destruct c as [| [| [| c]]]; try discriminate.
destruct l; [exists 3; split; [lia | reflexivity] | discriminate].
Qed.

Lemma pattern_ok_inv ts pin pout pio :
pattern_ok ts pin pout pio = true ->
forallb piece_ok ts = true /\ wf ts = true /\ rej_space ts = true
/\ nodupb (names_of ts) = true
/\ nodups (op_names (pin ++ pout ++ pio)) = true
/\ forallb (tok_ok (op_names (pin ++ pout ++ pio))) ts = true
/\ forallb (op_ok ts) (pin ++ pout ++ pio) = true
/\ forallb (fun p => negb (is_flag (snd p))) (pin ++ pio) = true
/\ pin ++ pout ++ pio <> []
/\ dt_ok ts = true
/\ implb (inb "imm" (names_of ts)) (existsb is_TImm ts) = true
/\ implb (inb "index" (names_of ts)) (existsb is_TIndex ts) = true.
Proof.
unfold pattern_ok. intros H.
repeat (apply andb_true_iff in H; let H' := fresh "P" in
        destruct H as [H H']).
repeat split; try assumption.
intros E. rewrite E in *. discriminate.
Qed.

Lemma made_fields self dt xi mi ai ao aio :
index self = None -> immediate self = None ->
pattern (made self dt xi mi ai ao aio) = pattern self
/\ datatype (made self dt xi mi ai ao aio) = dt
/\ index (made self dt xi mi ai ao aio) = xi
/\ immediate (made self dt xi mi ai ao aio) = mi
/\ operands (made self dt xi mi ai ao aio)
   = combine ai (pattern_inputs self)
     ++ combine ao (pattern_outputs self)
     ++ combine aio (pattern_in_outs self).
Proof.
intros Hx Hm. unfold made, operands.
destruct xi, mi; cbn; rewrite ?Hx, ?Hm; repeat split; reflexivity.
Qed.

End RoundTrip.

(** ** [write], then [parse] *)

Module Inverse.
Import Neon NeonScan NeonRender ScanFacts ScanTokens ScanImm ScanProps
     RenderFacts Rescan Captures Emission RoundTrip.

Lemma existsb_TImm ts : existsb is_TImm ts = true -> In TImm ts.
Proof.
intros H. apply existsb_exists in H. destruct H as (t & Ht & E).
destruct t; try discriminate. exact Ht.
Qed.

Lemma existsb_TIndex ts : existsb is_TIndex ts = true -> In TIndex ts.
Proof.
intros H. apply existsb_exists in H. destruct H as (t & Ht & E).
destruct t; try discriminate. exact Ht.
Qed.

Lemma implb_false a b : implb a b = true -> b = false -> a = false.
Proof. intros H ->. now destruct a. Qed.

Lemma rend_no_backslash sub ts :
(forall t, In t ts -> no_backslash (rend1 sub t) = true) ->
no_backslash (rend sub ts) = true.
Proof.
induction ts as [| t ts IH]; intros H; [reflexivity |].
rewrite rend_cons. unfold no_backslash in *. rewrite forallb_app.
rewrite (H t (or_introl eq_refl)). apply IH.
intros t' Ht'. apply H. now right.
Qed.

Lemma dt_letter_plain a :
is_digit a || dt_letter a = true -> chr_eqb backslash a = false.
Proof.
intros H.
char_fact (fun a => implb (is_digit a || dt_letter a)
                          (negb (chr_eqb backslash a))) a.
rewrite H in F. cbn [implb] in F. now apply negb_true_iff.
Qed.

Lemma shaped_no_backslash sub names t :
tok_shape sub t = true -> tok_ok names t = true ->
no_backslash (rend1 sub t) = true.
Proof.
intros Hs Hk. unfold rend1.
destruct t as [a | | | | | | l name | [i |] | |];
  cbn [hole text tok_shape tok_ok] in *; try reflexivity;
  try discriminate.
- unfold no_backslash. cbn [forallb]. now rewrite Hk.
- destruct (assoc name sub) as [[| x ds] |]; try discriminate.
  apply andb_true_iff in Hs. destruct Hs as [Hx Hd].
  apply chr_eqb_eq in Hx. subst x.
  apply andb_true_iff in Hk. destruct Hk as [Hk _].
  apply andb_true_iff in Hk. destruct Hk as [_ Hk].
  unfold no_backslash. cbn [forallb]. rewrite Hk. cbn [andb].
  apply digits_no_backslash, digits12_all, Hd.
- destruct (assoc (named "dt" i) sub) as [v |]; [| discriminate].
  generalize (dt_shaped_chars _ Hs). apply forallb_imp.
  intros a Ha. now rewrite dt_letter_plain.
- destruct (assoc "imm" sub) as [v |]; [| discriminate].
  generalize (imm_shaped_all _ Hs). apply forallb_imp.
  intros a Ha. now rewrite imm_not_backslash.
- destruct (assoc "index" sub) as [v |]; [| discriminate].
  apply digits_no_backslash, digits1_all, Hs.
Qed.

Lemma dt_absent ts i :
dt_ok ts = true -> i < 3 -> ~ In i (dt_ids ts) ->
inb (dtg i) (names_of ts) = false.
Proof.
unfold dt_ok. intros H Hi Hn.
apply andb_true_iff in H. destruct H as [_ H].
rewrite forallb_forall in H.
assert (Hin : In i [0; 1; 2]) by (cbn [In]; lia).
apply (implb_false _ _ (H i Hin)).
destruct (existsb (Nat.eqb i) (dt_ids ts)) eqn:E; [| reflexivity].
apply existsb_exists in E. destruct E as (x & Hx & E).
apply Nat.eqb_eq in E. now subst.
Qed.

Lemma dt_unnamed ts : dt_ok ts = true -> inb "datatype" (names_of ts) = false.
Proof.
unfold dt_ok. intros H.
apply andb_true_iff in H. destruct H as [H _].
apply andb_true_iff in H. destruct H as [_ H].
now apply negb_true_iff.
Qed.

Lemma dt_counted ts :
dt_ok ts = true -> exists n, n <= 3 /\ dt_ids ts = seq 0 n.
Proof.
unfold dt_ok. intros H.
apply andb_true_iff in H. destruct H as [H _].
apply andb_true_iff in H. destruct H as [H _].
now apply dt_ids_cases.
Qed.

(** The datatypes of the line that [scan] has read. *)
Lemma first_dts ts es :
caught ts es = true -> nodupb (names_of ts) = true -> dt_ok ts = true ->
exists vs,
  dt_view (rev es ++ []) vs /\ forallb dt_shaped vs = true
  /\ dt_ids ts = seq 0 (List.length vs).
Proof.
intros He Hn Hd.
destruct (dt_counted _ Hd) as (n & Hn3 & Hids).
assert (B : forall i, In i (seq 0 n) ->
                      exists v, group (rev es ++ []) (dtg i) = Some v
                                /\ dt_shaped v = true).
{ intros i Hi. rewrite <- Hids in Hi. apply dt_ids_in in Hi.
  exact (caught_binds ts es [] (TDt (Some i)) (dtg i) He Hn Hi eq_refl). }
assert (A : forall i, i < 3 -> ~ In i (seq 0 n) ->
                      group (rev es ++ []) (dtg i) = None).
{ intros i Hi Hni. rewrite <- Hids in Hni.
  now rewrite (caught_keeps ts es [] _ He (dt_absent _ _ Hd Hi Hni)). }
assert (U : group (rev es ++ []) "datatype" = None)
  by (now rewrite (caught_keeps ts es [] _ He (dt_unnamed _ Hd))).
assert (N : forall i, ~ In i (seq 0 n) <-> n <= i)
  by (intros i; rewrite in_seq; lia).
assert (Y : forall i, In i (seq 0 n) <-> i < n)
  by (intros i; rewrite in_seq; lia).
destruct n as [| [| [| [| n]]]]; [| | | | lia].
- exists []. repeat split; try exact Hids; try exact U;
    try (apply A; [lia | apply N; lia]). cbn; lia.
- destruct (B 0) as (v0 & E0 & S0); [apply Y; lia |].
  exists [v0]. repeat split; try exact Hids; try exact U; try exact E0;
    try (apply A; [lia | apply N; lia]).
  + cbn; lia.
  + cbn [forallb]. now rewrite S0.
- destruct (B 0) as (v0 & E0 & S0); [apply Y; lia |].
  destruct (B 1) as (v1 & E1 & S1); [apply Y; lia |].
  exists [v0; v1]. repeat split; try exact Hids; try exact U;
    try exact E0;
    try exact E1; try (apply A; [lia | apply N; lia]).
  + cbn; lia.
  + cbn [forallb]. now rewrite S0, S1.
- destruct (B 0) as (v0 & E0 & S0); [apply Y; lia |].
  destruct (B 1) as (v1 & E1 & S1); [apply Y; lia |].
  destruct (B 2) as (v2 & E2 & S2); [apply Y; lia |].
  exists [v0; v1; v2]. repeat split; try exact Hids; try exact U;
    try exact E0;
    try exact E1; try exact E2.
  + cbn; lia.
  + cbn [forallb]. now rewrite S0, S1, S2.
Qed.

Lemma dt_read_again vs :
dt_read (map (fun v => upper (lower v)) vs) = dt_read vs.
Proof.
destruct vs as [| v vs]; [reflexivity |]. unfold dt_read.
cbn [map]. rewrite lower_upper_lower. do 2 f_equal. f_equal.
rewrite map_map. apply map_ext. intros a. apply lower_upper_lower.
Qed.

Section Round.

Variables (self : Instruction) (ptn : str) (ts : list token).
Hypothesis Hptn : pattern self = Some ptn.
Hypothesis Htok : tokens_of ptn = Some ts.
Hypothesis Htext : rend [] ts = ptn.
Hypothesis Hok :
pattern_ok ts (pattern_inputs self) (pattern_outputs self)
           (pattern_in_outs self) = true.
Hypothesis Hdt : datatype self = None.
Hypothesis Hidx : index self = None.
Hypothesis Himm : immediate self = None.

(** What the first line gave. *)
Variables (c1 es : caps) (vs : list str) (ai ao aio : list str).
Hypothesis Hc1 : c1 = rev es ++ [].
Hypothesis Hes : caught ts es = true.
Hypothesis Hview : dt_view c1 vs.
Hypothesis Hvs : forallb dt_shaped vs = true.
Hypothesis Hids : dt_ids ts = seq 0 (List.length vs).
Hypothesis Hai : read_plain c1 (pattern_inputs self) = Some ai.
Hypothesis Hao : read_regs c1 (pattern_outputs self) = Some ao.
Hypothesis Haio : read_plain c1 (pattern_in_outs self) = Some aio.

Definition pl : list (str * RegisterType) :=
pattern_inputs self ++ pattern_outputs self ++ pattern_in_outs self.

Definition ops : list oper :=
combine ai (pattern_inputs self) ++ combine ao (pattern_outputs self)
++ combine aio (pattern_in_outs self).

Hypothesis Hnum :
forallb (fun p => numbered (snd (snd p)) (fst p)) ops = true.

Definition xi : option nat := option_map int_of_digits (group c1 "index").
Definition mi : option str := group c1 "imm".
Definition inst : Instruction := made self (dt_read vs) xi mi ai ao aio.
Definition sub : alist := sub_w ops mi (dt_read vs) xi.

Lemma ops_snd : map snd ops = pl.
Proof.
unfold ops, pl. rewrite !map_app.
rewrite !map_snd_combine; [reflexivity | | |].
- exact (read_plain_length _ _ _ Haio).
- exact (read_regs_length _ _ _ Hao).
- exact (read_plain_length _ _ _ Hai).
Qed.

Lemma ops_in p : In p ops -> In (snd p) pl.
Proof. intros H. rewrite <- ops_snd. now apply in_map. Qed.

Lemma pl_in s ty : In (s, ty) pl -> exists arg, In (arg, (s, ty)) ops.
Proof.
rewrite <- ops_snd. intros H. apply in_map_iff in H.
destruct H as ([arg q] & E & H). cbn [snd] in E. subst q.
now exists arg.
Qed.

Lemma keys_nodups : nodups (map fst (regsub ops)) = true.
Proof.
rewrite regsub_keys, ops_snd.
now destruct (pattern_ok_inv _ _ _ _ Hok) as (_ & _ & _ & _ & H & _).
Qed.

(** A register of the pattern and its piece. *)
Lemma op_piece s ty :
In (s, ty) pl -> is_flag ty = false ->
exists l0 c w,
  In (TReg l0 s) ts /\ s = c :: w /\ c = l0
  /\ no_gt s = true
  /\ chr_eqb "<" (lower_chr l0) = false
  /\ chr_eqb backslash (lower_chr l0) = false
  /\ s <> of_string "imm" /\ s <> of_string "index"
  /\ startswith "dt" s = false.
Proof.
intros Hin Hf.
destruct (pattern_ok_inv _ _ _ _ Hok)
  as (P1 & _ & _ & _ & _ & P6 & P7 & _).
fold pl in P6, P7.
rewrite forallb_forall in P7. specialize (P7 _ Hin).
unfold op_ok in P7. cbn [fst snd] in P7. rewrite Hf in P7.
cbn [orb] in P7.
apply andb_true_iff in P7. destruct P7 as [P7 Q3].
apply andb_true_iff in P7. destruct P7 as [P7 Q2].
apply andb_true_iff in P7. destruct P7 as [P7 Q1].
apply andb_true_iff in P7. destruct P7 as [_ P7].
apply existsb_exists in P7. destruct P7 as (t & Ht & E).
destruct t as [| | | | | | l0 name | | |]; try discriminate.
apply str_eqb_true in E. subst name.
rewrite forallb_forall in P1, P6.
specialize (P1 _ Ht). specialize (P6 _ Ht).
unfold piece_ok in P1. cbn [hole] in P1.
apply andb_true_iff in P1. destruct P1 as [_ P1].
cbn [tok_ok] in P6.
apply andb_true_iff in P6. destruct P6 as [P6 R4].
apply andb_true_iff in P6. destruct P6 as [P6 R3].
apply andb_true_iff in P6. destruct P6 as [_ R2].
destruct s as [| c w]; [discriminate |].
apply chr_eqb_eq in R2.
apply negb_true_iff in R3, R4, Q1, Q2, Q3.
exists l0, c, w. repeat split; try assumption.
- intros E. rewrite E in Q1. discriminate.
- intros E. rewrite E in Q2. discriminate.
Qed.

Lemma ops_numbered p :
In p ops -> numbered (snd (snd p)) (fst p) = true.
Proof.
intros H. rewrite forallb_forall in Hnum. now apply Hnum.
Qed.

Lemma ops_good : Forall (good_op ts) ops.
Proof.
apply Forall_forall. intros [arg [s ty]] Hin. unfold good_op.
cbn [fst snd]. destruct (is_flag ty) eqn:Ef; [now left | right].
pose proof (ops_numbered _ Hin) as Hn. cbn [fst snd] in Hn.
destruct (op_piece s ty (ops_in _ Hin) Ef)
  as (l0 & c & w & Ht & -> & -> & Hgt & Hlt & _).
destruct (numbered_inv _ _ Ef Hn) as (x & ds & -> & Hd & _).
repeat split.
- exact Hn.
- exact Hgt.
- unfold reg_text. cbn [fst snd hd tl]. unfold no_lt. cbn [forallb].
  rewrite Hlt. cbn [negb andb].
  apply digits_no_lt, digits12_all, Hd.
- discriminate.
- exists (TReg l0 (l0 :: w)). split; [exact Ht | reflexivity].
Qed.

(** *** What [sub] binds *)

Lemma sub_reg arg s ty :
In (arg, (s, ty)) ops -> is_flag ty = false ->
assoc s sub = Some (lower_chr (hd " "%char s) :: tl arg).
Proof.
intros Hin Hf. unfold sub, sub_w. apply assoc_app_some.
apply assoc_nodups; [exact keys_nodups |].
exact (regsub_in ops _ Hin Hf).
Qed.

Lemma sub_plain b :
b = of_string "imm" \/ b = of_string "index"
\/ startswith "dt" b = true ->
forall rest, assoc b (regsub ops ++ rest) = assoc b rest.
Proof.
intros Hb rest. apply assoc_app_none. apply assoc_absent.
rewrite regsub_keys, ops_snd. intros Hin.
destruct (op_names_in _ _ Hin) as (ty & Hp & Hf).
destruct (op_piece b ty Hp Hf)
  as (l0 & c & w & _ & _ & _ & _ & _ & _ & N1 & N2 & N3).
destruct Hb as [E | [E | E]]; congruence.
Qed.

Lemma first_imm :
(In TImm ts /\ exists v, mi = Some v /\ imm_shaped v = true)
\/ (inb "imm" (names_of ts) = false /\ mi = None).
Proof.
destruct (pattern_ok_inv _ _ _ _ Hok)
  as (_ & _ & _ & P4 & _ & _ & _ & _ & _ & _ & P11 & _).
unfold mi. rewrite Hc1.
destruct (existsb is_TImm ts) eqn:E.
- left. apply existsb_TImm in E. split; [exact E |].
  exact (caught_binds ts es [] TImm "imm" Hes P4 E eq_refl).
- right. pose proof (implb_false _ _ P11 eq_refl) as Hn.
  split; [exact Hn |]. now rewrite (caught_keeps ts es [] _ Hes Hn).
Qed.

Lemma first_index :
(In TIndex ts
 /\ exists v, group c1 "index" = Some v /\ digits1 v = true)
\/ (inb "index" (names_of ts) = false /\ group c1 "index" = None).
Proof.
destruct (pattern_ok_inv _ _ _ _ Hok)
  as (_ & _ & _ & P4 & _ & _ & _ & _ & _ & _ & _ & P12).
rewrite Hc1.
destruct (existsb is_TIndex ts) eqn:E.
- left. apply existsb_TIndex in E. split; [exact E |].
  exact (caught_binds ts es [] TIndex "index" Hes P4 E eq_refl).
- right. pose proof (implb_false _ _ P12 eq_refl) as Hn.
  split; [exact Hn |]. now rewrite (caught_keeps ts es [] _ Hes Hn).
Qed.

Lemma sub_imm v : mi = Some v -> assoc "imm" sub = Some v.
Proof.
intros E. unfold sub, sub_w. rewrite sub_plain by now left.
rewrite E. reflexivity.
Qed.

Lemma dtsub_read :
match dt_read vs with
| Some (DtList d) => dtsub 0 d
| Some (DtStr d) => [("dt" : str, upper d)]
| None => []
end = dtsub 0 (map lower vs).
Proof. destruct vs; reflexivity. Qed.

Lemma sub_dt i v :
nth_error vs i = Some v ->
assoc (named "dt" i) sub = Some (upper (lower v)).
Proof.
intros E. unfold sub, sub_w.
rewrite sub_plain by (right; right; apply named_dt_starts).
rewrite dtsub_read.
assert (Hm : forall rest,
           assoc (named "dt" i) (dtsub 0 (map lower vs) ++ rest)
           = Some (upper (lower v))).
{ intros rest.
  etransitivity; [exact (assoc_dtsub rest (map lower vs) 0 i) |].
  rewrite nth_error_map, E. reflexivity. }
destruct mi as [m |]; [| apply Hm].
cbn [app assoc].
destruct (str_eqb "imm" (named "dt" i)) eqn:E1; [| apply Hm].
apply str_eqb_true in E1. discriminate.
Qed.

Lemma sub_index v :
group c1 "index" = Some v ->
assoc "index" sub = Some (str_of_nat (int_of_digits v)).
Proof.
intros E. unfold sub, sub_w. rewrite sub_plain by (right; now left).
rewrite dtsub_read. unfold xi. rewrite E. cbn [option_map].
assert (Hm : assoc "index"
                   (dtsub 0 (map lower vs)
                    ++ [("index" : str, str_of_nat (int_of_digits v))])
             = Some (str_of_nat (int_of_digits v)))
  by (now rewrite assoc_dtsub_other).
destruct mi as [m |]; exact Hm.
Qed.

(** *** The shapes of what [write] fills in *)

Lemma vs_nth i : In i (dt_ids ts) -> exists v, nth_error vs i = Some v
                                             /\ dt_shaped v = true.
Proof.
rewrite Hids. intros H. apply in_seq in H.
destruct (nth_error vs i) as [v |] eqn:E.
- exists v. split; [reflexivity |].
  rewrite forallb_forall in Hvs. apply Hvs.
  exact (nth_error_In _ _ E).
- apply nth_error_None in E. lia.
Qed.

Lemma sub_shapes : forallb (tok_shape sub) ts = true.
Proof.
destruct (pattern_ok_inv _ _ _ _ Hok)
  as (_ & _ & _ & P4 & _ & P6 & _).
fold pl in P6. rewrite forallb_forall in P6.
apply forallb_forall. intros t Ht. specialize (P6 _ Ht).
destruct t as [a | | | | | | l0 name | [i |] | |];
  cbn [tok_shape]; try reflexivity.
- (* a register *)
  cbn [tok_ok] in P6.
  apply andb_true_iff in P6. destruct P6 as [P6 _].
  apply andb_true_iff in P6. destruct P6 as [P6 _].
  apply andb_true_iff in P6. destruct P6 as [R1 R2].
  apply in_str_In in R1.
  destruct (op_names_in _ _ R1) as (ty & Hp & Hf).
  destruct (pl_in _ _ Hp) as [arg Hin].
  rewrite (sub_reg arg name ty Hin Hf).
  pose proof (ops_numbered _ Hin) as Hn. cbn [fst snd] in Hn.
  destruct (numbered_inv _ _ Hf Hn) as (x & ds & -> & Hd & _).
  destruct name as [| c w]; [discriminate |].
  apply chr_eqb_eq in R2. subst c. cbn [hd tl].
  now rewrite chr_eqb_refl, Hd.
- (* a datatype *)
  destruct (vs_nth i (in_dt_ids _ _ Ht)) as (v & E & Hv).
  rewrite (sub_dt i v E). now apply dt_shaped_upper.
- discriminate.
- (* the immediate *)
  destruct first_imm as [(_ & v & E & Hv) | (Hn & _)].
  + now rewrite (sub_imm v E).
  + exfalso. clear - Ht Hn. induction ts as [| t0 r IH];
      [destruct Ht |].
    rewrite names_of_cons, inb_app in Hn.
    apply orb_false_iff in Hn. destruct Hn as [H1 H2].
    destruct Ht as [-> | Ht]; [discriminate | auto].
- (* the index *)
  destruct first_index as [(_ & v & E & Hv) | (Hn & _)].
  + rewrite (sub_index v E). apply str_of_nat_digits.
  + exfalso. clear - Ht Hn. induction ts as [| t0 r IH];
      [destruct Ht |].
    rewrite names_of_cons, inb_app in Hn.
    apply orb_false_iff in Hn. destruct Hn as [H1 H2].
    destruct Ht as [-> | Ht]; [discriminate | auto].
Qed.

Lemma sub_plain_text : no_backslash (rend sub ts) = true.
Proof.
destruct (pattern_ok_inv _ _ _ _ Hok)
  as (_ & _ & _ & _ & _ & P6 & _).
rewrite forallb_forall in P6.
pose proof sub_shapes as Hs. rewrite forallb_forall in Hs.
apply rend_no_backslash. intros t Ht.
exact (shaped_no_backslash sub _ t (Hs _ Ht) (P6 _ Ht)).
Qed.

(** *** The emitted line *)

Lemma inst_fields :
pattern inst = Some (rend [] ts) /\ datatype inst = dt_read vs
/\ index inst = xi /\ immediate inst = mi /\ operands inst = ops.
Proof.
destruct (made_fields self (dt_read vs) xi mi ai ao aio Hidx Himm)
  as (F1 & F2 & F3 & F4 & F5).
fold inst in F1, F2, F3, F4, F5. fold ops in F5.
rewrite Htext, <- Hptn. auto.
Qed.

Lemma ops_some : ops <> [].
Proof.
destruct (pattern_ok_inv _ _ _ _ Hok)
  as (_ & _ & _ & _ & _ & _ & _ & _ & P9 & _).
intros E. apply P9. fold pl. rewrite <- ops_snd, E. reflexivity.
Qed.

Lemma inst_write : AArch64Instruction_write inst = Some (rend sub ts).
Proof.
destruct inst_fields as (F1 & F2 & F3 & F4 & F5).
destruct (pattern_ok_inv _ _ _ _ Hok) as (P1 & _).
rewrite (write_rend ts inst P1 F1).
- rewrite F2, F3, F4, F5. reflexivity.
- rewrite F5. exact ops_some.
- rewrite F5. exact ops_good.
- rewrite F5. exact keys_nodups.
- rewrite F4. intros v E.
  destruct first_imm as [(_ & v' & E' & Hv) | (_ & E')];
    [| congruence].
  assert (v' = v) by congruence. subst v'.
  generalize (imm_shaped_all _ Hv). apply forallb_imp.
  intros a Ha. now rewrite imm_not_lt.
- rewrite F2. intros d E. destruct vs as [| v0 vs0] eqn:Ev;
    [discriminate |].
  rewrite <- Ev in *. unfold dt_read in E. rewrite Ev in E.
  rewrite <- Ev in E. inversion E; subst d.
  rewrite forallb_mapped. revert Hvs. apply forallb_imp.
  intros v Hv. now apply dt_value_no_lt.
- rewrite F2. intros d E. destruct vs; discriminate.
- rewrite F2, F3, F4, F5. exact sub_plain_text.
Qed.

(** *** The groups of the emitted line *)

Definition c2 : caps := pushes sub ts [].

Lemma out_scan : scan ts (dropw is_space (rend sub ts)) [] = Some c2.
Proof.
destruct (pattern_ok_inv _ _ _ _ Hok) as (_ & P2 & P3 & _).
rewrite dropw_head_not.
- exact (rescan sub (List.length ts) ts (le_n _) P2 sub_shapes []).
- apply rend_head_not_space; [now rewrite P3 | exact sub_shapes].
Qed.

Lemma second_dt i :
i < 3 ->
group c2 (dtg i) = nth_error (map (fun v => upper (lower v)) vs) i.
Proof.
intros Hi.
destruct (pattern_ok_inv _ _ _ _ Hok)
  as (_ & _ & _ & P4 & _ & _ & _ & _ & _ & P10 & _).
rewrite nth_error_map. unfold c2.
destruct (nth_error vs i) as [v |] eqn:E.
- assert (Hin : In i (dt_ids ts)).
  { rewrite Hids. apply in_seq.
    assert (i < List.length vs)
      by (apply nth_error_Some; congruence). lia. }
  apply dt_ids_in in Hin.
  exact (pushes_binds sub ts [] (TDt (Some i)) (dtg i) (named "dt" i)
                      _ P4 Hin eq_refl eq_refl (sub_dt i v E)).
- apply nth_error_None in E.
  rewrite pushes_keeps; [reflexivity |].
  apply dt_absent; [exact P10 | exact Hi |].
  rewrite Hids, in_seq. lia.
Qed.

Lemma second_view : dt_view c2 (map (fun v => upper (lower v)) vs).
Proof.
destruct (pattern_ok_inv _ _ _ _ Hok)
  as (_ & _ & _ & _ & _ & _ & _ & _ & _ & P10 & _).
repeat split; try (apply second_dt; lia).
- unfold c2. now rewrite (pushes_keeps sub ts [] _ (dt_unnamed _ P10)).
- rewrite length_map. now destruct Hview as (_ & _ & _ & _ & H).
Qed.

Lemma second_index :
option_map int_of_digits (group c2 "index") = xi.
Proof.
destruct (pattern_ok_inv _ _ _ _ Hok) as (_ & _ & _ & P4 & _).
unfold xi, c2.
destruct first_index as [(Hin & v & E & Hv) | (Hn & E)]; rewrite E.
- rewrite (pushes_binds sub ts [] TIndex "index" "index" _ P4 Hin
                        eq_refl eq_refl (sub_index v E)).
  cbn [option_map payload]. now rewrite int_of_str_of_nat.
- now rewrite (pushes_keeps sub ts [] _ Hn).
Qed.

Lemma second_imm : group c2 "imm" = mi.
Proof.
destruct (pattern_ok_inv _ _ _ _ Hok) as (_ & _ & _ & P4 & _).
unfold c2.
destruct first_imm as [(Hin & v & E & Hv) | (Hn & E)]; rewrite E.
- exact (pushes_binds sub ts [] TImm "imm" "imm" _ P4 Hin
                      eq_refl eq_refl (sub_imm v E)).
- now rewrite (pushes_keeps sub ts [] _ Hn).
Qed.

Lemma ops_reads p : In p ops -> reads_numbered c2 p.
Proof.
destruct (pattern_ok_inv _ _ _ _ Hok) as (_ & _ & _ & P4 & _).
intros Hin Hf. split; [now apply ops_numbered |].
destruct p as [arg [s ty]]. cbn [fst snd] in *.
destruct (op_piece s ty (ops_in _ Hin) Hf)
  as (l0 & c & w & Ht & Es & _).
unfold c2.
rewrite (pushes_binds sub ts [] (TReg l0 s) (gstr "raw_" s) s _ P4 Ht
                      eq_refl eq_refl (sub_reg arg s ty Hin Hf)).
reflexivity.
Qed.

Lemma ops_part (l : list oper) :
(forall p, In p l -> In p ops) -> Forall (reads_numbered c2) l.
Proof.
intros H. apply Forall_forall. intros p Hp. apply ops_reads. auto.
Qed.

(** [write] succeeds, and [parse] reads in its line what the first line
  gave. *)
Theorem line_round_trip :
AArch64Instruction_write inst = Some (rend sub ts)
/\ AArch64Instruction_parse self (rend sub ts) = Ok inst.
Proof.
split; [exact inst_write |].
destruct (pattern_ok_inv _ _ _ _ Hok)
  as (_ & P2 & P3 & _ & _ & _ & _ & P8 & _).
rewrite forallb_app in P8. apply andb_true_iff in P8.
destruct P8 as [P8a P8b].
rewrite (parse_scan self ptn ts Hptn Htok P2 P3 Hdt), out_scan.
rewrite (read_datatype_view _ _ second_view), dt_read_again.
rewrite (read_plain_again c2 (pattern_inputs self) ai
           (read_plain_length _ _ _ Hai) P8a).
2:{ apply ops_part. intros p Hp. unfold ops. apply in_or_app. now left. }
rewrite (read_regs_again c1 c2 (pattern_outputs self) ao Hao).
2:{ apply ops_part. intros p Hp. unfold ops. apply in_or_app. right.
    apply in_or_app. now left. }
rewrite (read_plain_again c2 (pattern_in_outs self) aio
           (read_plain_length _ _ _ Haio) P8b).
2:{ apply ops_part. intros p Hp. unfold ops. apply in_or_app. right.
    apply in_or_app. now right. }
now rewrite second_index, second_imm.
Qed.

End Round.

End Inverse.

(** ** [write] and [parse] of the subclasses of [AArch64Instruction] *)

Module WriteParse.
Import Neon NeonScan NeonRender ScanFacts ScanTokens ScanImm ScanProps
     RenderFacts Rescan Captures Emission RoundTrip Inverse.

(** An object whose pattern and operands are as [class_ok] asks: what
  [write] makes of a parsed line with numbered registers is parsed to
  the same object. *)
Theorem class_round_trip self :
class_ok self = true ->
forall src i,
  AArch64Instruction_parse self src = Ok i ->
  numbered_operands i = true ->
  exists out,
    AArch64Instruction_write i = Some out
    /\ AArch64Instruction_parse self out = Ok i.
Proof.
intros Hc src i Hp Hn. unfold class_ok in Hc.
destruct (pattern self) as [ptn |] eqn:Hptn; [| discriminate].
destruct (tokens_of ptn) as [ts |] eqn:Htok; [| discriminate].
apply andb_true_iff in Hc. destruct Hc as [Hc H3].
apply andb_true_iff in Hc. destruct Hc as [Htext Hok].
apply str_eqb_true in Htext.
destruct (datatype self) eqn:Hdt; [discriminate |].
destruct (index self) eqn:Hidx; [discriminate |].
destruct (immediate self) eqn:Himm; [discriminate |].
destruct (pattern_ok_inv _ _ _ _ Hok)
  as (_ & P2 & P3 & P4 & _ & _ & _ & _ & _ & P10 & _).
rewrite (parse_scan self ptn ts Hptn Htok P2 P3 Hdt) in Hp.
destruct (scan ts (dropw is_space src) []) as [c1 |] eqn:Hs;
  [| discriminate].
destruct (scan_caught (List.length ts) ts (le_n _) _ _ _ Hs)
  as (es & Hc1 & Hes).
destruct (first_dts ts es Hes P4 P10) as (vs & Hview & Hvs & Hids).
rewrite <- Hc1 in Hview.
rewrite (read_datatype_view _ _ Hview) in Hp.
destruct (read_plain c1 (pattern_inputs self)) as [ai |] eqn:Hai;
  [| discriminate].
destruct (read_regs c1 (pattern_outputs self)) as [ao |] eqn:Hao;
  [| discriminate].
destruct (read_plain c1 (pattern_in_outs self)) as [aio |] eqn:Haio;
  [| discriminate].
inversion Hp; subst i. clear Hp.
unfold numbered_operands in Hn.
destruct (made_fields self (dt_read vs)
                      (option_map int_of_digits (group c1 "index"))
                      (group c1 "imm") ai ao aio Hidx Himm)
  as (_ & _ & _ & _ & F5).
rewrite F5 in Hn.
destruct (line_round_trip self ptn ts Hptn Htok Htext Hok Hdt Hidx Himm
                          c1 es vs ai ao aio Hc1 Hes Hview Hvs Hids
                          Hai Hao Haio Hn) as [W Q].
exists (rend (sub self c1 vs ai ao aio) ts). split; [exact W | exact Q].
Qed.

(** The same for the [parse] of the lane forms. *)
Lemma lane_round_trip self :
(forall src i,
    AArch64Instruction_parse self src = Ok i ->
    numbered_operands i = true ->
    exists out,
      AArch64Instruction_write i = Some out
      /\ AArch64Instruction_parse self out = Ok i) ->
forall src i,
  lane_parse self src = Ok i ->
  numbered_operands i = true ->
  exists out,
    AArch64Instruction_write i = Some out
    /\ lane_parse self out = Ok i.
Proof.
intros H src i Hp Hn. unfold lane_parse in Hp.
destruct (AArch64Instruction_parse self src) as [j | |] eqn:Ej;
  try discriminate.
assert (Hw : numbered_operands j = true
             /\ AArch64Instruction_write i = AArch64Instruction_write j).
{ destruct (datatype j) as [[[| a d] | [| d l]] |]; try discriminate.
  - inversion Hp; subst. auto.
  - destruct (str_eqb d "8h"); inversion Hp; subst; auto. }
destruct Hw as [Hnj Hw].
destruct (H src j Ej Hnj) as (out & W & Q).
exists out. split; [now rewrite Hw |].
unfold lane_parse. rewrite Q. exact Hp.
Qed.

Definition is_lane (c : InstClass) : bool :=
match c with
| vqrdmulh_lane | vqdmulh_lane | vmul_lane | vmla_lane | vmls_lane => true
| _ => false
end.

Lemma parse_subclass simplify c :
In c AArch64Instruction_subclasses ->
forall s,
  parse simplify (new c) s
  = if is_lane c then lane_parse (new c) s
    else AArch64Instruction_parse (new c) s.
Proof.
intros H s. unfold AArch64Instruction_subclasses in H.
repeat (destruct H as [<- | H]; [reflexivity |]). destruct H.
Qed.

Lemma subclasses_ok :
forallb (fun c => class_ok (new c)) AArch64Instruction_subclasses = true.
Proof. vm_compute. reflexivity. Qed.

(** C6 (as it holds): for every subclass of [AArch64Instruction] and
  every line its [parse] accepts with all registers given by number
  (the operands of the result are [x0]..[x99], [v0]..[v99] or the
  flags), [write] succeeds on the result and [parse] of the text it
  returns gives the same object: the same operand lists, datatype,
  index and immediate, and every other attribute. *)
Theorem write_then_parse simplify c src inst :
In c AArch64Instruction_subclasses ->
parse simplify (new c) src = Ok inst ->
numbered_operands inst = true ->
exists out,
  AArch64Instruction_write inst = Some out
  /\ parse simplify (new c) out = Ok inst.
Proof.
intros Hc Hp Hn.
pose proof subclasses_ok as Hok. rewrite forallb_forall in Hok.
specialize (Hok c Hc). cbv beta in Hok.
rewrite (parse_subclass simplify c Hc) in Hp.
assert (R : exists out,
           AArch64Instruction_write inst = Some out
           /\ (if is_lane c then lane_parse (new c) out
               else AArch64Instruction_parse (new c) out) = Ok inst).
{ destruct (is_lane c).
  - apply (lane_round_trip (new c) (class_round_trip (new c) Hok) src);
      assumption.
  - apply (class_round_trip (new c) Hok src); assumption. }
destruct R as (out & W & Q). exists out. split; [exact W |].
now rewrite (parse_subclass simplify c Hc).
Qed.

Lemma write_then_parse_witness :
In add AArch64Instruction_subclasses
/\ exists inst,
     parse keep (new add) "add x1, x2, x3" = Ok inst
     /\ numbered_operands inst = true
     /\ exists out,
          AArch64Instruction_write inst = Some out
          /\ parse keep (new add) out = Ok inst.
Proof.
assert (Hc : In add AArch64Instruction_subclasses)
  by (unfold AArch64Instruction_subclasses; cbn [In]; tauto).
split; [exact Hc |].
destruct (parse keep (new add) "add x1, x2, x3") as [inst | |] eqn:E;
  [| vm_compute in E; discriminate | vm_compute in E; discriminate].
exists inst. split; [reflexivity |].
assert (Hn : numbered_operands inst = true).
{ vm_compute in E. inversion E. vm_compute. reflexivity. }
split; [exact Hn |].
exact (write_then_parse keep add "add x1, x2, x3" inst Hc E Hn).
Defined.

(** C6 as stated fails: a line with a symbolic register is accepted, and
  the text [write] makes of it is not: [write] puts the symbol in
  place of the whole operand. *)
Lemma symbolic_register_lost :
exists inst,
  parse keep (new add) "add x<foo>, x1, x2" = Ok inst
  /\ AArch64Instruction_write inst = Some (of_string "add foo, x1, x2")
  /\ parse keep (new add) "add foo, x1, x2" = ParsingException.
Proof.
eexists. split; [vm_compute; reflexivity |].
split; vm_compute; reflexivity.
Qed.

End WriteParse.

(** ** What [parse] reads in a line *)

Module ParseFacts.
Import Neon NeonScan NeonRender ScanFacts ScanTokens ScanImm ScanProps
     RenderFacts Rescan Captures Emission RoundTrip Inverse WriteParse.

(** What two objects have in common when one is the other after the
  restrictions of the lane forms were set. *)
Definition same_reading (i j : Instruction) : Prop :=
args_in i = args_in j /\ args_out i = args_out j
/\ args_in_out i = args_in_out j /\ datatype i = datatype j
/\ index i = index j /\ immediate i = immediate j
/\ num_in i = num_in j /\ num_out i = num_out j
/\ num_in_out i = num_in_out j /\ pattern i = pattern j.

Lemma same_reading_refl i : same_reading i i.
Proof. repeat split. Qed.

Lemma lane_parse_inv self src i :
lane_parse self src = Ok i ->
exists j, AArch64Instruction_parse self src = Ok j /\ same_reading i j.
Proof.
unfold lane_parse.
destruct (AArch64Instruction_parse self src) as [j | |];
  try discriminate.
intros H. exists j. split; [reflexivity |].
destruct (datatype j) as [[[| a d] | [| d l]] |]; try discriminate.
- inversion H. apply same_reading_refl.
- destruct (str_eqb d "8h"); inversion H; repeat split.
Qed.

Lemma subclass_parse_inv simplify c src i :
In c AArch64Instruction_subclasses ->
parse simplify (new c) src = Ok i ->
exists j, AArch64Instruction_parse (new c) src = Ok j /\ same_reading i j.
Proof.
intros Hc. rewrite (parse_subclass simplify c Hc).
destruct (is_lane c).
- apply lane_parse_inv.
- intros H. exists i. split; [exact H | apply same_reading_refl].
Qed.

Lemma subclass_ok c :
In c AArch64Instruction_subclasses -> class_ok (new c) = true.
Proof.
intros Hc. pose proof subclasses_ok as H. rewrite forallb_forall in H.
exact (H c Hc).
Qed.

Lemma made_args self dt xi mi ai ao aio :
args_in (made self dt xi mi ai ao aio) = ai
/\ args_out (made self dt xi mi ai ao aio) = ao
/\ args_in_out (made self dt xi mi ai ao aio) = aio
/\ num_in (made self dt xi mi ai ao aio) = num_in self
/\ num_out (made self dt xi mi ai ao aio) = num_out self
/\ num_in_out (made self dt xi mi ai ao aio) = num_in_out self.
Proof. unfold made. destruct xi, mi; cbn; repeat split; reflexivity. Qed.

(** What is behind a successful [parse] of an object that [class_ok]
  holds of. *)
Lemma parse_inv self src j :
class_ok self = true ->
AArch64Instruction_parse self src = Ok j ->
exists ptn ts c1 es vs ai ao aio,
  pattern self = Some ptn /\ tokens_of ptn = Some ts
  /\ pattern_ok ts (pattern_inputs self) (pattern_outputs self)
                (pattern_in_outs self) = true
  /\ index self = None /\ immediate self = None
  /\ scan ts (dropw is_space src) [] = Some c1
  /\ c1 = rev es ++ [] /\ caught ts es = true
  /\ dt_view c1 vs /\ forallb dt_shaped vs = true
  /\ dt_ids ts = seq 0 (List.length vs)
  /\ read_plain c1 (pattern_inputs self) = Some ai
  /\ read_regs c1 (pattern_outputs self) = Some ao
  /\ read_plain c1 (pattern_in_outs self) = Some aio
  /\ j = made self (dt_read vs)
              (option_map int_of_digits (group c1 "index"))
              (group c1 "imm") ai ao aio.
Proof.
intros Hc Hp. unfold class_ok in Hc.
destruct (pattern self) as [ptn |] eqn:Hptn; [| discriminate].
destruct (tokens_of ptn) as [ts |] eqn:Htok; [| discriminate].
apply andb_true_iff in Hc. destruct Hc as [Hc H3].
apply andb_true_iff in Hc. destruct Hc as [Htext Hok].
destruct (datatype self) eqn:Hdt; [discriminate |].
destruct (index self) eqn:Hidx; [discriminate |].
destruct (immediate self) eqn:Himm; [discriminate |].
destruct (pattern_ok_inv _ _ _ _ Hok)
  as (_ & P2 & P3 & P4 & _ & _ & _ & _ & _ & P10 & _).
rewrite (parse_scan self ptn ts Hptn Htok P2 P3 Hdt) in Hp.
destruct (scan ts (dropw is_space src) []) as [c1 |] eqn:Hs;
  [| discriminate].
destruct (scan_caught (List.length ts) ts (le_n _) _ _ _ Hs)
  as (es & Hc1 & Hes).
destruct (first_dts ts es Hes P4 P10) as (vs & Hview & Hvs & Hids).
rewrite <- Hc1 in Hview.
rewrite (read_datatype_view _ _ Hview) in Hp.
destruct (read_plain c1 (pattern_inputs self)) as [ai |] eqn:Hai;
  [| discriminate].
destruct (read_regs c1 (pattern_outputs self)) as [ao |] eqn:Hao;
  [| discriminate].
destruct (read_plain c1 (pattern_in_outs self)) as [aio |] eqn:Haio;
  [| discriminate].
inversion Hp; subst j.
exists ptn, ts, c1, es, vs, ai, ao, aio.
repeat (split; [first [assumption | reflexivity] |]). reflexivity.
Qed.

(** [parse] reads a line from its first character that is no white
  space. *)
Lemma parse_from_text self ws src :
class_ok self = true -> forallb is_space ws = true ->
AArch64Instruction_parse self (ws ++ src)
= AArch64Instruction_parse self src.
Proof.
intros Hc Hw. unfold class_ok in Hc.
destruct (pattern self) as [ptn |] eqn:Hptn; [| discriminate].
destruct (tokens_of ptn) as [ts |] eqn:Htok; [| discriminate].
apply andb_true_iff in Hc. destruct Hc as [Hc H3].
apply andb_true_iff in Hc. destruct Hc as [Htext Hok].
destruct (datatype self) eqn:Hdt; [discriminate |].
destruct (pattern_ok_inv _ _ _ _ Hok) as (_ & P2 & P3 & _).
rewrite !(parse_scan self ptn ts Hptn Htok P2 P3 Hdt).
now rewrite (dropw_app_all _ _ _ Hw).
Qed.

(** The suffixes of a datatype: a lane count or none, then the width. *)
Definition suffixes : list str :=
flat_map (fun n : str => map (fun l : ascii => n ++ [l])
                             ["b"; "h"; "s"; "d"]%char)
         ["" : str; "2" : str; "4" : str; "8" : str; "16" : str].

Lemma dt_letter_lower a :
dt_letter a = true ->
In (lower_chr a) ["b"; "h"; "s"; "d"]%char.
Proof.
unfold dt_letter. intros H.
repeat (apply orb_true_iff in H; destruct H as [H | H]);
  apply chr_eqb_eq in H; subst a; cbn; auto 10.
Qed.

Lemma suffix_lower v : dt_shaped v = true -> In (lower v) suffixes.
Proof.
unfold dt_shaped. destruct (dt_split v) as [[v' [| x r]] |] eqn:E;
  try discriminate.
intros H. apply str_eqb_true in H. subst v'.
unfold dt_split in E. destruct v as [| a s1]; [discriminate |].
destruct (chr_eqb "2" a || chr_eqb "4" a || chr_eqb "8" a) eqn:E1.
- destruct s1 as [| b s2]; [discriminate |].
  destruct (dt_letter b) eqn:Eb; [| discriminate].
  inversion E; subst. pose proof (dt_letter_lower _ Eb) as Hb.
  cbn [lower map].
  apply orb_true_iff in E1. destruct E1 as [E1 | E1];
    [apply orb_true_iff in E1; destruct E1 as [E1 | E1] |];
    apply chr_eqb_eq in E1; subst a;
    cbn [In] in Hb; destruct Hb as [<- | [<- | [<- | [<- | []]]]];
    cbn; auto 25.
- destruct (chr_eqb "1" a) eqn:E2.
  + destruct s1 as [| b s2]; [discriminate |].
    destruct (chr_eqb "6" b) eqn:E3; [| discriminate].
    destruct s2 as [| d s3]; [discriminate |].
    destruct (dt_letter d) eqn:Ed; [| discriminate].
    inversion E; subst. apply chr_eqb_eq in E2, E3. subst a b.
    pose proof (dt_letter_lower _ Ed) as Hb. cbn [lower map].
    cbn [In] in Hb; destruct Hb as [<- | [<- | [<- | [<- | []]]]];
      cbn; auto 25.
  + destruct (dt_letter a) eqn:Ea; [| discriminate].
    inversion E; subst. pose proof (dt_letter_lower _ Ea) as Hb.
    cbn [lower map].
    cbn [In] in Hb; destruct Hb as [<- | [<- | [<- | [<- | []]]]];
      cbn; auto 25.
Qed.

Lemma dt_read_shape vs :
forallb dt_shaped vs = true ->
match dt_read vs with
| None => List.length vs = 0
| Some (DtList ds) =>
    ds <> [] /\ List.length ds = List.length vs
    /\ forall d, In d ds -> In d suffixes
| Some (DtStr _) => False
end.
Proof.
intros Hvs. destruct vs as [| v0 vs0]; [reflexivity |].
unfold dt_read. split; [discriminate |]. split; [apply length_map |].
intros d Hd. apply in_map_iff in Hd. destruct Hd as (v & <- & Hv).
apply suffix_lower. rewrite forallb_forall in Hvs. now apply Hvs.
Qed.

(** The placeholders of the patterns, counted in the text and among the
  pieces. *)
Definition counts_ok (c : InstClass) : bool :=
match pattern (new c) with
| Some ptn =>
    match tokens_of ptn with
    | Some ts =>
        (count "<dt" ptn =? List.length (dt_ids ts))
        && (count "<imm>" ptn =? if existsb is_TImm ts then 1 else 0)
        && (count "<index>" ptn =? if existsb is_TIndex ts then 1 else 0)
        && (num_in (new c) =? List.length (pattern_inputs (new c)))
        && (num_out (new c) =? List.length (pattern_outputs (new c)))
        && (num_in_out (new c) =? List.length (pattern_in_outs (new c)))
    | None => false
    end
| None => false
end.

Lemma subclasses_counted :
forallb counts_ok AArch64Instruction_subclasses = true.
Proof. vm_compute. reflexivity. Qed.

Lemma not_inb_TImm ts :
inb "imm" (names_of ts) = false -> existsb is_TImm ts = false.
Proof.
induction ts as [| t ts IH]; [reflexivity |].
rewrite names_of_cons, inb_app. intros H.
apply orb_false_iff in H. destruct H as [H1 H2].
cbn [existsb]. rewrite (IH H2).
destruct t; try reflexivity. discriminate.
Qed.

(** The operand lists of a subclass of [AArch64Instruction]. *)
Lemma subclass_counts simplify c src inst :
In c AArch64Instruction_subclasses ->
parse simplify (new c) src = Ok inst ->
List.length (args_in inst) = num_in inst
/\ List.length (args_out inst) = num_out inst
/\ List.length (args_in_out inst) = num_in_out inst.
Proof.
intros Hc Hp.
destruct (subclass_parse_inv simplify c src inst Hc Hp)
  as (j & Hj & (E1 & E2 & E3 & _ & _ & _ & E7 & E8 & E9 & _)).
rewrite E1, E2, E3, E7, E8, E9. clear E1 E2 E3 E7 E8 E9 Hp inst.
destruct (parse_inv (new c) src j (subclass_ok c Hc) Hj)
  as (ptn & ts & c1 & es & vs & ai & ao & aio & Hptn & Htok & _ & _ & _
      & _ & _ & _ & _ & _ & _ & Hai & Hao & Haio & ->).
destruct (made_args (new c) (dt_read vs)
                    (option_map int_of_digits (group c1 "index"))
                    (group c1 "imm") ai ao aio)
  as (-> & -> & -> & -> & -> & ->).
pose proof subclasses_counted as Hk. rewrite forallb_forall in Hk.
specialize (Hk c Hc). unfold counts_ok in Hk. rewrite Hptn, Htok in Hk.
apply andb_true_iff in Hk. destruct Hk as [Hk K6].
apply andb_true_iff in Hk. destruct Hk as [Hk K5].
apply andb_true_iff in Hk. destruct Hk as [Hk K4].
apply Nat.eqb_eq in K4, K5, K6. rewrite K4, K5, K6.
rewrite (read_plain_length _ _ _ Hai), (read_regs_length _ _ _ Hao),
  (read_plain_length _ _ _ Haio). auto.
Qed.

End ParseFacts.

Module ParseProps.
Import Neon NeonScan NeonRender ScanFacts ScanTokens ScanImm ScanProps
     RenderFacts Rescan Captures Emission RoundTrip Inverse WriteParse
     ParseFacts.

(** White space in front of a line is skipped: every subclass of
  [AArch64Instruction] parses an indented line as it parses the line,
  with the same result or the same exception. *)
Theorem parse_skips_indentation simplify c (ws src : str) :
In c AArch64Instruction_subclasses ->
forallb is_space ws = true ->
parse simplify (new c) (ws ++ src) = parse simplify (new c) src.
Proof.
intros Hc Hw. rewrite !(parse_subclass simplify c Hc).
pose proof (parse_from_text (new c) ws src (subclass_ok c Hc) Hw) as E.
destruct (is_lane c); [| exact E].
unfold lane_parse. now rewrite E.
Qed.

Lemma parse_skips_indentation_witness :
In vadd AArch64Instruction_subclasses
/\ forallb is_space (of_string "    ") = true
/\ parse keep (new vadd)
         (of_string "    " ++ of_string "add v0.4s, v1.4s, v2.4s")
   = parse keep (new vadd) "add v0.4s, v1.4s, v2.4s".
Proof.
assert (Hc : In vadd AArch64Instruction_subclasses)
  by (unfold AArch64Instruction_subclasses; cbn [In]; tauto).
split; [exact Hc |]. split; [reflexivity |].
exact (parse_skips_indentation keep vadd (of_string "    ")
         "add v0.4s, v1.4s, v2.4s" Hc eq_refl).
Defined.

(** After a successful [parse] the three operand lists are as long as
  the variant declares: [num_in], [num_out] and [num_in_out]
  operands. *)
Theorem parsed_operand_counts simplify c src inst :
In c AArch64Instruction_subclasses ->
parse simplify (new c) src = Ok inst ->
List.length (args_in inst) = num_in inst
/\ List.length (args_out inst) = num_out inst
/\ List.length (args_in_out inst) = num_in_out inst.
Proof. exact (subclass_counts simplify c src inst). Qed.

Lemma parsed_operand_counts_witness :
In subs AArch64Instruction_subclasses
/\ exists inst,
     parse keep (new subs) "subs x3, x4, #16" = Ok inst
     /\ List.length (args_in inst) = num_in inst
     /\ List.length (args_out inst) = num_out inst
     /\ List.length (args_in_out inst) = num_in_out inst.
Proof.
assert (Hc : In subs AArch64Instruction_subclasses)
  by (unfold AArch64Instruction_subclasses; cbn [In]; tauto).
split; [exact Hc |].
destruct (parse keep (new subs) "subs x3, x4, #16") as [inst | |] eqn:E;
  [| vm_compute in E; discriminate | vm_compute in E; discriminate].
exists inst. split; [reflexivity |].
exact (parsed_operand_counts keep subs "subs x3, x4, #16" inst Hc E).
Defined.

(** The datatype after a successful [parse]: none when the pattern of
  the variant has no datatype placeholder, else the list of one suffix
  for each placeholder, each in lower case: a lane count 2, 4, 8 or 16
  or none, followed by one of b, h, s, d. *)
Theorem parsed_datatype simplify c src inst ptn :
In c AArch64Instruction_subclasses ->
parse simplify (new c) src = Ok inst ->
pattern inst = Some ptn ->
match datatype inst with
| None => count "<dt" ptn = 0
| Some (DtList ds) =>
    ds <> [] /\ List.length ds = count "<dt" ptn
    /\ forall d, In d ds -> In d suffixes
| Some (DtStr _) => False
end.
Proof.
intros Hc Hp Hi.
destruct (subclass_parse_inv simplify c src inst Hc Hp)
  as (j & Hj & (_ & _ & _ & E4 & _ & _ & _ & _ & _ & E10)).
rewrite E4. rewrite E10 in Hi. clear E4 E10 Hp inst.
destruct (parse_inv (new c) src j (subclass_ok c Hc) Hj)
  as (ptn' & ts & c1 & es & vs & ai & ao & aio & Hptn & Htok & _ & Hx
      & Hm & _ & _ & _ & _ & Hvs & Hids & _ & _ & _ & ->).
destruct (made_fields (new c) (dt_read vs)
                      (option_map int_of_digits (group c1 "index"))
                      (group c1 "imm") ai ao aio Hx Hm)
  as (F1 & F2 & _).
rewrite F1, Hptn in Hi. inversion Hi; subst ptn'. rewrite F2.
pose proof subclasses_counted as Hk. rewrite forallb_forall in Hk.
specialize (Hk c Hc). unfold counts_ok in Hk. rewrite Hptn, Htok in Hk.
repeat (apply andb_true_iff in Hk; destruct Hk as [Hk _]).
apply Nat.eqb_eq in Hk. rewrite Hk, Hids, length_seq.
now apply dt_read_shape.
Qed.

Lemma parsed_datatype_witness :
In vmul_lane AArch64Instruction_subclasses
/\ exists inst ptn,
     parse keep (new vmul_lane) "mul v0.8h, v1.8h, v2.h[3]" = Ok inst
     /\ pattern inst = Some ptn
     /\ match datatype inst with
        | None => count "<dt" ptn = 0
        | Some (DtList ds) =>
            ds <> [] /\ List.length ds = count "<dt" ptn
            /\ forall d, In d ds -> In d suffixes
        | Some (DtStr _) => False
        end.
Proof.
assert (Hc : In vmul_lane AArch64Instruction_subclasses)
  by (unfold AArch64Instruction_subclasses;
      repeat (first [left; reflexivity | right])).
split; [exact Hc |].
destruct (parse keep (new vmul_lane) "mul v0.8h, v1.8h, v2.h[3]")
  as [inst | |] eqn:E;
  [| vm_compute in E; discriminate | vm_compute in E; discriminate].
destruct (pattern inst) as [ptn |] eqn:Ep;
  [| vm_compute in E; inversion E; subst inst; discriminate].
exists inst, ptn. split; [reflexivity |]. split; [exact Ep |].
exact (parsed_datatype keep vmul_lane "mul v0.8h, v1.8h, v2.h[3]" inst ptn
                       Hc E Ep).
Defined.

(** The immediate after a successful [parse]: none when the pattern of
  the variant has no [<imm>], else a text that is not empty, made of
  word characters, white space, [#], [=] and commas, and that starts
  with white space only when it is one character of white space. *)
Theorem parsed_immediate simplify c src inst ptn :
In c AArch64Instruction_subclasses ->
parse simplify (new c) src = Ok inst ->
pattern inst = Some ptn ->
match immediate inst with
| None => count "<imm>" ptn = 0
| Some v =>
    count "<imm>" ptn = 1 /\ v <> [] /\ forallb is_imm v = true
    /\ (forall a r, v = a :: r -> is_space a = true -> r = [])
end.
Proof.
intros Hc Hp Hi.
destruct (subclass_parse_inv simplify c src inst Hc Hp)
  as (j & Hj & (_ & _ & _ & _ & _ & E6 & _ & _ & _ & E10)).
rewrite E6. rewrite E10 in Hi. clear E6 E10 Hp inst.
destruct (parse_inv (new c) src j (subclass_ok c Hc) Hj)
  as (ptn' & ts & c1 & es & vs & ai & ao & aio & Hptn & Htok & Hok & Hx
      & Hm & _ & Hc1 & Hes & _ & _ & _ & _ & _ & _ & ->).
destruct (made_fields (new c) (dt_read vs)
                      (option_map int_of_digits (group c1 "index"))
                      (group c1 "imm") ai ao aio Hx Hm)
  as (F1 & _ & _ & F4 & _).
rewrite F1, Hptn in Hi. inversion Hi; subst ptn'. rewrite F4.
pose proof subclasses_counted as Hk. rewrite forallb_forall in Hk.
specialize (Hk c Hc). unfold counts_ok in Hk. rewrite Hptn, Htok in Hk.
apply andb_true_iff in Hk. destruct Hk as [Hk _].
apply andb_true_iff in Hk. destruct Hk as [Hk _].
apply andb_true_iff in Hk. destruct Hk as [Hk _].
apply andb_true_iff in Hk. destruct Hk as [Hk _].
apply andb_true_iff in Hk. destruct Hk as [_ Hcount].
apply Nat.eqb_eq in Hcount.
destruct (first_imm (new c) ts Hok c1 es Hc1 Hes)
  as [(Hin & v & E & Hv) | (Hn & E)]; unfold mi in E; rewrite E.
- assert (Hex : existsb is_TImm ts = true)
    by (apply existsb_exists; exists TImm; split; [exact Hin | reflexivity]).
  rewrite Hex in Hcount. split; [exact Hcount |].
  split; [destruct v; [discriminate Hv | discriminate] |].
  split; [now apply imm_shaped_all |].
  intros a r -> Ha. destruct r as [| b r]; [reflexivity |].
  cbn [imm_shaped] in Hv. rewrite Ha in Hv.
  rewrite andb_false_r in Hv. discriminate.
- now rewrite (not_inb_TImm _ Hn) in Hcount.
Qed.

Lemma parsed_immediate_witness :
In subs AArch64Instruction_subclasses
/\ exists inst ptn,
     parse keep (new subs) "subs x3, x4, #16" = Ok inst
     /\ pattern inst = Some ptn
     /\ match immediate inst with
        | None => count "<imm>" ptn = 0
        | Some v =>
            count "<imm>" ptn = 1 /\ v <> [] /\ forallb is_imm v = true
            /\ (forall a r, v = a :: r -> is_space a = true -> r = [])
        end.
Proof.
assert (Hc : In subs AArch64Instruction_subclasses)
  by (unfold AArch64Instruction_subclasses; cbn [In]; tauto).
split; [exact Hc |].
destruct (parse keep (new subs) "subs x3, x4, #16") as [inst | |] eqn:E;
  [| vm_compute in E; discriminate | vm_compute in E; discriminate].
destruct (pattern inst) as [ptn |] eqn:Ep;
  [| vm_compute in E; inversion E; subst inst; discriminate].
exists inst, ptn. split; [reflexivity |]. split; [exact Ep |].
exact (parsed_immediate keep subs "subs x3, x4, #16" inst ptn Hc E Ep).
Defined.

End ParseProps.

(** ** A comment behind a line *)

Module CommentFacts.
Import Neon NeonScan NeonRender ScanFacts ScanTokens ScanImm ScanProps
     RenderFacts Rescan Captures Emission RoundTrip Inverse WriteParse
     ParseFacts.

Lemma dropw_app_not p s t :
head_is p t = false -> dropw p (s ++ t) = dropw p s ++ t.
Proof.
intros Ht. induction s as [| a s IH]; cbn [app dropw].
- now apply dropw_head_not.
- destruct (p a); [exact IH | reflexivity].
Qed.

Lemma takew_app_not p s t :
head_is p t = false -> takew p (s ++ t) = takew p s.
Proof.
intros Ht. induction s as [| a s IH]; cbn [app takew].
- now apply takew_head_not.
- destruct (p a); [now rewrite IH | reflexivity].
Qed.

Lemma no_newline_app a b :
no_newline a = true -> no_newline b = true -> no_newline (a ++ b) = true.
Proof. unfold no_newline. rewrite forallb_app. now intros -> ->. Qed.

Section Comment.

Variable cm : str.
Hypothesis Hcm : no_newline cm = true.

(** Two slashes and the comment. *)
Definition tail : str := "/"%char :: "/"%char :: cm.

Lemma tail_space : head_is is_space tail = false.
Proof. reflexivity. Qed.

Lemma tail_digit : head_is is_digit tail = false.
Proof. reflexivity. Qed.

Lemma tail_word : head_is is_word tail = false.
Proof. reflexivity. Qed.

Lemma tail_imm : head_is is_imm tail = false.
Proof. reflexivity. Qed.

Lemma end_ok_tail s : end_ok s = true -> end_ok (s ++ tail) = true.
Proof.
unfold end_ok. rewrite (dropw_app_not _ s _ tail_space).
destruct (dropw is_space s) as [| a [| b r]]; try discriminate.
- intros _. cbn [app tail]. exact Hcm.
- intros H. cbn [app].
  apply andb_true_iff in H. destruct H as [H Hr]. rewrite H.
  cbn [andb]. apply no_newline_app; [exact Hr |].
  unfold tail, no_newline. cbn [forallb]. exact Hcm.
Qed.

Lemma dt_split_tail s v r :
dt_split s = Some (v, r) -> dt_split (s ++ tail) = Some (v, r ++ tail).
Proof.
unfold dt_split. destruct s as [| a s1]; [discriminate |]. cbn [app].
destruct (chr_eqb "2" a || chr_eqb "4" a || chr_eqb "8" a).
- destruct s1 as [| b s2]; [discriminate |]. cbn [app].
  destruct (dt_letter b); [| discriminate].
  intros H. inversion H. reflexivity.
- destruct (chr_eqb "1" a).
  + destruct s1 as [| b s2]; [discriminate |]. cbn [app].
    destruct (chr_eqb "6" b); [| discriminate].
    destruct s2 as [| d s3]; [discriminate |]. cbn [app].
    destruct (dt_letter d); [| discriminate].
    intros H. inversion H. reflexivity.
  + destruct (dt_letter a); [| discriminate].
    intros H. inversion H. reflexivity.
Qed.

Lemma imm_split_tail y v r :
imm_split y = Some (v, r) -> imm_split (y ++ tail) = Some (v, r ++ tail).
Proof.
unfold imm_split.
rewrite (takew_app_not _ y _ tail_space), (dropw_app_not _ y _ tail_space).
destruct (dropw is_space y) as [| a rest] eqn:E.
- cbn [app tail]. change (is_imm "/") with false. cbv iota.
  destruct (2 <=? List.length (takew is_space y)); [| discriminate].
  intros H. inversion H. reflexivity.
- cbn [app]. destruct (is_imm a) eqn:Ea.
  + destruct (1 <=? List.length (takew is_space y)); [| discriminate].
    intros H. inversion H; subst.
    change (a :: rest ++ tail) with ((a :: rest) ++ tail).
    now rewrite (takew_app_not _ _ _ tail_imm),
      (dropw_app_not _ _ _ tail_imm).
  + destruct (2 <=? List.length (takew is_space y)); [| discriminate].
    intros H. inversion H. reflexivity.
Qed.

(** What [scan] reads in a line it reads in the line with a comment
  behind it. *)
Theorem scan_tail :
forall n ts, List.length ts <= n ->
forall s c0 caps,
  scan ts s c0 = Some caps -> scan ts (s ++ tail) c0 = Some caps.
Proof.
induction n as [| n IH]; intros ts Hl s c0 caps H.
{ destruct ts; [| cbn in Hl; lia]. cbn [scan] in *.
  destruct (end_ok s) eqn:E; [| discriminate].
  now rewrite (end_ok_tail _ E). }
destruct ts as [| t r].
{ cbn [scan] in *. destruct (end_ok s) eqn:E; [| discriminate].
  now rewrite (end_ok_tail _ E). }
cbn [List.length] in Hl.
assert (IHr : forall s c, scan r s c = Some caps ->
                          scan r (s ++ tail) c = Some caps)
  by (intros s1 c1; apply IH; lia).
destruct t.
- cbn [scan] in *. destruct s as [| x s1]; [discriminate |].
  cbn [app]. destruct (chr_eqb c x); [| discriminate]. now apply IHr.
- cbn [scan] in *. rewrite (dropw_app_not _ s _ tail_space).
  destruct (dropw is_space s) as [| x y]; [discriminate |]. cbn [app].
  destruct (chr_eqb "." x); [| discriminate].
  rewrite (dropw_app_not _ y _ tail_space). now apply IHr.
- cbn [scan] in *. rewrite (dropw_app_not _ s _ tail_space).
  destruct (dropw is_space s) as [| x y]; [discriminate |]. cbn [app].
  destruct (chr_eqb "[" x); [| discriminate].
  rewrite (dropw_app_not _ y _ tail_space). now apply IHr.
- cbn [scan] in *. rewrite (dropw_app_not _ s _ tail_space).
  destruct (dropw is_space s) as [| x y]; [discriminate |]. cbn [app].
  destruct (chr_eqb "]" x); [| discriminate]. now apply IHr.
- cbn [scan] in *. destruct s as [| x s1]; [discriminate |].
  cbn [app]. destruct (is_space x); [| discriminate].
  rewrite (dropw_app_not _ s1 _ tail_space). now apply IHr.
- (* the comma *)
  rewrite scan_comma in *. rewrite (dropw_app_not _ s _ tail_space).
  destruct (dropw is_space s) as [| x y]; [discriminate |]. cbn [app].
  destruct (chr_eqb "," x); [| discriminate].
  destruct r as [| t2 r2]; [now apply IHr |].
  destruct t2; try (now apply IHr).
  destruct r2 as [| t3 r3]; [now apply IHr |].
  destruct t3; try (now apply IHr).
  destruct (imm_split y) as [[v r4] |] eqn:Ei; [| discriminate].
  rewrite (imm_split_tail _ _ _ Ei).
  apply (IH r3); [cbn [List.length] in Hl; lia | exact H].
- (* a register *)
  cbn [scan] in *. destruct s as [| x s1]; [discriminate |]. cbn [app].
  destruct (reg_letter_ok letter x); [| discriminate].
  destruct s1 as [| d1 r1]; [discriminate |]. cbn [app].
  destruct (is_digit d1).
  + destruct r1 as [| d2 r2].
    * cbn [app tail]. change (is_digit "/") with false. cbv iota.
      exact (IHr [] _ H).
    * cbn [app]. destruct (is_digit d2).
      -- now apply IHr.
      -- exact (IHr (d2 :: r2) _ H).
  + destruct (chr_eqb "<" d1); [| discriminate].
    rewrite (takew_app_not _ r1 _ tail_word),
      (dropw_app_not _ r1 _ tail_word).
    destruct (takew is_word r1) as [| w0 w]; [discriminate |].
    destruct (dropw is_word r1) as [| g r2]; [discriminate |].
    cbn [app]. destruct (chr_eqb ">" g); [| discriminate].
    now apply IHr.
- (* a datatype *)
  destruct i as [i |]; [| discriminate]. cbn [scan] in *.
  destruct (dt_split s) as [[v r1] |] eqn:Ed; [| discriminate].
  rewrite (dt_split_tail _ _ _ Ed). now apply IHr.
- discriminate.
- (* an index *)
  cbn [scan] in *. destruct s as [| d s1]; [discriminate |]. cbn [app].
  destruct (is_digit d); [| discriminate].
  rewrite (takew_app_not _ s1 _ tail_digit),
    (dropw_app_not _ s1 _ tail_digit).
  now apply IHr.
Qed.

Lemma parse_with_tail self src j :
class_ok self = true ->
AArch64Instruction_parse self src = Ok j ->
AArch64Instruction_parse self (src ++ tail) = Ok j.
Proof.
intros Hc. unfold class_ok in Hc.
destruct (pattern self) as [ptn |] eqn:Hptn; [| discriminate].
destruct (tokens_of ptn) as [ts |] eqn:Htok; [| discriminate].
apply andb_true_iff in Hc. destruct Hc as [Hc H3].
apply andb_true_iff in Hc. destruct Hc as [Htext Hok].
destruct (datatype self) eqn:Hdt; [discriminate |].
destruct (pattern_ok_inv _ _ _ _ Hok) as (_ & P2 & P3 & _).
rewrite !(parse_scan self ptn ts Hptn Htok P2 P3 Hdt).
rewrite (dropw_app_not _ src _ tail_space).
destruct (scan ts (dropw is_space src) []) as [c1 |] eqn:Hs;
  [| discriminate].
now rewrite (scan_tail (List.length ts) ts (le_n _) _ _ _ Hs).
Qed.

End Comment.

End CommentFacts.

Module CommentProps.
Import Neon NeonScan NeonRender WriteParse ParseFacts CommentFacts.

(** A comment behind a line changes nothing: when a subclass of
  [AArch64Instruction] parses a line, it parses the line followed by
  [//] and a comment (any text without a newline) to the same
  object. *)
Theorem parse_ignores_comment simplify c (src cm : str) inst :
In c AArch64Instruction_subclasses ->
no_newline cm = true ->
parse simplify (new c) src = Ok inst ->
parse simplify (new c) (src ++ of_string "//" ++ cm) = Ok inst.
Proof.
intros Hc Hcm. rewrite !(parse_subclass simplify c Hc).
change (src ++ of_string "//" ++ cm) with (src ++ tail cm).
destruct (is_lane c).
- unfold lane_parse.
  destruct (AArch64Instruction_parse (new c) src) as [j | |] eqn:Ej;
    try discriminate.
  now rewrite (parse_with_tail cm Hcm (new c) src j (subclass_ok c Hc) Ej).
- apply parse_with_tail; [exact Hcm | exact (subclass_ok c Hc)].
Qed.

Lemma parse_ignores_comment_witness :
In subs AArch64Instruction_subclasses
/\ no_newline (of_string " count down") = true
/\ exists inst,
     parse keep (new subs) "subs x3, x4, #16" = Ok inst
     /\ parse keep (new subs)
              (of_string "subs x3, x4, #16" ++ of_string "//"
               ++ of_string " count down") = Ok inst.
Proof.
assert (Hc : In subs AArch64Instruction_subclasses)
  by (unfold AArch64Instruction_subclasses;
      repeat (first [left; reflexivity | right])).
split; [exact Hc |]. split; [reflexivity |].
destruct (parse keep (new subs) "subs x3, x4, #16") as [inst | |] eqn:E;
  [| vm_compute in E; discriminate | vm_compute in E; discriminate].
exists inst. split; [reflexivity |].
exact (parse_ignores_comment keep subs "subs x3, x4, #16"
         (of_string " count down") inst Hc eq_refl E).
Defined.

End CommentProps.

(** ** The basic template of [Instruction.parse] *)

Module BasicParseProps.
Import Neon.

Lemma groups_length p n : List.length (groups p n) = n.
Proof. unfold groups. now rewrite length_map, length_seq. Qed.

(** [spread] on as many operands as the three lists take. *)
Lemma spread_ok operands self inst :
List.length operands = num_in self + num_out self + num_in_out self ->
spread operands (List.length operands) self = Ok inst ->
(num_out self = 0 \/ num_in_out self = 0)
/\ List.length (args_in inst) = num_in self
/\ List.length (args_out inst) = num_out self
/\ List.length (args_in_out inst) = num_in_out self.
Proof.
intros Hl. unfold spread.
cbn -[Nat.ltb Nat.eqb firstn skipn List.length].
destruct (0 <? num_out self) eqn:Eo;
  [| destruct (0 <? num_in_out self) eqn:Eio];
  cbn -[Nat.ltb Nat.eqb firstn skipn List.length];
  (match goal with
   | |- (if ?b then _ else _) = _ -> _ =>
       destruct b eqn:E; [| discriminate]
   end);
  apply Nat.eqb_eq in E; rewrite length_firstn, length_skipn in E;
  intros H; inversion H; subst inst;
  cbn -[Nat.ltb Nat.eqb firstn skipn List.length];
  rewrite ?length_firstn, ?length_skipn;
  try (apply Nat.ltb_lt in Eo); try (apply Nat.ltb_ge in Eo);
  try (apply Nat.ltb_lt in Eio); try (apply Nat.ltb_ge in Eio);
  cbn [List.length]; lia.
Qed.

(** [Instruction.parse] (the basic template) gives the first operands of
  a line to the outputs or else to the in-outs, and all the others to
  the inputs: it succeeds only on an object without outputs or without
  in-outs, and then every list holds as many operands as the object
  declares.  On an object with both it never succeeds. *)
Theorem basic_parse_fills_lists self src inst :
Instruction_parse self src = Ok inst ->
(num_out self = 0 \/ num_in_out self = 0)
/\ List.length (args_in inst) = num_in self
/\ List.length (args_out inst) = num_out self
/\ List.length (args_in_out inst) = num_in_out self.
Proof.
unfold Instruction_parse.
destruct (re_match _ (strip_comment src)) as [p |]; [| discriminate].
apply spread_ok. apply groups_length.
Qed.

Lemma basic_parse_fills_lists_witness :
exists inst,
  Instruction_parse (new qsave) "qsave slot0, v8 // spill" = Ok inst
  /\ (num_out (new qsave) = 0 \/ num_in_out (new qsave) = 0)
  /\ List.length (args_in inst) = num_in (new qsave)
  /\ List.length (args_out inst) = num_out (new qsave)
  /\ List.length (args_in_out inst) = num_in_out (new qsave).
Proof.
destruct (Instruction_parse (new qsave) "qsave slot0, v8 // spill")
  as [inst | |] eqn:E;
  [| vm_compute in E; discriminate | vm_compute in E; discriminate].
exists inst. split; [reflexivity |].
exact (basic_parse_fills_lists (new qsave) "qsave slot0, v8 // spill"
                               inst E).
Defined.

End BasicParseProps.

(** ** The searches of the driver *)

Module SearchExtras.
Import Heuristics DriverLogic DriverFrames DriverRuns SearchProps
     ObjectiveProps.

(** The settings of [a_config] without an objective. *)
Definition a_plain_config : Config :=
{| constraints := constraints a_config;
   hints := hints a_config;
   sw_pipelining := sw_pipelining a_config;
   timeout := timeout a_config;
   variable_size := false;
   ignore_objective := false;
   has_objective := false;
   inputs_are_outputs := false;
   outputs := [];
   rename_inputs := [];
   rename_outputs := [];
   visualize_reordering := false;
   log_dir := log_dir a_config;
   Arch := Arch a_config;
   Target := Target a_config;
   split_heuristic := false;
   split_heuristic_factor := split_heuristic_factor a_config;
   split_heuristic_stepsize := None;
   split_heuristic_repeat := 1;
   split_heuristic_region := split_heuristic_region a_config;
   split_heuristic_random := false;
   split_heuristic_chunks := [];
   split_heuristic_bottom_to_top := false;
   split_heuristic_optimize_seam := 0;
   split_heuristic_abort_cycle_at := None;
   split_heuristic_preprocess_naive_interleaving := false;
   split_heuristic_visualize_stalls := false;
   split_heuristic_visualize_units := false |}.

Definition a_plain_world : world := mk_world [a_plain_config] [] [].

Definition stall_limit_line (lg : Logger) : level * str * str :=
(Error, lname lg,
 txt "Exceeded stall limit without finding a working solution").

(** The loop of [optimize_binsearch_internal] with a solver that finds
  nothing. *)
Lemma internal_search_unsolved solver src lg conf kw cv fuel :
(forall c s k, solver c s k = Unsolved) ->
forall cur w,
  config_at w conf = Some cv ->
  (1 <= fuel)%nat ->
  (stalls_maximum_attempt (constraints cv) - Z.max 1 cur + 2
   + (if cur <? 1 then 1 else 0) <= Z.of_nat fuel)%Z ->
  exists extra pre,
    internal_search solver fuel src lg conf kw cur w
    = (inl (Exception "No solution found"),
       mk_world (heap w ++ extra) (pre ++ [stall_limit_line lg])
                (files w)).
Proof.
intros Hall.
induction fuel as [| fuel IH]; intros cur w Hc H1 Hm; [lia |].
cbn [internal_search]. unfold bind at 1.
rewrite (copy_run _ _ _ Hc). cbv beta iota.
unfold bind at 1. rewrite modify_last_run. cbv beta iota.
unfold bind at 1. rewrite modify_last_run. cbv beta iota.
unfold bind at 1, log at 1. cbv beta iota. cbn [heap logged files].
unfold bind at 1. rewrite (getc_run _ _ _ (config_at_last _ _ _ _)).
cbv beta iota. unfold bind at 1. rewrite Hall. cbn [run_solver].
unfold ret at 1. cbv beta iota. unfold bind at 1.
assert (Hc' : forall c1 l1,
           config_at (mk_world (heap w ++ [c1]) l1 (files w)) conf
           = Some cv).
{ intros c1 l1. destruct w as [h l0 f0]. eapply config_at_old.
  exact Hc. }
rewrite (getc_run _ _ _ (Hc' _ _)). cbv beta iota.
destruct (stalls_maximum_attempt (constraints cv) <? Z.max 1 (cur * 2))%Z
  eqn:El.
- unfold bind, log, raise. cbn [heap logged files].
  eexists. eexists. reflexivity.
- apply Z.ltb_ge in El.
  match goal with
  | |- context [internal_search solver fuel src lg conf kw ?c ?w'] =>
      destruct (IH c w') as (extra & pre & E)
  end.
  + apply Hc'.
  + destruct fuel; [| lia].
    destruct (cur <? 1)%Z eqn:E1;
      [apply Z.ltb_lt in E1 | apply Z.ltb_ge in E1]; lia.
  + destruct (cur <? 1)%Z eqn:E1;
      [apply Z.ltb_lt in E1 | apply Z.ltb_ge in E1];
      destruct (Z.max 1 (cur * 2) <? 1)%Z eqn:E2;
      try (apply Z.ltb_lt in E2); try (apply Z.ltb_ge in E2); lia.
  + rewrite E. cbn [heap logged files]. rewrite <- app_assoc.
    eexists. eexists. reflexivity.
Qed.

(** When the solver finds nothing, whatever the stalls it is allowed,
  [optimize_binsearch_internal] ends: the doubling of the stalls passes
  [stalls_maximum_attempt], the error is logged and the exception
  "No solution found" is raised.  Configurations were copied, none was
  changed, and no file was written. *)
Theorem internal_search_gives_up solver src lg conf kw w cv :
config_at w conf = Some cv ->
(forall c s k, solver c s k = Unsolved) ->
exists extra pre,
  optimize_binsearch_internal solver src lg conf kw w
  = (inl (Exception "No solution found"),
     mk_world (heap w ++ extra) (pre ++ [stall_limit_line lg]) (files w)).
Proof.
intros Hc Hall. unfold optimize_binsearch_internal.
unfold bind at 1, log at 1. cbv beta iota.
assert (Hc0 : config_at (mk_world (heap w) (logged w ++ [search_line lg])
                                  (files w)) conf = Some cv) by exact Hc.
unfold bind at 1. unfold search_line in *.
rewrite (getc_run _ _ _ Hc0). cbv beta iota.
unfold bind at 1.
edestruct (internal_search_unsolved
             solver src lg conf kw cv
             (internal_fuel (stalls_first_attempt (constraints cv))
                            (stalls_maximum_attempt (constraints cv)))
             Hall (stalls_first_attempt (constraints cv)) _ Hc0)
  as (extra & pre & E).
- unfold internal_fuel. lia.
- unfold internal_fuel.
  destruct (stalls_first_attempt (constraints cv) <? 1)%Z eqn:E1;
    [apply Z.ltb_lt in E1 | apply Z.ltb_ge in E1]; lia.
- rewrite E. cbn [heap logged files]. exists extra, pre. reflexivity.
Qed.

Lemma internal_search_gives_up_witness :
exists extra pre,
  optimize_binsearch_internal no_solver (Lines two_lines) a_logger 0%nat
                              no_kwargs a_world
  = (inl (Exception "No solution found"),
     mk_world (heap a_world ++ extra) (pre ++ [stall_limit_line a_logger])
              (files a_world)).
Proof.
exact (internal_search_gives_up no_solver (Lines two_lines) a_logger 0%nat
         no_kwargs a_world a_config eq_refl (fun _ _ _ => eq_refl)).
Defined.

(** Without an objective neither search runs a second time:
  [optimize_binsearch_external] returns [core.result] of the binary
  search as it is, in the state the search left;
  [optimize_binsearch_internal] returns the result of the first attempt
  that succeeded, and logs its stalls.  No configuration is copied for
  a second run and nothing is retried. *)
Theorem no_objective_single_run
      solver solver_retry binary_search config_lines src lg conf kw w cv :
config_at w conf = Some cv ->
has_objective cv = false ->
(forall s core w1,
    optimize_binsearch_core
      solver binary_search config_lines src lg (List.length (heap w)) kw
      (mk_world (heap w ++ [set_ignore_objective true cv])
                (logged w ++ [search_line lg]) (files w))
    = (inr (Some (s, core)), w1) ->
    optimize_binsearch_external solver solver_retry binary_search
                                config_lines src lg conf true kw w
    = (match core_result core with
       | Some r => inr r
       | None => inl (Exception "core has no result")
       end, w1)) /\
(forall first w1,
    internal_search
      solver
      (internal_fuel (stalls_first_attempt (constraints cv))
                     (stalls_maximum_attempt (constraints cv)))
      src lg conf kw (stalls_first_attempt (constraints cv))
      (mk_world (heap w) (logged w ++ [search_line lg]) (files w))
    = (inr first, w1) ->
    optimize_binsearch_internal solver src lg conf kw w
    = (inr first,
       mk_world (heap w1)
                (logged w1
                   ++ [(Info, lname lg,
                        txt "Minimum number of stalls: "
                          ++ str_of_Z (stalls first))])
                (files w1))).
Proof.
intros Hc Hobj. split.
- intros s core w1 Hcore.
  pose proof (optimize_binsearch_core_found
                solver binary_search config_lines src lg
                (List.length (heap w)) kw (set_ignore_objective true cv)
                _ s core w1 (config_at_last _ _ _ _) Hcore)
    as ((extra & He) & _).
  unfold optimize_binsearch_external. cbn [negb].
  unfold bind at 1, log at 1. cbv beta iota.
  unfold bind at 1.
  rewrite (copy_run (mk_world (heap w) _ (files w)) conf cv) by exact Hc.
  cbv beta iota. cbn [heap logged files].
  unfold bind at 1. rewrite modify_last_run. cbv beta iota.
  unfold bind at 1. unfold search_line in Hcore. rewrite Hcore.
  cbv beta iota.
  assert (Hc1 : config_at w1 conf = Some cv).
  { destruct w as [h l0 f0], w1 as [h1 l1 f1]. cbn [heap] in He.
    subst h1. rewrite <- app_assoc. eapply config_at_old. exact Hc. }
  unfold bind at 1. rewrite (getc_run _ _ _ Hc1). cbv beta iota.
  rewrite Hobj. cbn [negb]. unfold result_of.
  destruct (core_result core); reflexivity.
- intros first w1 Hsearch.
  unfold optimize_binsearch_internal.
  unfold bind at 1, log at 1. cbv beta iota.
  assert (Hc0 : config_at (mk_world (heap w) (logged w ++ [search_line lg])
                                    (files w)) conf = Some cv) by exact Hc.
  unfold bind at 1. unfold search_line in *.
  rewrite (getc_run _ _ _ Hc0). cbv beta iota.
  unfold bind at 1. rewrite Hsearch. cbv beta iota.
  assert (Hc1 : config_at w1 conf = Some cv).
  { pose proof (internal_search_ok
                  solver (List.length (heap w)) untouched
                  (fun _ _ => eq_refl)
                  (fun _ a b c (H1 : a = b) (H2 : b = c) => eq_trans H1 H2)
                  (internal_fuel (stalls_first_attempt (constraints cv))
                                 (stalls_maximum_attempt (constraints cv)))
                  src lg conf kw (stalls_first_attempt (constraints cv))
                  (mk_world (heap w)
                            (logged w
                               ++ [(Info, lname lg,
                                    txt "Perform binary search for minimal number of stalls...")])
                            (files w))
                  (le_n _))
      as [Hext _].
    rewrite Hsearch in Hext. cbn [snd] in Hext.
    eapply untouched_kept; [exact Hext | | exact Hc0].
    apply (config_at_bound _ _ _ Hc). }
  unfold bind at 1, log at 1. cbv beta iota.
  assert (Hc2 : forall l', config_at (mk_world (heap w1) l' (files w1)) conf
                           = Some cv) by (intros; exact Hc1).
  unfold bind at 1. rewrite (getc_run _ _ _ (Hc2 _)). cbv beta iota.
  rewrite Hobj. reflexivity.
Qed.

Lemma no_objective_single_run_witness :
fst (optimize_binsearch_internal a_solver (Lines two_lines) a_logger 0%nat
                                 no_kwargs a_plain_world)
= inr (a_result two_lines 2).
Proof.
destruct (no_objective_single_run
            a_solver no_retry a_binary_search a_config_lines
            (Lines two_lines) a_logger 0%nat no_kwargs a_plain_world
            a_plain_config eq_refl eq_refl) as [_ Hint].
rewrite (Hint (a_result two_lines 2)
              (snd (internal_search
                      a_solver
                      (internal_fuel
                         (stalls_first_attempt (constraints a_plain_config))
                         (stalls_maximum_attempt
                            (constraints a_plain_config)))
                      (Lines two_lines) a_logger 0%nat no_kwargs
                      (stalls_first_attempt (constraints a_plain_config))
                      (mk_world (heap a_plain_world)
                                (logged a_plain_world
                                   ++ [search_line a_logger])
                                (files a_plain_world))))).
- reflexivity.
- vm_compute. reflexivity.
Defined.

(** With software pipelining disabled (and [inputs_are_outputs] not
  set), [periodic] only forwards to [linear]: the body, its lines
  joined by newlines and not unrolled, is handed to [linear] on the
  caller's configuration; what [linear] returns comes back as the
  kernel, with an empty preamble, an empty postamble and no
  exceptional iteration; an exception of [linear] is passed on.
  Nothing is logged or copied besides what [linear] does. *)
Theorem periodic_forwards_to_linear
      solver solver_retry binary_search dfg dfg_config_outputs
      reduce_source config_lines naive_order stall_chart
      idx_list_consecutive idxs_from_fractions round_div randint
      body lg conf w cv :
config_at w conf = Some cv ->
enabled (sw_pipelining cv) = false ->
inputs_are_outputs cv = false ->
periodic solver solver_retry binary_search dfg dfg_config_outputs
         reduce_source config_lines naive_order stall_chart
         idx_list_consecutive idxs_from_fractions round_div randint
         body lg conf w
= let (r, w') :=
    linear solver solver_retry binary_search dfg dfg_config_outputs
           reduce_source config_lines naive_order stall_chart
           idx_list_consecutive idxs_from_fractions round_div randint
           (Text (join [newline] body)) lg conf w in
  (match r with
   | inr kernel => inr ([], kernel, [], 0%Z)
   | inl e => inl e
   end, w').
Proof.
intros Hc Hen Hio. unfold periodic.
unfold bind at 1. rewrite (getc_run _ _ _ Hc). cbv beta iota.
rewrite Hen, Hio. cbn [andb negb].
unfold bind at 1, ret at 1. cbv beta iota.
unfold bind at 1, ret at 1. cbv beta iota.
unfold bind at 1. rewrite (getc_run _ _ _ Hc). cbv beta iota.
rewrite Hen. cbn [negb]. unfold bind at 1.
destruct (linear _ _ _ _ _ _ _ _ _ _ _ _ _ _ lg conf w) as [[e | k] w'];
  reflexivity.
Qed.

Lemma periodic_forwards_to_linear_witness :
periodic a_solver no_retry a_binary_search a_dfg no_dfg_outputs
         a_reduce_source a_config_lines no_order no_chart one_chunk
         no_fractions a_round_div a_randint
         two_lines a_logger 0%nat a_plain_world
= let (r, w') :=
    linear a_solver no_retry a_binary_search a_dfg no_dfg_outputs
           a_reduce_source a_config_lines no_order no_chart one_chunk
           no_fractions a_round_div a_randint
           (Text (join [newline] two_lines)) a_logger 0%nat
           a_plain_world in
  (match r with
   | inr kernel => inr ([], kernel, [], 0%Z)
   | inl e => inl e
   end, w').
Proof.
exact (periodic_forwards_to_linear
         a_solver no_retry a_binary_search a_dfg no_dfg_outputs
         a_reduce_source a_config_lines no_order no_chart one_chunk
         no_fractions a_round_div a_randint
         two_lines a_logger 0%nat a_plain_world a_plain_config
         eq_refl eq_refl eq_refl).
Defined.

End SearchExtras.

(** ** The dump of a source without its comments *)

Module DumpProps.
Import Heuristics DriverRuns.

Lemma startswith_inv p : forall s, startswith p s = true -> exists r, s = p ++ r.
Proof.
induction p as [| a p IH]; intros s H; [now exists s |].
destruct s as [| b s]; [discriminate |]. cbn [startswith] in H.
apply andb_true_iff in H. destruct H as [Hab Hs].
apply Ascii.eqb_eq in Hab. subst b.
destruct (IH s Hs) as [r ->]. now exists r.
Qed.

Lemma startswith_more p : forall s r,
startswith p s = true -> startswith p (s ++ r) = true.
Proof.
induction p as [| a p IH]; intros s r H; [reflexivity |].
destruct s as [| b s]; [discriminate |]. cbn [startswith app] in *.
apply andb_true_iff in H. destruct H as [Hab Hs].
now rewrite Hab, IH.
Qed.

(** [s.split(sep)[0]] is the text in front of the first [sep]. *)
Lemma before_split sep s :
exists rest, s = before sep s ++ rest
             /\ (rest = [] \/ startswith sep rest = true).
Proof.
induction s as [| c s IH].
- exists []. auto.
- cbn [before]. destruct (startswith sep (c :: s)) eqn:E.
  + exists (c :: s). auto.
  + destruct IH as (rest & Hs & Hr). exists rest.
    split; [cbn [app]; now rewrite <- Hs | exact Hr].
Qed.

Lemma before_clean sep s :
sep <> [] -> forall pre post, before sep s <> pre ++ sep ++ post.
Proof.
intros Hsep. induction s as [| c s IH]; intros pre post H.
- destruct pre; [destruct sep; [congruence | discriminate] | discriminate].
- cbn [before] in H. destruct (startswith sep (c :: s)) eqn:E.
  + destruct pre; [destruct sep; [congruence | discriminate]
                  | discriminate].
  + destruct pre as [| a pre].
    * cbn [app] in H.
      destruct (before_split sep s) as (rest & Hs & _).
      assert (E' : startswith sep (c :: s) = true).
      { rewrite Hs. change (c :: before sep s ++ rest)
          with ((c :: before sep s) ++ rest).
        apply startswith_more. rewrite H.
        clear. induction sep as [| a sep IH]; [reflexivity |].
        cbn [app startswith]. unfold chr_eqb.
        now rewrite Ascii.eqb_refl, IH. }
      congruence.
    * cbn [app] in H. inversion H. eapply IH. eassumption.
Qed.

(** No [sep] stands in [s] before the end of [s.split(sep)[0]]. *)
Lemma before_first sep s :
forall u v, s = u ++ sep ++ v ->
            List.length (before sep s) <= List.length u.
Proof.
induction s as [| c s IH]; intros u v H; [cbn; lia |].
cbn [before]. destruct (startswith sep (c :: s)) eqn:E; [cbn; lia |].
destruct u as [| a u].
- cbn [app] in H. rewrite H in E.
  assert (E' : startswith sep (sep ++ v) = true).
  { clear. induction sep as [| a sep IH]; [reflexivity |].
    cbn [app startswith]. unfold chr_eqb.
    now rewrite Ascii.eqb_refl, IH. }
  congruence.
- cbn [app] in H. injection H as _ H. cbn [List.length].
  specialize (IH u v H). lia.
Qed.

Lemma lstrip_split s :
exists a, s = a ++ lstrip s /\ forallb is_space a = true.
Proof.
induction s as [| c s IH]; [now exists [] |]. cbn [lstrip].
destruct (is_space c) eqn:E.
- destruct IH as (a & Hs & Ha). exists (c :: a).
  split; [cbn [app]; now rewrite <- Hs | cbn [forallb]; now rewrite E].
- now exists [].
Qed.

Lemma lstrip_head s c r : lstrip s = c :: r -> is_space c = false.
Proof.
induction s as [| a s IH]; [discriminate |]. cbn [lstrip].
destruct (is_space a) eqn:E; [exact IH |].
intros H. inversion H; subst. exact E.
Qed.

Lemma forallb_rev (p : ascii -> bool) l :
forallb p l = true -> forallb p (rev l) = true.
Proof.
intros H. apply forallb_forall. intros x Hx. apply in_rev in Hx.
rewrite forallb_forall in H. now apply H.
Qed.

(** [s.strip()] is [s] without the white space at its two ends. *)
Lemma strip_split s :
exists a b, s = a ++ strip s ++ b
            /\ forallb is_space a = true /\ forallb is_space b = true.
Proof.
unfold strip.
destruct (lstrip_split s) as (a & Hs & Ha).
destruct (lstrip_split (rev (lstrip s))) as (b & Hr & Hb).
exists a, (rev b). split; [| split; [exact Ha | now apply forallb_rev]].
rewrite Hs at 1. f_equal.
rewrite <- (rev_involutive (lstrip s)) at 1. rewrite Hr at 1.
now rewrite rev_app_distr.
Qed.

Lemma strip_ends s :
(forall c r, strip s = c :: r -> is_space c = false)
/\ (forall c r, strip s = r ++ [c] -> is_space c = false).
Proof.
split; intros c r H.
- destruct (lstrip_split (rev (lstrip s))) as (b & Hr & Hb).
  assert (E : lstrip s = strip s ++ rev b).
  { unfold strip. rewrite <- (rev_involutive (lstrip s)) at 1.
    rewrite Hr at 1. now rewrite rev_app_distr. }
  rewrite H in E. cbn [app] in E. exact (lstrip_head _ _ _ E).
- unfold strip in H. apply (f_equal (@rev ascii)) in H.
  rewrite rev_involutive, rev_app_distr in H. cbn [rev app] in H.
  exact (lstrip_head _ _ _ H).
Qed.

(** [Heuristics._dump] with [no_comments]: after the title, one line is
  logged for each line of the source, at the level of the title (error
  or debug); the line logged is the text in front of the first [//] of
  the source line (no [//] of the line starts before the end of that
  text), without the white space at its ends, so that it holds no [//]
  and neither starts nor ends with white space.  No configuration and
  no file is touched. *)
Theorem dump_without_comments name (sl : list str) lg err w :
exists lines,
  _dump name (Lines sl) lg err true w
  = (inr tt,
     mk_world (heap w)
              (logged w
                 ++ (if err then Error else Debug, lname lg,
                     txt "Dump: " ++ name)
                 :: map (fun l => (if err then Error else Debug, lname lg,
                                   txt "> " ++ l)) lines)
              (files w))
  /\ Forall2
       (fun s l =>
          (exists a b rest,
              s = a ++ l ++ b ++ rest
              /\ forallb is_space a = true /\ forallb is_space b = true
              /\ (rest = [] \/ startswith (txt "//") rest = true)
              /\ (forall u v, s = u ++ txt "//" ++ v ->
                              List.length (a ++ l ++ b)
                              <= List.length u))
          /\ (forall pre post, l <> pre ++ txt "//" ++ post)
          /\ (forall c r, l = c :: r -> is_space c = false)
          /\ (forall c r, l = r ++ [c] -> is_space c = false))
       sl lines.
Proof.
exists (strip_comments sl). split.
- rewrite dump_run. now rewrite map_map.
- unfold strip_comments. induction sl as [| s sl IH]; [constructor |].
  cbn [map]. constructor; [| exact IH].
  destruct (before_split (txt "//") s) as (rest & Hs & Hrest).
  destruct (strip_split (before (txt "//") s)) as (a & b & Hb & Ha & Hbb).
  split; [| split].
  + exists a, b, rest. split; [| split; [| split; [| split]]]; auto.
    * rewrite Hs at 1. rewrite Hb at 1. now rewrite <- !app_assoc.
    * intros u v Hu. rewrite <- Hb.
      exact (before_first (txt "//") s u v Hu).
  + intros pre post H.
    apply (before_clean (txt "//") s) with (pre := a ++ pre)
                                            (post := post ++ b);
      [discriminate |].
    rewrite Hb at 1. rewrite H. now rewrite <- !app_assoc.
  + apply strip_ends.
Qed.

(** Two lines with comments: of [x///y] the text [x] is logged, not
  [x/]. *)
Lemma dump_without_comments_witness :
exists lines,
  lines = [txt "add x0, x1, x2"; txt "x"]
  /\ _dump (txt "kernel")
           (Lines [txt "  add x0, x1, x2  // sum"; txt "x///y"])
           a_logger false true a_world
     = (inr tt,
        mk_world [a_config]
                 [(Debug, lname a_logger, txt "Dump: kernel");
                  (Debug, lname a_logger, txt "> add x0, x1, x2");
                  (Debug, lname a_logger, txt "> x")]
                 [])
  /\ Forall2
       (fun s l =>
          (exists a b rest,
              s = a ++ l ++ b ++ rest
              /\ forallb is_space a = true /\ forallb is_space b = true
              /\ (rest = [] \/ startswith (txt "//") rest = true)
              /\ (forall u v, s = u ++ txt "//" ++ v ->
                              List.length (a ++ l ++ b)
                              <= List.length u))
          /\ (forall pre post, l <> pre ++ txt "//" ++ post)
          /\ (forall c r, l = c :: r -> is_space c = false)
          /\ (forall c r, l = r ++ [c] -> is_space c = false))
       [txt "  add x0, x1, x2  // sum"; txt "x///y"] lines.
Proof.
destruct (dump_without_comments
            (txt "kernel")
            [txt "  add x0, x1, x2  // sum"; txt "x///y"]
            a_logger false a_world) as (lines & E & F).
exists lines.
assert (L : lines = [txt "add x0, x1, x2"; txt "x"]).
{ assert (E0 : _dump (txt "kernel")
                     (Lines [txt "  add x0, x1, x2  // sum"; txt "x///y"])
                     a_logger false true a_world
               = (inr tt,
                  mk_world [a_config]
                    [(Debug, lname a_logger, txt "Dump: kernel");
                     (Debug, lname a_logger, txt "> add x0, x1, x2");
                     (Debug, lname a_logger, txt "> x")]
                    []))
    by (vm_compute; reflexivity).
  rewrite E0 in E. injection E as E.
  destruct lines as [| l1 [| l2 [| l3 ls]]]; try discriminate E.
  injection E as E1 E2.
  now subst. }
split; [exact L |]. split; [| exact F].
rewrite E, L. reflexivity.
Defined.

End DumpProps.


(** ** The patterns of the variants with a [parse] of their own *)

Module LineFacts.
Import Neon NeonScan NeonLine ScanFacts ScanTokens ScanImm Rescan.

Lemma space_not_word a : is_space a = true -> is_word a = false.
Proof.
intros H. destruct (is_word a) eqn:E; [| reflexivity].
rewrite (word_not_space _ E) in H. discriminate.
Qed.

(** *** Where a greedy repetition stops *)

Section Settle.

Variable A : Type.

(** A continuation that refuses a string that starts in the class, or
  takes it as it takes the string without its first character, is
  met behind the longest run. *)
Lemma greedy_soft (p : ascii -> bool) (k : cont A) :
(forall a s c, p a = true ->
               k (a :: s) c = None \/ k (a :: s) c = k s c) ->
forall s c, greedy p k s c = k (dropw p s) c.
Proof.
intros Hk.
assert (Hn : forall s c, k (dropw p s) c = None -> k s c = None).
{ induction s as [| a s IH]; intros c; cbn [dropw]; auto.
  destruct (p a) eqn:E; auto. intros H.
  destruct (Hk a s c E) as [H1 | H1]; [exact H1 |].
  rewrite H1. now apply IH. }
induction s as [| a s IH]; intros c; cbn [greedy dropw]; auto.
destruct (p a) eqn:E; auto.
rewrite IH. destruct (k (dropw p s) c) eqn:Ek; [reflexivity |].
apply Hn. cbn [dropw]. now rewrite E.
Qed.

(** A continuation that never fails is met behind the longest run. *)
Lemma greedy_settles (p : ascii -> bool) (k : cont A) :
(forall s c, k s c <> None) ->
forall s c, greedy p k s c = k (dropw p s) c.
Proof.
intros Hk. induction s as [| a s IH]; intros c; cbn [greedy dropw]; auto.
destruct (p a) eqn:E; auto.
rewrite IH. destruct (k (dropw p s) c) eqn:Ek; [reflexivity |].
now apply Hk in Ek.
Qed.

Lemma rmatch_lit n0 (l : str) (k : cont A) :
forall s c,
  rmatch n0 (Lit l) s c k
  = if startswith l s then k (skipn (List.length l) s) c else None.
Proof.
induction l as [| x l IH]; intros s c; [reflexivity |].
cbn [Lit]. rewrite rmatch_seq. unfold Chr at 1. rewrite rmatch_cls.
destruct s as [| a s]; [reflexivity |].
cbn [startswith List.length skipn].
destruct (chr_eqb x a); [apply IH | reflexivity].
Qed.

End Settle.

(** *** What [read] refuses *)

Lemma rejw_sound r :
rejw r = true ->
forall a s c, is_word a = true -> read r (a :: s) c = None.
Proof.
induction r as [| p r IH]; [discriminate |].
destruct p as [l | some sh | b | some g | g]; cbn [rejw];
  intros H a s c Ha; try discriminate.
- destruct l as [| x l]; [discriminate |].
  cbn [read startswith]. destruct (chr_eqb x a) eqn:E; [| reflexivity].
  apply chr_eqb_eq in E. subst x. rewrite Ha in H. discriminate.
- destruct some; cbn [read].
  + now rewrite (word_not_space _ Ha).
  + cbn [dropw]. rewrite (word_not_space _ Ha). now apply IH.
- cbn [read]. destruct (chr_eqb b a) eqn:E; [| reflexivity].
  apply chr_eqb_eq in E. subst b. rewrite Ha in H. discriminate.
Qed.

Lemma soft_sound r :
soft r = true ->
forall a s c, is_space a = true ->
              read r (a :: s) c = None \/ read r (a :: s) c = read r s c.
Proof.
destruct r as [| p r]; [now right |].
destruct p as [l | some sh | b | some g | g]; cbn [soft];
  intros H a s c Ha; try discriminate.
- destruct l as [| x l]; [discriminate |]. left.
  cbn [read startswith]. destruct (chr_eqb x a) eqn:E; [| reflexivity].
  apply chr_eqb_eq in E. subst x. rewrite Ha in H. discriminate.
- destruct some; [discriminate |]. right.
  cbn [read dropw]. now rewrite Ha.
- left. cbn [read]. destruct (chr_eqb b a) eqn:E; [| reflexivity].
  apply chr_eqb_eq in E. subst b. rewrite Ha in H. discriminate.
- destruct some.
  + left. cbn [read takew]. now rewrite (space_not_word _ Ha).
  + destruct r as [| q r]; [discriminate |].
    destruct q as [l | some sh | b | some g' | g']; try discriminate.
    destruct some; [discriminate |].
    cbn [read takew dropw]. rewrite (space_not_word _ Ha).
    cbn [dropw]. rewrite Ha.
    destruct s as [| b s]; [now right |].
    cbn [takew dropw]. destruct (is_word b) eqn:Eb.
    * left. rewrite (word_not_space _ Eb).
      now apply rejw_sound.
    * now right.
Qed.

Lemma total_sound r :
total r = true -> forall s c, read r s c <> None.
Proof.
induction r as [| p r IH]; [discriminate |].
unfold total. cbn [forallb]. intros H s c.
apply andb_true_iff in H. destruct H as [Hp Hr].
destruct p as [l | some sh | b | some g | g]; try discriminate;
  try (destruct some; try discriminate); cbn [read]; now apply IH.
Qed.

(** *** [read] finds what the expression finds *)

Section Read.

Variable n0 : nat.

Lemma word_run r g (s0 s : str) c :
(rejw r || total r) = true ->
greedy is_word
       (fun s' c' =>
          read r s' ((g, firstn (List.length s0 - List.length s') s0)
                       :: c')) s c
= read r (dropw is_word s)
       ((g, firstn (List.length s0 - List.length (dropw is_word s)) s0)
          :: c).
Proof.
intros H. apply orb_true_iff in H. destruct H as [H | H].
- apply (@greedy_rejects caps is_word
           (fun s' c' =>
              read r s' ((g, firstn (List.length s0 - List.length s') s0)
                           :: c'))).
  intros a s1 c1 Ha. now apply rejw_sound.
- apply (@greedy_settles caps is_word
           (fun s' c' =>
              read r s' ((g, firstn (List.length s0 - List.length s') s0)
                           :: c'))).
  intros s1 c1. now apply total_sound.
Qed.

Lemma space_run r (s : str) c :
(soft r || total r) = true ->
greedy is_space (read r) s c = read r (dropw is_space s) c.
Proof.
intros H. apply orb_true_iff in H. destruct H as [H | H].
- apply greedy_soft. now apply soft_sound.
- apply greedy_settles. now apply total_sound.
Qed.

Lemma read_matches ps :
wfp ps = true ->
forall s c,
  rmatch n0 (line_re ps) s c (fun _ c' => Some c') = read ps s c.
Proof.
induction ps as [| p r IH]; intros H s c; [reflexivity |].
assert (Hr : wfp r = true).
{ destruct p; cbn [wfp] in H; auto;
    apply andb_true_iff in H; tauto. }
unfold line_re. cbn [map Seqs]. rewrite rmatch_seq.
rewrite (@rmatch_ext caps n0 (piece_re p) _ (read r))
  by (intros s' c'; apply (IH Hr)).
destruct p as [l | some sh | b | some g | g]; cbn [wfp] in H;
  cbn [piece_re read].
- apply rmatch_lit.
- apply andb_true_iff in H. destruct H as [Hs _].
  destruct some.
  + unfold Plus, sp. rewrite rmatch_seq, rmatch_cls.
    destruct s as [| x s]; [reflexivity |].
    destruct (is_space x); [| reflexivity].
    rewrite rmatch_star_cls. now apply space_run.
  + unfold sp. rewrite rmatch_star_cls. now apply space_run.
- unfold Chr. apply rmatch_cls.
- apply andb_true_iff in H. destruct H as [Hw _].
  destruct some.
  + unfold word. rewrite rmatch_grp. unfold Plus, wd.
    rewrite rmatch_seq, rmatch_cls.
    destruct s as [| a s]; [reflexivity |]. cbn [takew dropw].
    destruct (is_word a) eqn:Ea; [| reflexivity].
    rewrite rmatch_star_cls. rewrite (word_run r g (a :: s) s c Hw).
    pose proof (firstn_takew is_word (a :: s)) as F.
    cbn [takew dropw] in F. rewrite Ea in F. rewrite F. reflexivity.
  + rewrite rmatch_grp. unfold wd. rewrite rmatch_star_cls.
    rewrite (word_run r g s s c Hw).
    now rewrite firstn_takew.
- apply andb_true_iff in H. destruct H as [Ht _].
  rewrite rmatch_grp. change dot with (Cls not_newline).
  rewrite rmatch_star_cls.
  rewrite (@greedy_settles caps not_newline
             (fun s' c' =>
                read r s' ((g, firstn (List.length s - List.length s') s)
                             :: c'))).
  + now rewrite firstn_takew.
  + intros s1 c1. now apply total_sound.
Qed.


End Read.

End LineFacts.


(** ** What is read from a line, and from the line written *)

Module LineRound.
Import Neon NeonScan NeonLine ScanFacts ScanTokens ScanImm RenderFacts Rescan
     LineFacts.

(** What [read] finds are values of the shape of the pieces, the last
  one first. *)
Lemma read_entries ps :
forall s c0 c,
  read ps s c0 = Some c ->
  exists vals, shaped ps vals = true /\ c = rev (entries ps vals) ++ c0.
Proof.
induction ps as [| p r IH]; intros s c0 c H.
- exists []. cbn in H. injection H as <-. now split.
- destruct p as [l | some sh | b | some g | g]; cbn [read] in H.
  + destruct (startswith l s); [| discriminate].
    exact (IH _ _ _ H).
  + destruct some.
    * destruct s as [| x s]; [discriminate |].
      destruct (is_space x); [| discriminate]. exact (IH _ _ _ H).
    * exact (IH _ _ _ H).
  + destruct s as [| x s]; [discriminate |].
    destruct (chr_eqb b x); [| discriminate]. exact (IH _ _ _ H).
  + assert (Hw : forallb is_word (takew is_word s) = true)
      by apply takew_all.
    destruct some.
    * destruct (takew is_word s) as [| a w] eqn:E; [discriminate |].
      destruct (IH _ _ _ H) as (vals & Hs & Hc).
      exists ((a :: w) :: vals). cbn [shaped entries rev].
      rewrite Hw, Hs. split; [reflexivity |].
      rewrite <- app_assoc. exact Hc.
    * destruct (IH _ _ _ H) as (vals & Hs & Hc).
      exists (takew is_word s :: vals). cbn [shaped entries rev].
      rewrite Hw, Hs. split; [reflexivity |].
      rewrite <- app_assoc. exact Hc.
  + destruct (IH _ _ _ H) as (vals & Hs & Hc).
    exists (takew not_newline s :: vals). cbn [shaped entries rev].
    rewrite takew_all, Hs. split; [reflexivity |].
    rewrite <- app_assoc. exact Hc.
Qed.

(** The first character of the text of pieces. *)
Lemma off_space_head r :
off_space r = true ->
forall vals, shaped r vals = true ->
             head_is is_space (text r vals) = false.
Proof.
induction r as [| p r IH]; [reflexivity |].
destruct p as [l | some sh | b | some g | g]; cbn [off_space];
  intros H vals Hs; try discriminate; cbn [text shaped] in *.
- destruct l as [| x l]; [now apply IH |].
  cbn [app head_is]. now apply negb_true_iff.
- destruct sh; [| discriminate]. now apply IH.
- cbn [head_is]. now apply negb_true_iff.
- destruct vals as [| v vals]; [discriminate |].
  apply andb_true_iff in Hs. destruct Hs as [Hs Hr].
  apply andb_true_iff in Hs. destruct Hs as [Hv Hn].
  destruct v as [| a v].
  + destruct some; [discriminate |]. now apply IH.
  + cbn [app head_is]. cbn [forallb] in Hv.
    apply andb_true_iff in Hv. now apply word_not_space.
Qed.

Lemma off_word_head r :
off_word r = true ->
forall vals, head_is is_word (text r vals) = false.
Proof.
induction r as [| p r IH]; [reflexivity |].
destruct p as [l | some sh | b | some g | g]; cbn [off_word];
  intros H vals; try discriminate; cbn [text].
- destruct l as [| x l]; [now apply IH |].
  cbn [app head_is]. now apply negb_true_iff.
- destruct sh as [| x sh]; [now apply IH |].
  cbn [app head_is]. now apply negb_true_iff.
- cbn [head_is]. now apply negb_true_iff.
Qed.

Lemma skipn_length_app (l t : str) : skipn (List.length l) (l ++ t) = t.
Proof. induction l as [| x l IH]; [reflexivity | exact IH]. Qed.

(** The text of the pieces is read back to the values it was made
  of. *)
Lemma read_text ps :
sep_ok ps = true ->
forall vals c0,
  shaped ps vals = true ->
  read ps (text ps vals) c0 = Some (rev (entries ps vals) ++ c0).
Proof.
induction ps as [| p r IH]; intros H vals c0 Hs.
- reflexivity.
- destruct p as [l | some sh | b | some g | g];
    cbn [sep_ok] in H; cbn [shaped] in Hs; cbn [read text entries].
  + rewrite startswith_app, skipn_length_app. now apply IH.
  + apply andb_true_iff in H. destruct H as [H Hr].
    apply andb_true_iff in H. destruct H as [H Ho].
    apply andb_true_iff in H. destruct H as [Hsp Hne].
    pose proof (off_space_head _ Ho _ Hs) as Hh.
    destruct some.
    * destruct sh as [| x sh]; [discriminate |].
      cbn [forallb] in Hsp. apply andb_true_iff in Hsp.
      destruct Hsp as [Hx Hsh]. cbn [app]. rewrite Hx.
      rewrite (dropw_app_all _ _ _ Hsh), (dropw_head_not _ _ Hh).
      now apply IH.
    * rewrite (dropw_app_all _ _ _ Hsp), (dropw_head_not _ _ Hh).
      now apply IH.
  + rewrite chr_eqb_refl. now apply IH.
  + apply andb_true_iff in H. destruct H as [Ho Hr].
    destruct vals as [| v vals]; [discriminate |].
    apply andb_true_iff in Hs. destruct Hs as [Hs Hvs].
    apply andb_true_iff in Hs. destruct Hs as [Hv Hn].
    pose proof (off_word_head _ Ho vals) as Hh.
    rewrite (takew_app_all _ _ _ Hv), (takew_head_not _ _ Hh).
    rewrite (dropw_app_all _ _ _ Hv), (dropw_head_not _ _ Hh).
    rewrite app_nil_r. cbn [rev]. rewrite <- app_assoc. cbn [app].
    destruct some.
    * destruct v as [| a v]; [discriminate |]. now apply IH.
    * now apply IH.
  + destruct r as [| q r]; [| discriminate].
    destruct vals as [| v vals]; [discriminate |].
    apply andb_true_iff in Hs. destruct Hs as [Hv Hvs].
    destruct vals; [| discriminate].
    cbn [text read entries rev app]. rewrite app_nil_r.
    pose proof (takew_app_all not_newline v [] Hv) as T.
    pose proof (dropw_app_all not_newline v [] Hv) as D.
    rewrite app_nil_r in T, D. cbn [takew dropw] in T, D.
    rewrite T. now rewrite app_nil_r.
Qed.

(** A line found by the expression of the pieces: the groups have values
  of the shape of the pieces, and the text of these values is found
  too, with the same groups. *)
Lemma line_again ps (src : str) p :
wfp ps = true -> sep_ok ps = true ->
re_match (line_re ps) src = Some p ->
exists vals,
  shaped ps vals = true /\ p = rev (entries ps vals)
  /\ re_match (line_re ps) (text ps vals) = Some p.
Proof.
intros Hw Hk H. unfold re_match in *. rewrite read_matches in H by exact Hw.
destruct (read_entries _ _ _ _ H) as (vals & Hs & Hc).
rewrite app_nil_r in Hc. exists vals. split; [exact Hs |].
split; [exact Hc |].
rewrite read_matches by exact Hw. rewrite (read_text _ Hk _ _ Hs).
now rewrite app_nil_r, Hc.
Qed.

End LineRound.


(** ** Parsing what was written: the variants with a [parse] of their own *)

Module VariantFacts.
Import Neon NeonScan NeonLine ScanFacts LineFacts LineRound.

(** The groups of a sequence of pieces. *)
Fixpoint group_count (ps : list piece) : nat :=
match ps with
| [] => 0
| PWord _ _ :: r | PRest _ :: r => S (group_count r)
| _ :: r => group_count r
end.

Lemma shaped_length ps :
forall vals, shaped ps vals = true -> List.length vals = group_count ps.
Proof.
induction ps as [| p r IH]; intros vals H.
- destruct vals; [reflexivity | discriminate].
- destruct p as [l | some sh | b | some g | g];
    cbn [shaped group_count] in *; auto;
    (destruct vals as [| v vals]; [discriminate |]);
    apply andb_true_iff in H; destruct H as [_ H];
    cbn [List.length]; now rewrite (IH _ H).
Qed.

(** The values of the groups of a pattern, as many as it has groups. *)
Ltac values Hs :=
let Hl := fresh "Hl" in
apply shaped_length in Hs as Hl;
cbn [group_count shifted_pieces mov_imm_pieces fcsel_dform_pieces
     mov_vtox_pieces mov_xtov_pieces lane_pieces] in Hl.

End VariantFacts.

Module VariantProps.
Import Neon NeonScan NeonLine ScanFacts LineFacts LineRound VariantFacts.

(** [sub_shifted] and [add_shifted] ([mn] is the mnemonic, [sub] or
  [add]): the line that [write] makes of a parsed instruction is parsed
  again to the same object, by a new object of the class and by the
  instruction itself. *)
Theorem shifted_round_trip (mn : str) self (src : str) inst :
shifted_parse mn self src = Ok inst ->
exists out,
  shifted_write mn inst = Some out
  /\ shifted_parse mn self out = Ok inst
  /\ shifted_parse mn inst out = Ok inst.
Proof.
unfold shifted_parse. intros H.
change (shifted_re mn) with (line_re (shifted_pieces mn)) in *.
destruct (re_match (line_re (shifted_pieces mn)) src) as [p |] eqn:E;
  [| discriminate].
destruct (line_again (shifted_pieces mn) src p eq_refl eq_refl E)
  as (vals & Hs & Hp & Hr).
values Hs.
destruct vals as [| d [| s [| sh [| ? ?]]]]; try discriminate Hl.
subst p. injection H as <-.
eexists. split; [reflexivity |].
match goal with
| |- match re_match _ ?t with _ => _ end = _ /\ _ =>
    replace t with (text (shifted_pieces mn) [d; s; sh])
      by (cbn; now rewrite ?app_nil_r)
end.
rewrite Hr. split; reflexivity.
Qed.

Lemma shifted_round_trip_witness :
exists inst out,
  shifted_parse "sub" (new sub_shifted) "sub  x2 ,x3,  #16 // step" = Ok inst
  /\ shifted_write "sub" inst = Some out
  /\ shifted_parse "sub" (new sub_shifted) out = Ok inst
  /\ shifted_parse "sub" inst out = Ok inst.
Proof.
destruct (shifted_parse "sub" (new sub_shifted) "sub  x2 ,x3,  #16 // step") as [inst | |] eqn:E;
  [| vm_compute in E; discriminate | vm_compute in E; discriminate].
destruct (shifted_round_trip "sub" (new sub_shifted) "sub  x2 ,x3,  #16 // step" inst E) as (out & H).
exists inst, out. split; [reflexivity | exact H].
Defined.

(** [mov_imm]: the line that [write] makes of a parsed instruction is
  parsed again to the same object. *)
Theorem mov_imm_round_trip self (src : str) inst :
mov_imm_parse self src = Ok inst ->
exists out,
  mov_imm_write inst = Some out
  /\ mov_imm_parse self out = Ok inst
  /\ mov_imm_parse inst out = Ok inst.
Proof.
unfold mov_imm_parse. intros H.
change (mov_imm_re) with (line_re (mov_imm_pieces)) in *.
destruct (re_match (line_re (mov_imm_pieces)) src) as [p |] eqn:E;
  [| discriminate].
destruct (line_again (mov_imm_pieces) src p eq_refl eq_refl E)
  as (vals & Hs & Hp & Hr).
values Hs.
destruct vals as [| d [| i [| ? ?]]]; try discriminate Hl.
subst p. injection H as <-.
eexists. split; [reflexivity |].
match goal with
| |- match re_match _ ?t with _ => _ end = _ /\ _ =>
    replace t with (text (mov_imm_pieces) [d; i])
      by (cbn; now rewrite ?app_nil_r)
end.
rewrite Hr. split; reflexivity.
Qed.

Lemma mov_imm_round_trip_witness :
exists inst out,
  mov_imm_parse (new mov_imm) "mov   x7 ,#0x10" = Ok inst
  /\ mov_imm_write inst = Some out
  /\ mov_imm_parse (new mov_imm) out = Ok inst
  /\ mov_imm_parse inst out = Ok inst.
Proof.
destruct (mov_imm_parse (new mov_imm) "mov   x7 ,#0x10") as [inst | |] eqn:E;
  [| vm_compute in E; discriminate | vm_compute in E; discriminate].
destruct (mov_imm_round_trip (new mov_imm) "mov   x7 ,#0x10" inst E) as (out & H).
exists inst, out. split; [reflexivity | exact H].
Defined.

(** [fcsel_dform]: the line that [write] makes of a parsed instruction
  is parsed again to the same object. *)
Theorem fcsel_dform_round_trip self (src : str) inst :
fcsel_dform_parse self src = Ok inst ->
exists out,
  fcsel_dform_write inst = Some out
  /\ fcsel_dform_parse self out = Ok inst
  /\ fcsel_dform_parse inst out = Ok inst.
Proof.
unfold fcsel_dform_parse. intros H.
change (fcsel_dform_re) with (line_re (fcsel_dform_pieces)) in *.
destruct (re_match (line_re (fcsel_dform_pieces)) src) as [p |] eqn:E;
  [| discriminate].
destruct (line_again (fcsel_dform_pieces) src p eq_refl eq_refl E)
  as (vals & Hs & Hp & Hr).
values Hs.
destruct vals as [| d [| a [| b [| ? ?]]]]; try discriminate Hl.
subst p. injection H as <-.
eexists. split; [reflexivity |].
match goal with
| |- match re_match _ ?t with _ => _ end = _ /\ _ =>
    replace t with (text (fcsel_dform_pieces) [d; a; b])
      by (cbn; now rewrite ?app_nil_r)
end.
rewrite Hr. split; reflexivity.
Qed.

Lemma fcsel_dform_round_trip_witness :
exists inst out,
  fcsel_dform_parse (new fcsel_dform) "fcsel_dform  v1,v2 , v3,eq" = Ok inst
  /\ fcsel_dform_write inst = Some out
  /\ fcsel_dform_parse (new fcsel_dform) out = Ok inst
  /\ fcsel_dform_parse inst out = Ok inst.
Proof.
destruct (fcsel_dform_parse (new fcsel_dform) "fcsel_dform  v1,v2 , v3,eq") as [inst | |] eqn:E;
  [| vm_compute in E; discriminate | vm_compute in E; discriminate].
destruct (fcsel_dform_round_trip (new fcsel_dform) "fcsel_dform  v1,v2 , v3,eq" inst E) as (out & H).
exists inst, out. split; [reflexivity | exact H].
Defined.

(** [mov_vtox]: the line that [write] makes of a parsed instruction is
  parsed again to the same object. *)
Theorem mov_vtox_round_trip self (src : str) inst :
mov_vtox_parse self src = Ok inst ->
exists out,
  mov_vtox_write inst = Some out
  /\ mov_vtox_parse self out = Ok inst
  /\ mov_vtox_parse inst out = Ok inst.
Proof.
unfold mov_vtox_parse. intros H.
change (mov_vtox_re) with (line_re (mov_vtox_pieces)) in *.
destruct (re_match (line_re (mov_vtox_pieces)) src) as [p |] eqn:E;
  [| discriminate].
destruct (line_again (mov_vtox_pieces) src p eq_refl eq_refl E)
  as (vals & Hs & Hp & Hr).
values Hs.
destruct vals as [| d [| s [| i [| ? ?]]]]; try discriminate Hl.
subst p. injection H as <-.
eexists. split; [reflexivity |].
match goal with
| |- match re_match _ ?t with _ => _ end = _ /\ _ =>
    replace t with (text (mov_vtox_pieces) [d; s; i])
      by (cbn; now rewrite ?app_nil_r)
end.
rewrite Hr. split; reflexivity.
Qed.

Lemma mov_vtox_round_trip_witness :
exists inst out,
  mov_vtox_parse (new mov_vtox) "mov x3, v5 .d [ 1 ]" = Ok inst
  /\ mov_vtox_write inst = Some out
  /\ mov_vtox_parse (new mov_vtox) out = Ok inst
  /\ mov_vtox_parse inst out = Ok inst.
Proof.
destruct (mov_vtox_parse (new mov_vtox) "mov x3, v5 .d [ 1 ]") as [inst | |] eqn:E;
  [| vm_compute in E; discriminate | vm_compute in E; discriminate].
destruct (mov_vtox_round_trip (new mov_vtox) "mov x3, v5 .d [ 1 ]" inst E) as (out & H).
exists inst, out. split; [reflexivity | exact H].
Defined.

(** [mov_xtov]: the line that [write] makes of a parsed instruction is
  parsed again to the same object. *)
Theorem mov_xtov_round_trip self (src : str) inst :
mov_xtov_parse self src = Ok inst ->
exists out,
  mov_xtov_write inst = Some out
  /\ mov_xtov_parse self out = Ok inst
  /\ mov_xtov_parse inst out = Ok inst.
Proof.
unfold mov_xtov_parse. intros H.
change (mov_xtov_re) with (line_re (mov_xtov_pieces)) in *.
destruct (re_match (line_re (mov_xtov_pieces)) src) as [p |] eqn:E;
  [| discriminate].
destruct (line_again (mov_xtov_pieces) src p eq_refl eq_refl E)
  as (vals & Hs & Hp & Hr).
values Hs.
destruct vals as [| d [| i [| s [| ? ?]]]]; try discriminate Hl.
subst p. injection H as <-.
eexists. split; [reflexivity |].
match goal with
| |- match re_match _ ?t with _ => _ end = _ /\ _ =>
    replace t with (text (mov_xtov_pieces) [d; i; s])
      by (cbn; now rewrite ?app_nil_r)
end.
rewrite Hr. split; reflexivity.
Qed.

Lemma mov_xtov_round_trip_witness :
exists inst out,
  mov_xtov_parse (new mov_xtov) "mov  v5.d[1] , x3 " = Ok inst
  /\ mov_xtov_write inst = Some out
  /\ mov_xtov_parse (new mov_xtov) out = Ok inst
  /\ mov_xtov_parse inst out = Ok inst.
Proof.
destruct (mov_xtov_parse (new mov_xtov) "mov  v5.d[1] , x3 ") as [inst | |] eqn:E;
  [| vm_compute in E; discriminate | vm_compute in E; discriminate].
destruct (mov_xtov_round_trip (new mov_xtov) "mov  v5.d[1] , x3 " inst E) as (out & H).
exists inst, out. split; [reflexivity | exact H].
Defined.

(** [vins]: the line that [write] makes of a parsed instruction is parsed
  again to the same object. *)
Theorem vins_round_trip self (src : str) inst :
vins_parse self src = Ok inst ->
exists out,
  vins_write inst = Some out
  /\ vins_parse self out = Ok inst
  /\ vins_parse inst out = Ok inst.
Proof.
unfold vins_parse. intros H.
change (lane_re "vins") with (line_re (lane_pieces "vins")) in *.
destruct (re_match (line_re (lane_pieces "vins")) src) as [p |] eqn:E;
  [| discriminate].
destruct (line_again (lane_pieces "vins") src p eq_refl eq_refl E)
  as (vals & Hs & Hp & Hr).
values Hs.
destruct vals as [| d [| s [| l [| ? ?]]]]; try discriminate Hl.
subst p. injection H as <-.
eexists. split; [reflexivity |].
match goal with
| |- match re_match _ ?t with _ => _ end = _ /\ _ =>
    replace t with (text (lane_pieces "vins") [d; s; l])
      by (cbn; now rewrite ?app_nil_r)
end.
rewrite Hr. split; reflexivity.
Qed.

Lemma vins_round_trip_witness :
exists inst out,
  vins_parse (new vins) "vins   v0 , x1 ,1" = Ok inst
  /\ vins_write inst = Some out
  /\ vins_parse (new vins) out = Ok inst
  /\ vins_parse inst out = Ok inst.
Proof.
destruct (vins_parse (new vins) "vins   v0 , x1 ,1") as [inst | |] eqn:E;
  [| vm_compute in E; discriminate | vm_compute in E; discriminate].
destruct (vins_round_trip (new vins) "vins   v0 , x1 ,1" inst E) as (out & H).
exists inst, out. split; [reflexivity | exact H].
Defined.

(** [vext]: the line that [write] makes of a parsed instruction is parsed
  again to the same object. *)
Theorem vext_round_trip self (src : str) inst :
vext_parse self src = Ok inst ->
exists out,
  vext_write inst = Some out
  /\ vext_parse self out = Ok inst
  /\ vext_parse inst out = Ok inst.
Proof.
unfold vext_parse. intros H.
change (lane_re "vext") with (line_re (lane_pieces "vext")) in *.
destruct (re_match (line_re (lane_pieces "vext")) src) as [p |] eqn:E;
  [| discriminate].
destruct (line_again (lane_pieces "vext") src p eq_refl eq_refl E)
  as (vals & Hs & Hp & Hr).
values Hs.
destruct vals as [| d [| s [| l [| ? ?]]]]; try discriminate Hl.
subst p. injection H as <-.
eexists. split; [reflexivity |].
match goal with
| |- match re_match _ ?t with _ => _ end = _ /\ _ =>
    replace t with (text (lane_pieces "vext") [d; s; l])
      by (cbn; now rewrite ?app_nil_r)
end.
rewrite Hr. split; reflexivity.
Qed.

Lemma vext_round_trip_witness :
exists inst out,
  vext_parse (new vext) "vext x4, v2,  0" = Ok inst
  /\ vext_write inst = Some out
  /\ vext_parse (new vext) out = Ok inst
  /\ vext_parse inst out = Ok inst.
Proof.
destruct (vext_parse (new vext) "vext x4, v2,  0") as [inst | |] eqn:E;
  [| vm_compute in E; discriminate | vm_compute in E; discriminate].
destruct (vext_round_trip (new vext) "vext x4, v2,  0" inst E) as (out & H).
exists inst, out. split; [reflexivity | exact H].
Defined.

End VariantProps.

(** ** Pair fusion and the text of the instruction *)

Module FusionProps.
Import Neon.

(** [vins_parsing_cb] does not change what [write] makes of the
  instruction: the fused instruction is written as it was before.  And
  once it has reported a change, it reports none for the instruction
  again and leaves it as it is. *)
Theorem vins_fusion_keeps_line inst t changed inst' :
vins_parsing_cb inst t = Some (changed, inst') ->
vins_write inst' = vins_write inst
/\ (changed = true ->
    forall t', vins_parsing_cb inst' t' = Some (false, inst')).
Proof.
unfold vins_parsing_cb.
destruct (detected_vins_pair inst) as [[|] |] eqn:Ed; try discriminate.
- intros H. injection H as <- <-. split; [reflexivity | discriminate].
- destruct (find_succ _ _ inst t) as [[|] |]; try discriminate.
  + destruct (args_in_out inst) as [| a l] eqn:Ea; [discriminate |].
    intros H. injection H as <- <-. split.
    * unfold vins_write. cbn. now rewrite Ed, Ea.
    * intros _ t'. reflexivity.
  + intros H. injection H as <- <-. split; [reflexivity | discriminate].
Qed.

Lemma vins_fusion_keeps_line_witness :
exists first second inst',
  vins_parse (new vins) "vins v0, x1, 0" = Ok first
  /\ vins_parse (new vins) "vins v0, x2, 1" = Ok second
  /\ vins_parsing_cb first (mk_Node [[second]]) = Some (true, inst')
  /\ vins_write inst' = vins_write first
  /\ (true = true ->
      forall t', vins_parsing_cb inst' t' = Some (false, inst')).
Proof.
eexists. eexists. eexists.
split; [vm_compute; reflexivity |].
split; [vm_compute; reflexivity |].
match goal with
| |- ?cb = Some (true, ?i') /\ _ =>
    assert (H : cb = Some (true, i')) by (vm_compute; reflexivity)
end.
split; [exact H | exact (vins_fusion_keeps_line _ _ _ _ H)].
Defined.

(** [stack_vld2_lane_parsing_cb] does not change what [write] makes of
  the instruction, and once it has reported a change it reports none
  for the instruction again and leaves it as it is. *)
Theorem vld2_fusion_keeps_line inst t changed inst' :
stack_vld2_lane_parsing_cb inst t = Some (changed, inst') ->
stack_vld2_lane_write inst' = stack_vld2_lane_write inst
/\ (changed = true ->
    forall t', stack_vld2_lane_parsing_cb inst' t' = Some (false, inst')).
Proof.
unfold stack_vld2_lane_parsing_cb.
destruct (detected_stack_vld2_lane_pair inst) as [[|] |] eqn:Ed;
  try discriminate.
- intros H. injection H as <- <-. split; [reflexivity | discriminate].
- destruct (find_succ _ _ inst t) as [[|] |]; try discriminate.
  + destruct (args_in_out inst) as [| a [| b [| c l]]] eqn:Ea;
      try discriminate.
    intros H. injection H as <- <-. split.
    * unfold stack_vld2_lane_write. cbn. now rewrite Ed, Ea.
    * intros _ t'. reflexivity.
  + intros H. injection H as <- <-. split; [reflexivity | discriminate].
Qed.

Lemma vld2_fusion_keeps_line_witness :
exists first second inst',
  stack_vld2_lane_parse (new stack_vld2_lane)
                        "stack_vld2_lane v0, v1, x2, x3, 0, 16" = Ok first
  /\ stack_vld2_lane_parse (new stack_vld2_lane)
                           "stack_vld2_lane v0, v1, x2, x3, 1, 16"
     = Ok second
  /\ stack_vld2_lane_parsing_cb first (mk_Node [[second]])
     = Some (true, inst')
  /\ stack_vld2_lane_write inst' = stack_vld2_lane_write first
  /\ (true = true ->
      forall t',
        stack_vld2_lane_parsing_cb inst' t' = Some (false, inst')).
Proof.
eexists. eexists. eexists.
split; [vm_compute; reflexivity |].
split; [vm_compute; reflexivity |].
match goal with
| |- ?cb = Some (true, ?i') /\ _ =>
    assert (H : cb = Some (true, i')) by (vm_compute; reflexivity)
end.
split; [exact H | exact (vld2_fusion_keeps_line _ _ _ _ H)].
Defined.

End FusionProps.


(** ** The operand lists of what the parser returns *)

Module CountFacts.
Import Neon BasicParseProps ParseFacts.

(** The operand lists are as long as the object declares. *)
Definition counted (inst : Instruction) : Prop :=
List.length (args_in inst) = num_in inst
/\ List.length (args_out inst) = num_out inst
/\ List.length (args_in_out inst) = num_in_out inst.

(** [spread] on enough operands. *)
Lemma spread_counted operands upto self inst :
upto = num_in self + num_out self + num_in_out self ->
upto <= List.length operands ->
spread operands upto self = Ok inst ->
counted inst
/\ num_in inst = num_in self /\ num_out inst = num_out self
/\ num_in_out inst = num_in_out self.
Proof.
intros Hu Hl. unfold spread, counted.
cbn -[Nat.ltb Nat.eqb firstn skipn List.length Nat.sub].
destruct (0 <? num_out self) eqn:Eo;
  [| destruct (0 <? num_in_out self) eqn:Eio];
  cbn -[Nat.ltb Nat.eqb firstn skipn List.length Nat.sub];
  (match goal with
   | |- (if ?b then _ else _) = _ -> _ =>
       destruct b eqn:E; [| discriminate]
   end);
  apply Nat.eqb_eq in E; pose proof E as E';
  rewrite length_firstn, length_skipn in E';
  intros H; inversion H; subst inst;
  cbn -[Nat.ltb Nat.eqb firstn skipn List.length Nat.sub];
  try (apply Nat.ltb_lt in Eo); try (apply Nat.ltb_ge in Eo);
  try (apply Nat.ltb_lt in Eio); try (apply Nat.ltb_ge in Eio);
  repeat split; try exact E; rewrite ?length_firstn;
  cbn [List.length]; lia.
Qed.

Lemma basic_counted self src inst :
Instruction_parse self src = Ok inst ->
counted inst
/\ num_in inst = num_in self /\ num_out inst = num_out self
/\ num_in_out inst = num_in_out self.
Proof.
unfold Instruction_parse.
destruct (re_match _ (strip_comment src)) as [p |]; [| discriminate].
apply spread_counted; rewrite groups_length; lia.
Qed.

Lemma wrapper_counted offset pos self src inst :
wrapper_parse offset pos self src = Ok inst ->
counted inst
/\ num_in inst = num_in self /\ num_out inst = num_out self
/\ num_in_out inst = num_in_out self.
Proof.
unfold wrapper_parse.
destruct (re_match _ (strip_comment src)) as [p |]; [| discriminate].
match goal with
| |- match spread ?ops ?n ?s with _ => _ end = _ -> _ =>
    destruct (spread ops n s) as [j | |] eqn:E; try discriminate;
    apply spread_counted in E
end.
- destruct (nth_error (args_in j) pos); [| discriminate].
  intros H. inversion H; subst inst.
  destruct E as (E & E1 & E2 & E3).
  destruct offset; exact (conj E (conj E1 (conj E2 E3))).
- destruct offset; reflexivity.
- rewrite length_app, groups_length. lia.
Qed.

Lemma ldst_simplify_nums simplify self self' :
ldst_simplify simplify self = Ok self' ->
num_in self' = num_in self /\ num_out self' = num_out self
/\ num_in_out self' = num_in_out self.
Proof.
unfold ldst_simplify.
destruct (simplify_attr simplify (attr (increment self))); [| discriminate].
cbn [post_index set_increment].
destruct (simplify_attr simplify (attr (post_index self))); [| discriminate].
cbn [pre_index set_post_index set_increment].
destruct (simplify_attr simplify (attr (pre_index self))); [| discriminate].
intros H. inversion H; subst. repeat split.
Qed.

Lemma ldst_match_nums simplify mn self src self' gpr :
ldst_match simplify mn self src = Ok (self', gpr) ->
num_in self' = num_in self /\ num_out self' = num_out self
/\ num_in_out self' = num_in_out self.
Proof.
unfold ldst_match.
destruct (re_match (ldst_re mn) (strip_comment src)) as [p |];
  [| discriminate].
match goal with
| |- match ldst_simplify _ ?s with _ => _ end = _ -> _ =>
    destruct (ldst_simplify simplify s) as [s' | |] eqn:E;
    try discriminate
end.
intros H. inversion H; subst.
apply ldst_simplify_nums in E. destruct E as (E1 & E2 & E3).
rewrite E1, E2, E3.
destruct (str_eqb (getg p "writeback") "!");
  [| destruct (truthy _)]; repeat split.
Qed.

(** The variants with a [parse] of their own fill the lists with the
  groups of their pattern. *)
Ltac groups_counted f :=
unfold f; intros src inst;
destruct (re_match _ src) as [p |]; [| discriminate];
intros H; injection H as <-; repeat split.

Lemma stack_vld2_lane_counted :
forall src inst, stack_vld2_lane_parse (new stack_vld2_lane) src = Ok inst -> counted inst.
Proof. groups_counted stack_vld2_lane_parse. Qed.

Lemma sub_shifted_counted :
forall src inst, shifted_parse "sub" (new sub_shifted) src = Ok inst -> counted inst.
Proof. groups_counted shifted_parse. Qed.

Lemma add_shifted_counted :
forall src inst, shifted_parse "add" (new add_shifted) src = Ok inst -> counted inst.
Proof. groups_counted shifted_parse. Qed.

Lemma mov_imm_counted :
forall src inst, mov_imm_parse (new mov_imm) src = Ok inst -> counted inst.
Proof. groups_counted mov_imm_parse. Qed.

Lemma fcsel_dform_counted :
forall src inst, fcsel_dform_parse (new fcsel_dform) src = Ok inst -> counted inst.
Proof. groups_counted fcsel_dform_parse. Qed.

Lemma mov_vtox_counted :
forall src inst, mov_vtox_parse (new mov_vtox) src = Ok inst -> counted inst.
Proof. groups_counted mov_vtox_parse. Qed.

Lemma mov_xtov_counted :
forall src inst, mov_xtov_parse (new mov_xtov) src = Ok inst -> counted inst.
Proof. groups_counted mov_xtov_parse. Qed.

Lemma vins_counted :
forall src inst, vins_parse (new vins) src = Ok inst -> counted inst.
Proof. groups_counted vins_parse. Qed.

Lemma vext_counted :
forall src inst, vext_parse (new vext) src = Ok inst -> counted inst.
Proof. groups_counted vext_parse. Qed.

Lemma st4_counted :
forall src inst, st4_parse (new st4) src = Ok inst -> counted inst.
Proof. groups_counted st4_parse. Qed.

Lemma ld4_counted :
forall src inst, ld4_parse (new ld4) src = Ok inst -> counted inst.
Proof. groups_counted ld4_parse. Qed.

Lemma ld2_counted :
forall src inst, ld2_parse (new ld2) src = Ok inst -> counted inst.
Proof. groups_counted ld2_parse. Qed.

Lemma ldst_counted simplify src inst :
(x_str_parse simplify (new x_str) src = Ok inst -> counted inst)
/\ (x_ldr_parse simplify (new x_ldr) src = Ok inst -> counted inst)
/\ (x_ldr_parse simplify (new vldr) src = Ok inst -> counted inst).
Proof.
unfold x_str_parse, x_ldr_parse. split; [| split];
  (match goal with
   | |- match ldst_match _ ?mn ?s _ with _ => _ end = _ -> _ =>
       destruct (ldst_match simplify mn s src) as [[s' gpr] | |] eqn:E;
       try discriminate
   end);
  apply ldst_match_nums in E; destruct E as (E1 & E2 & E3);
  intros H; injection H as <-; unfold counted;
  cbn -[new]; rewrite E1, E2, E3; repeat split.
Qed.

Ltac by_template :=
let H := fresh "H" in
intros H; apply basic_counted in H; exact (proj1 H).

Ltac by_wrapper :=
let H := fresh "H" in
intros H; apply wrapper_counted in H; exact (proj1 H).

(** Every class of the parser. *)
Lemma class_counted simplify c src inst :
In c all_classes ->
parse simplify (new c) src = Ok inst ->
counted inst.
Proof.
unfold all_classes. intros Hc. apply in_app_or in Hc.
destruct Hc as [Hc | Hc]; [| apply subclass_counts; exact Hc].
pose proof (ldst_counted simplify src inst) as (L1 & L2 & L3).
unfold Instruction_subclasses in Hc.
destruct Hc as [<- | Hc]; [by_template |].
destruct Hc as [<- | Hc]; [by_template |].
destruct Hc as [<- | Hc]; [by_template |].
destruct Hc as [<- | Hc]; [by_template |].
destruct Hc as [<- | Hc]; [by_template |].
destruct Hc as [<- | Hc]; [by_template |].
destruct Hc as [<- | Hc]; [by_template |].
destruct Hc as [<- | Hc]; [by_template |].
destruct Hc as [<- | Hc]; [by_template |].
destruct Hc as [<- | Hc]; [by_template |].
destruct Hc as [<- | Hc]; [by_template |].
destruct Hc as [<- | Hc]; [by_template |].
destruct Hc as [<- | Hc]; [by_template |].
destruct Hc as [<- | Hc]; [apply stack_vld2_lane_counted |].
destruct Hc as [<- | Hc]; [by_template |].
destruct Hc as [<- | Hc]; [apply sub_shifted_counted |].
destruct Hc as [<- | Hc]; [apply add_shifted_counted |].
destruct Hc as [<- | Hc]; [by_template |].
destruct Hc as [<- | Hc]; [apply mov_imm_counted |].
destruct Hc as [<- | Hc]; [apply fcsel_dform_counted |].
destruct Hc as [<- | Hc]; [apply mov_vtox_counted |].
destruct Hc as [<- | Hc]; [apply mov_xtov_counted |].
destruct Hc as [<- | Hc]; [by_wrapper |].
destruct Hc as [<- | Hc]; [by_wrapper |].
destruct Hc as [<- | Hc]; [by_wrapper |].
destruct Hc as [<- | Hc]; [by_wrapper |].
destruct Hc as [<- | Hc]; [exact L1 |].
destruct Hc as [<- | Hc]; [exact L2 |].
destruct Hc as [<- | Hc]; [intros H; change (@ParsingException Instruction = Ok inst) in H;
  discriminate H |].
destruct Hc as [<- | Hc]; [exact L3 |].
destruct Hc as [<- | Hc]; [apply vins_counted |].
destruct Hc as [<- | Hc]; [apply vext_counted |].
destruct Hc as [<- | Hc]; [apply st4_counted |].
destruct Hc as [<- | Hc]; [apply ld4_counted |].
destruct Hc as [<- | Hc]; [apply ld2_counted |].
destruct Hc.
Qed.

(** The loop of the parser. *)
Lemma parse_each_counted simplify src :
forall classes insts,
  (forall c, In c classes -> In c all_classes) ->
  parse_each simplify classes src = Ok insts ->
  Forall counted insts.
Proof.
induction classes as [| c cs IH]; intros insts Hin H; cbn [parse_each] in H.
- injection H as <-. constructor.
- destruct (parse simplify (new c) src) as [inst | |] eqn:E;
    try discriminate.
  + destruct (parse_each simplify cs src) as [l | |] eqn:El;
      try discriminate.
    injection H as <-. constructor.
    * apply (class_counted simplify c src inst); [| exact E].
      apply Hin. now left.
    * apply IH; [| reflexivity]. intros c' Hc'. apply Hin. now right.
  + apply IH; [| exact H]. intros c' Hc'. apply Hin. now right.
Qed.

End CountFacts.

Module CountProps.
Import Neon CountFacts.

(** Every object that [Instruction.parser] returns for a line has as
  many operands as it declares: [args_in], [args_out] and
  [args_in_out] hold [num_in], [num_out] and [num_in_out] operands,
  whichever of the classes made it. *)
Theorem parser_operand_counts simplify src insts :
parser simplify src = Ok insts ->
Forall (fun inst =>
          List.length (args_in inst) = num_in inst
          /\ List.length (args_out inst) = num_out inst
          /\ List.length (args_in_out inst) = num_in_out inst) insts.
Proof.
unfold parser. intros H.
destruct (parse_each simplify all_classes src) as [l | |] eqn:E;
  try discriminate.
apply parse_each_counted in E; [| auto].
destruct l; [discriminate |]. injection H as <-. exact E.
Qed.

Lemma parser_operand_counts_witness :
exists insts,
  parser keep "ldr x0, [x1]" = Ok insts
  /\ Forall (fun inst =>
               List.length (args_in inst) = num_in inst
               /\ List.length (args_out inst) = num_out inst
               /\ List.length (args_in_out inst) = num_in_out inst) insts.
Proof.
destruct (parser keep "ldr x0, [x1]") as [insts | |] eqn:E;
  [| vm_compute in E; discriminate | vm_compute in E; discriminate].
exists insts. split; [reflexivity |].
exact (parser_operand_counts keep "ldr x0, [x1]" insts E).
Defined.

End CountProps.
